(** * glogg filter sets: a shallow embedding of filterset.{h,cpp} and of the
      bookkeeping of filtersdialog.cpp, with the properties of the design
      description checked against the code.

    Conventions of the embedding.
    - A C++ [int] is a [Z].  Every [int] of the modelled code is a list
      size, a list index, the sentinel [-1] or a value read from the
      settings store; no arithmetic on them other than [i + 1] and [i - 1]
      occurs, so wrap-around is never reached on in-range data.
    - [QList<T>] and [std::vector<T>] are [list T], read and written through
      the [Z]-indexed accessors below.  An access outside the container is
      undefined behaviour in the source ([operator[]] asserts in debug
      builds); the model returns [None] there.
    - Qt types whose implementation is not part of the repository
      ([QRegularExpression] matching, [QVariant] string conversions, the
      auto-filter directory test) are parameters, collected in type classes.
    - Widgets ([QListWidget], icons, buttons) carry no reconciliation state
      and are left out; a widget value read by the logic (the current row of
      the loaded-filter list) is an argument of the modelled slot. *)

From stdpp Require Import base option list strings gmap pretty.
From Stdlib Require Import ZArith Lia Ascii String.

Local Open Scope string_scope.
Local Open Scope Z_scope.
Local Open Scope list_scope.

(** ** Containers indexed by [int] *)

Section ZList.
Context {A : Type}.

(** [l[i]] for a C++ [int] index; [None] outside [0 <= i < size]. *)
Definition at_ (l : list A) (i : Z) : option A :=
  if decide (0 <= i) then l !! Z.to_nat i else None.

(** [l[i] = x]; only meaningful when [at_ l i] is [Some]. *)
Definition set_at (l : list A) (i : Z) (x : A) : list A :=
  if decide (0 <= i) then <[Z.to_nat i := x]> l else l.

Definition size (l : list A) : Z := Z.of_nat (List.length l).

End ZList.

(** ** QRegularExpression, as far as the filter code uses it *)

(** [QRegularExpression::PatternOption] flag values (qregularexpression.h). *)
Definition CaseInsensitiveOption : Z := 0x0001.
Definition UseUnicodePropertiesOption : Z := 0x0040.
Definition OptimizeOnFirstUsageOption : Z := 0x0080.
Definition NoPatternOption : Z := 0.

(** [QFlags::testFlag]: [(i & f) == f && (f != 0 || i == f)]. *)
Definition testFlag (options flag : Z) : bool :=
  (Z.land options flag =? flag) && (negb (flag =? 0) || (options =? flag)).

Record QRegularExpression := mkRegExp {
  re_pattern : string;
  re_options : Z
}.

(** A default-constructed [QRegularExpression]: empty pattern, no option. *)
Definition QRegularExpression_default : QRegularExpression :=
  mkRegExp "" NoPatternOption.

(** [QRegularExpression::operator==]: same pattern string and same pattern
    options. *)
Definition QRegularExpression_eq (a b : QRegularExpression) : bool :=
  bool_decide (re_pattern a = re_pattern b) && (re_options a =? re_options b).

(** The matcher capability.  [regex_hasMatch re s] is
    [re.match(s).hasMatch()]; [regex_isValid re] is [re.isValid()].
    Qt documents that matching with an invalid expression yields an invalid
    match object, for which [hasMatch()] is false; that is the one law the
    filter code relies on. *)
Class RegexEngine := {
  regex_isValid : QRegularExpression -> bool;
  regex_hasMatch : QRegularExpression -> string -> bool;
  regex_invalid_no_match :
    forall re s, regex_isValid re = false -> regex_hasMatch re s = false
}.

(** getPatternOptions (filterset.cpp) *)
Definition getPatternOptions (ignoreCase : bool) : Z :=
  let options := Z.lor UseUnicodePropertiesOption OptimizeOnFirstUsageOption in
  if ignoreCase then Z.lor options CaseInsensitiveOption else options.

(** ** class Filter *)

(** [enabled_] is left uninitialised by the default constructor and is
    never read; [None] stands for that indeterminate value. *)
Record Filter := mkFilter {
  regexp_ : QRegularExpression;
  foreColorName_ : string;
  backColorName_ : string;
  enabled_ : option bool;
  origin_ : Z;
  loaded_offset_ : Z
}.

(** Filter::Filter() *)
Definition Filter_default : Filter :=
  mkFilter QRegularExpression_default "" "" None (-1) (-1).

(** Filter::Filter( pattern, ignoreCase, foreColorName, backColorName,
    origin, loaded_offset ) *)
Definition Filter_new (pattern : string) (ignoreCase : bool)
    (foreColorName backColorName : string) (origin loaded_offset : Z) : Filter :=
  mkFilter (mkRegExp pattern (getPatternOptions ignoreCase))
           foreColorName backColorName (Some true) origin loaded_offset.

Definition pattern (f : Filter) : string := re_pattern (regexp_ f).

Definition setPattern (p : string) (f : Filter) : Filter :=
  mkFilter (mkRegExp p (re_options (regexp_ f)))
           (foreColorName_ f) (backColorName_ f) (enabled_ f)
           (origin_ f) (loaded_offset_ f).

Definition ignoreCase (f : Filter) : bool :=
  testFlag (re_options (regexp_ f)) CaseInsensitiveOption.

Definition setIgnoreCase (b : bool) (f : Filter) : Filter :=
  mkFilter (mkRegExp (re_pattern (regexp_ f)) (getPatternOptions b))
           (foreColorName_ f) (backColorName_ f) (enabled_ f)
           (origin_ f) (loaded_offset_ f).

Definition foreColorName (f : Filter) : string := foreColorName_ f.
Definition backColorName (f : Filter) : string := backColorName_ f.

Definition setForeColor (c : string) (f : Filter) : Filter :=
  mkFilter (regexp_ f) c (backColorName_ f) (enabled_ f)
           (origin_ f) (loaded_offset_ f).

Definition setBackColor (c : string) (f : Filter) : Filter :=
  mkFilter (regexp_ f) (foreColorName_ f) c (enabled_ f)
           (origin_ f) (loaded_offset_ f).

Definition origin (f : Filter) : Z := origin_ f.
Definition loadedOffset (f : Filter) : Z := loaded_offset_ f.

Definition setOrigin (o : Z) (f : Filter) : Filter :=
  mkFilter (regexp_ f) (foreColorName_ f) (backColorName_ f) (enabled_ f)
           o (loaded_offset_ f).

Definition setLoadedOffset (o : Z) (f : Filter) : Filter :=
  mkFilter (regexp_ f) (foreColorName_ f) (backColorName_ f) (enabled_ f)
           (origin_ f) o.

(** Filter::operator== (filterset.h): the regular expression and both colour
    names; [enabled_] and [origin_] are commented out of the comparison and
    [loaded_offset_] never was part of it. *)
Definition Filter_eq (a b : Filter) : bool :=
  QRegularExpression_eq (regexp_ a) (regexp_ b)
  && bool_decide (foreColorName_ a = foreColorName_ b)
  && bool_decide (backColorName_ a = backColorName_ b).

(** Filter::operator!= *)
Definition Filter_neq (a b : Filter) : bool := negb (Filter_eq a b).

(** [QList<Filter>::operator!=], used on two filter lists by
    LoadedFilterSets::retrieveFromStorage: element-wise [operator==]. *)
Fixpoint FilterList_eq (a b : list Filter) : bool :=
  match a, b with
  | [], [] => true
  | x :: a', y :: b' => Filter_eq x y && FilterList_eq a' b'
  | _, _ => false
  end.

(** ** Matching *)

(** A [QColor], as far as the filter code determines it: either the value
    the caller passed in, or the result of [setNamedColor(name)]. *)
Inductive QColor :=
  | CallerColor (tag : Z)
  | NamedColor (name : string).

Section Matching.
Context `{RegexEngine}.

(** Filter::hasMatch *)
Definition hasMatch (f : Filter) (s : string) : bool :=
  regex_hasMatch (regexp_ f) s.

(** FilterSet::matchLine.  The two [QColor*] out-parameters are returned
    next to the result; they are written only on the [return true] path. *)
Fixpoint matchLine (filterList : list Filter) (line : string)
    (foreColor backColor : QColor) : bool * QColor * QColor :=
  match filterList with
  | [] => (false, foreColor, backColor)
  | i :: rest =>
      if hasMatch i line
      then (true, NamedColor (foreColorName i), NamedColor (backColorName i))
      else matchLine rest line foreColor backColor
  end.
End Matching.

(** ** A reference matcher for a literal fragment of the pattern syntax

    Used to run the definitions on concrete patterns.  The fragment is:
    literal characters, each optionally followed by [*].  A [*] with nothing
    to repeat is a compile error, as in PCRE; patterns using any other
    metacharacter are outside the fragment and are reported invalid. *)
Module ReferenceEngine.

Inductive piece := Lit (c : ascii) | Rep (c : ascii).

Definition is_meta (c : ascii) : bool :=
  existsb (Ascii.eqb c)
    ["*"; "\"; "^"; "$"; "."; "|"; "?"; "+"; "("; ")"; "["; "]"; "{"; "}"]%char.

Fixpoint compile (p : string) : option (list piece) :=
  match p with
  | EmptyString => Some []
  | String c rest =>
      if is_meta c then None
      else match rest with
           | String "*"%char rest' => cons (Rep c) <$> compile rest'
           | _ => cons (Lit c) <$> compile rest
           end
  end.

Definition lower (c : ascii) : ascii :=
  let n := nat_of_ascii c in
  if (65 <=? n)%nat && (n <=? 90)%nat then ascii_of_nat (n + 32) else c.

Definition fold_case (ci : bool) (c : ascii) : ascii :=
  if ci then lower c else c.

Definition same (ci : bool) (c d : ascii) : bool :=
  Ascii.eqb (fold_case ci c) (fold_case ci d).

(** Does some prefix of [s] match the pieces? *)
Fixpoint match_here (ci : bool) (ps : list piece) (s : string) : bool :=
  match ps with
  | [] => true
  | Lit c :: ps' =>
      match s with
      | String d s' => same ci c d && match_here ci ps' s'
      | EmptyString => false
      end
  | Rep c :: ps' =>
      (fix star (s : string) : bool :=
         match_here ci ps' s
         || match s with
            | String d s' => same ci c d && star s'
            | EmptyString => false
            end) s
  end.

(** Unanchored search: a match may start at any offset. *)
Fixpoint search (ci : bool) (ps : list piece) (s : string) : bool :=
  match_here ci ps s
  || match s with
     | String _ s' => search ci ps s'
     | EmptyString => false
     end.

Definition isValid (re : QRegularExpression) : bool :=
  bool_decide (is_Some (compile (re_pattern re))).

Definition run (re : QRegularExpression) (s : string) : bool :=
  match compile (re_pattern re) with
  | Some ps => search (testFlag (re_options re) CaseInsensitiveOption) ps s
  | None => false
  end.

#[export] Instance engine : RegexEngine.
Proof.
  refine {| regex_isValid := isValid; regex_hasMatch := run |}.
  unfold isValid, run. intros re s Hf.
  destruct (compile (re_pattern re)); [|reflexivity].
  apply bool_decide_eq_false in Hf. destruct Hf. eauto.
Defined.

End ReferenceEngine.

(** ** QVariant and QSettings

    The settings store is a key/value map.  A key of Qt is a path of names
    separated by ['/'], and an array element [i] of Qt adds the path
    component [i + 1]; the model keeps the components apart instead of
    joining them into one string.  Values keep the type they were written
    with, as a [QSettings] object holds them. *)

Inductive KeyPart :=
  | KName (s : string)
  | KIndex (n : Z).

#[global] Instance KeyPart_eq_dec : EqDecision KeyPart.
Proof. solve_decision. Defined.

#[global] Instance KeyPart_countable : Countable KeyPart.
Proof.
  refine (inj_countable'
            (fun k => match k with KName s => inl s | KIndex n => inr n end)
            (fun x => match x with inl s => KName s | inr n => KIndex n end) _).
  intros []; reflexivity.
Defined.

Abbreviation Key := (list KeyPart).

(** The legacy (<= 0.8.2) blob: what [operator<<( QDataStream&, Filter )]
    writes for each filter, in that order. *)
Abbreviation LegacyFilter := (QRegularExpression * string * string)%type.

Inductive QVariant :=
  | VInvalid
  | VString (s : string)
  | VInt (n : Z)
  | VBool (b : bool)
  | VFilterSet (l : list LegacyFilter).

Abbreviation Store := (gmap Key QVariant).

(** Conversions of a [QString] held in a [QVariant]; Qt code outside the
    repository. *)
Class QtConversions := {
  QString_toInt : string -> Z;
  QString_toBool : string -> bool
}.

Definition toString (v : QVariant) : string :=
  match v with
  | VString s => s
  | VInt n => pretty n
  | VBool b => if b then "true" else "false"
  | VInvalid | VFilterSet _ => ""
  end.

Definition toInt `{QtConversions} (v : QVariant) : Z :=
  match v with
  | VInt n => n
  | VBool b => if b then 1 else 0
  | VString s => QString_toInt s
  | VInvalid | VFilterSet _ => 0
  end.

Definition toBool `{QtConversions} (v : QVariant) : bool :=
  match v with
  | VBool b => b
  | VInt n => negb (n =? 0)
  | VString s => QString_toBool s
  | VInvalid | VFilterSet _ => false
  end.

Definition isValid (v : QVariant) : bool :=
  match v with VInvalid => false | _ => true end.

(** [v == n] for a [QVariant] and an [int] ([QVariant::cmp]): numeric types
    compare as numbers, a string compares with the printed number. *)
Definition QVariant_eq_int (v : QVariant) (n : Z) : bool :=
  match v with
  | VInt m => m =? n
  | VBool b => (if b then 1 else 0) =? n
  | VString s => bool_decide (s = pretty n)
  | VInvalid | VFilterSet _ => false
  end.

(** operator>>( QDataStream&, Filter& ), on one decoded tuple. *)
Definition Filter_of_legacy (this : Filter) (t : LegacyFilter) : Filter :=
  mkFilter t.1.1 t.1.2 t.2 (enabled_ this) (-1) (-1).

(** [v.value<FilterSet>()]: the decoded list, or an empty set when the
    variant holds no [FilterSet]. *)
Definition value_FilterSet (v : QVariant) : list Filter :=
  match v with
  | VFilterSet l => map (Filter_of_legacy Filter_default) l
  | _ => []
  end.

(** [QSettingsGroup] (qsettings_p.h). *)
Record QSettingsGroup := mkGroup {
  g_str : string;
  g_num : Z;
  g_maxNum : Z
}.

(** [QSettingsGroup::toString]. *)
Definition group_key (g : QSettingsGroup) : Key :=
  KName (g_str g) :: (if 0 <? g_num g then [KIndex (g_num g)] else []).

Record QSettings := mkSettings {
  s_fileName : string;
  s_store : Store;
  s_groups : list QSettingsGroup      (* the group stack, innermost first *)
}.

Definition groupPrefix (s : QSettings) : Key :=
  List.concat (map group_key (reverse (s_groups s))).

Definition names (path : list string) : Key := map KName path.

Definition actualKey (s : QSettings) (path : list string) : Key :=
  groupPrefix s ++ names path.

Definition value (s : QSettings) (path : list string) (defaultValue : QVariant)
    : QVariant :=
  default defaultValue (s_store s !! actualKey s path).

Definition contains (s : QSettings) (path : list string) : bool :=
  bool_decide (is_Some (s_store s !! actualKey s path)).

Definition setValue (path : list string) (v : QVariant) (s : QSettings)
    : QSettings :=
  mkSettings (s_fileName s) (<[actualKey s path := v]> (s_store s)) (s_groups s).

(** [QSettings::remove]: the key and every sub-key; the empty key stands for
    the current group. *)
Definition remove_under (p : Key) (m : Store) : Store :=
  filter (fun kv => ~ p `prefix_of` kv.1) m.

Definition remove (path : list string) (s : QSettings) : QSettings :=
  mkSettings (s_fileName s) (remove_under (actualKey s path) (s_store s))
             (s_groups s).

Definition beginGroup (prefix : string) (s : QSettings) : QSettings :=
  mkSettings (s_fileName s) (s_store s) (mkGroup prefix 0 (-1) :: s_groups s).

Definition endGroup (s : QSettings) : QSettings :=
  mkSettings (s_fileName s) (s_store s) (tail (s_groups s)).

(** [beginWriteArray( prefix )] with the default [size = -1]: the size is
    guessed from the indices set, and a stale ["size"] entry is removed. *)
Definition beginWriteArray (prefix : string) (s : QSettings) : QSettings :=
  remove ["size"]
    (mkSettings (s_fileName s) (s_store s) (mkGroup prefix 0 0 :: s_groups s)).

Definition beginReadArray `{QtConversions} (prefix : string) (s : QSettings)
    : Z * QSettings :=
  let s' := mkSettings (s_fileName s) (s_store s)
              (mkGroup prefix 0 (-1) :: s_groups s) in
  (toInt (value s' ["size"] VInvalid), s').

(** [QSettings::setArrayIndex] with [QSettingsGroup::setArrayIndex]. *)
Definition setArrayIndex (i : Z) (s : QSettings) : QSettings :=
  match s_groups s with
  | [] => s
  | top :: rest =>
      let num := Z.max i 0 + 1 in
      let maxNum :=
        if negb (g_maxNum top =? -1) && (g_maxNum top <? num)
        then num else g_maxNum top in
      mkSettings (s_fileName s) (s_store s)
                 (mkGroup (g_str top) num maxNum :: rest)
  end.

(** [QSettings::endArray]: pops the group and, for an array whose size was
    guessed, writes ["<name>/size"]. *)
Definition endArray (s : QSettings) : QSettings :=
  match s_groups s with
  | [] => s
  | group :: rest =>
      let s' := mkSettings (s_fileName s) (s_store s) rest in
      if negb (g_maxNum group =? -1)
      then setValue [g_str group; "size"] (VInt (g_maxNum group)) s'
      else s'
  end.

(** ** The loaded filter sets and the world the storage code runs in *)

(** struct NamedFilterSet; a [FilterSet] is its [filterList]. *)
Record NamedFilterSet := mkNamed {
  filename : string;
  set : list Filter;
  missing : bool
}.

Inductive LogLevel := logERROR | logWARNING.

(** One piece of a [LOG(level) << ... << ...] line. *)
Inductive LogPart :=
  | Txt (s : string)
  | Num (n : Z).

Abbreviation LogEntry := (LogLevel * list LogPart)%type.

(** What the storage code reads and writes besides its arguments:
    - [registry]: [Persistent<LoadedFilterSets>( "loadedFilterSets" )
      ->namedFilterSets], the process-wide singleton;
    - [files]: the [IniFormat] files by name ([QFile::exists] is presence);
    - [log]: the lines logged at warning or error level, oldest first;
    - [replies], [asked]: the answers the user gives to successive
      [QMessageBox::question] prompts ([true] is [Yes]) and the files asked
      about so far. *)
Record World := mkWorld {
  registry : list NamedFilterSet;
  files : gmap string Store;
  log : list LogEntry;
  replies : nat -> bool;
  asked : list string
}.

(** Computations over the world.  [None] means that the run has no defined
    result: the source has undefined behaviour there (a failed assertion, an
    access outside a container), or the fuel of a nested file load ran
    out. *)
Definition M (A : Type) : Type := World -> option (A * World).

Definition ret {A} (a : A) : M A := fun w => Some (a, w).

Definition bind {A B} (c : M A) (k : A -> M B) : M B :=
  fun w => match c w with
           | Some (a, w') => k a w'
           | None => None
           end.

Definition undefined {A} : M A := fun _ => None.

Declare Scope world_scope.
Delimit Scope world_scope with world.
Notation "x <- c ;; k" := (bind c (fun x => k))
  (at level 100, c at next level, right associativity) : world_scope.
Notation "c ;;; k" := (bind c (fun _ => k))
  (at level 100, right associativity) : world_scope.

Definition get_registry : M (list NamedFilterSet) :=
  fun w => Some (registry w, w).

Definition put_registry (r : list NamedFilterSet) : M unit :=
  fun w => Some (tt, mkWorld r (files w) (log w) (replies w) (asked w)).

Definition LOG (level : LogLevel) (parts : list LogPart) : M unit :=
  fun w => Some (tt, mkWorld (registry w) (files w) (log w ++ [(level, parts)])
                             (replies w) (asked w)).

(** [QFile::exists]. *)
Definition QFile_exists (name : string) : M bool :=
  fun w => Some (bool_decide (is_Some (files w !! name)), w).

(** [QSettings settings{ name, QSettings::IniFormat }]. *)
Definition QSettings_open (name : string) : M QSettings :=
  fun w => Some (mkSettings name (default empty (files w !! name)) [], w).

(** [QSettings::sync], also run by the destructor. *)
Definition QSettings_sync (s : QSettings) : M unit :=
  fun w => Some (tt, mkWorld (registry w) (<[s_fileName s := s_store s]> (files w))
                             (log w) (replies w) (asked w)).

(** [QMessageBox::question( ..., Yes | No, Yes ) == QMessageBox::Yes] for
    the prompt about [file]. *)
Definition QMessageBox_question (file : string) : M bool :=
  fun w => Some (replies w (List.length (asked w)),
                 mkWorld (registry w) (files w) (log w) (replies w)
                         (asked w ++ [file])).

(** Writes to one entry of the registry ([namedSet.set = ...],
    [namedSet.missing = ...] through a reference to [registry[i]]). *)
Definition with_set (l : list Filter) (n : NamedFilterSet) : NamedFilterSet :=
  mkNamed (filename n) l (missing n).

Definition with_missing (b : bool) (n : NamedFilterSet) : NamedFilterSet :=
  mkNamed (filename n) (set n) b.

Definition registry_at (i : Z) : M NamedFilterSet :=
  fun w => match at_ (registry w) i with
           | Some n => Some (n, w)
           | None => None
           end.

Definition registry_update (i : Z) (f : NamedFilterSet -> NamedFilterSet)
    : M unit :=
  (n <- registry_at i ;;
   r <- get_registry ;;
   put_registry (set_at r i (f n)))%world.

(** ** filterset.cpp: persistence *)

Definition FILTERSET_VERSION : Z := 1.
Definition LOADED_FILTERSET_VERSION : Z := 1.

(** The auto-filter directory ([autoFilterDir()]), outside the repository:
    - [in_autoFilterDir name]:
      [QFileInfo{ name }.absoluteDir() == autoFilterDir().absolutePath()];
    - [nameFilter_match name]: one of [autoFilterDir().nameFilters()] (the
      wildcard ["*.conf"]) matches [QFileInfo{ name }.fileName()] exactly;
    - [autoFilterDir_entries files]: the paths [QDirIterator{ autoFilterDir() }]
      yields, in its order, for the given files. *)
Class AutoFilterDir := {
  in_autoFilterDir : string -> bool;
  nameFilter_match : string -> bool;
  autoFilterDir_entries : gmap string Store -> list string
}.

(** Filter::saveToStorage *)
Definition Filter_saveToStorage (this : Filter) (settings : QSettings)
    (origin : bool) : M QSettings :=
  let settings := setValue ["regexp"] (VString (re_pattern (regexp_ this))) settings in
  let settings :=
    setValue ["ignore_case"]
      (VBool (testFlag (re_options (regexp_ this)) CaseInsensitiveOption)) settings in
  let settings := setValue ["fore_colour"] (VString (foreColorName_ this)) settings in
  let settings := setValue ["back_colour"] (VString (backColorName_ this)) settings in
  if origin then
    (settings <-
       (if negb (origin_ this =? -1) then
          loadedFilterSet <- get_registry ;;
          match at_ loadedFilterSet (origin_ this) with
          | Some namedSet =>
              ret (setValue ["origin"] (VString (filename namedSet)) settings)
          | None => undefined
          end
        else ret (setValue ["origin"] (VString "") settings)) ;;
     ret (setValue ["loaded_offset"] (VInt (loaded_offset_ this)) settings))%world
  else ret settings.

(** The loop of FilterSet::saveToStorage, from index [i] on. *)
Fixpoint FilterSet_save_loop (filterList : list Filter) (i : Z)
    (settings : QSettings) (origin : bool) : M QSettings :=
  match filterList with
  | [] => ret settings
  | f :: rest =>
      (settings <- Filter_saveToStorage f (setArrayIndex i settings) origin ;;
       FilterSet_save_loop rest (i + 1) settings origin)%world
  end.

(** FilterSet::saveToStorage *)
Definition FilterSet_saveToStorage (filterList : list Filter)
    (settings : QSettings) (origin : bool) : M QSettings :=
  let settings := beginGroup "FilterSet" settings in
  let settings := remove [] settings in
  let settings := setValue ["version"] (VInt FILTERSET_VERSION) settings in
  let settings := beginWriteArray "filters" settings in
  (settings <- FilterSet_save_loop filterList 0 settings origin ;;
   ret (endGroup (endArray settings)))%world.

Section Retrieve.
Context `{QtConversions}.

(** [set->retrieveFromStorage( missing_settings )], the nested load of a
    filter file that exists but is not in the registry. *)
Variable load : QSettings -> M (list Filter * QSettings).

(** The search loop of Filter::retrieveFromStorage over
    [loadedFilterSet->namedFilterSets]: the value of [i] when the loop is
    left, and the entry at which it broke out. *)
Fixpoint find_origin_file (sets : list NamedFilterSet) (origin_file : string)
    (i : Z) : Z * option NamedFilterSet :=
  match sets with
  | [] => (i, None)
  | namedSet :: rest =>
      if bool_decide (filename namedSet = origin_file)
      then (i, Some namedSet)
      else find_origin_file rest origin_file (i + 1)
  end.

(** Lines 243-271: binds [origin_], [set] and [missing].  [set] is the
    registry index the pointer refers to, [None] for [nullptr].  The
    references [namedSet] and [set] point into the [std::vector] of the
    registry and stay valid only while the vector does not grow.  A nested
    load that itself registers a further file ([emplace_back] at line 256,
    which may reallocate the vector and leave [namedSet], [set] and the
    [this] of the nested call dangling at lines 264, 265 and 312), or that
    wrote, through a filter naming [origin_file] itself, into the entry
    under construction, is outside the model ([undefined]). *)
Definition bind_origin (this_origin : Z) (origin_file : string) (origin : Z)
    : M (Z * option Z * bool) :=
  (loadedFilterSet <- get_registry ;;
   let found := find_origin_file loadedFilterSet origin_file 0 in
   let i := found.1 in
   let origin_ := match found.2 with Some _ => i | None => this_origin end in
   let set_ := match found.2 with Some _ => Some i | None => None end in
   let missing_ := from_option missing false found.2 in
   if (origin <? 0) && negb (bool_decide (is_Some set_)) then
     put_registry (loadedFilterSet ++ [mkNamed origin_file [] true]) ;;;
     file_exists <- QFile_exists origin_file ;;
     if file_exists : bool then
       LOG logWARNING [Txt "Filter file "; Txt origin_file; Txt " not loaded."] ;;;
       missing_settings <- QSettings_open origin_file ;;
       loaded <- load missing_settings ;;
       grown <- get_registry ;;
       if negb (size grown =? size loadedFilterSet + 1) then undefined
       else
         namedSet <- registry_at i ;;
         match set namedSet with
         | [] =>
             registry_update i (with_set loaded.1) ;;;
             registry_update i (with_missing false) ;;;
             QSettings_sync loaded.2 ;;;
             ret (i, Some i, false)
         | _ :: _ => undefined
         end
     else
       LOG logERROR [Txt "Cannot find "; Txt origin_file; Txt "; adding dummy"] ;;;
       ret (i, Some i, true)
   else ret (origin_, set_, missing_))%world.

(** The placeholders pushed by the [for] loop of lines 279-281. *)
Definition placeholders (origin_ from to : Z) : list Filter :=
  map (fun i => Filter_new "" false "black" "black" origin_ i)
      (seqZ from (to - from)).

(** Lines 272-287: [this] is hosted in the missing set. *)
Definition host_in_missing (this : Filter) (set_ : option Z) : M unit :=
  match set_ with
  | None => undefined                                   (* assert( set ) *)
  | Some si =>
      (namedSet <- registry_at si ;;
       let filterList := set namedSet in
       if loaded_offset_ this =? -1 then ret tt
       else if size filterList <=? loaded_offset_ this then
         registry_update si
           (with_set (filterList
                      ++ placeholders (origin_ this) (size filterList)
                                      (loaded_offset_ this)
                      ++ [this]))
       else
         match at_ filterList (loaded_offset_ this) with
         | Some _ =>
             registry_update si
               (with_set (set_at filterList (loaded_offset_ this) this))
         | None => undefined            (* [filterList[i]] with [i < 0] *)
         end)%world
  end.

Definition drop_origin (f : Filter) : Filter :=
  setLoadedOffset (-1) (setOrigin (-1) f).

(** Lines 293-317: the [origin] argument against the stored origin and
    offset. *)
Definition check_origin (this : Filter) (set_ : option Z)
    (settings : QSettings) (origin : Z) : M Filter :=
  if 0 <=? origin then
    ((if 0 <=? origin_ this
      then LOG logWARNING [Txt "Loaded filter "; Num origin; Txt ":";
                           Txt (pattern this); Txt " with origin set to ";
                           Num (origin_ this)]
      else ret tt) ;;;
     if 0 <=? loaded_offset_ this then
       LOG logWARNING [Txt "Loaded filter "; Num origin; Txt ":";
                       Txt (pattern this); Txt " with loaded_offset set to ";
                       Num (loaded_offset_ this)] ;;;
       ret (drop_origin this)
     else ret (setOrigin origin this))%world
  else if origin_ this <? 0 then
    (if 0 <=? loaded_offset_ this then
       LOG logWARNING [Txt "Loaded filter "; Txt (s_fileName settings); Txt ":";
                       Txt (pattern this); Txt " with loaded_offset set to ";
                       Num (loaded_offset_ this)] ;;;
       ret (setLoadedOffset (-1) this)
     else ret this)%world
  else
    (invalid <-
       (if loaded_offset_ this <? 0 then ret true
        else match set_ with
             | None => undefined
             | Some si =>
                 namedSet <- registry_at si ;;
                 ret (size (set namedSet) <=? loaded_offset_ this)
             end) ;;
     if invalid : bool then
       LOG logWARNING [Txt "Loaded filter "; Num (origin_ this); Txt ":";
                       Txt (pattern this); Txt " has invalid offset ";
                       Num (loaded_offset_ this)] ;;;
       ret (drop_origin this)
     else ret this)%world.

(** The first five statements of Filter::retrieveFromStorage: the fields
    read from the store; [origin_] is not assigned yet. *)
Definition read_fields (this : Filter) (settings : QSettings) : Filter :=
  mkFilter
    (mkRegExp (toString (value settings ["regexp"] VInvalid))
              (getPatternOptions
                 (toBool (value settings ["ignore_case"] (VBool false)))))
    (toString (value settings ["fore_colour"] VInvalid))
    (toString (value settings ["back_colour"] VInvalid))
    (enabled_ this)
    (origin_ this)
    (toInt (value settings ["loaded_offset"] (VInt (-1)))).

(** Filter::retrieveFromStorage *)
Definition Filter_retrieveFromStorage_in (this : Filter) (settings : QSettings)
    (origin : Z) : M Filter :=
  let this := read_fields this settings in
  let origin_file := toString (value settings ["origin"] (VString "")) in
  (bound <-
     (if negb (bool_decide (origin_file = "")) then
        b <- bind_origin (origin_ this) origin_file origin ;;
        let this := setOrigin b.1.1 this in
        (if b.2 : bool then host_in_missing this b.1.2 else ret tt) ;;;
        ret (this, b.1.2)
      else ret (setOrigin (-1) this, None)) ;;
   check_origin bound.1 bound.2 settings origin)%world.

(** The read loop of FilterSet::retrieveFromStorage: [n] more elements,
    from index [i] on. *)
Fixpoint FilterSet_retrieve_loop (n : nat) (i : Z) (settings : QSettings)
    (origin : Z) (filterList : list Filter) : M (list Filter * QSettings) :=
  match n with
  | O => ret (filterList, settings)
  | S n' =>
      let settings := setArrayIndex i settings in
      (f <- Filter_retrieveFromStorage_in Filter_default settings origin ;;
       FilterSet_retrieve_loop n' (i + 1) settings origin (filterList ++ [f]))%world
  end.

(** FilterSet::retrieveFromStorage; returns the new [filterList] and the
    settings object as the call leaves it. *)
Definition FilterSet_retrieveFromStorage_in (settings : QSettings) (origin : Z)
    : M (list Filter * QSettings) :=
  if contains settings ["FilterSet"; "version"] then
    let settings := beginGroup "FilterSet" settings in
    (r <-
       (if QVariant_eq_int (value settings ["version"] VInvalid) FILTERSET_VERSION
        then
          let sz := beginReadArray "filters" settings in
          r <- FilterSet_retrieve_loop (Z.to_nat sz.1) 0 sz.2 origin [] ;;
          ret (r.1, endArray r.2)
        else
          LOG logERROR [Txt "Unknown version of FilterSet, ignoring it..."] ;;;
          ret ([], settings)) ;;
     ret (r.1, endGroup r.2))%world
  else
    (LOG logWARNING [Txt "Trying to import legacy (<=0.8.2) filters..."] ;;;
     let tmp_filter_set := value_FilterSet (value settings ["filterSet"] VInvalid) in
     LOG logWARNING [Txt "...imported filterset: "; Num (size tmp_filter_set);
                     Txt " elements"] ;;;
     let settings := remove ["filterSet"] settings in
     settings <- FilterSet_saveToStorage tmp_filter_set settings true ;;
     QSettings_sync settings ;;;
     ret (tmp_filter_set, settings))%world.
End Retrieve.

(** FilterSet::retrieveFromStorage( settings, origin ).  [fuel] bounds the
    depth of nested loads of unregistered filter files; each nested load
    first adds its file to the registry, so the depth is at most the number
    of files.  Calls with [0 <= origin] never load a file. *)
Fixpoint FilterSet_retrieveFromStorage `{QtConversions} (fuel : nat)
    (settings : QSettings) (origin : Z) : M (list Filter * QSettings) :=
  FilterSet_retrieveFromStorage_in
    (match fuel with
     | O => fun _ => undefined
     | S fuel' => fun s => FilterSet_retrieveFromStorage fuel' s (-1)
     end)
    settings origin.

(** The nested load available with [fuel]. *)
Definition nested_load `{QtConversions} (fuel : nat)
    : QSettings -> M (list Filter * QSettings) :=
  match fuel with
  | O => fun _ => undefined
  | S fuel' => fun s => FilterSet_retrieveFromStorage fuel' s (-1)
  end.

(** Filter::retrieveFromStorage( settings, origin ) *)
Definition Filter_retrieveFromStorage `{QtConversions} (fuel : nat)
    (this : Filter) (settings : QSettings) (origin : Z) : M Filter :=
  Filter_retrieveFromStorage_in (nested_load fuel) this settings origin.

Section LoadedFilterSets.
Context `{QtConversions} `{AutoFilterDir}.

(** The loop of LoadedFilterSets::saveToStorage. *)
Fixpoint LoadedFilterSets_save_loop (namedFilterSets : list NamedFilterSet)
    (written : Z) (settings : QSettings) : M QSettings :=
  match namedFilterSets with
  | [] => ret settings
  | namedSet :: rest =>
      if in_autoFilterDir (filename namedSet)
         && nameFilter_match (filename namedSet)
      then LoadedFilterSets_save_loop rest written settings
      else
        let settings := setArrayIndex written settings in
        let settings := setValue ["filename"] (VString (filename namedSet)) settings in
        (settings <- FilterSet_saveToStorage (set namedSet) settings false ;;
         LoadedFilterSets_save_loop rest (written + 1) settings)%world
  end.

(** LoadedFilterSets::saveToStorage *)
Definition LoadedFilterSets_saveToStorage (namedFilterSets : list NamedFilterSet)
    (settings : QSettings) : M QSettings :=
  let settings := beginGroup "LoadedFilterSets" settings in
  let settings := remove [] settings in
  let settings := setValue ["version"] (VInt LOADED_FILTERSET_VERSION) settings in
  let settings := beginWriteArray "sets" settings in
  (settings <- LoadedFilterSets_save_loop namedFilterSets 0 settings ;;
   ret (endGroup (endArray settings)))%world.

(** One round of the read loop of LoadedFilterSets::retrieveFromStorage,
    for array element [i]; returns the settings object and the new value
    of [sync]. *)
Definition LoadedFilterSets_retrieve_one (fuel : nat) (i : Z)
    (settings : QSettings) (sync : bool) : M (QSettings * bool) :=
  (namedFilterSets <- get_registry ;;
   let back := size namedFilterSets in
   put_registry (namedFilterSets
                 ++ [mkNamed (toString (value settings ["filename"] VInvalid))
                             [] false]) ;;;
   stored <- FilterSet_retrieveFromStorage fuel settings i ;;
   registry_update back (with_set stored.1) ;;;
   let settings := stored.2 in
   namedSet <- registry_at back ;;
   file_exists <- QFile_exists (filename namedSet) ;;
   if file_exists : bool then
     file_settings <- QSettings_open (filename namedSet) ;;
     actual <- FilterSet_retrieveFromStorage fuel file_settings i ;;
     namedSet <- registry_at back ;;
     sync <-
       (if negb (FilterList_eq actual.1 (set namedSet)) then
          reply <- QMessageBox_question (filename namedSet) ;;
          if reply : bool then
            registry_update back (with_set actual.1) ;;;
            ret true
          else ret sync
        else ret sync) ;;
     QSettings_sync actual.2 ;;;
     ret (settings, sync)
   else
     registry_update back (with_missing true) ;;;
     ret (settings, sync))%world.

Fixpoint LoadedFilterSets_retrieve_loop (fuel : nat) (n : nat) (i : Z)
    (settings : QSettings) (sync : bool) : M (QSettings * bool) :=
  match n with
  | O => ret (settings, sync)
  | S n' =>
      (r <- LoadedFilterSets_retrieve_one fuel i (setArrayIndex i settings) sync ;;
       LoadedFilterSets_retrieve_loop fuel n' (i + 1) r.1 r.2)%world
  end.

(** The [QDirIterator] loop over the auto-filter directory. *)
Fixpoint LoadedFilterSets_auto_loop (fuel : nat) (entries : list string)
    : M unit :=
  match entries with
  | [] => ret tt
  | file :: rest =>
      (namedFilterSets <- get_registry ;;
       let back := size namedFilterSets in
       put_registry (namedFilterSets ++ [mkNamed file [] false]) ;;;
       file_settings <- QSettings_open file ;;
       loaded <- FilterSet_retrieveFromStorage fuel file_settings back ;;
       registry_update back (with_set loaded.1) ;;;
       QSettings_sync loaded.2 ;;;
       LoadedFilterSets_auto_loop fuel rest)%world
  end.

(** LoadedFilterSets::retrieveFromStorage, called on the process-wide
    instance ([this->namedFilterSets] is [registry]). *)
Definition LoadedFilterSets_retrieveFromStorage (fuel : nat)
    (settings : QSettings) : M QSettings :=
  (put_registry [] ;;;
   let settings := beginGroup "LoadedFilterSets" settings in
   r <-
     (if QVariant_eq_int (value settings ["version"] VInvalid)
                         LOADED_FILTERSET_VERSION then
        let sz := beginReadArray "sets" settings in
        r <- LoadedFilterSets_retrieve_loop fuel (Z.to_nat sz.1) 0 sz.2 false ;;
        ret (endArray r.1, r.2)
      else if isValid (value settings ["version"] VInvalid) then
        LOG logERROR [Txt "Unknown version of NamedFilterSet, ignoring it..."] ;;;
        ret (settings, false)
      else ret (settings, false)) ;;
   let settings := endGroup r.1 in
   settings <-
     (if r.2 : bool then
        namedFilterSets <- get_registry ;;
        LoadedFilterSets_saveToStorage namedFilterSets settings
      else ret settings) ;;
   entries <- (fun w => Some (autoFilterDir_entries (files w), w)) ;;
   LoadedFilterSets_auto_loop fuel entries ;;;
   ret settings)%world.
End LoadedFilterSets.

(** ** filtersdialog.cpp: the bookkeeping of FiltersDialog *)

(** struct FiltersDialog::FilterRef *)
Record FilterRef := mkRef {
  loaded_index : Z;
  filter_index : Z;
  modified : bool
}.

(** FilterRef::FilterRef( loaded, filter ) *)
Definition FilterRef_new (loaded filter : Z) : FilterRef :=
  mkRef loaded filter false.

Definition isActive (r : FilterRef) : bool := 0 <=? filter_index r.

Definition with_filter_index (i : Z) (r : FilterRef) : FilterRef :=
  mkRef (loaded_index r) i (modified r).

Definition with_modified (b : bool) (r : FilterRef) : FilterRef :=
  mkRef (loaded_index r) (filter_index r) b.

(** The data members of FiltersDialog that the reconciliation code uses. *)
Record FiltersDialog := mkDialog {
  filterSet : list Filter;
  loadedFilterSets : list NamedFilterSet;
  loadedFilterRefs : list (list FilterRef)
}.

(** A [FilterRef&]: either an element [loadedFilterRefs[origin][j]], or the
    local [dummy] that on_removeFilterButton_clicked builds for a filter
    without origin. *)
Inductive RefLoc :=
  | InTable (origin j : Z)
  | Dummy (r : FilterRef).

Definition ref_at (refs : list (list FilterRef)) (origin j : Z)
    : option FilterRef :=
  row ← at_ refs origin; at_ row j.

Definition ref_update (refs : list (list FilterRef)) (origin j : Z)
    (f : FilterRef -> FilterRef) : list (list FilterRef) :=
  match at_ refs origin with
  | Some row =>
      match at_ row j with
      | Some r => set_at refs origin (set_at row j (f r))
      | None => refs
      end
  | None => refs
  end.

Definition deref (loc : RefLoc) (refs : list (list FilterRef))
    : option FilterRef :=
  match loc with
  | InTable origin j => ref_at refs origin j
  | Dummy r => Some r
  end.

(** The position at which the search loop of findLoadedFilterRef stops;
    [None] when it runs off the end of the vector. *)
Fixpoint find_filter_index (refs : list FilterRef) (index : Z) (j : Z)
    : option Z :=
  match refs with
  | [] => None
  | r :: rest =>
      if filter_index r =? index then Some j
      else find_filter_index rest index (j + 1)
  end.

(** FiltersDialog::findLoadedFilterRef; the reference returned is
    [loadedFilterRefs[origin][j]] for the result [j]. *)
Definition findLoadedFilterRef (refs : list (list FilterRef))
    (origin index : Z) : option Z :=
  row ← at_ refs origin; find_filter_index row index 0.

(** [QList::removeAt] and [QList::move] on an index in range. *)
Definition removeAt {A} (l : list A) (i : Z) : list A :=
  take (Z.to_nat i) l ++ drop (S (Z.to_nat i)) l.

Definition insertAt {A} (l : list A) (i : Z) (x : A) : list A :=
  take (Z.to_nat i) l ++ x :: drop (Z.to_nat i) l.

Definition QList_move {A} (l : list A) (from to : Z) : option (list A) :=
  x ← at_ l from;
  if decide (0 <= to < size l) then Some (insertAt (removeAt l from) to x)
  else None.

(** The pointer a branch of moveFilter looks up: [nullptr] ([Some None])
    when the filter has no origin. *)
Definition lookup_ref (refs : list (list FilterRef)) (origin index : Z)
    : option (option (Z * Z)) :=
  if 0 <=? origin
  then j ← findLoadedFilterRef refs origin index; Some (Some (origin, j))
  else Some None.

Definition assign_filter_index (p : option (Z * Z)) (i : Z)
    (refs : list (list FilterRef)) : list (list FilterRef) :=
  match p with
  | Some (origin, j) => ref_update refs origin j (with_filter_index i)
  | None => refs
  end.

(** FiltersDialog::moveFilter *)
Definition moveFilter (from to : Z) (d : FiltersDialog) : option FiltersDialog :=
  f_from ← at_ (filterSet d) from;
  f_to ← at_ (filterSet d) to;
  let from_origin := origin f_from in
  let to_origin := origin f_to in
  filterList ← QList_move (filterSet d) from to;
  from_ref ← lookup_ref (loadedFilterRefs d) from_origin from;
  to_ref ← lookup_ref (loadedFilterRefs d) to_origin to;
  let refs := assign_filter_index from_ref to (loadedFilterRefs d) in
  let refs := assign_filter_index to_ref from refs in
  Some (mkDialog filterList (loadedFilterSets d) refs).

(** The decrement loop of removeFilter. *)
Definition shift_down (k : Z) (r : FilterRef) : FilterRef :=
  if k <? filter_index r then with_filter_index (filter_index r - 1) r else r.

Definition store_ref (loc : RefLoc) (f : FilterRef -> FilterRef)
    (refs : list (list FilterRef)) : list (list FilterRef) :=
  match loc with
  | InTable origin j => ref_update refs origin j f
  | Dummy _ => refs
  end.

(** FiltersDialog::removeFilter.  The block guarded by
    [filterRef.loaded_index >= 0] only repaints widgets, but reads
    [filterSet[filterRef.filter_index]] and [loadedFilterRefs[origin]] to do
    so. *)
Definition removeFilter (loc : RefLoc) (d : FiltersDialog)
    : option FiltersDialog :=
  filterRef ← deref loc (loadedFilterRefs d);
  if negb (isActive filterRef) then None        (* assert( filterRef.isActive() ) *)
  else
    let refs := store_ref loc (with_modified false) (loadedFilterRefs d) in
    let k := filter_index filterRef in
    let refs := map (map (shift_down k)) refs in
    _ ← (if 0 <=? loaded_index filterRef
          then f ← at_ (filterSet d) k;
               _ ← at_ refs (origin f);
               Some tt
          else Some tt);
    _ ← at_ (filterSet d) k;
    let filterList := removeAt (filterSet d) k in
    let refs := store_ref loc (with_filter_index (-1)) refs in
    Some (mkDialog filterList (loadedFilterSets d) refs).

(** The three assignments to [old_filter] in on_saveChangesButton_clicked,
    and to [new_filter] in on_undoChangesButton_clicked. *)
Definition copy_style (src dst : Filter) : Filter :=
  setBackColor (backColorName src)
    (setForeColor (foreColorName src) (setPattern (pattern src) dst)).

(** The [for] loop of on_saveChangesButton_clicked over [filterRefs], on
    [namedFilterSet.set]. *)
Fixpoint saveChanges_loop (filterRefs : list FilterRef) (filterSet : list Filter)
    (set_ : list Filter) : option (list FilterRef * list Filter) :=
  match filterRefs with
  | [] => Some ([], set_)
  | filterRef :: rest =>
      if isActive filterRef then
        old_filter ← at_ set_ (loaded_index filterRef);
        new_filter ← at_ filterSet (filter_index filterRef);
        r ← saveChanges_loop rest filterSet
               (set_at set_ (loaded_index filterRef)
                       (copy_style new_filter old_filter));
        Some (with_modified false filterRef :: r.1, r.2)
      else
        r ← saveChanges_loop rest filterSet set_;
        Some (filterRef :: r.1, r.2)
  end.

Definition FILTERFILE_VERSION : Z := 1.

Definition lift {A} (o : option A) : M A :=
  fun w => match o with Some a => Some (a, w) | None => None end.

(** FiltersDialog::on_saveChangesButton_clicked; [row] is
    [loadedFilterListWidget->currentRow()], and the text of the current item
    of that widget is the file name of [loadedFilterSets[row]]. *)
Definition on_saveChangesButton_clicked (row : Z) (d : FiltersDialog)
    : M FiltersDialog :=
  if row <? 0 then ret d
  else
    (filterRefs <- lift (at_ (loadedFilterRefs d) row) ;;
     namedFilterSet <- lift (at_ (loadedFilterSets d) row) ;;
     r <- lift (saveChanges_loop filterRefs (filterSet d) (set namedFilterSet)) ;;
     let d' := mkDialog (filterSet d)
                 (set_at (loadedFilterSets d) row (with_set r.2 namedFilterSet))
                 (set_at (loadedFilterRefs d) row r.1) in
     settings <- QSettings_open (filename namedFilterSet) ;;
     let settings := remove [] settings in
     let settings := setValue ["version"] (VInt FILTERFILE_VERSION) settings in
     settings <- FilterSet_saveToStorage (filterSet d') settings false ;;
     QSettings_sync settings ;;;
     ret d')%world.

(** The [for] loop of on_undoChangesButton_clicked over [filterRefs], on
    [filterSet]. *)
Fixpoint undoChanges_loop (filterRefs : list FilterRef) (set_ : list Filter)
    (filterSet : list Filter) : option (list FilterRef * list Filter) :=
  match filterRefs with
  | [] => Some ([], filterSet)
  | filterRef :: rest =>
      if modified filterRef then
        old_filter ← at_ set_ (loaded_index filterRef);
        new_filter ← at_ filterSet (filter_index filterRef);
        r ← undoChanges_loop rest set_
               (set_at filterSet (filter_index filterRef)
                       (copy_style old_filter new_filter));
        Some (with_modified false filterRef :: r.1, r.2)
      else
        r ← undoChanges_loop rest set_ filterSet;
        Some (filterRef :: r.1, r.2)
  end.

(** FiltersDialog::on_undoChangesButton_clicked *)
Definition on_undoChangesButton_clicked (row : Z) (d : FiltersDialog)
    : option FiltersDialog :=
  if row <? 0 then Some d
  else
    filterRefs ← at_ (loadedFilterRefs d) row;
    namedFilterSet ← at_ (loadedFilterSets d) row;
    r ← undoChanges_loop filterRefs (set namedFilterSet) (filterSet d);
    Some (mkDialog r.2 (loadedFilterSets d)
                   (set_at (loadedFilterRefs d) row r.1)).

(** FiltersDialog::updateFilterProperties, for one selected row.  The
    arguments are the widget values the slot reads: the selected row, the
    contents of the property fields, and the current row of the
    loaded-filter list ([loadedActiveFilterItem] is non-null exactly when
    that row is the origin of the edited filter). *)
Definition updateFilterProperties (selectedRow : Z) (patternText : string)
    (ignoreCaseChecked : bool) (foreColor backColor : string) (loadedRow : Z)
    (d : FiltersDialog) : option FiltersDialog :=
  f ← at_ (filterSet d) selectedRow;
  let currentFilter :=
    setBackColor backColor
      (setForeColor foreColor
         (setIgnoreCase ignoreCaseChecked (setPattern patternText f))) in
  let filterList := set_at (filterSet d) selectedRow currentFilter in
  if 0 <=? origin currentFilter then
    j ← findLoadedFilterRef (loadedFilterRefs d) (origin currentFilter) selectedRow;
    ref ← ref_at (loadedFilterRefs d) (origin currentFilter) j;
    namedFilterSet ← at_ (loadedFilterSets d) (origin currentFilter);
    loadedFilter ← at_ (set namedFilterSet) (loaded_index ref);
    let refs :=
      if Filter_neq currentFilter loadedFilter then
        ref_update (loadedFilterRefs d) (origin currentFilter) j (with_modified true)
      else if loadedRow =? origin currentFilter then
        ref_update (loadedFilterRefs d) (origin currentFilter) j (with_modified false)
      else loadedFilterRefs d in
    Some (mkDialog filterList (loadedFilterSets d) refs)
  else Some (mkDialog filterList (loadedFilterSets d) (loadedFilterRefs d)).

(** The table and the working set agree: an active reference at
    [loadedFilterRefs[o][i]] points at a working entry whose origin is [o]
    and whose offset is [i] (what populateFilterList and
    on_addLoadedFilterButton_clicked establish). *)
Definition refs_track (d : FiltersDialog) : Prop :=
  forall o i x,
    ref_at (loadedFilterRefs d) o i = Some x ->
    0 <= filter_index x ->
    exists f, at_ (filterSet d) (filter_index x) = Some f
              /\ origin f = o /\ loadedOffset f = i.

(** Row [o] of the table has one reference per filter of the loaded set
    [o], the reference at position [i] has [loaded_index = i]
    (populateLoadedFilterList, on_addFilterFile_clicked; asserted by
    updateLoadedFilterList), and only an active reference is marked modified
    (removeFilter clears the mark). *)
Definition refs_shape (d : FiltersDialog) : Prop :=
  forall o refs namedSet,
    at_ (loadedFilterRefs d) o = Some refs ->
    at_ (loadedFilterSets d) o = Some namedSet ->
    size refs = size (set namedSet)
    /\ forall i r, at_ refs i = Some r ->
                   loaded_index r = i
                   /\ (modified r = true -> 0 <= filter_index r).

(** No drift between a working entry and the rule it was imported from:
    same pattern, same foreground and same background colour. *)
Definition same_style (a b : Filter) : Prop :=
  pattern a = pattern b
  /\ foreColorName a = foreColorName b
  /\ backColorName a = backColorName b.

(** What on_saveChangesButton_clicked does to one reference. *)
Definition clear_if_active (r : FilterRef) : FilterRef :=
  if isActive r then with_modified false r else r.

(** Executable forms of [refs_track] and [refs_shape]. *)
Fixpoint all_from {A} (P : Z -> A -> bool) (i : Z) (l : list A) : bool :=
  match l with
  | [] => true
  | x :: rest => P i x && all_from P (i + 1) rest
  end.

Definition refs_track_b (d : FiltersDialog) : bool :=
  all_from
    (fun o row =>
       all_from
         (fun i x =>
            negb (0 <=? filter_index x)
            || match at_ (filterSet d) (filter_index x) with
               | Some f => (origin f =? o) && (loadedOffset f =? i)
               | None => false
               end)
         0 row)
    0 (loadedFilterRefs d).

Definition refs_shape_b (d : FiltersDialog) : bool :=
  all_from
    (fun o row =>
       match at_ (loadedFilterSets d) o with
       | Some namedSet =>
           (size row =? size (set namedSet))
           && all_from
                (fun i r =>
                   (loaded_index r =? i)
                   && (negb (modified r) || (0 <=? filter_index r)))
                0 row
       | None => true
       end)
    0 (loadedFilterRefs d).

(** Worlds that differ from [w] in the registry, or by one more log line. *)
Definition set_registry (r : list NamedFilterSet) (w : World) : World :=
  mkWorld r (files w) (log w) (replies w) (asked w).

Definition add_log (e : LogEntry) (w : World) : World :=
  mkWorld (registry w) (files w) (log w ++ [e]) (replies w) (asked w).

(** The warning of line 313. *)
Definition invalid_offset_warning (f : Filter) : LogEntry :=
  (logWARNING, [Txt "Loaded filter "; Num (origin_ f); Txt ":";
                Txt (pattern f); Txt " has invalid offset ";
                Num (loaded_offset_ f)]).

(** What Filter::retrieveFromStorage reads for the origin file and for the
    offset. *)
Definition stored_origin_file (settings : QSettings) : string :=
  toString (value settings ["origin"] (VString "")).

Definition stored_loaded_offset `{QtConversions} (settings : QSettings) : Z :=
  toInt (value settings ["loaded_offset"] (VInt (-1))).

(** ** What a store holds

    [elem_holds st E f b name]: under the element prefix [E] the store has
    the entries Filter::saveToStorage writes for [f]; with [b] the origin
    file [name] and the offset, without [b] neither key. *)
Definition elem_holds (st : Store) (E : Key) (f : Filter) (b : bool)
    (name : string) : Prop :=
  st !! (E ++ [KName "regexp"]) = Some (VString (pattern f))
  /\ st !! (E ++ [KName "ignore_case"]) = Some (VBool (ignoreCase f))
  /\ st !! (E ++ [KName "fore_colour"]) = Some (VString (foreColorName f))
  /\ st !! (E ++ [KName "back_colour"]) = Some (VString (backColorName f))
  /\ if b then
       st !! (E ++ [KName "origin"]) = Some (VString name)
       /\ st !! (E ++ [KName "loaded_offset"]) = Some (VInt (loaded_offset_ f))
     else
       st !! (E ++ [KName "origin"]) = None
       /\ st !! (E ++ [KName "loaded_offset"]) = None.

(** The file name Filter::saveToStorage writes for the origin of [f]. *)
Definition origin_name (r : list NamedFilterSet) (f : Filter) : string :=
  if origin_ f =? -1 then ""
  else from_option filename "" (at_ r (origin_ f)).

(** [holds_set st P l b r]: under the group ["FilterSet"] below prefix [P]
    the store has what FilterSet::saveToStorage writes for [l]. *)
Definition holds_set (st : Store) (P : Key) (l : list Filter) (b : bool)
    (r : list NamedFilterSet) : Prop :=
  st !! (P ++ [KName "FilterSet"; KName "version"]) = Some (VInt FILTERSET_VERSION)
  /\ st !! (P ++ [KName "FilterSet"; KName "filters"; KName "size"])
     = Some (VInt (size l))
  /\ forall i f, at_ l i = Some f ->
       elem_holds st (P ++ [KName "FilterSet"; KName "filters"; KIndex (i + 1)])
                  f b (origin_name r f).

(** A filter as it comes back from the store: the pattern options rebuilt
    from the case flag, [enabled_] not set, and the given origin and
    offset. *)
Definition reloaded (o off : Z) (f : Filter) : Filter :=
  mkFilter (mkRegExp (pattern f) (getPatternOptions (ignoreCase f)))
           (foreColorName f) (backColorName f) None o off.

(** The rules of two filters agree: pattern, case-sensitivity, colours and
    origin binding. *)
Definition same_rule (a b : Filter) : Prop :=
  pattern a = pattern b
  /\ ignoreCase a = ignoreCase b
  /\ foreColorName a = foreColorName b
  /\ backColorName a = backColorName b
  /\ origin a = origin b
  /\ loadedOffset a = loadedOffset b.

(** The registry [r'] is [r] after entries of the working set were hosted
    in it: the same entries by position, name and flag; the set of a present
    entry is unchanged, the set of a missing entry did not shrink. *)
Definition registry_hosts (r r' : list NamedFilterSet) : Prop :=
  size r' = size r
  /\ forall j n, at_ r j = Some n ->
       exists n', at_ r' j = Some n'
                  /\ filename n' = filename n
                  /\ missing n' = missing n
                  /\ size (set n) <= size (set n')
                  /\ (missing n = false -> set n' = set n).

(** The binding of a working entry is well formed with respect to the
    registry: either the entry has no origin and no offset, or its origin is
    the first entry of the registry with that (non-empty) file name and its
    offset is a position in that set, or any position when the set is
    missing. *)
Definition valid_binding (r : list NamedFilterSet) (f : Filter) : Prop :=
  (origin_ f = -1 /\ loaded_offset_ f < 0)
  \/ exists n, at_ r (origin_ f) = Some n
               /\ filename n <> ""
               /\ (forall j n', 0 <= j < origin_ f -> at_ r j = Some n' ->
                                filename n' <> filename n)
               /\ 0 <= loaded_offset_ f
               /\ (missing n = true \/ loaded_offset_ f < size (set n)).

(** A filter as it comes back with the binding it was saved with. *)
Definition reloaded_same (f : Filter) : Filter :=
  reloaded (origin_ f) (loaded_offset_ f) f.

(** The sources LoadedFilterSets::saveToStorage writes: all but those whose
    file lies in the auto-filter directory and matches its name filter. *)
Definition explicit_sets `{AutoFilterDir} (r : list NamedFilterSet)
    : list NamedFilterSet :=
  List.filter
    (fun namedSet => negb (in_autoFilterDir (filename namedSet)
                           && nameFilter_match (filename namedSet)))
    r.

(** [holds_registry st P e r]: under the group ["LoadedFilterSets"] below
    prefix [P] the store has what LoadedFilterSets::saveToStorage writes
    for the explicit sources [e]. *)
Definition holds_registry (st : Store) (P : Key) (e : list NamedFilterSet)
    (r : list NamedFilterSet) : Prop :=
  st !! (P ++ [KName "LoadedFilterSets"; KName "version"])
  = Some (VInt LOADED_FILTERSET_VERSION)
  /\ st !! (P ++ [KName "LoadedFilterSets"; KName "sets"; KName "size"])
     = Some (VInt (size e))
  /\ forall i namedSet, at_ e i = Some namedSet ->
       st !! (P ++ [KName "LoadedFilterSets"; KName "sets"; KIndex (i + 1);
                    KName "filename"])
       = Some (VString (filename namedSet))
       /\ holds_set st (P ++ [KName "LoadedFilterSets"; KName "sets";
                              KIndex (i + 1)])
                    (set namedSet) false r.

(** The file [name] exists and holds the filter set [l] in the current
    format, as a filter file does. *)
Definition file_holds (w : World) (name : string) (l : list Filter) : Prop :=
  exists st, files w !! name = Some st /\ holds_set st [] l false [].

(** The entry that one round of the read loop of
    LoadedFilterSets::retrieveFromStorage leaves at the back of the registry
    for element [i], named [name], with the stored snapshot [snap]:
    [actual] is the content of the file, [None] without a file; [reply] is
    the answer to the question, asked only when the lists differ. *)
Definition retrieved_entry (i : Z) (name : string) (snap : list Filter)
    (actual : option (list Filter)) (reply : bool) : NamedFilterSet :=
  let persisted := map (reloaded i (-1)) snap in
  match actual with
  | None => mkNamed name persisted true
  | Some l =>
      let fresh := map (reloaded i (-1)) l in
      if negb (FilterList_eq fresh persisted) && reply
      then mkNamed name fresh false
      else mkNamed name persisted false
  end.

(** The sources LoadedFilterSets::saveToStorage skips; retrieval finds
    them again through the directory iterator. *)
Definition auto_sets `{AutoFilterDir} (r : list NamedFilterSet)
    : list NamedFilterSet :=
  List.filter
    (fun namedSet => in_autoFilterDir (filename namedSet)
                     && nameFilter_match (filename namedSet))
    r.

(** A source agrees with the disk: a missing source has no file, the file
    of any other source holds its rules. *)
Definition agrees_with_file (w : World) (namedSet : NamedFilterSet) : Prop :=
  if missing namedSet then files w !! filename namedSet = None
  else file_holds w (filename namedSet) (set namedSet).

(** The sources as a retrieval puts them at positions [i], [i + 1], ... of
    the registry: every rule bound to the position of its source. *)
Fixpoint reloaded_sets (i : Z) (l : list NamedFilterSet) : list NamedFilterSet :=
  match l with
  | [] => []
  | namedSet :: rest =>
      mkNamed (filename namedSet) (map (reloaded i (-1)) (set namedSet))
              (missing namedSet)
      :: reloaded_sets (i + 1) rest
  end.

(** From position [i] on, every rule of a source is bound to the position
    of its source and has no offset, as LoadedFilterSets::retrieveFromStorage
    leaves the registry. *)
Fixpoint positioned_from (i : Z) (l : list NamedFilterSet) : Prop :=
  match l with
  | [] => True
  | namedSet :: rest =>
      Forall (fun f => origin_ f = i /\ loaded_offset_ f = -1) (set namedSet)
      /\ positioned_from (i + 1) rest
  end.

(** Two sources agree: name, missing flag, and rule by rule. *)
Definition same_source (a b : NamedFilterSet) : Prop :=
  filename a = filename b
  /\ missing a = missing b
  /\ Forall2 same_rule (set a) (set b).

(** Executable versions of [elem_holds], [holds_set], [file_holds] and
    [agrees_with_file]. *)
Definition has_string (st : Store) (k : Key) (x : string) : bool :=
  match st !! k with Some (VString y) => bool_decide (y = x) | _ => false end.

Definition has_int (st : Store) (k : Key) (x : Z) : bool :=
  match st !! k with Some (VInt y) => y =? x | _ => false end.

Definition has_bool (st : Store) (k : Key) (x : bool) : bool :=
  match st !! k with Some (VBool y) => bool_decide (y = x) | _ => false end.

Definition has_none (st : Store) (k : Key) : bool :=
  match st !! k with None => true | Some _ => false end.

Definition elem_holds_b (st : Store) (E : Key) (f : Filter) (b : bool)
    (name : string) : bool :=
  has_string st (E ++ [KName "regexp"]) (pattern f)
  && has_bool st (E ++ [KName "ignore_case"]) (ignoreCase f)
  && has_string st (E ++ [KName "fore_colour"]) (foreColorName f)
  && has_string st (E ++ [KName "back_colour"]) (backColorName f)
  && if b then
       has_string st (E ++ [KName "origin"]) name
       && has_int st (E ++ [KName "loaded_offset"]) (loaded_offset_ f)
     else
       has_none st (E ++ [KName "origin"])
       && has_none st (E ++ [KName "loaded_offset"]).

Definition holds_set_b (st : Store) (P : Key) (l : list Filter) (b : bool)
    (r : list NamedFilterSet) : bool :=
  has_int st (P ++ [KName "FilterSet"; KName "version"]) FILTERSET_VERSION
  && has_int st (P ++ [KName "FilterSet"; KName "filters"; KName "size"]) (size l)
  && all_from
       (fun i f =>
          elem_holds_b st (P ++ [KName "FilterSet"; KName "filters"; KIndex (i + 1)])
                       f b (origin_name r f))
       0 l.

Definition file_holds_b (w : World) (name : string) (l : list Filter) : bool :=
  match files w !! name with
  | Some st => holds_set_b st [] l false []
  | None => false
  end.

Definition agrees_with_file_b (w : World) (namedSet : NamedFilterSet) : bool :=
  if missing namedSet
  then bool_decide (files w !! filename namedSet = None)
  else file_holds_b w (filename namedSet) (set namedSet).

(** ** filtersdialog.cpp: construction of the table and the editing slots *)

(** The row that populateLoadedFilterList and on_addFilterFile_clicked build
    for a set of [n] filters: [{ i, -1 }] for [i < n]. *)
Definition fresh_refs (n : Z) : list FilterRef :=
  map (fun i => FilterRef_new i (-1)) (seqZ 0 n).

(** FiltersDialog::populateLoadedFilterList *)
Definition populateLoadedFilterList (d : FiltersDialog) : FiltersDialog :=
  mkDialog (filterSet d) (loadedFilterSets d)
    (loadedFilterRefs d
     ++ map (fun namedSet => fresh_refs (size (set namedSet)))
            (loadedFilterSets d)).

(** The loop of FiltersDialog::populateFilterList from the filter at index
    [k] on; [k] is [filterListWidget->count() - 1] after the item of the
    filter was added. *)
Fixpoint populateFilterList_loop (filters : list Filter) (k : Z)
    (sets : list NamedFilterSet) (table : list (list FilterRef))
    : M (list (list FilterRef)) :=
  match filters with
  | [] => ret table
  | filter :: rest =>
      if 0 <=? origin filter then
        if size sets <=? origin filter then
          (LOG logERROR [Txt "populateFilterList(): filter origin ";
                         Num (origin filter);
                         Txt " does not refer to a valid FilterSet"] ;;;
           populateFilterList_loop rest (k + 1) sets table)%world
        else
          (namedFilterSet <- lift (at_ sets (origin filter)) ;;
           let list := set namedFilterSet in
           if size list <=? loadedOffset filter then
             LOG logERROR [Txt "populateFilterList(): filter offset ";
                           Num (loadedOffset filter);
                           Txt " does not refer to a valid Filter in ";
                           Txt (filename namedFilterSet)] ;;;
             populateFilterList_loop rest (k + 1) sets table
           else
             refs <- lift (at_ table (origin filter)) ;;
             if negb (size refs =? size list) then undefined
             else
               ref <- lift (at_ refs (loadedOffset filter)) ;;
               loaded <- lift (at_ list (loadedOffset filter)) ;;
               let ref := with_filter_index k ref in
               let ref := if Filter_neq loaded filter
                          then with_modified true ref else ref in
               populateFilterList_loop rest (k + 1) sets
                 (set_at table (origin filter)
                         (set_at refs (loadedOffset filter) ref)))%world
      else populateFilterList_loop rest (k + 1) sets table
  end.

(** FiltersDialog::populateFilterList *)
Definition populateFilterList (d : FiltersDialog) : M FiltersDialog :=
  (table <- populateFilterList_loop (filterSet d) 0 (loadedFilterSets d)
                                    (loadedFilterRefs d) ;;
   ret (mkDialog (filterSet d) (loadedFilterSets d) table))%world.

(** The two calls of the constructor that build the table, on the copies
    of the persistent sets it has just taken; [loadedFilterRefs] is empty
    before. *)
Definition FiltersDialog_populate (filterSet : list Filter)
    (loadedFilterSets : list NamedFilterSet) : M FiltersDialog :=
  populateFilterList
    (populateLoadedFilterList (mkDialog filterSet loadedFilterSets [])).

Definition DEFAULT_PATTERN : string := "New Filter".
Definition DEFAULT_IGNORE_CASE : bool := false.
Definition DEFAULT_FORE_COLOUR : string := "black".
Definition DEFAULT_BACK_COLOUR : string := "white".

(** FiltersDialog::on_addFilterButton_clicked *)
Definition on_addFilterButton_clicked (d : FiltersDialog) : FiltersDialog :=
  mkDialog (filterSet d
            ++ [Filter_new DEFAULT_PATTERN DEFAULT_IGNORE_CASE
                           DEFAULT_FORE_COLOUR DEFAULT_BACK_COLOUR (-1) (-1)])
           (loadedFilterSets d) (loadedFilterRefs d).

(** One round of the [foreach] of on_removeFilterButton_clicked, for the
    selected item at row [index]. *)
Definition removeFilterButton_item (index : Z) (d : FiltersDialog)
    : option FiltersDialog :=
  filter ← at_ (filterSet d) index;
  if origin filter <? 0 then removeFilter (Dummy (FilterRef_new (-1) index)) d
  else
    j ← findLoadedFilterRef (loadedFilterRefs d) (origin filter) index;
    removeFilter (InTable (origin filter) j) d.

(** FiltersDialog::on_removeFilterButton_clicked; [rows] are the values of
    [filterListWidget->row( item )] in the successive rounds. *)
Fixpoint on_removeFilterButton_clicked (rows : list Z) (d : FiltersDialog)
    : option FiltersDialog :=
  match rows with
  | [] => Some d
  | index :: rest =>
      d' ← removeFilterButton_item index d;
      on_removeFilterButton_clicked rest d'
  end.

Fixpoint removeLoadedFilter_loop (origin : Z) (rows : list Z) (d : FiltersDialog)
    : option FiltersDialog :=
  match rows with
  | [] => Some d
  | index :: rest =>
      d' ← removeFilter (InTable origin index) d;
      removeLoadedFilter_loop origin rest d'
  end.

(** FiltersDialog::on_removeLoadedFilterButton_clicked; [origin] is
    [loadedFilterListWidget->currentRow()] and [rows] are the rows of the
    selected items of [activeFiltersListWidget]. *)
Definition on_removeLoadedFilterButton_clicked (origin : Z) (rows : list Z)
    (d : FiltersDialog) : option FiltersDialog :=
  if origin <? 0 then None                           (* assert( origin >= 0 ) *)
  else
    _ ← at_ (loadedFilterRefs d) origin;
    removeLoadedFilter_loop origin rows d.

(** FiltersDialog::on_upFilterButton_clicked; [index] is
    [filterListWidget->currentRow()]. *)
Definition on_upFilterButton_clicked (index : Z) (d : FiltersDialog)
    : option FiltersDialog :=
  if 0 <? index then moveFilter index (index - 1) d else Some d.

(** FiltersDialog::on_downFilterButton_clicked; [count] is
    [filterListWidget->count()]. *)
Definition on_downFilterButton_clicked (index count : Z) (d : FiltersDialog)
    : option FiltersDialog :=
  if (0 <=? index) && (index <? count - 1)
  then moveFilter index (index + 1) d else Some d.

(** One round of the [foreach] of on_addLoadedFilterButton_clicked, for the
    selected item at row [row] of [availableFiltersListWidget]. *)
Definition addLoadedFilter_item (origin row : Z) (d : FiltersDialog)
    : option FiltersDialog :=
  refs ← at_ (loadedFilterRefs d) origin;
  namedSet ← at_ (loadedFilterSets d) origin;
  f ← at_ (set namedSet) row;
  let filterList := filterSet d ++ [setLoadedOffset row f] in
  ref ← at_ refs row;
  Some (mkDialog filterList (loadedFilterSets d)
          (set_at (loadedFilterRefs d) origin
                  (set_at refs row
                          (with_filter_index (size filterList - 1) ref)))).

Fixpoint addLoadedFilter_loop (origin : Z) (rows : list Z) (d : FiltersDialog)
    : option FiltersDialog :=
  match rows with
  | [] => Some d
  | row :: rest =>
      d' ← addLoadedFilter_item origin row d;
      addLoadedFilter_loop origin rest d'
  end.

(** FiltersDialog::on_addLoadedFilterButton_clicked *)
Definition on_addLoadedFilterButton_clicked (origin : Z) (rows : list Z)
    (d : FiltersDialog) : option FiltersDialog :=
  if origin <? 0 then None                           (* assert( origin >= 0 ) *)
  else
    _ ← at_ (loadedFilterRefs d) origin;
    _ ← at_ (loadedFilterSets d) origin;
    addLoadedFilter_loop origin rows d.

(** The loop of on_saveToFileButton_clicked over the selected rows. *)
Fixpoint saveToFile_loop (rows : list Z) (i : Z) (filterSet : list Filter)
    (settings : QSettings) : M QSettings :=
  match rows with
  | [] => ret settings
  | selectedRow :: rest =>
      (let settings := setArrayIndex i settings in
       f <- lift (at_ filterSet selectedRow) ;;
       settings <- Filter_saveToStorage f settings false ;;
       saveToFile_loop rest (i + 1) filterSet settings)%world
  end.

(** FiltersDialog::on_saveToFileButton_clicked; [filename] is the name the
    file dialog returned and [rows] are the rows of the selected items.  The
    destructor of [settings] writes the file. *)
Definition on_saveToFileButton_clicked (filename : string) (rows : list Z)
    (d : FiltersDialog) : M unit :=
  (settings <- QSettings_open filename ;;
   let settings := remove [] settings in
   let settings := setValue ["version"] (VInt FILTERFILE_VERSION) settings in
   let settings := beginGroup "FilterSet" settings in
   let settings := setValue ["version"] (VInt FILTERSET_VERSION) settings in
   let settings := beginWriteArray "filters" settings in
   settings <- saveToFile_loop rows 0 (filterSet d) settings ;;
   let settings := endGroup (endArray settings) in
   QSettings_sync settings)%world.

(** FiltersDialog::on_addFilterFile_clicked; [filename] is the name the
    file dialog returned.  The destructor of [settings] has nothing to
    write: the retrieval only reads, or, on its legacy path, has synced
    the file itself. *)
Definition on_addFilterFile_clicked `{QtConversions} (fuel : nat)
    (filename : string) (d : FiltersDialog) : M FiltersDialog :=
  (settings <- QSettings_open filename ;;
   if contains settings ["version"] then
     if QVariant_eq_int (value settings ["version"] VInvalid) FILTERFILE_VERSION
     then
       let new_origin := size (loadedFilterSets d) in
       if negb (size (loadedFilterRefs d) =? new_origin) then undefined
       else
         loaded <- FilterSet_retrieveFromStorage fuel settings new_origin ;;
         ret (mkDialog (filterSet d)
                (loadedFilterSets d ++ [mkNamed filename loaded.1 false])
                (loadedFilterRefs d ++ [fresh_refs (size loaded.1)]))
     else
       LOG logERROR [Txt "Unknown version of FilterFile, ignoring it..."] ;;;
       ret d
   else
     LOG logERROR [Txt "Invalid FilterFile format, ignoring it..."] ;;;
     ret d)%world.

(** The [for] loop of on_removeFilterFile_clicked over the references of
    row [row], from position [i] on, with [n] references left.  Each round
    reads the reference as the rounds before have left it: removeFilter
    writes to the elements of the vector the loop runs over. *)
Fixpoint removeFilterFile_loop (row : Z) (n : nat) (i : Z) (d : FiltersDialog)
    : option FiltersDialog :=
  match n with
  | O => Some d
  | S n' =>
      filterRef ← ref_at (loadedFilterRefs d) row i;
      if isActive filterRef then
        d' ← removeFilter (InTable row i) d;
        removeFilterFile_loop row n' (i + 1) d'
      else removeFilterFile_loop row n' (i + 1) d
  end.

(** What FiltersDialog::updateLoadedFilterList reads of the data members,
    for the current row [origin], with its assertion on the two sizes; the
    rest of the function fills the two list widgets. *)
Definition updateLoadedFilterList_reads (origin : Z) (d : FiltersDialog)
    : option unit :=
  if origin <? 0 then Some tt
  else
    namedFilterSet ← at_ (loadedFilterSets d) origin;
    filterRefs ← at_ (loadedFilterRefs d) origin;
    if size (set namedFilterSet) =? size filterRefs then Some tt else None.

(** FiltersDialog::on_removeFilterFile_clicked; [row] is
    [loadedFilterListWidget->currentRow()] and [count] is
    [loadedFilterListWidget->count()] once the item of the row is deleted.
    [erase] at a position past the end is undefined. *)
Definition on_removeFilterFile_clicked (row count : Z) (d : FiltersDialog)
    : option FiltersDialog :=
  if row <? 0 then Some d
  else
    filterRefs ← at_ (loadedFilterRefs d) row;
    d ← removeFilterFile_loop row (List.length filterRefs) 0 d;
    let current := if row <? count then row else count - 1 in
    _ ← (if 0 <=? current then updateLoadedFilterList_reads current d
          else Some tt);
    if (size (loadedFilterSets d) <=? row) || (size (loadedFilterRefs d) <=? row)
    then None
    else Some (mkDialog (filterSet d)
                        (removeAt (loadedFilterSets d) row)
                        (removeAt (loadedFilterRefs d) row)).

(** Every working entry with an origin has its reference: the entry at
    index [k], bound to [(o, i)], is pointed at by [loadedFilterRefs[o][i]]
    (what findLoadedFilterRef relies on). *)
Definition refs_complete (d : FiltersDialog) : Prop :=
  forall k f,
    at_ (filterSet d) k = Some f -> 0 <= origin f ->
    exists r, ref_at (loadedFilterRefs d) (origin f) (loadedOffset f) = Some r
              /\ filter_index r = k.

(** The table has one row per loaded set. *)
Definition table_sized (d : FiltersDialog) : Prop :=
  size (loadedFilterRefs d) = size (loadedFilterSets d).

(** The state the slots of the dialog keep. *)
Definition table_consistent (d : FiltersDialog) : Prop :=
  table_sized d /\ refs_shape d /\ refs_track d /\ refs_complete d.

Definition refs_complete_b (d : FiltersDialog) : bool :=
  all_from
    (fun k f =>
       negb (0 <=? origin f)
       || match ref_at (loadedFilterRefs d) (origin f) (loadedOffset f) with
          | Some r => filter_index r =? k
          | None => false
          end)
    0 (filterSet d).

Definition table_consistent_b (d : FiltersDialog) : bool :=
  (size (loadedFilterRefs d) =? size (loadedFilterSets d))
  && refs_shape_b d && refs_track_b d && refs_complete_b d.

(** ** Sample data on which the statements below are run *)

(** A dialog with one loaded filter set, ["team.conf"], both of whose
    filters are in the working set after a local filter. *)
Definition ex_dialog : FiltersDialog :=
  mkDialog
    [ Filter_new "New Filter" false "black" "white" (-1) (-1);
      Filter_new "ERROR" false "black" "red" 0 0;
      Filter_new "WARN" false "black" "yellow" 0 1 ]
    [ mkNamed "team.conf"
        [ Filter_new "ERROR" false "black" "red" 0 (-1);
          Filter_new "WARN" false "black" "yellow" 0 (-1) ]
        false ]
    [ [ FilterRef_new 0 1; FilterRef_new 1 2 ] ].

(** The same dialog after the pattern of the first imported filter was
    edited: the entry has drifted from its rule. *)
Definition ex_drift_dialog : FiltersDialog :=
  mkDialog
    [ Filter_new "New Filter" false "black" "white" (-1) (-1);
      Filter_new "FATAL" false "black" "red" 0 0;
      Filter_new "WARN" false "black" "yellow" 0 1 ]
    (loadedFilterSets ex_dialog)
    [ [ mkRef 0 1 true; FilterRef_new 1 2 ] ].

(** A world with no loaded filter set, no file and an empty log. *)
Definition ex_world : World := mkWorld [] ∅ [] (fun _ => false) [].


(** Conversions to run the samples with: decimal digits with an optional
    sign, and Qt's rule for booleans on lower-case input. *)
Definition digit_value (c : ascii) : option Z :=
  let n := Z.of_nat (nat_of_ascii c) in
  if (48 <=? n) && (n <=? 57) then Some (n - 48) else None.

Fixpoint parse_digits (s : string) (acc : Z) : option Z :=
  match s with
  | EmptyString => Some acc
  | String c rest =>
      match digit_value c with
      | Some v => parse_digits rest (10 * acc + v)
      | None => None
      end
  end.

Definition parse_int (s : string) : Z :=
  match s with
  | EmptyString => 0
  | String "-"%char rest => default 0 (Z.opp <$> parse_digits rest 0)
  | _ => default 0 (parse_digits s 0)
  end.

#[global] Instance ex_conversions : QtConversions :=
  {| QString_toInt := parse_int;
     QString_toBool := fun s =>
       negb (bool_decide (s = "") || bool_decide (s = "0")
             || bool_decide (s = "false")) |}.

(** Settings positioned on a stored working entry bound to ["gone.conf"] at
    offset 2. *)
Definition ex_entry_settings : QSettings :=
  mkSettings "glogg.ini"
    (list_to_map
       [ ([KName "regexp"], VString "timeout");
         ([KName "ignore_case"], VBool true);
         ([KName "fore_colour"], VString "white");
         ([KName "back_colour"], VString "navy");
         ([KName "origin"], VString "gone.conf");
         ([KName "loaded_offset"], VInt 2) ])
    [].

(** The same stored entry with the offset [-2]. *)
Definition ex_negative_offset_settings : QSettings :=
  mkSettings "glogg.ini"
    (<[ [KName "loaded_offset"] := VInt (-2) ]> (s_store ex_entry_settings))
    [].

(** A registry in which ["gone.conf"] is missing and holds one rule, and
    one in which it is present with the same rule. *)
Definition ex_missing_world : World :=
  mkWorld [ mkNamed "gone.conf"
              [Filter_new "old" false "black" "white" 0 0] true ]
          ∅ [] (fun _ => false) [].

Definition ex_present_world : World :=
  mkWorld [ mkNamed "gone.conf"
              [Filter_new "old" false "black" "white" 0 (-1)] false ]
          ∅ [] (fun _ => false) [].

(** An auto-filter directory ["auto/"] with the name filter ["*.conf"];
    the directory iterator runs through the files in the order of their
    names in the file map. *)
Definition ends_with (suffix s : string) : bool :=
  let n := String.length s in
  let m := String.length suffix in
  (m <=? n)%nat && bool_decide (String.substring (n - m) m s = suffix).

#[global] Instance ex_autoFilterDir : AutoFilterDir :=
  {| in_autoFilterDir := String.prefix "auto/";
     nameFilter_match := ends_with ".conf";
     autoFilterDir_entries := fun files =>
       List.filter (fun name => String.prefix "auto/" name && ends_with ".conf" name)
                   (map fst (map_to_list files)) |}.

(** The stored form of one rule, below the element prefix [E]. *)
Definition ex_stored_rule (E : Key) (pat fore back : string)
    : list (Key * QVariant) :=
  [ (E ++ [KName "regexp"], VString pat);
    (E ++ [KName "ignore_case"], VBool false);
    (E ++ [KName "fore_colour"], VString fore);
    (E ++ [KName "back_colour"], VString back) ].

(** The stored form of a filter set with the one rule [pat], below [P]. *)
Definition ex_stored_set (P : Key) (pat fore back : string)
    : list (Key * QVariant) :=
  [ (P ++ [KName "FilterSet"; KName "version"], VInt 1);
    (P ++ [KName "FilterSet"; KName "filters"; KName "size"], VInt 1) ]
  ++ ex_stored_rule (P ++ [KName "FilterSet"; KName "filters"; KIndex 1])
                    pat fore back.

(** The application settings with one stored source, ["gone.conf"], whose
    snapshot has the rule ["ERROR"]. *)
Definition ex_registry_settings : QSettings :=
  mkSettings "glogg.ini"
    (list_to_map
       ([ ([KName "LoadedFilterSets"; KName "version"], VInt 1);
          ([KName "LoadedFilterSets"; KName "sets"; KName "size"], VInt 1);
          ([KName "LoadedFilterSets"; KName "sets"; KIndex 1; KName "filename"],
           VString "gone.conf") ]
        ++ ex_stored_set [KName "LoadedFilterSets"; KName "sets"; KIndex 1]
                         "ERROR" "white" "red"))
    [].

(** The same settings inside the read loop, positioned on source 0. *)
Definition ex_source_settings : QSettings :=
  setArrayIndex 0
    (mkSettings "glogg.ini" (s_store ex_registry_settings)
                [mkGroup "sets" 0 (-1); mkGroup "LoadedFilterSets" 0 (-1)]).

(** A disk on which ["gone.conf"] holds the rule ["FATAL"], with a user who
    declines every question. *)
Definition ex_changed_world : World :=
  mkWorld []
          {[ "gone.conf" := list_to_map (ex_stored_set [] "FATAL" "white" "red") ]}
          [] (fun _ => false) [].

(** A session with the filter file ["lib.conf"] and the file
    ["auto/site.conf"] of the auto-filter directory, one rule each. *)
Definition ex_session_world : World :=
  mkWorld
    [ mkNamed "lib.conf" [Filter_new "ERROR" false "white" "red" 0 (-1)] false;
      mkNamed "auto/site.conf" [Filter_new "WARN" false "black" "yellow" 1 (-1)]
              false ]
    {[ "lib.conf" := list_to_map (ex_stored_set [] "ERROR" "white" "red");
       "auto/site.conf" := list_to_map (ex_stored_set [] "WARN" "black" "yellow") ]}
    [] (fun _ => false) [].

(** A working set over that session: the rule of ["lib.conf"] and a rule of
    its own. *)
Definition ex_working_set : list Filter :=
  [ Filter_new "ERROR" false "white" "red" 0 0;
    Filter_new "mine" true "black" "white" (-1) (-1) ].

(** A registry in which the same file was added twice, and a working entry
    taken from the second of the two. *)
Definition ex_duplicate_world : World :=
  mkWorld
    [ mkNamed "lib.conf" [Filter_new "ERROR" false "white" "red" 0 (-1)] false;
      mkNamed "lib.conf" [Filter_new "ERROR" false "white" "red" 1 (-1)] false ]
    ∅ [] (fun _ => false) [].

Definition ex_duplicate_working_set : list Filter :=
  [ Filter_new "ERROR" false "white" "red" 1 0 ].

Definition ex_empty_settings : QSettings := mkSettings "glogg.ini" ∅ [].

(** Settings written by a release up to 0.8.2: one filter in the
    ["filterSet"] blob. *)
Definition ex_legacy_settings : QSettings :=
  mkSettings "glogg.ini"
    {[ [KName "filterSet"]
       := VFilterSet [ (mkRegExp "ERROR" NoPatternOption, "white", "red") ] ]}
    [].

(** * Properties *)

(** ** Facts on the indexed containers *)

Section ZListFacts.
Context {A : Type}.
Implicit Types (l k : list A) (i j : Z) (x : A).

Lemma at_Some_range l i x : at_ l i = Some x -> 0 <= i < size l.
Proof.
  unfold at_, size. case_decide; [|done].
  intros Hl%lookup_lt_Some. lia.
Qed.

Lemma at_in_range l i : 0 <= i < size l -> is_Some (at_ l i).
Proof.
  unfold at_, size. intros [H0 H1]. rewrite decide_True by done.
  apply lookup_lt_is_Some. lia.
Qed.

Lemma at_None_range l i : at_ l i = None -> i < 0 \/ size l <= i.
Proof.
  intros H. destruct (decide (0 <= i < size l)) as [Hr|Hr]; [|lia].
  destruct (at_in_range l i Hr) as [x Hx]. congruence.
Qed.

Lemma at_of_nat l (n : nat) : at_ l (Z.of_nat n) = l !! n.
Proof. unfold at_. rewrite decide_True by lia. by rewrite Nat2Z.id. Qed.

Lemma size_set_at l i x : size (set_at l i x) = size l.
Proof. unfold set_at, size. case_decide; [|done]. by rewrite length_insert. Qed.

Lemma at_set_at_eq l i x : 0 <= i < size l -> at_ (set_at l i x) i = Some x.
Proof.
  unfold at_, set_at, size. intros [H0 H1]. rewrite !decide_True by done.
  apply list_lookup_insert_eq. lia.
Qed.

Lemma at_set_at_ne l i j x : i <> j -> at_ (set_at l i x) j = at_ l j.
Proof.
  unfold at_, set_at. intros Hne.
  destruct (decide (0 <= j)); [|done].
  destruct (decide (0 <= i)); [|done].
  apply list_lookup_insert_ne. lia.
Qed.

Lemma at_app_l l k i : i < size l -> at_ (l ++ k) i = at_ l i.
Proof.
  unfold at_, size. intros Hi. case_decide; [|done].
  apply lookup_app_l. lia.
Qed.

Lemma at_app_r l k i : size l <= i -> at_ (l ++ k) i = at_ k (i - size l).
Proof.
  unfold at_, size. intros Hi.
  rewrite !decide_True by lia.
  rewrite lookup_app_r by lia. f_equal. lia.
Qed.

Lemma size_app l k : size (l ++ k) = size l + size k.
Proof. unfold size. rewrite length_app. lia. Qed.

Lemma size_nonneg l : 0 <= size l.
Proof. unfold size. lia. Qed.
End ZListFacts.

(** ** Matching: FilterSet::matchLine and Filter::hasMatch *)

Section MatchingFacts.
Context `{RegexEngine}.

Lemma matchLine_no_match filterList line fc bc :
  (forall f, f ∈ filterList -> hasMatch f line = false) ->
  matchLine filterList line fc bc = (false, fc, bc).
Proof.
  induction filterList as [|f rest IH]; intros Hno; simpl; [done|].
  rewrite (Hno f) by apply list_elem_of_here.
  apply IH. intros g Hg. apply Hno. by apply list_elem_of_further.
Qed.

Lemma matchLine_skip_prefix pre rest line fc bc :
  (forall f, f ∈ pre -> hasMatch f line = false) ->
  matchLine (pre ++ rest) line fc bc = matchLine rest line fc bc.
Proof.
  induction pre as [|f pre IH]; intros Hno; simpl; [done|].
  rewrite (Hno f) by apply list_elem_of_here.
  apply IH. intros g Hg. apply Hno. by apply list_elem_of_further.
Qed.

(** The index of the first filter that matches, if any. *)
Lemma first_match_cases (filterList : list Filter) line :
  (exists n f, filterList !! n = Some f /\ hasMatch f line = true
               /\ forall m g, (m < n)%nat -> filterList !! m = Some g ->
                              hasMatch g line = false)
  \/ (forall f, f ∈ filterList -> hasMatch f line = false).
Proof.
  induction filterList as [|f rest IH].
  - right. intros f Hf. by apply elem_of_nil in Hf.
  - destruct (hasMatch f line) eqn:Hf.
    + left. exists 0%nat, f. split_and!; [done|done|]. intros m g Hm. lia.
    + destruct IH as [(n & g & Hn & Hg & Hbefore)|Hnone].
      * left. exists (S n), g. split_and!; [done|done|].
        intros [|m] g' Hm Hg'; simpl in Hg'; [congruence|].
        apply (Hbefore m); [lia|done].
      * right. intros g [->|Hg]%elem_of_cons; [done|by apply Hnone].
Qed.

(** C1.  FilterSet::matchLine returns true with the colours of the
    lowest-index filter whose pattern matches the line, and false, leaving
    both colours as the caller passed them, when no filter matches; the
    empty list matches nothing.  The result does not depend on the filters
    that follow the first matching one: replacing them by any other list
    gives the same result. *)
Theorem matchLine_first_match (filterList : list Filter) (line : string)
    (fc bc : QColor) :
  ((exists n f,
      filterList !! n = Some f
      /\ hasMatch f line = true
      /\ (forall m g, (m < n)%nat -> filterList !! m = Some g ->
                      hasMatch g line = false)
      /\ matchLine filterList line fc bc
         = (true, NamedColor (foreColorName f), NamedColor (backColorName f))
      /\ forall later,
           matchLine (take (S n) filterList ++ later) line fc bc
           = matchLine filterList line fc bc)
   \/ ((forall f, f ∈ filterList -> hasMatch f line = false)
       /\ matchLine filterList line fc bc = (false, fc, bc)))
  /\ matchLine [] line fc bc = (false, fc, bc).
Proof.
  split; [|done].
  destruct (first_match_cases filterList line)
    as [(n & f & Hn & Hf & Hbefore)|Hnone].
  - left. exists n, f.
    assert (Hpre : forall g, g ∈ take n filterList -> hasMatch g line = false).
    { intros g (m & Hm)%list_elem_of_lookup_1.
      apply lookup_take_Some in Hm as [Hm Hlt]. by apply (Hbefore m). }
    assert (Hsplit : filterList = take n filterList ++ f :: drop (S n) filterList).
    { by rewrite <- (take_drop_middle _ _ _ Hn) at 1. }
    assert (Hres : forall later,
               matchLine (take n filterList ++ f :: later) line fc bc
               = (true, NamedColor (foreColorName f), NamedColor (backColorName f))).
    { intros later. rewrite matchLine_skip_prefix by done. simpl. by rewrite Hf. }
    split_and!; [done|done|done| |].
    + rewrite Hsplit at 1. apply Hres.
    + intros later. rewrite (take_S_r _ _ _ Hn), <- app_assoc. simpl.
      rewrite Hres. rewrite Hsplit at 1. by rewrite Hres.
  - right. split; [done|]. by apply matchLine_no_match.
Qed.

(** Filter::hasMatch has no guard of its own: for an invalid expression it
    is false because the matcher reports no match. *)
Lemma hasMatch_invalid f s :
  regex_isValid (regexp_ f) = false -> hasMatch f s = false.
Proof. apply regex_invalid_no_match. Qed.
End MatchingFacts.

(** With the reference matcher, the empty pattern compiles to the empty
    sequence of pieces, which matches at offset 0 of every input. *)
Lemma reference_empty_pattern_matches (re : QRegularExpression) (s : string) :
  re_pattern re = "" -> ReferenceEngine.run re s = true.
Proof.
  unfold ReferenceEngine.run. intros ->. simpl. by destruct s.
Qed.

(** C8, as stated, fails: a filter with the empty pattern matches. *)
Lemma hasMatch_empty_pattern_counterexample :
  pattern (Filter_new "" false "black" "white" (-1) (-1)) = ""
  /\ @hasMatch ReferenceEngine.engine
       (Filter_new "" false "black" "white" (-1) (-1)) "WARN: disk full" = true.
Proof. split; reflexivity. Qed.

(** C8, amended.  Filter::hasMatch is a total function that returns the
    verdict of the matcher for the rule's expression and nothing else: for
    every input it is false when the expression is invalid, and, the empty
    pattern being a valid expression that matches everywhere, it is true for
    every input when the pattern is empty. *)
Theorem hasMatch_invalid_false_empty_true (E : RegexEngine) (f : Filter)
    (s : string) :
  (regex_isValid (regexp_ f) = false -> @hasMatch E f s = false)
  /\ (pattern f = "" ->
      @regex_isValid ReferenceEngine.engine (regexp_ f) = true
      /\ @hasMatch ReferenceEngine.engine f s = true).
Proof.
  split.
  - apply hasMatch_invalid.
  - intros Hp. split.
    + unfold pattern in Hp. simpl. unfold ReferenceEngine.isValid.
      by rewrite Hp.
    + by apply reference_empty_pattern_matches.
Qed.

Lemma hasMatch_invalid_false_empty_true_witness :
  @hasMatch ReferenceEngine.engine
     (Filter_new "*" false "black" "white" (-1) (-1)) "a*b" = false
  /\ @hasMatch ReferenceEngine.engine
       (Filter_new "" true "black" "white" (-1) (-1)) "a*b" = true.
Proof.
  split.
  - apply (hasMatch_invalid_false_empty_true ReferenceEngine.engine
             (Filter_new "*" false "black" "white" (-1) (-1)) "a*b").
    reflexivity.
  - apply (hasMatch_invalid_false_empty_true ReferenceEngine.engine
             (Filter_new "" true "black" "white" (-1) (-1)) "a*b").
    reflexivity.
Defined.

(** ** Filter::operator== *)

Lemma QRegularExpression_eq_true a b :
  QRegularExpression_eq a b = true <-> a = b.
Proof.
  unfold QRegularExpression_eq. rewrite andb_true_iff, bool_decide_eq_true, Z.eqb_eq.
  destruct a, b; simpl. split; [intros [-> ->]; done|intros [=]; done].
Qed.

(** C9, as stated, fails: two filters that differ only in case-sensitivity
    are not equal. *)
Lemma Filter_eq_case_counterexample :
  Filter_eq (Filter_new "error" false "black" "red" (-1) (-1))
            (Filter_new "error" true "black" "red" (-1) (-1)) = false
  /\ ignoreCase (Filter_new "error" false "black" "red" (-1) (-1)) = false
  /\ ignoreCase (Filter_new "error" true "black" "red" (-1) (-1)) = true.
Proof. split_and!; reflexivity. Qed.

Lemma getPatternOptions_inj b1 b2 :
  getPatternOptions b1 = getPatternOptions b2 -> b1 = b2.
Proof. by destruct b1, b2. Qed.

(** C9, amended.  Filter::operator== compares the regular expression (its
    pattern and its pattern options, hence the case-sensitivity), the
    foreground colour and the background colour, and nothing else: two
    filters that differ only in enabled, origin or originOffset are equal,
    and two filters that differ in case-sensitivity are not. *)
Theorem Filter_eq_compares (a b : Filter) :
  (Filter_eq a b = true <->
     re_pattern (regexp_ a) = re_pattern (regexp_ b)
     /\ re_options (regexp_ a) = re_options (regexp_ b)
     /\ foreColorName_ a = foreColorName_ b
     /\ backColorName_ a = backColorName_ b)
  /\ (forall e o l,
        Filter_eq a (mkFilter (regexp_ a) (foreColorName_ a) (backColorName_ a)
                              e o l) = true)
  /\ (forall p c1 c2 fore back o l o' l',
        Filter_eq (Filter_new p c1 fore back o l)
                  (Filter_new p c2 fore back o' l') = bool_decide (c1 = c2)).
Proof.
  split_and!.
  - unfold Filter_eq. rewrite !andb_true_iff, !bool_decide_eq_true.
    rewrite QRegularExpression_eq_true.
    destruct (regexp_ a), (regexp_ b); simpl.
    split; [intros [[[=] ?] ?]; by subst|intros (-> & -> & ? & ?); done].
  - intros e o l. unfold Filter_eq, QRegularExpression_eq. simpl.
    rewrite !bool_decide_eq_true_2 by done. by rewrite Z.eqb_refl.
  - intros p c1 c2 fore back o l o' l'.
    unfold Filter_eq, QRegularExpression_eq. simpl.
    rewrite !bool_decide_eq_true_2 by done. by destruct c1, c2.
Qed.

(** ** The table of references: FiltersDialog::loadedFilterRefs *)

#[global] Instance FilterRef_eq_dec : EqDecision FilterRef.
Proof. solve_decision. Defined.

#[global] Instance RefLoc_eq_dec : EqDecision RefLoc.
Proof. solve_decision. Defined.

Lemma at_fmap {A B} (f : A -> B) (l : list A) (i : Z) :
  at_ (f <$> l) i = f <$> at_ l i.
Proof. unfold at_. case_decide; [|done]. apply list_lookup_fmap. Qed.

Lemma at_set_at {A} (l : list A) (i j : Z) (x : A) :
  at_ (set_at l i x) j
  = if decide (i = j) then (fun _ => x) <$> at_ l j else at_ l j.
Proof.
  case_decide as Hij.
  - subst j. destruct (at_ l i) as [y|] eqn:Hy; simpl.
    + apply at_set_at_eq. by apply at_Some_range in Hy.
    + unfold at_, set_at in *. case_decide; [|done].
      rewrite list_insert_ge; [done|]. by apply lookup_ge_None.
  - by apply at_set_at_ne.
Qed.

Lemma ref_at_fmap (f : FilterRef -> FilterRef) refs o i :
  ref_at (map (map f) refs) o i = f <$> ref_at refs o i.
Proof.
  unfold ref_at. change (map (map f) refs) with (map f <$> refs).
  rewrite at_fmap. destruct (at_ refs o) as [row|]; simpl; [|done].
  apply (at_fmap f).
Qed.

Lemma ref_at_update refs o j f o' i' :
  ref_at (ref_update refs o j f) o' i'
  = if decide (o = o' /\ j = i') then f <$> ref_at refs o j
    else ref_at refs o' i'.
Proof.
  unfold ref_update, ref_at.
  destruct (at_ refs o) as [row|] eqn:Hrow; simpl.
  - destruct (at_ row j) as [r|] eqn:Hr; simpl.
    + rewrite at_set_at. destruct (decide (o = o')) as [<-|Hne].
      * rewrite Hrow. simpl. rewrite at_set_at.
        destruct (decide (j = i')) as [<-|Hne'].
        -- rewrite Hr. simpl. by rewrite decide_True.
        -- rewrite decide_False; [done|]. by intros [_ ?].
      * rewrite decide_False; [done|]. by intros [? _].
    + case_decide as Hd; [|done]. destruct Hd as [<- <-].
      by rewrite Hrow; simpl; rewrite Hr.
  - case_decide as Hd; [|done]. destruct Hd as [<- <-]. by rewrite Hrow.
Qed.

Lemma size_ref_update refs o j f :
  size (ref_update refs o j f) = size refs.
Proof.
  unfold ref_update. destruct (at_ refs o); [|done].
  destruct (at_ _ j); [|done]. apply size_set_at.
Qed.

Lemma size_fmap {A B} (f : A -> B) (l : list A) : size (f <$> l) = size l.
Proof. unfold size. by rewrite length_fmap. Qed.

Lemma ref_at_store loc f refs o i :
  ref_at (store_ref loc f refs) o i
  = if decide (loc = InTable o i) then f <$> ref_at refs o i
    else ref_at refs o i.
Proof.
  destruct loc as [o' j'|r]; cbn [store_ref].
  - rewrite ref_at_update. destruct (decide (o' = o /\ j' = i)) as [[-> ->]|Hne].
    + by rewrite decide_True.
    + rewrite decide_False; [done|]. intros [=]. by destruct Hne.
  - by rewrite decide_False.
Qed.

Lemma size_store_ref loc f refs : size (store_ref loc f refs) = size refs.
Proof. destruct loc; [apply size_ref_update|done]. Qed.

(** C2.  FiltersDialog::removeFilter, called on the reference of the entry
    at index [k] of the working set (or on the local dummy of an entry
    without origin), returns, and afterwards: the entry at [k] is gone from
    the working set; no reference was added to or deleted from the table;
    every reference keeps its [loaded_index]; the reference of the removed
    entry has [filter_index = -1]; every other reference has its
    [filter_index] decremented by exactly one if it was greater than [k] and
    unchanged otherwise, and keeps its modified flag. *)
Theorem removeFilter_shifts_references (d : FiltersDialog) (loc : RefLoc)
    (r : FilterRef) :
  deref loc (loadedFilterRefs d) = Some r ->
  0 <= filter_index r < size (filterSet d) ->
  (0 <= loaded_index r ->
   exists f, at_ (filterSet d) (filter_index r) = Some f
             /\ 0 <= origin f < size (loadedFilterRefs d)) ->
  exists d',
    removeFilter loc d = Some d'
    /\ filterSet d' = removeAt (filterSet d) (filter_index r)
    /\ loadedFilterSets d' = loadedFilterSets d
    /\ forall o i,
         match ref_at (loadedFilterRefs d) o i with
         | None => ref_at (loadedFilterRefs d') o i = None
         | Some x =>
             exists x',
               ref_at (loadedFilterRefs d') o i = Some x'
               /\ loaded_index x' = loaded_index x
               /\ if decide (loc = InTable o i)
                  then filter_index x' = -1
                  else filter_index x'
                       = (if decide (filter_index r < filter_index x)
                          then filter_index x - 1 else filter_index x)
                       /\ modified x' = modified x
         end.
Proof.
  intros Hderef Hk Horigin.
  set (k := filter_index r) in *.
  set (refs1 := map (map (shift_down k))
                    (store_ref loc (with_modified false) (loadedFilterRefs d))).
  destruct (at_in_range (filterSet d) k Hk) as [fk Hfk].
  assert (Hblock : (if 0 <=? loaded_index r
                    then f ← at_ (filterSet d) k; _ ← at_ refs1 (origin f); Some tt
                    else Some tt) = Some tt).
  { destruct (0 <=? loaded_index r) eqn:Hl; [|done].
    destruct Horigin as (f & Hf & Ho); [lia|].
    rewrite Hf. simpl.
    destruct (at_in_range refs1 (origin f)) as [row ->]; [|done].
    unfold refs1. change (map ?f ?l) with (f <$> l).
    by rewrite size_fmap, size_store_ref. }
  exists (mkDialog (removeAt (filterSet d) k) (loadedFilterSets d)
                   (store_ref loc (with_filter_index (-1)) refs1)).
  split.
  { unfold removeFilter. rewrite Hderef. simpl.
    unfold isActive. fold k.
    destruct (0 <=? k) eqn:Hact; [|lia]. simpl.
    fold refs1. rewrite Hblock. simpl. rewrite Hfk. done. }
  simpl. split_and!; [done|done|].
  intros o i. rewrite ref_at_store. unfold refs1.
  rewrite ref_at_fmap, ref_at_store.
  destruct (ref_at (loadedFilterRefs d) o i) as [x|] eqn:Hx.
  - destruct (decide (loc = InTable o i)) as [->|Hloc]; simpl.
    + eexists. split; [reflexivity|]. simpl. split; [|done].
      unfold shift_down. simpl. by destruct (k <? filter_index x).
    + eexists. split; [reflexivity|].
      unfold shift_down. destruct (k <? filter_index x) eqn:Hlt; simpl.
      * rewrite decide_True by lia. done.
      * rewrite decide_False by lia. done.
  - by destruct (decide (loc = InTable o i)).
Qed.

Lemma removeFilter_shifts_references_witness :
  exists d',
    removeFilter (InTable 0 0) ex_dialog = Some d'
    /\ filterSet d' = removeAt (filterSet ex_dialog) 1
    /\ ref_at (loadedFilterRefs d') 0 0 = Some (mkRef 0 (-1) false)
    /\ ref_at (loadedFilterRefs d') 0 1 = Some (mkRef 1 1 false).
Proof.
  destruct (removeFilter_shifts_references ex_dialog (InTable 0 0)
              (FilterRef_new 0 1)) as (d' & Hrun & Hset & _ & Hrefs).
  - reflexivity.
  - vm_compute. split; [discriminate|reflexivity].
  - intros _. eexists. split; [reflexivity|].
    vm_compute. split; [discriminate|reflexivity].
  - exists d'. split_and!; [done|done| |].
    + vm_compute in Hrun. injection Hrun as <-. reflexivity.
    + vm_compute in Hrun. injection Hrun as <-. reflexivity.
Defined.

Lemma find_filter_index_Some row idx j0 j :
  find_filter_index row idx j0 = Some j <->
  exists n x, j = j0 + Z.of_nat n /\ row !! n = Some x /\ filter_index x = idx
              /\ forall m y, (m < n)%nat -> row !! m = Some y ->
                             filter_index y <> idx.
Proof.
  revert j0. induction row as [|r row IH]; intros j0; simpl.
  - split; [done|]. by intros (n & x & _ & Hn & _).
  - destruct (filter_index r =? idx) eqn:Hr.
    + apply Z.eqb_eq in Hr. split.
      * intros [= <-]. exists 0%nat, r. split_and!; [lia|done|done|].
        intros m y Hm. lia.
      * intros (n & x & -> & Hn & Hx & Hfirst). destruct n as [|n]; [f_equal; lia|].
        destruct (Hfirst 0%nat r); [lia|done|done].
    + apply Z.eqb_neq in Hr. rewrite IH. split.
      * intros (n & x & -> & Hn & Hx & Hfirst). exists (S n), x.
        split_and!; [lia|done|done|].
        intros [|m] y Hm Hy; simpl in Hy; [congruence|]. apply (Hfirst m); [lia|done].
      * intros (n & x & -> & Hn & Hx & Hfirst). destruct n as [|n].
        { simpl in Hn. congruence. }
        exists n, x. split_and!; [lia|done|done|].
        intros m y Hm Hy. apply (Hfirst (S m)); [lia|done].
Qed.

Lemma findLoadedFilterRef_Some refs o idx j :
  findLoadedFilterRef refs o idx = Some j <->
  exists row x, at_ refs o = Some row /\ 0 <= j /\ at_ row j = Some x
                /\ filter_index x = idx
                /\ forall m y, 0 <= m < j -> at_ row m = Some y ->
                               filter_index y <> idx.
Proof.
  unfold findLoadedFilterRef. destruct (at_ refs o) as [row|]; simpl.
  - rewrite find_filter_index_Some. split.
    + intros (n & x & -> & Hn & Hx & Hfirst). exists row, x.
      split_and!; [done|lia| |done|].
      * rewrite Z.add_0_l. by rewrite at_of_nat.
      * intros m y Hm Hy. apply (Hfirst (Z.to_nat m)); [lia|].
        rewrite <- at_of_nat. by rewrite Z2Nat.id by lia.
    + intros (row' & x & [= <-] & Hj & Hx & Hidx & Hfirst).
      exists (Z.to_nat j), x. split_and!; [lia| |done|].
      * rewrite <- at_of_nat. by rewrite Z2Nat.id by lia.
      * intros m y Hm Hy. apply (Hfirst (Z.of_nat m)); [lia|].
        by rewrite at_of_nat.
  - split; [done|]. by intros (row & x & ? & _).
Qed.

Lemma findLoadedFilterRef_ref_at refs o idx j :
  findLoadedFilterRef refs o idx = Some j ->
  exists x, ref_at refs o j = Some x /\ filter_index x = idx.
Proof.
  intros (row & x & Hrow & _ & Hx & Hidx & _)%findLoadedFilterRef_Some.
  exists x. split; [|done]. unfold ref_at. by rewrite Hrow.
Qed.

Lemma size_removeAt {A} (l : list A) i :
  0 <= i < size l -> size (removeAt l i) = size l - 1.
Proof.
  unfold removeAt, size. intros Hi.
  rewrite length_app, length_take, length_drop. lia.
Qed.

Lemma size_insertAt {A} (l : list A) i x :
  0 <= i <= size l -> size (insertAt l i x) = size l + 1.
Proof.
  unfold insertAt, size. intros Hi.
  rewrite length_app, length_take. simpl. rewrite length_drop. lia.
Qed.

Lemma at_insertAt {A} (l : list A) i x :
  0 <= i <= size l -> at_ (insertAt l i x) i = Some x.
Proof.
  unfold insertAt, at_, size. intros Hi. rewrite decide_True by lia.
  rewrite lookup_app_r; rewrite length_take; [|lia].
  replace (Z.to_nat i - _)%nat with 0%nat by lia. done.
Qed.

Lemma QList_move_Some {A} (l : list A) from to x :
  at_ l from = Some x -> 0 <= to < size l ->
  exists l', QList_move l from to = Some l'
             /\ at_ l' to = Some x /\ size l' = size l.
Proof.
  intros Hx Hto. unfold QList_move. rewrite Hx. simpl.
  rewrite decide_True by done. eexists. split; [done|].
  pose proof (at_Some_range _ _ _ Hx) as Hfrom.
  pose proof (size_removeAt l from Hfrom) as Hsz.
  split.
  - apply at_insertAt. lia.
  - rewrite size_insertAt by lia. lia.
Qed.

Lemma ref_at_assign p v refs o i :
  ref_at (assign_filter_index p v refs) o i
  = if decide (p = Some (o, i)) then with_filter_index v <$> ref_at refs o i
    else ref_at refs o i.
Proof.
  destruct p as [[o' j']|]; cbn [assign_filter_index].
  - rewrite ref_at_update. destruct (decide (o' = o /\ j' = i)) as [[-> ->]|Hne].
    + by rewrite decide_True.
    + rewrite decide_False; [done|]. intros [=]. by destruct Hne.
  - by rewrite decide_False.
Qed.

Lemma lookup_ref_Some refs o idx :
  (0 <= o -> is_Some (findLoadedFilterRef refs o idx)) ->
  exists p, lookup_ref refs o idx = Some p
            /\ forall j, p = Some (o, j) <->
                         0 <= o /\ findLoadedFilterRef refs o idx = Some j.
Proof.
  intros Hfound. unfold lookup_ref. destruct (0 <=? o) eqn:Ho.
  - destruct Hfound as [j Hj]; [lia|]. rewrite Hj. simpl.
    eexists. split; [done|]. intros j'. split.
    + intros [= <-]. split; [lia|done].
    + intros [_ [= <-]]. done.
  - exists None. split; [done|]. intros j. split; [done|]. lia.
Qed.

(** After moveFilter, the search for index [to] in the row of the moved
    entry stops at the reference that was found for [from] before. *)
Lemma moveFilter_lookup_after (d : FiltersDialog) (from to : Z)
    (f_from f_to : Filter) (jf : Z) (to_ref : option (Z * Z)) :
  refs_track d ->
  at_ (filterSet d) from = Some f_from ->
  at_ (filterSet d) to = Some f_to ->
  findLoadedFilterRef (loadedFilterRefs d) (origin f_from) from = Some jf ->
  (forall j, to_ref = Some (origin f_to, j) <->
             0 <= origin f_to
             /\ findLoadedFilterRef (loadedFilterRefs d) (origin f_to) to = Some j) ->
  (forall o j, to_ref = Some (o, j) -> o = origin f_to) ->
  findLoadedFilterRef
    (assign_filter_index to_ref from
       (assign_filter_index (Some (origin f_from, jf)) to (loadedFilterRefs d)))
    (origin f_from) to = Some jf.
Proof.
  intros Htrack Hfrom Hto Hjf Hto_ref Hto_origin.
  set (refs := loadedFilterRefs d) in *.
  set (refs' := assign_filter_index to_ref from
                  (assign_filter_index (Some (origin f_from, jf)) to refs)).
  pose proof (at_Some_range _ _ _ Hto) as Hto_range.
  pose proof Hjf as (row & x & Hrow & Hjf0 & Hx & Hxi & Hfirst)%findLoadedFilterRef_Some.
  assert (Hat' : forall i, ref_at refs' (origin f_from) i
            = if decide (to_ref = Some (origin f_from, i))
              then with_filter_index from
                     <$> (if decide (jf = i) then with_filter_index to <$> at_ row i
                          else at_ row i)
              else if decide (jf = i) then with_filter_index to <$> at_ row i
                   else at_ row i).
  { intros i. unfold refs'. rewrite !ref_at_assign.
    assert (Hrat : ref_at refs (origin f_from) i = at_ row i).
    { unfold ref_at. by rewrite Hrow. }
    rewrite Hrat.
    destruct (decide (jf = i)) as [->|Hne].
    - by rewrite (decide_True (P := Some _ = Some _)).
    - rewrite (decide_False (P := Some _ = Some _)); [done|]. by intros [=]. }
  assert (Hrow' : exists row', at_ refs' (origin f_from) = Some row').
  { apply at_in_range. unfold refs'.
    destruct to_ref as [[??]|]; cbn [assign_filter_index];
      rewrite ?size_ref_update; by eapply at_Some_range. }
  destruct Hrow' as [row' Hrow'].
  assert (Hrat' : forall i, ref_at refs' (origin f_from) i = at_ row' i).
  { intros i. unfold ref_at. by rewrite Hrow'. }
  apply findLoadedFilterRef_Some. 
  (* the reference at [jf] now carries [to] *)
  assert (Hsame : to_ref = Some (origin f_from, jf) -> from = to).
  { intros Heq. pose proof (Hto_origin _ _ Heq) as Ho.
    rewrite Ho in Heq. apply Hto_ref in Heq as [_ Hjt].
    rewrite <- Ho in Hjt.
    apply findLoadedFilterRef_Some in Hjt as (row2 & x2 & Hrow2 & _ & Hx2 & Hxi2 & _).
    rewrite Hrow in Hrow2. injection Hrow2 as <-. congruence. }
  exists row'.
  assert (Hnew : exists x', at_ row' jf = Some x' /\ filter_index x' = to).
  { rewrite <- Hrat', Hat'. rewrite (decide_True (P := jf = jf)) by done.
    rewrite Hx. simpl. case_decide as Hc.
    - eexists. split; [done|]. simpl. by apply Hsame.
    - eexists. split; [done|]. done. }
  destruct Hnew as (x' & Hx' & Hx'i).
  exists x'. split_and!; [done|done|done|done|].
  intros m y Hm Hy. rewrite <- Hrat', Hat' in Hy.
  rewrite (decide_False (P := jf = m)) in Hy by lia.
  case_decide as Hc.
  - (* [m] is the reference found for [to]: it now carries [from] *)
    destruct (at_ row m) as [y0|] eqn:Hy0; [|done]. simpl in Hy.
    injection Hy as <-. simpl. intros ->.
    pose proof (Hto_origin _ _ Hc) as Ho. rewrite Ho in Hc.
    apply Hto_ref in Hc as [_ Hjt]. rewrite <- Ho in Hjt.
    apply findLoadedFilterRef_Some in Hjt as (row2 & x2 & Hrow2 & _ & Hx2 & Hxi2 & _).
    rewrite Hrow in Hrow2. injection Hrow2 as <-.
    rewrite Hy0 in Hx2. injection Hx2 as <-.
    by apply (Hfirst m y0).
  - (* [m] is untouched: if it carried [to], it would be the reference
       found for [to] *)
    intros Hyto.
    destruct (Htrack (origin f_from) m y) as (f & Hf & Hfo & Hfoff).
    { unfold ref_at. fold refs. by rewrite Hrow. }
    { lia. }
    rewrite Hyto, Hto in Hf. injection Hf as <-.
    assert (Hfound : is_Some (findLoadedFilterRef refs (origin f_to) to)).
    { rewrite Hfo. destruct (findLoadedFilterRef refs (origin f_from) to) eqn:Hq; [done|].
      exfalso. revert Hq. unfold findLoadedFilterRef. rewrite Hrow. simpl.
      intros Hq.
      assert (Hex : exists n z, 0 + Z.of_nat n = m /\ row !! n = Some z
                                /\ filter_index z = to).
      { exists (Z.to_nat m), y. split_and!; [lia| |done].
        rewrite <- at_of_nat. by rewrite Z2Nat.id by lia. }
      destruct Hex as (n & z & _ & Hn & Hz).
      clear -Hq Hn Hz. revert n Hn Hq. generalize 0.
      induction row as [|r row IH]; intros j0 n Hn Hq; [done|].
      simpl in Hq. destruct (filter_index r =? to) eqn:Hr; [done|].
      destruct n as [|n]; simpl in Hn.
      - injection Hn as ->. apply Z.eqb_neq in Hr. done.
      - by apply (IH (j0 + 1) n). }
    destruct Hfound as [jt Hjt].
    assert (Href : to_ref = Some (origin f_to, jt)).
    { apply Hto_ref. split; [|done]. rewrite Hfo.
      apply at_Some_range in Hrow. lia. }
    apply findLoadedFilterRef_Some in Hjt as (row2 & x2 & Hrow2 & Hjt0 & Hx2 & Hxi2 & Hfirst2).
    rewrite Hfo, Hrow in Hrow2. injection Hrow2 as <-.
    destruct (Htrack (origin f_from) jt x2) as (f2 & Hf2 & _ & Hf2off).
    { unfold ref_at. fold refs. by rewrite Hrow. }
    { lia. }
    rewrite Hxi2, Hto in Hf2. injection Hf2 as <-.
    apply Hc. rewrite Href, Hfo. do 2 f_equal. congruence.
Qed.

(** C3.  FiltersDialog::moveFilter( from, to ) returns when both indices are
    in range and the references it looks up exist, and afterwards: the entry
    now at index [to] is the entry that was at [from], with the origin and
    offset it had; the reference that findLoadedFilterRef found for [from]
    in the table as it was before the call now has [filter_index = to], and
    the one it found for [to] now has [filter_index = from] (both are looked
    up before either is written); each keeps its [loaded_index]; every other
    reference is unchanged.  When the table and the working set agree,
    looking up index [to] afterwards finds the very reference that tracked
    the moved entry before. *)
Theorem moveFilter_swaps_references (d : FiltersDialog) (from to : Z)
    (f_from f_to : Filter) :
  at_ (filterSet d) from = Some f_from ->
  at_ (filterSet d) to = Some f_to ->
  (0 <= origin f_from ->
   is_Some (findLoadedFilterRef (loadedFilterRefs d) (origin f_from) from)) ->
  (0 <= origin f_to ->
   is_Some (findLoadedFilterRef (loadedFilterRefs d) (origin f_to) to)) ->
  exists d',
    moveFilter from to d = Some d'
    /\ at_ (filterSet d') to = Some f_from
    /\ size (filterSet d') = size (filterSet d)
    /\ loadedFilterSets d' = loadedFilterSets d
    /\ (forall jf,
          0 <= origin f_from ->
          findLoadedFilterRef (loadedFilterRefs d) (origin f_from) from = Some jf ->
          exists x x',
            ref_at (loadedFilterRefs d) (origin f_from) jf = Some x
            /\ filter_index x = from
            /\ ref_at (loadedFilterRefs d') (origin f_from) jf = Some x'
            /\ filter_index x' = to
            /\ loaded_index x' = loaded_index x
            /\ modified x' = modified x)
    /\ (forall jt,
          0 <= origin f_to ->
          findLoadedFilterRef (loadedFilterRefs d) (origin f_to) to = Some jt ->
          exists x x',
            ref_at (loadedFilterRefs d) (origin f_to) jt = Some x
            /\ filter_index x = to
            /\ ref_at (loadedFilterRefs d') (origin f_to) jt = Some x'
            /\ filter_index x' = from
            /\ loaded_index x' = loaded_index x
            /\ modified x' = modified x)
    /\ (forall o i,
          ~ (0 <= o /\ o = origin f_from
             /\ findLoadedFilterRef (loadedFilterRefs d) o from = Some i) ->
          ~ (0 <= o /\ o = origin f_to
             /\ findLoadedFilterRef (loadedFilterRefs d) o to = Some i) ->
          ref_at (loadedFilterRefs d') o i = ref_at (loadedFilterRefs d) o i)
    /\ (refs_track d ->
        0 <= origin f_from ->
        findLoadedFilterRef (loadedFilterRefs d') (origin f_from) to
        = findLoadedFilterRef (loadedFilterRefs d) (origin f_from) from).
Proof.
  intros Hfrom Hto Hffrom Hfto.
  destruct (lookup_ref_Some _ _ _ Hffrom) as (from_ref & Hlfrom & Hfrom_ref).
  destruct (lookup_ref_Some _ _ _ Hfto) as (to_ref & Hlto & Hto_ref).
  destruct (QList_move_Some (filterSet d) from to f_from Hfrom)
    as (fl & Hmove & Hfl & Hsize).
  { by eapply at_Some_range. }
  set (refs := loadedFilterRefs d) in *.
  set (refs' := assign_filter_index to_ref from
                  (assign_filter_index from_ref to refs)).
  assert (Hfrom_origin : forall o j, from_ref = Some (o, j) -> o = origin f_from).
  { intros o j Heq. revert Hlfrom. rewrite Heq. unfold lookup_ref.
    destruct (0 <=? origin f_from); [|done].
    destruct (findLoadedFilterRef refs (origin f_from) from); simpl; [|done].
    intros [= Ho _]. by symmetry. }
  assert (Hto_origin : forall o j, to_ref = Some (o, j) -> o = origin f_to).
  { intros o j Heq. revert Hlto. rewrite Heq. unfold lookup_ref.
    destruct (0 <=? origin f_to); [|done].
    destruct (findLoadedFilterRef refs (origin f_to) to); simpl; [|done].
    intros [= Ho _]. by symmetry. }
  exists (mkDialog fl (loadedFilterSets d) refs').
  split.
  { unfold moveFilter. rewrite Hfrom, Hto. simpl. rewrite Hmove. simpl.
    fold refs. rewrite Hlfrom. simpl. rewrite Hlto. done. }
  simpl. split_and!; [done|done|done| | | |].
  - intros jf Ho Hjf.
    destruct (findLoadedFilterRef_ref_at _ _ _ _ Hjf) as (x & Hx & Hxi).
    assert (Hfr : from_ref = Some (origin f_from, jf)) by by apply Hfrom_ref.
    unfold refs'. rewrite !ref_at_assign, Hx, Hfr.
    rewrite (decide_True (P := Some _ = Some _)) by done. simpl.
    exists x. case_decide as Hc.
    + eexists. split_and!; [done|done|done| |done|done]. simpl.
      pose proof (Hto_origin _ _ Hc) as Ho'. rewrite Ho' in Hc.
      apply Hto_ref in Hc as [_ Hjt]. rewrite <- Ho' in Hjt.
      destruct (findLoadedFilterRef_ref_at _ _ _ _ Hjt) as (x2 & Hx2 & Hx2i).
      congruence.
    + eexists. split_and!; done.
  - intros jt Ho Hjt.
    destruct (findLoadedFilterRef_ref_at _ _ _ _ Hjt) as (x & Hx & Hxi).
    assert (Htr : to_ref = Some (origin f_to, jt)) by by apply Hto_ref.
    unfold refs'. rewrite !ref_at_assign, Hx, Htr.
    rewrite (decide_True (P := Some (origin f_to, jt) = _)) by done.
    exists x. case_decide as Hc; simpl; eexists; split_and!; done.
  - intros o i Hnf Hnt. unfold refs'. rewrite !ref_at_assign.
    rewrite (decide_False (P := to_ref = _)).
    2:{ intros Hc. pose proof (Hto_origin _ _ Hc) as ->.
        apply Hto_ref in Hc as [? ?]. by apply Hnt. }
    rewrite decide_False; [done|].
    intros Hc. pose proof (Hfrom_origin _ _ Hc) as ->.
    apply Hfrom_ref in Hc as [? ?]. by apply Hnf.
  - intros Htrack Ho. destruct (Hffrom Ho) as [jf Hjf].
    assert (Hfr : from_ref = Some (origin f_from, jf)) by by apply Hfrom_ref.
    rewrite Hjf. unfold refs'. rewrite Hfr.
    by eapply moveFilter_lookup_after.
Qed.

Lemma moveFilter_swaps_references_witness :
  exists d',
    moveFilter 1 2 ex_dialog = Some d'
    /\ at_ (filterSet d') 2 = Some (Filter_new "ERROR" false "black" "red" 0 0)
    /\ findLoadedFilterRef (loadedFilterRefs d') 0 2 = Some 0.
Proof.
  destruct (moveFilter_swaps_references ex_dialog 1 2
              (Filter_new "ERROR" false "black" "red" 0 0)
              (Filter_new "WARN" false "black" "yellow" 0 1))
    as (d' & Hrun & Hat & _ & _ & _ & _ & _ & Hfind).
  - reflexivity.
  - reflexivity.
  - intros _. by exists 0.
  - intros _. by exists 1.
  - exists d'. split_and!; [done|done|].
    vm_compute in Hrun. injection Hrun as <-. reflexivity.
Defined.

(** ** Drift sync: on_saveChangesButton_clicked, on_undoChangesButton_clicked *)

Lemma copy_style_fields (src dst : Filter) :
  pattern (copy_style src dst) = pattern src
  /\ foreColorName (copy_style src dst) = foreColorName src
  /\ backColorName (copy_style src dst) = backColorName src
  /\ re_options (regexp_ (copy_style src dst)) = re_options (regexp_ dst)
  /\ enabled_ (copy_style src dst) = enabled_ dst
  /\ origin (copy_style src dst) = origin dst
  /\ loadedOffset (copy_style src dst) = loadedOffset dst.
Proof. done. Qed.

Lemma copy_style_same (src dst : Filter) :
  same_style src dst -> copy_style src dst = dst.
Proof.
  destruct dst as [[p o] fc bc e og off], src as [[p' o'] fc' bc' e' og' off'].
  unfold same_style, pattern, foreColorName, backColorName. simpl.
  by intros (-> & -> & ->).
Qed.

Lemma with_modified_false_id (r : FilterRef) :
  modified r = false -> with_modified false r = r.
Proof. destruct r. simpl. by intros ->. Qed.

Lemma saveChanges_loop_spec (filterSet : list Filter) (rest : list FilterRef)
    (p : Z) (s : list Filter) :
  0 <= p ->
  (forall n r, rest !! n = Some r ->
     loaded_index r = p + Z.of_nat n
     /\ p + Z.of_nat n < size s
     /\ (0 <= filter_index r -> filter_index r < size filterSet)) ->
  exists s',
    saveChanges_loop rest filterSet s = Some (map clear_if_active rest, s')
    /\ size s' = size s
    /\ (forall i, i < p -> at_ s' i = at_ s i)
    /\ (forall i, p + Z.of_nat (List.length rest) <= i -> at_ s' i = at_ s i)
    /\ forall n r old,
         rest !! n = Some r -> at_ s (p + Z.of_nat n) = Some old ->
         at_ s' (p + Z.of_nat n)
         = Some (if isActive r
                 then match at_ filterSet (filter_index r) with
                      | Some new => copy_style new old
                      | None => old
                      end
                 else old).
Proof.
  revert p s. induction rest as [|r rest IH]; intros p s Hp Hwf.
  - exists s. simpl. split_and!; done.
  - destruct (Hwf 0%nat r eq_refl) as (Hli & Hlt & Hfi).
    rewrite Z.add_0_r in Hli, Hlt.
    assert (Hwf' : forall s0 : list Filter, size s0 = size s ->
              forall n r0, rest !! n = Some r0 ->
                loaded_index r0 = (p + 1) + Z.of_nat n
                /\ (p + 1) + Z.of_nat n < size s0
                /\ (0 <= filter_index r0 -> filter_index r0 < size filterSet)).
    { intros s0 Hs0 n r0 Hn. destruct (Hwf (S n) r0 Hn) as (? & ? & ?).
      rewrite Hs0. split_and!; [lia|lia|done]. }
    simpl. unfold clear_if_active at 1.
    destruct (isActive r) eqn:Hact.
    + unfold isActive in Hact.
      destruct (at_in_range s (loaded_index r)) as [old Hold]; [lia|].
      destruct (at_in_range filterSet (filter_index r)) as [new Hnew]; [lia|].
      rewrite Hold, Hnew. simpl.
      set (s1 := set_at s (loaded_index r) (copy_style new old)).
      destruct (IH (p + 1) s1) as (s' & Hrun & Hsz & Hlow & Hhigh & Hmid);
        [lia|apply Hwf'; apply size_set_at|].
      rewrite Hrun. simpl. exists s'. split_and!; [done| | | |].
      * rewrite Hsz. apply size_set_at.
      * intros i Hi. rewrite Hlow by lia. apply at_set_at_ne. lia.
      * intros i Hi. rewrite Hhigh by lia. apply at_set_at_ne. lia.
      * intros [|n] r0 old0 Hn Hold0.
        -- simpl in Hn. injection Hn as <-. rewrite Z.add_0_r in *.
           rewrite Hlow by lia. unfold s1. rewrite <- Hli.
           rewrite at_set_at_eq by lia. unfold isActive. rewrite Hact, Hnew.
           congruence.
        -- simpl in Hn. replace (p + Z.of_nat (S n)) with (p + 1 + Z.of_nat n) in * by lia.
           apply (Hmid n r0 old0 Hn). unfold s1.
           rewrite at_set_at_ne by lia. done.
    + destruct (IH (p + 1) s) as (s' & Hrun & Hsz & Hlow & Hhigh & Hmid);
        [lia|by apply Hwf'|].
      rewrite Hrun. simpl. exists s'. split_and!; [done|done| | |].
      * intros i Hi. apply Hlow. lia.
      * intros i Hi. apply Hhigh. lia.
      * intros [|n] r0 old0 Hn Hold0.
        -- simpl in Hn. injection Hn as <-. rewrite Z.add_0_r in *.
           rewrite Hlow by lia. by rewrite Hact.
        -- simpl in Hn. replace (p + Z.of_nat (S n)) with (p + 1 + Z.of_nat n) in * by lia.
           by apply (Hmid n r0 old0 Hn).
Qed.

Lemma undoChanges_loop_spec (set_ : list Filter) (rest : list FilterRef)
    (fs : list Filter) :
  (forall n r, rest !! n = Some r -> modified r = true ->
     is_Some (at_ set_ (loaded_index r)) /\ 0 <= filter_index r < size fs) ->
  (forall n m r r', rest !! n = Some r -> rest !! m = Some r' ->
     modified r = true ->
     filter_index r = filter_index r' -> n = m) ->
  exists fs',
    undoChanges_loop rest set_ fs = Some (map (with_modified false) rest, fs')
    /\ size fs' = size fs
    /\ (forall k, (forall r, r ∈ rest -> modified r = true -> filter_index r <> k) ->
                  at_ fs' k = at_ fs k)
    /\ forall r new old,
         r ∈ rest -> modified r = true ->
         at_ fs (filter_index r) = Some new ->
         at_ set_ (loaded_index r) = Some old ->
         at_ fs' (filter_index r) = Some (copy_style old new).
Proof.
  revert fs. induction rest as [|r rest IH]; intros fs Hwf Hdist.
  - exists fs. simpl. split_and!; [done|done|done|].
    intros r new old Hr. by apply elem_of_nil in Hr.
  - assert (Hwf' : forall fs0 : list Filter, size fs0 = size fs ->
              forall n r0, rest !! n = Some r0 -> modified r0 = true ->
                is_Some (at_ set_ (loaded_index r0))
                /\ 0 <= filter_index r0 < size fs0).
    { intros fs0 Hs0 n r0 Hn Hm. rewrite Hs0. by apply (Hwf (S n)). }
    assert (Hdist' : forall n m r0 r', rest !! n = Some r0 -> rest !! m = Some r' ->
              modified r0 = true -> filter_index r0 = filter_index r' -> n = m).
    { intros n m r0 r' Hn Hm Hmod Heq.
      assert (S n = S m) as [=]; [|done]. by apply (Hdist (S n) (S m) r0 r'). }
    simpl. destruct (modified r) eqn:Hmod.
    + destruct (Hwf 0%nat r eq_refl Hmod) as ([old Hold] & Hrange).
      destruct (at_in_range fs (filter_index r) Hrange) as [new Hnew].
      rewrite Hold, Hnew. simpl.
      set (fs1 := set_at fs (filter_index r) (copy_style old new)).
      destruct (IH fs1) as (fs' & Hrun & Hsz & Hother & Hmid);
        [apply Hwf'; apply size_set_at|done|].
      rewrite Hrun. simpl. exists fs'.
      assert (Hnot : forall r0, r0 ∈ rest -> modified r0 = true ->
                filter_index r0 <> filter_index r).
      { intros r0 (n & Hn)%list_elem_of_lookup_1 Hm0 Heq.
        assert (S n = 0%nat) as [=]. by apply (Hdist (S n) 0%nat r0 r). }
      split_and!; [done| | |].
      * rewrite Hsz. apply size_set_at.
      * intros k Hk. rewrite Hother.
        -- apply at_set_at_ne. apply (Hk r); [apply list_elem_of_here|done].
        -- intros r0 Hr0. apply Hk. by apply list_elem_of_further.
      * intros r0 new0 old0 [->|Hr0]%elem_of_cons Hm0 Hnew0 Hold0.
        -- rewrite Hother by done. unfold fs1.
           rewrite at_set_at_eq by done. congruence.
        -- apply Hmid; [done|done| |done]. unfold fs1.
           rewrite at_set_at_ne; [done|]. intros Heq. by apply (Hnot r0).
    + destruct (IH fs) as (fs' & Hrun & Hsz & Hother & Hmid);
        [by apply Hwf'|done|].
      rewrite Hrun. simpl. exists fs'.
      rewrite (with_modified_false_id r Hmod).
      split_and!; [done|done| |].
      * intros k Hk. apply Hother. intros r0 Hr0. apply Hk.
        by apply list_elem_of_further.
      * intros r0 new0 old0 [->|Hr0]%elem_of_cons Hm0 Hnew0 Hold0; [congruence|].
        by apply Hmid.
Qed.

Lemma bind_Some {A B} (c : M A) (k : A -> M B) w a w' :
  c w = Some (a, w') -> bind c k w = k a w'.
Proof. unfold bind. by intros ->. Qed.

Lemma bind_inv {A B} (c : M A) (k : A -> M B) w b w'' :
  bind c k w = Some (b, w'') ->
  exists a w', c w = Some (a, w') /\ k a w' = Some (b, w'').
Proof.
  unfold bind. destruct (c w) as [[a w']|] eqn:Hc; [|done]. eauto.
Qed.

(** Saving without origin never consults the registry: it cannot fail and
    leaves the world as it is. *)
Lemma Filter_saveToStorage_false f s w :
  exists s', Filter_saveToStorage f s false w = Some (s', w).
Proof. eexists. reflexivity. Qed.

Lemma FilterSet_save_loop_false l i s w :
  exists s', FilterSet_save_loop l i s false w = Some (s', w).
Proof.
  revert i s. induction l as [|f l IH]; intros i s; simpl.
  - by eexists.
  - destruct (Filter_saveToStorage_false f (setArrayIndex i s) w) as [s1 Hs1].
    rewrite (bind_Some _ _ _ _ _ Hs1). apply IH.
Qed.

Lemma FilterSet_saveToStorage_false l s w :
  exists s', FilterSet_saveToStorage l s false w = Some (s', w).
Proof.
  unfold FilterSet_saveToStorage.
  edestruct FilterSet_save_loop_false as [s1 Hs1].
  rewrite (bind_Some _ _ _ _ _ Hs1). by eexists.
Qed.

Lemma refs_track_distinct d o i j r r' :
  refs_track d ->
  ref_at (loadedFilterRefs d) o i = Some r ->
  ref_at (loadedFilterRefs d) o j = Some r' ->
  0 <= filter_index r -> filter_index r = filter_index r' -> i = j.
Proof.
  intros Htrack Hr Hr' Hact Heq.
  destruct (Htrack o i r Hr Hact) as (f & Hf & _ & Hi).
  destruct (Htrack o j r' Hr') as (f' & Hf' & _ & Hj); [lia|].
  rewrite <- Heq, Hf in Hf'. injection Hf' as <-. congruence.
Qed.

Lemma all_from_spec {A} (P : Z -> A -> bool) (i0 : Z) (l : list A) :
  all_from P i0 l = true ->
  forall i x, at_ l i = Some x -> P (i0 + i) x = true.
Proof.
  revert i0. induction l as [|y l IH]; intros i0 Hall i x Hx.
  - apply at_Some_range in Hx. unfold size in Hx. simpl in Hx. lia.
  - simpl in Hall. apply andb_true_iff in Hall as [Hy Hall].
    pose proof (at_Some_range _ _ _ Hx) as Hi.
    destruct (decide (i = 0)) as [->|Hne].
    + rewrite Z.add_0_r. unfold at_ in Hx. simpl in Hx. congruence.
    + replace (i0 + i) with (i0 + 1 + (i - 1)) by lia.
      apply IH; [done|]. unfold at_ in *. rewrite decide_True in Hx by lia.
      rewrite decide_True by lia.
      replace (Z.to_nat i) with (S (Z.to_nat (i - 1))) in Hx by lia. done.
Qed.

Lemma refs_track_b_sound d : refs_track_b d = true -> refs_track d.
Proof.
  intros Hb o i x Hx Hact. unfold ref_at in Hx.
  destruct (at_ (loadedFilterRefs d) o) as [row|] eqn:Hrow; [|done].
  simpl in Hx.
  pose proof (all_from_spec _ _ _ Hb o row Hrow) as Hrowb. simpl in Hrowb.
  pose proof (all_from_spec _ _ _ Hrowb i x Hx) as Hxb. simpl in Hxb.
  replace (0 <=? filter_index x) with true in Hxb by (symmetry; lia).
  simpl in Hxb. destruct (at_ (filterSet d) (filter_index x)) as [f|]; [|done].
  apply andb_true_iff in Hxb as [Ho Hi]. exists f.
  split_and!; [done|lia|lia].
Qed.

Lemma refs_shape_b_sound d : refs_shape_b d = true -> refs_shape d.
Proof.
  intros Hb o refs namedSet Hrefs Hset.
  pose proof (all_from_spec _ _ _ Hb o refs Hrefs) as Hrowb.
  rewrite Z.add_0_l in Hrowb. rewrite Hset in Hrowb. apply andb_true_iff in Hrowb as [Hsz Hall].
  split; [lia|]. intros i r Hr.
  pose proof (all_from_spec _ _ _ Hall i r Hr) as Hrb. simpl in Hrb.
  apply andb_true_iff in Hrb as [Hli Hmod]. split; [lia|].
  intros Hm. rewrite Hm in Hmod. simpl in Hmod. lia.
Qed.

(** C6.  For a dialog whose table agrees with the working set, and a loaded
    set [row]: on_saveChangesButton_clicked returns and, for every active
    reference of the row, leaves in the loaded set at the reference's offset
    the rule it held with the pattern and both colours of the working entry,
    and clears the reference's modified flag; the working set is unchanged.
    on_undoChangesButton_clicked returns and, for every reference of the row
    marked modified, leaves in the working set the entry it held with the
    pattern and both colours of the loaded rule, and clears the flag; an
    entry whose reference is not marked is left as it is; the loaded sets
    are unchanged.  When the entry and the rule already have the same
    pattern and colours, neither operation changes either of them.
    [copy_style src dst] is [dst] with the pattern and the two colours of
    [src]. *)
Theorem drift_sync_save_and_undo (d : FiltersDialog) (row : Z)
    (refs : list FilterRef) (namedSet : NamedFilterSet) (w : World) :
  refs_track d ->
  refs_shape d ->
  at_ (loadedFilterRefs d) row = Some refs ->
  at_ (loadedFilterSets d) row = Some namedSet ->
  (exists d' w' namedSet',
     on_saveChangesButton_clicked row d w = Some (d', w')
     /\ filterSet d' = filterSet d
     /\ at_ (loadedFilterSets d') row = Some namedSet'
     /\ filename namedSet' = filename namedSet
     /\ size (set namedSet') = size (set namedSet)
     /\ (forall o r new old,
           at_ refs o = Some r -> 0 <= filter_index r ->
           at_ (filterSet d) (filter_index r) = Some new ->
           at_ (set namedSet) o = Some old ->
           at_ (set namedSet') o = Some (copy_style new old)
           /\ ref_at (loadedFilterRefs d') row o = Some (with_modified false r)
           /\ (same_style new old -> at_ (set namedSet') o = Some old))
     /\ (forall o r,
           at_ refs o = Some r -> filter_index r < 0 ->
           at_ (set namedSet') o = at_ (set namedSet) o
           /\ ref_at (loadedFilterRefs d') row o = Some r))
  /\ (exists d',
        on_undoChangesButton_clicked row d = Some d'
        /\ loadedFilterSets d' = loadedFilterSets d
        /\ size (filterSet d') = size (filterSet d)
        /\ forall o r new old,
             at_ refs o = Some r -> 0 <= filter_index r ->
             at_ (filterSet d) (filter_index r) = Some new ->
             at_ (set namedSet) o = Some old ->
             at_ (filterSet d') (filter_index r)
             = Some (if modified r then copy_style old new else new)
             /\ ref_at (loadedFilterRefs d') row o = Some (with_modified false r)
             /\ (same_style old new ->
                 at_ (filterSet d') (filter_index r) = Some new))
  /\ forall src dst,
       pattern (copy_style src dst) = pattern src
       /\ foreColorName (copy_style src dst) = foreColorName src
       /\ backColorName (copy_style src dst) = backColorName src
       /\ re_options (regexp_ (copy_style src dst)) = re_options (regexp_ dst)
       /\ enabled_ (copy_style src dst) = enabled_ dst
       /\ origin (copy_style src dst) = origin dst
       /\ loadedOffset (copy_style src dst) = loadedOffset dst.
Proof.
  intros Htrack Hshape Hrefs Hset.
  destruct (Hshape row refs namedSet Hrefs Hset) as [Hsize Hpos].
  pose proof (at_Some_range _ _ _ Hrefs) as Hrow.
  assert (Hrat : forall o, ref_at (loadedFilterRefs d) row o = at_ refs o).
  { intros o. unfold ref_at. by rewrite Hrefs. }
  assert (Hin : forall o r, at_ refs o = Some r -> 0 <= filter_index r ->
            0 <= filter_index r < size (filterSet d)).
  { intros o r Hr Hact. destruct (Htrack row o r) as (f & Hf & _); [by rewrite Hrat|done|].
    by eapply at_Some_range. }
  split_and!; [| |apply copy_style_fields].
  - (* save *)
    destruct (saveChanges_loop_spec (filterSet d) refs 0 (set namedSet))
      as (s' & Hrun & Hsz & _ & _ & Hmid); [done| |].
    { intros n r Hn. rewrite <- at_of_nat in Hn.
      destruct (Hpos _ _ Hn) as [Hli _].
      pose proof (at_Some_range _ _ _ Hn). split_and!; [lia|lia|].
      intros Hact. by apply (Hin _ _ Hn). }
    set (d' := mkDialog (filterSet d)
                 (set_at (loadedFilterSets d) row (with_set s' namedSet))
                 (set_at (loadedFilterRefs d) row (map clear_if_active refs))).
    assert (Hrun' : exists w', on_saveChangesButton_clicked row d w = Some (d', w')).
    { unfold on_saveChangesButton_clicked. destruct (row <? 0) eqn:Hneg; [lia|].
      unfold lift at 1. rewrite Hrefs.
      erewrite bind_Some by reflexivity.
      unfold lift at 1. rewrite Hset.
      erewrite bind_Some by reflexivity.
      unfold lift at 1. rewrite Hrun.
      erewrite bind_Some by reflexivity. cbn [fst snd]. fold d'.
      erewrite bind_Some by reflexivity.
      edestruct FilterSet_saveToStorage_false as [s1 Hs1].
      erewrite bind_Some by apply Hs1.
      erewrite bind_Some by reflexivity. by eexists. }
    destruct Hrun' as [w' Hrun'].
    exists d', w', (with_set s' namedSet).
    assert (Hset' : at_ (loadedFilterSets d') row = Some (with_set s' namedSet)).
    { unfold d'. simpl. apply at_set_at_eq. by eapply at_Some_range. }
    assert (Href' : forall o, ref_at (loadedFilterRefs d') row o
                              = clear_if_active <$> at_ refs o).
    { intros o. unfold d', ref_at. simpl. rewrite at_set_at_eq by done. simpl.
      apply (at_fmap clear_if_active). }
    split_and!; [done|done|done|done|done| |].
    + intros o r new old Hr Hact Hnew Hold.
      pose proof (at_Some_range _ _ _ Hr) as Ho.
      specialize (Hmid (Z.to_nat o) r old).
      rewrite Z.add_0_l, Z2Nat.id in Hmid by lia.
      rewrite <- at_of_nat, Z2Nat.id in Hmid by lia.
      specialize (Hmid Hr Hold). unfold isActive in Hmid.
      replace (0 <=? filter_index r) with true in Hmid by (symmetry; lia).
      rewrite Hnew in Hmid. simpl. split_and!; [done| |].
      * rewrite Href', Hr. simpl. unfold clear_if_active, isActive.
        by replace (0 <=? filter_index r) with true by (symmetry; lia).
      * intros Hsame. rewrite Hmid. f_equal. by apply copy_style_same.
    + intros o r Hr Hinact.
      pose proof (at_Some_range _ _ _ Hr) as Ho.
      destruct (at_in_range (set namedSet) o) as [old Hold]; [lia|].
      specialize (Hmid (Z.to_nat o) r old).
      rewrite Z.add_0_l, Z2Nat.id in Hmid by lia.
      rewrite <- at_of_nat, Z2Nat.id in Hmid by lia.
      specialize (Hmid Hr Hold). unfold isActive in Hmid.
      replace (0 <=? filter_index r) with false in Hmid by (symmetry; lia).
      simpl. split; [congruence|].
      rewrite Href', Hr. simpl. unfold clear_if_active, isActive.
      by replace (0 <=? filter_index r) with false by (symmetry; lia).
  - (* undo *)
    destruct (undoChanges_loop_spec (set namedSet) refs (filterSet d))
      as (fs' & Hrun & Hsz & Hother & Hmid).
    { intros n r Hn Hmod. rewrite <- at_of_nat in Hn.
      destruct (Hpos _ _ Hn) as [Hli Hma].
      pose proof (at_Some_range _ _ _ Hn). split.
      - apply at_in_range. lia.
      - apply (Hin _ _ Hn). by apply Hma. }
    { intros n m r r' Hn Hm Hmod Heq. rewrite <- at_of_nat in Hn, Hm.
      destruct (Hpos _ _ Hn) as [_ Hma].
      apply Nat2Z.inj.
      apply (refs_track_distinct d row _ _ r r' Htrack);
        [by rewrite Hrat|by rewrite Hrat|by apply Hma|done]. }
    set (d' := mkDialog fs' (loadedFilterSets d)
                 (set_at (loadedFilterRefs d) row (map (with_modified false) refs))).
    exists d'. split.
    { unfold on_undoChangesButton_clicked. destruct (row <? 0) eqn:Hneg; [lia|].
      rewrite Hrefs. simpl. rewrite Hset. simpl. rewrite Hrun. done. }
    split_and!; [done|done|].
    intros o r new old Hr Hact Hnew Hold.
    assert (Hr_in : r ∈ refs).
    { unfold at_ in Hr. case_decide; [|done]. by eapply list_elem_of_lookup_2. }
    destruct (Hpos _ _ Hr) as [Hli _].
    assert (Hfs' : at_ fs' (filter_index r)
                   = Some (if modified r then copy_style old new else new)).
    { destruct (modified r) eqn:Hmod.
      - apply Hmid; [done|done|done|by rewrite Hli].
      - rewrite Hother; [done|].
        intros r0 Hr0 Hmod0 Heq.
        apply list_elem_of_lookup_1 in Hr0 as [m Hm]. rewrite <- at_of_nat in Hm.
        assert (Z.of_nat m = o) as <-.
        { apply (refs_track_distinct d row _ _ r0 r Htrack);
            [by rewrite Hrat|by rewrite Hrat|lia|done]. }
        congruence. }
    simpl. split_and!; [done| |].
    + unfold d', ref_at. simpl. rewrite at_set_at_eq by done. simpl.
      rewrite (at_fmap (with_modified false)). by rewrite Hr.
    + intros Hsame. rewrite Hfs'. destruct (modified r); [|done].
      by rewrite (copy_style_same old new Hsame).
Qed.

Lemma drift_sync_save_and_undo_witness :
  (exists d' w' namedSet',
     on_saveChangesButton_clicked 0 ex_drift_dialog ex_world = Some (d', w')
     /\ at_ (loadedFilterSets d') 0 = Some namedSet'
     /\ at_ (set namedSet') 0 = Some (Filter_new "FATAL" false "black" "red" 0 (-1))
     /\ ref_at (loadedFilterRefs d') 0 0 = Some (mkRef 0 1 false))
  /\ (exists d',
        on_undoChangesButton_clicked 0 ex_drift_dialog = Some d'
        /\ at_ (filterSet d') 1 = Some (Filter_new "ERROR" false "black" "red" 0 0)
        /\ ref_at (loadedFilterRefs d') 0 0 = Some (mkRef 0 1 false)).
Proof.
  destruct (drift_sync_save_and_undo ex_drift_dialog 0
              [mkRef 0 1 true; FilterRef_new 1 2]
              (mkNamed "team.conf"
                 [Filter_new "ERROR" false "black" "red" 0 (-1);
                  Filter_new "WARN" false "black" "yellow" 0 (-1)] false)
              ex_world)
    as [(d1 & w1 & ns1 & Hsave & _ & Hns1 & _ & _ & Hsaved & _)
        [(d2 & Hundo & _ & _ & Hundone) _]].
  - apply refs_track_b_sound. reflexivity.
  - apply refs_shape_b_sound. reflexivity.
  - reflexivity.
  - reflexivity.
  - split.
    + exists d1, w1, ns1.
      destruct (Hsaved 0 (mkRef 0 1 true)
                  (Filter_new "FATAL" false "black" "red" 0 0)
                  (Filter_new "ERROR" false "black" "red" 0 (-1)))
        as (Hrule & Href & _); [reflexivity|discriminate|reflexivity|reflexivity|].
      split_and!; done.
    + exists d2.
      destruct (Hundone 0 (mkRef 0 1 true)
                  (Filter_new "FATAL" false "black" "red" 0 0)
                  (Filter_new "ERROR" false "black" "red" 0 (-1)))
        as (Hentry & Href & _); [reflexivity|discriminate|reflexivity|reflexivity|].
      split_and!; done.
Defined.

(** ** Retrieve-reconciliation: Filter::retrieveFromStorage *)

Section RetrieveFacts.
Context `{QtConversions}.
Variable load : QSettings -> M (list Filter * QSettings).

Lemma find_origin_file_Some sets file i0 i ns :
  find_origin_file sets file i0 = (i, Some ns) ->
  i0 <= i /\ at_ sets (i - i0) = Some ns /\ filename ns = file
  /\ forall j n, 0 <= j < i - i0 -> at_ sets j = Some n -> filename n <> file.
Proof.
  revert i0. induction sets as [|n0 sets IH]; intros i0; simpl; [done|].
  case_bool_decide as Hn0.
  - intros [= <- <-]. rewrite Z.sub_diag. split_and!; [lia|done|done|]. lia.
  - intros (Hle & Hat & Hname & Hfirst)%IH. split_and!; [lia| |done|].
    + unfold at_ in *. rewrite decide_True in Hat by lia. rewrite decide_True by lia.
      replace (Z.to_nat (i - i0)) with (S (Z.to_nat (i - (i0 + 1)))) by lia. done.
    + intros j n Hj Hn. destruct (decide (j = 0)) as [->|Hj0].
      * unfold at_ in Hn. simpl in Hn. congruence.
      * apply (Hfirst (j - 1)); [lia|]. unfold at_ in *.
        rewrite decide_True in Hn by lia. rewrite decide_True by lia.
        replace (Z.to_nat j) with (S (Z.to_nat (j - 1))) in Hn by lia. done.
Qed.

Lemma find_origin_file_None sets file i0 i :
  find_origin_file sets file i0 = (i, None) ->
  i = i0 + size sets /\ forall n, n ∈ sets -> filename n <> file.
Proof.
  revert i0. induction sets as [|n0 sets IH]; intros i0; simpl.
  - intros [= <-]. split; [unfold size; simpl; lia|].
    intros n Hn. by apply elem_of_nil in Hn.
  - case_bool_decide as Hn0; [done|].
    intros [-> Hall]%IH. split.
    + unfold size. simpl. lia.
    + intros n [->|Hn]%elem_of_cons; [done|by apply Hall].
Qed.

(** The origin file is in the registry: the filter is bound to the first
    entry of that name, and nothing else happens. *)
Lemma bind_origin_found this_origin file origin w i ns :
  find_origin_file (registry w) file 0 = (i, Some ns) ->
  bind_origin load this_origin file origin w = Some ((i, Some i, missing ns), w).
Proof.
  intros Hfind. unfold bind_origin, bind, get_registry. rewrite Hfind. simpl.
  by rewrite andb_false_r.
Qed.

(** The origin file is neither in the registry nor on disk, and the caller
    passed no origin: a missing entry is appended and the filter is bound to
    it. *)
Lemma bind_origin_absent this_origin file origin w i :
  origin < 0 ->
  find_origin_file (registry w) file 0 = (i, None) ->
  files w !! file = None ->
  bind_origin load this_origin file origin w
  = Some ((i, Some i, true),
          mkWorld (registry w ++ [mkNamed file [] true]) (files w)
                  (log w ++ [(logERROR, [Txt "Cannot find "; Txt file;
                                         Txt "; adding dummy"])])
                  (replies w) (asked w)).
Proof.
  intros Horigin Hfind Hfile. unfold bind_origin, bind, get_registry.
  rewrite Hfind. simpl.
  replace (origin <? 0) with true by (symmetry; lia). simpl.
  unfold QFile_exists. simpl. by rewrite Hfile.
Qed.
End RetrieveFacts.

Section HostingFacts.
Context `{QtConversions}.
Variable load : QSettings -> M (list Filter * QSettings).

Lemma registry_update_Some i f w n :
  at_ (registry w) i = Some n ->
  registry_update i f w = Some (tt, set_registry (set_at (registry w) i (f n)) w).
Proof.
  intros Hn. unfold registry_update, bind, registry_at. by rewrite Hn.
Qed.

(** A successful [bind_origin] that bound a set bound it to the entry
    [registry[origin_]], which exists. *)
Lemma bind_origin_bound this_origin file origin w o_ si m w1 :
  bind_origin load this_origin file origin w = Some ((o_, Some si, m), w1) ->
  o_ = si /\ 0 <= si /\ is_Some (at_ (registry w1) si).
Proof.
  unfold bind_origin. intros Hrun.
  apply bind_inv in Hrun as (r & w0 & [= <- <-] & Hrun).
  destruct (find_origin_file (registry w) file 0) as [i [ns|]] eqn:Hfind;
    cbn [fst snd] in Hrun.
  - rewrite andb_false_r in Hrun. injection Hrun as <- <- <- <-.
    apply find_origin_file_Some in Hfind as (Hi & Hat & _).
    rewrite Z.sub_0_r in Hat. split_and!; [done|done|by eexists].
  - apply find_origin_file_None in Hfind as [-> _]. rewrite Z.add_0_l in Hrun.
    simpl in Hrun. destruct (origin <? 0); simpl in Hrun; [|done].
    apply bind_inv in Hrun as ([] & w2 & [= <-] & Hrun).
    apply bind_inv in Hrun as (ex & w3 & [= <- <-] & Hrun).
    simpl in Hrun. pose proof (size_nonneg (registry w)) as Hnn.
    assert (Hnew : at_ (registry w ++ [mkNamed file [] true]) (size (registry w))
                   = Some (mkNamed file [] true)).
    { rewrite at_app_r by lia. by rewrite Z.sub_diag. }
    destruct (bool_decide _) in Hrun.
    + apply bind_inv in Hrun as ([] & w4 & _ & Hrun).
      apply bind_inv in Hrun as (ms & w5 & _ & Hrun).
      apply bind_inv in Hrun as (loaded & w6 & _ & Hrun).
      apply bind_inv in Hrun as (grown & w6' & [= <- <-] & Hrun).
      destruct (negb _) in Hrun; [done|].
      apply bind_inv in Hrun as (n & w7 & Hn & Hrun).
      unfold registry_at in Hn.
      destruct (at_ (registry w6) (size (registry w))) as [n'|] eqn:Hn'; [|done].
      injection Hn as <- <-.
      destruct (set n'); [|done].
      rewrite (bind_Some _ _ _ _ _ (registry_update_Some _ _ _ _ Hn')) in Hrun.
      assert (Hn2 : at_ (registry (set_registry
                           (set_at (registry w6) (size (registry w))
                                   (with_set loaded.1 n')) w6))
                        (size (registry w)) = Some (with_set loaded.1 n')).
      { simpl. apply at_set_at_eq. by eapply at_Some_range. }
      rewrite (bind_Some _ _ _ _ _ (registry_update_Some _ _ _ _ Hn2)) in Hrun.
      simpl in Hrun. injection Hrun as <- <- <- <-. simpl.
      split_and!; [done|done|]. rewrite at_set_at_eq; [done|].
      rewrite size_set_at. by eapply at_Some_range.
    + simpl in Hrun. injection Hrun as <- <- <- <-. simpl.
      split_and!; [done|done|by eexists].
Qed.

(** What Filter::retrieveFromStorage does once the origin is bound. *)
Lemma Filter_retrieve_after_bind this settings origin w o_ set_ m w1 :
  toString (value settings ["origin"] (VString "")) <> "" ->
  bind_origin load (origin_ this)
    (toString (value settings ["origin"] (VString ""))) origin w
  = Some ((o_, set_, m), w1) ->
  Filter_retrieveFromStorage_in load this settings origin w
  = bind (if m then host_in_missing (setOrigin o_ (read_fields this settings)) set_
          else ret tt)
         (fun _ => check_origin (setOrigin o_ (read_fields this settings)) set_
                                settings origin) w1.
Proof.
  intros Hfile Hbind. unfold Filter_retrieveFromStorage_in.
  rewrite bool_decide_eq_false_2 by done. cbn [negb].
  unfold bind at 1. unfold bind at 1. unfold bind at 1.
  change (origin_ (read_fields this settings)) with (origin_ this).
  rewrite Hbind. cbn [fst snd]. unfold bind.
  destruct m; [|done].
  by destruct (host_in_missing _ _ w1) as [[[] ?]|].
Qed.

Lemma host_in_missing_grow (this : Filter) si w ns :
  at_ (registry w) si = Some ns ->
  loaded_offset_ this <> -1 ->
  size (set ns) <= loaded_offset_ this ->
  host_in_missing this (Some si) w
  = Some (tt, set_registry
                (set_at (registry w) si
                   (with_set (set ns
                              ++ placeholders (origin_ this) (size (set ns))
                                              (loaded_offset_ this)
                              ++ [this]) ns)) w).
Proof.
  intros Hns Hne Hle. unfold host_in_missing, bind, registry_at. rewrite Hns.
  replace (loaded_offset_ this =? -1) with false by (symmetry; lia).
  replace (size (set ns) <=? loaded_offset_ this) with true by (symmetry; lia).
  by apply registry_update_Some.
Qed.

Lemma host_in_missing_overwrite (this : Filter) si w ns :
  at_ (registry w) si = Some ns ->
  0 <= loaded_offset_ this < size (set ns) ->
  host_in_missing this (Some si) w
  = Some (tt, set_registry
                (set_at (registry w) si
                   (with_set (set_at (set ns) (loaded_offset_ this) this) ns)) w).
Proof.
  intros Hns Hin. unfold host_in_missing, bind, registry_at. rewrite Hns.
  replace (loaded_offset_ this =? -1) with false by (symmetry; lia).
  replace (size (set ns) <=? loaded_offset_ this) with false by (symmetry; lia).
  destruct (at_in_range (set ns) (loaded_offset_ this) Hin) as [old ->].
  by apply registry_update_Some.
Qed.

Lemma host_in_missing_none (this : Filter) si w ns :
  at_ (registry w) si = Some ns ->
  loaded_offset_ this = -1 ->
  host_in_missing this (Some si) w = Some (tt, w).
Proof.
  intros Hns Hoff. unfold host_in_missing, bind, registry_at. rewrite Hns.
  by rewrite Hoff.
Qed.

Lemma check_origin_valid (this : Filter) si settings origin w ns :
  origin < 0 -> 0 <= origin_ this ->
  at_ (registry w) si = Some ns ->
  0 <= loaded_offset_ this < size (set ns) ->
  check_origin this (Some si) settings origin w = Some (this, w).
Proof.
  intros Ho Hb Hns Hin. unfold check_origin.
  replace (0 <=? origin) with false by (symmetry; lia).
  replace (origin_ this <? 0) with false by (symmetry; lia).
  replace (loaded_offset_ this <? 0) with false by (symmetry; lia).
  unfold bind, registry_at. rewrite Hns. simpl.
  by replace (size (set ns) <=? loaded_offset_ this) with false by (symmetry; lia).
Qed.


(** [check_origin] only reads the registry. *)
Lemma check_origin_registry (this : Filter) set_ settings origin w f w' :
  check_origin this set_ settings origin w = Some (f, w') ->
  registry w' = registry w /\ files w' = files w.
Proof.
  unfold check_origin, bind, LOG, ret, registry_at. intros Hrun.
  repeat (case_match; simplify_eq; simpl in *; try done).
Qed.
End HostingFacts.

Lemma size_placeholders og from to :
  from <= to -> size (placeholders og from to) = to - from.
Proof.
  intros Hle. unfold placeholders, size. rewrite length_map, length_seqZ. lia.
Qed.

Lemma at_placeholders og from to k :
  0 <= k < to - from ->
  at_ (placeholders og from to) k
  = Some (Filter_new "" false "black" "black" og (from + k)).
Proof.
  intros Hk. unfold placeholders, at_. rewrite decide_True by lia.
  rewrite list_lookup_fmap.
  rewrite (proj2 (lookup_seqZ from (to - from) (Z.to_nat k) (from + k))); [done|].
  lia.
Qed.

Lemma check_origin_total `{QtConversions} (this : Filter) si settings origin w :
  is_Some (at_ (registry w) si) ->
  is_Some (check_origin this (Some si) settings origin w).
Proof.
  intros [ns Hns]. unfold check_origin, bind, LOG, ret, registry_at.
  repeat (case_match; simplify_eq; simpl in *; try done).
Qed.

(** C10.  Whenever Filter::retrieveFromStorage has bound the stored entry to
    a missing set [si] and the stored offset [o] is not negative, the call
    returns, the registry changes at index [si] only, and there the set
    named and flagged as before holds: for [o] at or beyond its former size,
    its former rules followed by placeholders up to a total size of exactly
    [o + 1], the placeholder at index [i] being the filter with empty
    pattern, ["black"] foreground and background, origin [si] and offset
    [i], and at index [o] the entry as read from the store with origin [si]
    and offset [o]; for [o] below the former size, the former rules with
    the one at index [o] replaced by that entry. *)
Theorem missing_source_hosts_entry `{QtConversions} (fuel : nat) (this : Filter)
    (settings : QSettings) (origin : Z) (w w1 : World) (si : Z)
    (namedSet : NamedFilterSet) :
  stored_origin_file settings <> "" ->
  bind_origin (nested_load fuel) (origin_ this) (stored_origin_file settings)
              origin w
  = Some ((si, Some si, true), w1) ->
  at_ (registry w1) si = Some namedSet ->
  0 <= stored_loaded_offset settings ->
  exists f w' namedSet',
    Filter_retrieveFromStorage fuel this settings origin w = Some (f, w')
    /\ at_ (registry w') si = Some namedSet'
    /\ filename namedSet' = filename namedSet
    /\ missing namedSet' = missing namedSet
    /\ size (registry w') = size (registry w1)
    /\ (forall j, j <> si -> at_ (registry w') j = at_ (registry w1) j)
    /\ origin_ (setOrigin si (read_fields this settings)) = si
    /\ loaded_offset_ (setOrigin si (read_fields this settings))
       = stored_loaded_offset settings
    /\ (size (set namedSet) <= stored_loaded_offset settings ->
        size (set namedSet') = stored_loaded_offset settings + 1
        /\ (forall i, i < size (set namedSet) ->
                      at_ (set namedSet') i = at_ (set namedSet) i)
        /\ (forall i, size (set namedSet) <= i < stored_loaded_offset settings ->
                      at_ (set namedSet') i
                      = Some (Filter_new "" false "black" "black" si i))
        /\ at_ (set namedSet') (stored_loaded_offset settings)
           = Some (setOrigin si (read_fields this settings)))
    /\ (stored_loaded_offset settings < size (set namedSet) ->
        set namedSet'
        = set_at (set namedSet) (stored_loaded_offset settings)
                 (setOrigin si (read_fields this settings))
        /\ at_ (set namedSet') (stored_loaded_offset settings)
           = Some (setOrigin si (read_fields this settings))).
Proof.
  intros Hfile Hbind Hns Ho.
  set (o := stored_loaded_offset settings) in *.
  set (hosted := setOrigin si (read_fields this settings)).
  assert (Hoff : loaded_offset_ hosted = o) by done.
  pose proof (size_nonneg (set namedSet)) as Hnn.
  pose proof (at_Some_range _ _ _ Hns) as Hsi.
  unfold Filter_retrieveFromStorage.
  rewrite (Filter_retrieve_after_bind _ _ _ _ _ _ _ _ _ Hfile Hbind).
  fold hosted.
  (* the set after hosting *)
  set (set' := if decide (size (set namedSet) <= o)
               then set namedSet ++ placeholders si (size (set namedSet)) o ++ [hosted]
               else set_at (set namedSet) o hosted).
  assert (Hhost : host_in_missing hosted (Some si) w1
                  = Some (tt, set_registry
                                (set_at (registry w1) si (with_set set' namedSet)) w1)).
  { unfold set'. case_decide.
    - rewrite (host_in_missing_grow hosted si w1 namedSet); [done|done|lia|lia].
    - rewrite (host_in_missing_overwrite hosted si w1 namedSet); [done|done|lia]. }
  rewrite (bind_Some _ _ _ _ _ Hhost).
  set (w2 := set_registry (set_at (registry w1) si (with_set set' namedSet)) w1).
  assert (Hns2 : at_ (registry w2) si = Some (with_set set' namedSet)).
  { unfold w2. simpl. by apply at_set_at_eq. }
  destruct (check_origin_total hosted si settings origin w2) as [[f w'] Hcheck];
    [by eexists|].
  destruct (check_origin_registry _ _ _ _ _ _ _ Hcheck) as [Hreg _].
  exists f, w', (with_set set' namedSet).
  rewrite Hreg. split_and!; [done|done|done|done| | |done|done| |].
  - unfold w2. simpl. apply size_set_at.
  - intros j Hj. unfold w2. simpl. by apply at_set_at_ne.
  - intros Hle. simpl. unfold set'. rewrite decide_True by done.
    split_and!.
    + rewrite !size_app, size_placeholders by done. unfold size at 3. simpl. lia.
    + intros i Hi. by apply at_app_l.
    + intros i Hi. rewrite at_app_r by lia.
      rewrite at_app_l by (rewrite size_placeholders; lia).
      rewrite at_placeholders by lia. do 2 f_equal. lia.
    + rewrite at_app_r by lia.
      rewrite at_app_r by (rewrite size_placeholders; lia).
      rewrite size_placeholders by done.
      by replace (o - size (set namedSet) - (o - size (set namedSet))) with 0 by lia.
  - intros Hlt. simpl. unfold set'. rewrite decide_False by lia.
    split; [done|]. apply at_set_at_eq. lia.
Qed.

Lemma missing_source_hosts_entry_witness :
  exists f w' namedSet',
    Filter_retrieveFromStorage 0 Filter_default ex_entry_settings (-1)
                               ex_missing_world = Some (f, w')
    /\ at_ (registry w') 0 = Some namedSet'
    /\ size (set namedSet') = 3
    /\ at_ (set namedSet') 1 = Some (Filter_new "" false "black" "black" 0 1)
    /\ at_ (set namedSet') 2
       = Some (mkFilter (mkRegExp "timeout" (getPatternOptions true))
                        "white" "navy" None 0 2).
Proof.
  destruct (missing_source_hosts_entry 0 Filter_default ex_entry_settings (-1)
              ex_missing_world ex_missing_world 0
              (mkNamed "gone.conf" [Filter_new "old" false "black" "white" 0 0] true))
    as (f & w' & ns' & Hrun & Hns' & _ & _ & _ & _ & _ & _ & Hgrow & _).
  - discriminate.
  - reflexivity.
  - reflexivity.
  - discriminate.
  - destruct Hgrow as (Hsize & _ & Hph & Hlast); [discriminate|].
    exists f, w', ns'. split_and!; [done|done|done| |done].
    apply Hph. split; [discriminate|reflexivity].
Defined.



(** Whatever the entry and the missing set it was bound to are, a stored
    offset below [-1] reaches the unguarded index of line 285. *)
Lemma host_below_list_undefined `{QtConversions} (fuel : nat) (this : Filter)
    (settings : QSettings) (origin : Z) (w w1 : World) (si : Z)
    (namedSet : NamedFilterSet) :
  stored_origin_file settings <> "" ->
  bind_origin (nested_load fuel) (origin_ this) (stored_origin_file settings)
              origin w
  = Some ((si, Some si, true), w1) ->
  at_ (registry w1) si = Some namedSet ->
  stored_loaded_offset settings < -1 ->
  Filter_retrieveFromStorage fuel this settings origin w = None.
Proof.
  intros Hfile Hbind Hns Hneg.
  pose proof (size_nonneg (set namedSet)) as Hnn.
  unfold Filter_retrieveFromStorage.
  rewrite (Filter_retrieve_after_bind _ _ _ _ _ _ _ _ _ Hfile Hbind).
  unfold bind at 1. unfold host_in_missing, bind, registry_at. rewrite Hns.
  change (loaded_offset_ (setOrigin si (read_fields this settings)))
    with (stored_loaded_offset settings).
  replace (stored_loaded_offset settings =? -1) with false by (symmetry; lia).
  replace (size (set namedSet) <=? stored_loaded_offset settings) with false
    by (symmetry; lia).
  unfold at_. by rewrite decide_False by lia.
Qed.

(** C4.  A stored offset below [-1] against a missing set.  The guard of
    the hosting code (filterset.cpp:275-286) sets aside only [-1] and
    offsets at or beyond the rule count, so for the stored offset [-2] the
    assignment [set->filterList[loaded_offset_] = *this] of line 285 runs
    with an index before the list: the call has no defined result, whether
    ["gone.conf"] was already in the registry as missing or is registered as
    a dummy by this call.  The check of line 312 counts every negative
    offset as invalid: against the present set the same stored entry comes
    back with origin and offset [-1], the registry unchanged and one
    warning logged. *)
Theorem negative_offset_against_missing_set :
  Filter_retrieveFromStorage 0 Filter_default ex_negative_offset_settings (-1)
                             ex_missing_world = None
  /\ Filter_retrieveFromStorage 0 Filter_default ex_negative_offset_settings (-1)
                                ex_world = None
  /\ exists f w',
       Filter_retrieveFromStorage 0 Filter_default ex_negative_offset_settings (-1)
                                  ex_present_world = Some (f, w')
       /\ origin_ f = -1 /\ loaded_offset_ f = -1
       /\ registry w' = registry ex_present_world
       /\ log w' = [invalid_offset_warning
                      (setOrigin 0 (read_fields Filter_default
                                                ex_negative_offset_settings))].
Proof.
  split_and!; [reflexivity|reflexivity|].
  eexists _, _. split; [reflexivity|]. split_and!; reflexivity.
Qed.

(** ** The settings store: what saving leaves in it *)

Lemma groupPrefix_cons fn st g gs :
  groupPrefix (mkSettings fn st (g :: gs))
  = groupPrefix (mkSettings fn st gs) ++ group_key g.
Proof.
  unfold groupPrefix. simpl. rewrite reverse_cons, map_app, concat_app. simpl.
  by rewrite app_nil_r.
Qed.

Lemma groupPrefix_store fn st st' gs :
  groupPrefix (mkSettings fn st gs) = groupPrefix (mkSettings fn st' gs).
Proof. done. Qed.

Lemma key_field_ne (E : Key) (a b : string) :
  a <> b -> E ++ [KName a] <> E ++ [KName b].
Proof. intros Hne Heq. apply app_inv_head in Heq. congruence. Qed.

(** The store after Filter::saveToStorage. *)
Definition saved_fields (E : Key) (f : Filter) (b : bool) (name : string)
    (st : Store) : Store :=
  let st := <[E ++ [KName "regexp"] := VString (pattern f)]> st in
  let st := <[E ++ [KName "ignore_case"] := VBool (ignoreCase f)]> st in
  let st := <[E ++ [KName "fore_colour"] := VString (foreColorName f)]> st in
  let st := <[E ++ [KName "back_colour"] := VString (backColorName f)]> st in
  if b then
    <[E ++ [KName "loaded_offset"] := VInt (loaded_offset_ f)]>
      (<[E ++ [KName "origin"] := VString name]> st)
  else st.

Lemma Filter_saveToStorage_spec f s b w :
  (b = true -> origin_ f <> -1 -> is_Some (at_ (registry w) (origin_ f))) ->
  Filter_saveToStorage f s b w
  = Some (mkSettings (s_fileName s)
            (saved_fields (groupPrefix s) f b (origin_name (registry w) f)
                          (s_store s))
            (s_groups s), w).
Proof.
  intros Hreg. unfold Filter_saveToStorage, saved_fields, origin_name.
  destruct b; [|done].
  destruct (origin_ f =? -1) eqn:Ho; simpl; [done|].
  destruct Hreg as [ns Hns]; [done|lia|].
  unfold bind, get_registry. by rewrite Hns.
Qed.

Lemma saved_fields_other E f b name st k :
  ~ E `prefix_of` k -> saved_fields E f b name st !! k = st !! k.
Proof.
  intros Hk. unfold saved_fields.
  assert (Hne : forall fld, E ++ [KName fld] <> k).
  { intros fld <-. apply Hk. by apply prefix_app_r. }
  destruct b; rewrite ?lookup_insert_ne by apply Hne; done.
Qed.

Lemma saved_fields_field E f b name st fld :
  fld ∉ ["regexp"; "ignore_case"; "fore_colour"; "back_colour"; "origin";
         "loaded_offset"] ->
  saved_fields E f b name st !! (E ++ [KName fld]) = st !! (E ++ [KName fld]).
Proof.
  intros Hfld. unfold saved_fields.
  assert (Hne : forall a, a ∈ ["regexp"; "ignore_case"; "fore_colour";
                               "back_colour"; "origin"; "loaded_offset"] ->
                          E ++ [KName a] <> E ++ [KName fld]).
  { intros a Ha. apply key_field_ne. intros ->. done. }
  destruct b; rewrite ?lookup_insert_ne; try done; apply Hne; set_solver.
Qed.

Lemma saved_fields_holds E f b name st :
  (b = false -> st !! (E ++ [KName "origin"]) = None
                /\ st !! (E ++ [KName "loaded_offset"]) = None) ->
  elem_holds (saved_fields E f b name st) E f b name.
Proof.
  intros Hnone. unfold elem_holds, saved_fields.
  destruct b.
  - split_and!.
    all: repeat first
      [ rewrite lookup_insert_eq; reflexivity
      | rewrite lookup_insert_ne by (apply key_field_ne; discriminate) ].
  - destruct Hnone as [Ho Hl]; [done|]. split_and!.
    all: repeat first
      [ rewrite lookup_insert_eq; reflexivity
      | rewrite lookup_insert_ne by (apply key_field_ne; discriminate) ].
    all: done.
Qed.

(** The fields Filter::saveToStorage writes. *)
Definition written_fields (b : bool) : list string :=
  ["regexp"; "ignore_case"; "fore_colour"; "back_colour"]
  ++ (if b then ["origin"; "loaded_offset"] else []).

Lemma saved_fields_frame E f b name st k :
  (forall fld, fld ∈ written_fields b -> k <> E ++ [KName fld]) ->
  saved_fields E f b name st !! k = st !! k.
Proof.
  intros Hk. unfold saved_fields.
  assert (Hne : forall fld, fld ∈ written_fields b -> E ++ [KName fld] <> k).
  { intros fld Hfld Heq. by apply (Hk fld). }
  destruct b; rewrite ?lookup_insert_ne; try done; apply Hne;
    unfold written_fields; set_solver.
Qed.

Lemma elem_holds_frame st st' E f b name :
  (forall fld, st' !! (E ++ [KName fld]) = st !! (E ++ [KName fld])) ->
  elem_holds st E f b name -> elem_holds st' E f b name.
Proof.
  intros Heq. unfold elem_holds. rewrite !Heq. done.
Qed.

Lemma setArrayIndex_groups fn st str num mx gs i :
  0 <= i -> mx = i ->
  setArrayIndex i (mkSettings fn st (mkGroup str num mx :: gs))
  = mkSettings fn st (mkGroup str (i + 1) (i + 1) :: gs).
Proof.
  intros Hi ->. unfold setArrayIndex. simpl.
  replace (Z.max i 0) with i by lia.
  replace (i =? -1) with false by (symmetry; lia).
  by replace (i <? i + 1) with true by (symmetry; lia).
Qed.

Lemma groupPrefix_array fn st str i mx gs :
  0 <= i ->
  groupPrefix (mkSettings fn st (mkGroup str (i + 1) mx :: gs))
  = (groupPrefix (mkSettings fn st gs) ++ [KName str]) ++ [KIndex (i + 1)].
Proof.
  intros Hi. rewrite groupPrefix_cons. unfold group_key. simpl.
  replace (0 <? i + 1) with true by (symmetry; lia). by rewrite <- app_assoc.
Qed.

Lemma FilterSet_save_loop_spec (l : list Filter) (b : bool) (w : World) :
  (b = true -> forall f, f ∈ l -> origin_ f <> -1 ->
               is_Some (at_ (registry w) (origin_ f))) ->
  forall i fn st str num gs,
    0 <= i ->
    let PA := groupPrefix (mkSettings fn st gs) ++ [KName str] in
    exists st' num',
      FilterSet_save_loop l i (mkSettings fn st (mkGroup str num i :: gs)) b w
      = Some (mkSettings fn st' (mkGroup str num' (i + size l) :: gs), w)
      /\ (forall k,
            (forall j fld, i <= j < i + size l -> fld ∈ written_fields b ->
                           k <> (PA ++ [KIndex (j + 1)]) ++ [KName fld]) ->
            st' !! k = st !! k)
      /\ ((b = false ->
           forall j, i <= j < i + size l ->
             st !! ((PA ++ [KIndex (j + 1)]) ++ [KName "origin"]) = None
             /\ st !! ((PA ++ [KIndex (j + 1)]) ++ [KName "loaded_offset"]) = None) ->
          forall n f, at_ l n = Some f ->
            elem_holds st' (PA ++ [KIndex (i + n + 1)]) f b
                       (origin_name (registry w) f)).
Proof.
  induction l as [|f l IH]; intros Hreg i fn st str num gs Hi PA.
  - exists st, num. simpl. unfold size. simpl. rewrite Z.add_0_r.
    split_and!; [done|done|]. intros _ n f Hn.
    apply at_Some_range in Hn. unfold size in Hn. simpl in Hn. lia.
  - simpl. rewrite setArrayIndex_groups by done.
    rewrite (bind_Some _ _ _ _ _ (Filter_saveToStorage_spec f _ b w
               ltac:(intros Hb Ho; apply Hreg; [done|apply list_elem_of_here|done]))).
    simpl s_store. simpl s_fileName. simpl s_groups.
    rewrite groupPrefix_array by done. fold PA.
    set (st1 := saved_fields (PA ++ [KIndex (i + 1)]) f b
                             (origin_name (registry w) f) st).
    destruct (IH ltac:(intros Hb g Hg; apply Hreg; [done|by apply list_elem_of_further])
                 (i + 1) fn st1 str (i + 1) gs ltac:(lia))
      as (st' & num' & Hrun & Hframe & Helems).
    exists st', num'. 
    assert (Hsz : size (f :: l) = 1 + size l) by (unfold size; simpl; lia).
    pose proof (size_nonneg l) as Hnn.
    split_and!.
    + rewrite Hrun. rewrite Hsz. do 5 f_equal. lia.
    + intros k Hk. rewrite Hframe.
      * apply saved_fields_frame. intros fld Hfld. apply (Hk i); [lia|done].
      * intros j fld Hj Hfld. apply Hk; [lia|done].
    + intros Hnone n g Hn.
      destruct (decide (n = 0)) as [->|Hn0].
      * unfold at_ in Hn. simpl in Hn. injection Hn as <-.
        rewrite Z.add_0_r.
        apply (elem_holds_frame st1).
        -- intros fld. apply Hframe. intros j fld' Hj Hfld' Heq.
           apply app_inj_tail in Heq as [Heq _].
           apply app_inv_head in Heq. injection Heq as Heq. lia.
        -- apply saved_fields_holds. intros Hb. apply (Hnone Hb i). lia.
      * pose proof (at_Some_range _ _ _ Hn) as Hrange.
        replace (i + n + 1) with (i + 1 + (n - 1) + 1) by lia.
        apply Helems.
        -- intros Hb j Hj. unfold st1.
           rewrite !saved_fields_frame.
           ++ apply (Hnone Hb j). lia.
           ++ intros fld Hfld Heq. apply app_inj_tail in Heq as [Heq _].
              apply app_inv_head in Heq. injection Heq as Heq. lia.
           ++ intros fld Hfld Heq. apply app_inj_tail in Heq as [Heq _].
              apply app_inv_head in Heq. injection Heq as Heq. lia.
        -- unfold at_ in *. rewrite decide_True in Hn by lia. rewrite decide_True by lia.
           replace (Z.to_nat n) with (S (Z.to_nat (n - 1))) in Hn by lia. done.
Qed.

Lemma remove_under_lookup (p : Key) (m : Store) (k : Key) :
  remove_under p m !! k = if decide (p `prefix_of` k) then None else m !! k.
Proof.
  unfold remove_under. rewrite map_lookup_filter.
  destruct (m !! k) as [v|]; simpl; [|by case_decide].
  case_decide as Hp.
  - by rewrite option_guard_False by (simpl; tauto).
  - by rewrite option_guard_True.
Qed.

Lemma key_snoc_ne_length (p : Key) (a b c : KeyPart) :
  p ++ [a] <> (p ++ [b]) ++ [c].
Proof.
  intros Heq. apply (f_equal List.length) in Heq.
  rewrite !length_app in Heq. simpl in Heq. lia.
Qed.

(** FilterSet::saveToStorage returns, leaves the group stack and the world
    as they were, touches no key outside its group, and the store then
    holds the list. *)
Lemma FilterSet_saveToStorage_spec (l : list Filter) (s : QSettings) (b : bool)
    (w : World) :
  (b = true -> forall f, f ∈ l -> origin_ f <> -1 ->
               is_Some (at_ (registry w) (origin_ f))) ->
  exists st',
    FilterSet_saveToStorage l s b w
    = Some (mkSettings (s_fileName s) st' (s_groups s), w)
    /\ holds_set st' (groupPrefix s) l b (registry w)
    /\ forall k, ~ (groupPrefix s ++ [KName "FilterSet"]) `prefix_of` k ->
                 st' !! k = s_store s !! k.
Proof.
  intros Hreg. destruct s as [fn st gs]. unfold FilterSet_saveToStorage.
  set (P := groupPrefix (mkSettings fn st gs)).
  set (P1 := P ++ [KName "FilterSet"]).
  set (st2 := remove_under P1 st).
  set (st3 := <[P1 ++ [KName "version"] := VInt FILTERSET_VERSION]> st2).
  set (st4 := remove_under ((P1 ++ [KName "filters"]) ++ [KName "size"]) st3).
  assert (Hs4 : beginWriteArray "filters"
                  (setValue ["version"] (VInt FILTERSET_VERSION)
                     (remove [] (beginGroup "FilterSet" (mkSettings fn st gs))))
                = mkSettings fn st4
                    (mkGroup "filters" 0 0 :: mkGroup "FilterSet" 0 (-1) :: gs)).
  { unfold beginWriteArray, setValue, remove, beginGroup, actualKey. simpl.
    rewrite !groupPrefix_cons. unfold group_key. simpl.
    fold P. fold P1. rewrite app_nil_r. fold st2. fold st3. done. }
  rewrite Hs4.
  destruct (FilterSet_save_loop_spec l b w Hreg 0 fn st4 "filters" 0
              (mkGroup "FilterSet" 0 (-1) :: gs) ltac:(done))
    as (st5 & num' & Hrun & Hframe & Helems).
  rewrite groupPrefix_cons in Hframe, Helems.
  change (groupPrefix (mkSettings fn st4 gs)) with P in Hframe, Helems.
  change (group_key (mkGroup "FilterSet" 0 (-1))) with [KName "FilterSet"]
    in Hframe, Helems.
  fold P1 in Hframe, Helems.
  rewrite (bind_Some _ _ _ _ _ Hrun).
  set (PA := P1 ++ [KName "filters"]) in *.
  set (st6 := <[PA ++ [KName "size"] := VInt (size l)]> st5).
  assert (Hend : endGroup (endArray (mkSettings fn st5
                    (mkGroup "filters" num' (0 + size l)
                       :: mkGroup "FilterSet" 0 (-1) :: gs)))
                 = mkSettings fn st6 gs).
  { rewrite Z.add_0_l. unfold endArray, endGroup, setValue, actualKey. simpl.
    pose proof (size_nonneg l).
    replace (size l =? -1) with false by (symmetry; lia). simpl.
    rewrite groupPrefix_cons. unfold group_key. simpl.
    change (groupPrefix (mkSettings fn st5 gs)) with P. fold P1.
    unfold st6, PA. by rewrite <- !app_assoc. }
  unfold ret. rewrite Hend. exists st6. split; [done|].
  (* lookups in the stores on the way *)
  assert (H4 : forall k, P1 `prefix_of` k -> k <> P1 ++ [KName "version"] ->
                         st4 !! k = None).
  { intros k Hk Hne. unfold st4, st3, st2.
    rewrite remove_under_lookup. case_decide; [done|].
    rewrite lookup_insert_ne by done.
    rewrite remove_under_lookup. by rewrite decide_True. }
  assert (H4' : forall k, ~ P1 `prefix_of` k -> st4 !! k = st !! k).
  { intros k Hk. unfold st4, st3, st2.
    rewrite remove_under_lookup. rewrite decide_False.
    2:{ intros Hp. apply Hk. etrans; [|done].
        by do 2 apply prefix_app_r. }
    rewrite lookup_insert_ne.
    2:{ intros <-. apply Hk. by apply prefix_app_r. }
    rewrite remove_under_lookup. by rewrite decide_False. }
  assert (Helem_key : forall j fld, P1 `prefix_of` (PA ++ [KIndex (j + 1)]) ++ [KName fld]).
  { intros j fld. unfold PA. by do 3 apply prefix_app_r. }
  split; [split_and!|].
  - (* version *)
    replace (P ++ [KName "FilterSet"; KName "version"])
      with (P1 ++ [KName "version"]) by (unfold P1; by rewrite <- app_assoc).
    unfold st6. rewrite lookup_insert_ne.
    2:{ unfold PA. apply not_eq_sym, key_snoc_ne_length. }
    rewrite Hframe.
    2:{ intros j fld _ _ Heq. apply (f_equal List.length) in Heq.
        unfold PA in Heq. rewrite !length_app in Heq. simpl in Heq. lia. }
    unfold st4. rewrite remove_under_lookup. rewrite decide_False.
    2:{ intros [k' Hk']. apply (f_equal List.length) in Hk'.
        unfold PA in Hk'. rewrite !length_app in Hk'. simpl in Hk'. lia. }
    unfold st3. by rewrite lookup_insert_eq.
  - (* size *)
    replace (P ++ [KName "FilterSet"; KName "filters"; KName "size"])
      with (PA ++ [KName "size"]) by (unfold PA, P1; by rewrite <- !app_assoc).
    unfold st6. by rewrite lookup_insert_eq.
  - (* elements *)
    intros i f Hf.
    replace (P ++ [KName "FilterSet"; KName "filters"; KIndex (i + 1)])
      with (PA ++ [KIndex (0 + i + 1)]).
    2:{ unfold PA, P1. rewrite <- !app_assoc. simpl. done. }
    apply (elem_holds_frame st5).
    + intros fld. unfold st6. apply lookup_insert_ne.
      intros Heq. apply (f_equal List.length) in Heq.
      rewrite !length_app in Heq. simpl in Heq. lia.
    + apply Helems; [|done]. intros _ j Hj. split; apply H4; try apply Helem_key.
      all: intros Heq; apply (f_equal List.length) in Heq;
        unfold PA in Heq; rewrite !length_app in Heq; simpl in Heq; lia.
  - (* frame *)
    intros k Hk. simpl. unfold st6. rewrite lookup_insert_ne.
    2:{ intros <-. apply Hk. unfold PA. by do 2 apply prefix_app_r. }
    rewrite Hframe.
    2:{ intros j fld _ _ ->. apply Hk. apply Helem_key. }
    by apply H4'.
Qed.

(** ** The settings store: what retrieving reads from it *)

Section ReadFacts.
Context `{QtConversions}.
Variable load : QSettings -> M (list Filter * QSettings).

Lemma value_field (s : QSettings) (fld : string) (d : QVariant) :
  value s [fld] d = default d (s_store s !! (groupPrefix s ++ [KName fld])).
Proof. done. Qed.

Lemma ignoreCase_getPatternOptions b :
  testFlag (getPatternOptions b) CaseInsensitiveOption = b.
Proof. by destruct b. Qed.

Lemma read_fields_holds (this f : Filter) (s : QSettings) (b : bool) name :
  elem_holds (s_store s) (groupPrefix s) f b name ->
  read_fields this s
  = mkFilter (mkRegExp (pattern f) (getPatternOptions (ignoreCase f)))
             (foreColorName f) (backColorName f) (enabled_ this) (origin_ this)
             (if b then loaded_offset_ f else -1)
  /\ stored_origin_file s = (if b then name else "").
Proof.
  intros (Hre & Hic & Hfc & Hbc & Horig). unfold read_fields, stored_origin_file.
  rewrite !value_field, Hre, Hic, Hfc, Hbc.
  destruct b; destruct Horig as [-> ->]; done.
Qed.

(** An element stored without origin comes back with the caller's origin
    (or none) and no offset; nothing else happens. *)
Lemma Filter_retrieve_no_origin (f : Filter) (s : QSettings) (origin : Z) w :
  elem_holds (s_store s) (groupPrefix s) f false "" ->
  Filter_retrieveFromStorage_in load Filter_default s origin w
  = Some (reloaded (if 0 <=? origin then origin else -1) (-1) f, w).
Proof.
  intros Hholds. destruct (read_fields_holds Filter_default f s false "" Hholds)
    as [Hread Hfile].
  unfold Filter_retrieveFromStorage_in. fold (stored_origin_file s).
  rewrite Hfile, Hread. simpl. unfold check_origin. simpl.
  destruct (0 <=? origin) eqn:Ho; [done|].
  by replace (-1 <? 0) with true by done.
Qed.

Lemma setArrayIndex_read fn st str num gs i :
  0 <= i ->
  setArrayIndex i (mkSettings fn st (mkGroup str num (-1) :: gs))
  = mkSettings fn st (mkGroup str (i + 1) (-1) :: gs).
Proof.
  intros Hi. unfold setArrayIndex. simpl. by replace (Z.max i 0) with i by lia.
Qed.

Lemma FilterSet_retrieve_loop_no_origin (l : list Filter) (origin : Z) (w : World) :
  forall i fn st str num gs acc,
    0 <= i ->
    (forall n f, at_ l n = Some f ->
       elem_holds st ((groupPrefix (mkSettings fn st gs) ++ [KName str])
                      ++ [KIndex (i + n + 1)]) f false "") ->
    exists num',
      FilterSet_retrieve_loop load (List.length l) i
        (mkSettings fn st (mkGroup str num (-1) :: gs)) origin acc w
      = Some ((acc ++ map (reloaded (if 0 <=? origin then origin else -1) (-1)) l,
               mkSettings fn st (mkGroup str num' (-1) :: gs)), w).
Proof.
  induction l as [|f l IH]; intros i fn st str num gs acc Hi Hholds.
  - exists num. simpl. by rewrite app_nil_r.
  - simpl. rewrite setArrayIndex_read by done.
    erewrite bind_Some.
    2:{ apply (Filter_retrieve_no_origin f). simpl s_store.
        rewrite groupPrefix_array by done.
        specialize (Hholds 0 f eq_refl). by rewrite Z.add_0_r in Hholds. }
    destruct (IH (i + 1) fn st str (i + 1) gs
                 (acc ++ [reloaded (if 0 <=? origin then origin else -1) (-1) f]))
      as [num' Hrun]; [lia| |].
    { intros n g Hn. replace (i + 1 + n + 1) with (i + (n + 1) + 1) by lia.
      apply Hholds. pose proof (at_Some_range _ _ _ Hn).
      unfold at_ in *. rewrite decide_True in Hn by lia. rewrite decide_True by lia.
      replace (Z.to_nat (n + 1)) with (S (Z.to_nat n)) by lia. done. }
    exists num'. rewrite Hrun. by rewrite <- app_assoc.
Qed.

(** FilterSet::retrieveFromStorage on a store that holds [l] without
    origins: the list comes back with the caller's origin on every filter,
    and neither the settings object nor the world changes. *)
Lemma FilterSet_retrieve_no_origin (l : list Filter) (s : QSettings) (origin : Z)
    (w : World) r :
  holds_set (s_store s) (groupPrefix s) l false r ->
  FilterSet_retrieveFromStorage_in load s origin w
  = Some ((map (reloaded (if 0 <=? origin then origin else -1) (-1)) l, s), w).
Proof.
  intros (Hver & Hsize & Helems). destruct s as [fn st gs].
  cbn [s_store] in Hver, Hsize, Helems.
  set (P := groupPrefix (mkSettings fn st gs)) in *.
  unfold FilterSet_retrieveFromStorage_in.
  assert (Hcontains : contains (mkSettings fn st gs) ["FilterSet"; "version"] = true).
  { unfold contains, actualKey. simpl. apply bool_decide_eq_true_2.
    fold P. rewrite Hver. by eexists. }
  rewrite Hcontains.
  assert (Hv : value (beginGroup "FilterSet" (mkSettings fn st gs)) ["version"] VInvalid
               = VInt FILTERSET_VERSION).
  { unfold value, beginGroup, actualKey. simpl. rewrite groupPrefix_cons.
    unfold group_key. simpl. fold P. rewrite <- app_assoc. simpl. by rewrite Hver. }
  rewrite Hv. simpl QVariant_eq_int. cbn match.
  assert (Hsz : beginReadArray "filters" (beginGroup "FilterSet" (mkSettings fn st gs))
                = (size l, mkSettings fn st
                             (mkGroup "filters" 0 (-1) :: mkGroup "FilterSet" 0 (-1) :: gs))).
  { unfold beginReadArray, beginGroup, value, actualKey. simpl. f_equal.
    rewrite !groupPrefix_cons. unfold group_key. simpl. fold P.
    rewrite <- !app_assoc. simpl. by rewrite Hsize. }
  rewrite Hsz. cbn [fst snd].
  replace (Z.to_nat (size l)) with (List.length l) by (unfold size; lia).
  destruct (FilterSet_retrieve_loop_no_origin l origin w 0 fn st "filters" 0
              (mkGroup "FilterSet" 0 (-1) :: gs) [] ltac:(done)) as [num' Hrun].
  { intros n f Hn. rewrite groupPrefix_cons. unfold group_key. simpl. fold P.
    specialize (Helems n f Hn). rewrite <- !app_assoc. simpl.
    by rewrite Z.add_0_l. }
  unfold bind. rewrite Hrun. done.
Qed.
End ReadFacts.

(** ** Round trip of the working set *)

Lemma registry_hosts_refl r : registry_hosts r r.
Proof. split; [done|]. intros j n Hn. exists n. split_and!; done || lia. Qed.

Lemma registry_hosts_trans r1 r2 r3 :
  registry_hosts r1 r2 -> registry_hosts r2 r3 -> registry_hosts r1 r3.
Proof.
  intros [Hs12 H12] [Hs23 H23]. split; [congruence|].
  intros j n Hn. destruct (H12 j n Hn) as (n2 & Hn2 & Hf2 & Hm2 & Hsz2 & Heq2).
  destruct (H23 j n2 Hn2) as (n3 & Hn3 & Hf3 & Hm3 & Hsz3 & Heq3).
  exists n3. split_and!; [done|congruence|congruence|lia|].
  intros Hm. rewrite Heq3 by congruence. by apply Heq2.
Qed.

Lemma valid_binding_hosts r r' f :
  registry_hosts r r' -> valid_binding r f -> valid_binding r' f.
Proof.
  intros [Hsz Hh] [Hunbound|(n & Hn & Hname & Hfirst & Hoff & Hin)]; [by left|].
  right. destruct (Hh _ _ Hn) as (n' & Hn' & Hf' & Hm' & Hsz' & Heq').
  exists n'. split_and!; [done|congruence| |done|].
  - intros j m' Hj Hm. rewrite Hf'.
    destruct (at_in_range r j) as [m Hmr].
    { apply at_Some_range in Hm. lia. }
    destruct (Hh _ _ Hmr) as (m2 & Hm2 & Hfm & _). rewrite Hm in Hm2.
    injection Hm2 as <-. rewrite Hfm. by apply (Hfirst j).
  - destruct Hin as [Hmiss|Hlt]; [left; congruence|].
    destruct (missing n) eqn:Hmn; [left; congruence|].
    right. rewrite Heq' by done. done.
Qed.

Lemma origin_name_hosts r r' f :
  registry_hosts r r' -> valid_binding r f -> origin_name r' f = origin_name r f.
Proof.
  intros [Hsz Hh] [[Ho _]|(n & Hn & _)]; unfold origin_name.
  - by rewrite Ho.
  - destruct (origin_ f =? -1); [done|]. rewrite Hn.
    destruct (Hh _ _ Hn) as (n' & -> & Hf' & _). done.
Qed.

Lemma find_origin_file_first sets i0 i n :
  at_ sets i = Some n ->
  (forall j n', 0 <= j < i -> at_ sets j = Some n' -> filename n' <> filename n) ->
  find_origin_file sets (filename n) i0 = (i0 + i, Some n).
Proof.
  revert i0 i. induction sets as [|m sets IH]; intros i0 i Hn Hfirst.
  - apply at_Some_range in Hn. unfold size in Hn. simpl in Hn. lia.
  - pose proof (at_Some_range _ _ _ Hn) as Hi. simpl.
    destruct (decide (i = 0)) as [->|Hi0].
    + unfold at_ in Hn. simpl in Hn. injection Hn as ->.
      rewrite bool_decide_eq_true_2 by done. by rewrite Z.add_0_r.
    + rewrite bool_decide_eq_false_2.
      2:{ apply (Hfirst 0); [lia|done]. }
      rewrite (IH (i0 + 1) (i - 1)).
      * f_equal. lia.
      * unfold at_ in *. rewrite decide_True in Hn by lia. rewrite decide_True by lia.
        replace (Z.to_nat i) with (S (Z.to_nat (i - 1))) in Hn by lia. done.
      * intros j n' Hj Hn'. apply (Hfirst (j + 1)); [lia|].
        unfold at_ in *. rewrite decide_True in Hn' by lia. rewrite decide_True by lia.
        replace (Z.to_nat (j + 1)) with (S (Z.to_nat j)) by lia. done.
Qed.

Section WorkingSetRoundTrip.
Context `{QtConversions}.
Variable load : QSettings -> M (list Filter * QSettings).

Lemma registry_hosts_set_at r o n l :
  at_ r o = Some n -> missing n = true -> size (set n) <= size l ->
  registry_hosts r (set_at r o (with_set l n)).
Proof.
  intros Hn Hm Hsz. split; [apply size_set_at|].
  intros j m Hj. rewrite at_set_at. case_decide as Hoj.
  - subst j. rewrite Hj. simpl. rewrite Hn in Hj. injection Hj as <-.
    eexists. split; [done|]. simpl. split_and!; [done|done|done|congruence].
  - exists m. split_and!; done || lia.
Qed.

(** One stored working entry with a well-formed binding comes back as it
    was saved; on the way it may be hosted in a missing set. *)
Lemma Filter_retrieve_bound (f : Filter) (s : QSettings) (w : World) :
  valid_binding (registry w) f ->
  elem_holds (s_store s) (groupPrefix s) f true (origin_name (registry w) f) ->
  exists w',
    Filter_retrieveFromStorage_in load Filter_default s (-1) w
    = Some (reloaded (origin_ f) (loaded_offset_ f) f, w')
    /\ registry_hosts (registry w) (registry w')
    /\ log w' = log w /\ files w' = files w
    /\ replies w' = replies w /\ asked w' = asked w.
Proof.
  intros Hvalid Hholds.
  destruct (read_fields_holds Filter_default f s true _ Hholds) as [Hread Hfile].
  destruct Hvalid as [[Ho Hoff]|(n & Hn & Hname & Hfirst & Hoff & Hin)].
  - (* no origin *)
    unfold origin_name in Hfile. rewrite Ho in Hfile. simpl in Hfile.
    exists w. split; [|by split_and!; [apply registry_hosts_refl|..]].
    unfold Filter_retrieveFromStorage_in. fold (stored_origin_file s).
    rewrite Hfile, Hread. simpl. unfold check_origin, bind, ret. simpl.
    replace (0 <=? loaded_offset_ f) with false by (symmetry; lia).
    by rewrite Ho.
  - (* bound to the entry [n] *)
    pose proof (at_Some_range _ _ _ Hn) as Hrange.
    unfold origin_name in Hfile.
    replace (origin_ f =? -1) with false in Hfile by (symmetry; lia).
    rewrite Hn in Hfile. simpl in Hfile.
    pose proof (find_origin_file_first _ 0 _ _ Hn Hfirst) as Hfind.
    rewrite Z.add_0_l in Hfind.
    assert (Hbind : bind_origin load (origin_ Filter_default)
                      (toString (value s ["origin"] (VString ""))) (-1) w
                    = Some ((origin_ f, Some (origin_ f), missing n), w)).
    { change (toString (value s ["origin"] (VString "")))
        with (stored_origin_file s).
      rewrite Hfile. by apply bind_origin_found. }
    assert (Hne : toString (value s ["origin"] (VString "")) <> "").
    { change (toString (value s ["origin"] (VString "")))
        with (stored_origin_file s). by rewrite Hfile. }
    rewrite (Filter_retrieve_after_bind load _ _ _ _ _ _ _ _ Hne Hbind).
    rewrite Hread.
    change (setOrigin (origin_ f) _) with (reloaded (origin_ f) (loaded_offset_ f) f).
    set (hosted := reloaded (origin_ f) (loaded_offset_ f) f).
    destruct (missing n) eqn:Hmiss.
    + set (set' := if decide (size (set n) <= loaded_offset_ f)
                   then set n ++ placeholders (origin_ f) (size (set n))
                                              (loaded_offset_ f) ++ [hosted]
                   else set_at (set n) (loaded_offset_ f) hosted).
      assert (Hhost : host_in_missing hosted (Some (origin_ f)) w
                = Some (tt, set_registry
                              (set_at (registry w) (origin_ f) (with_set set' n)) w)).
      { unfold set'. case_decide.
        - rewrite (host_in_missing_grow hosted _ w n); [done|done|simpl; lia|done].
        - rewrite (host_in_missing_overwrite hosted _ w n); [done|done|simpl; lia]. }
      assert (Hsz' : size (set n) <= size set' /\ loaded_offset_ f < size set').
      { unfold set'. pose proof (size_nonneg (set n)). case_decide.
        - rewrite !size_app, size_placeholders by done.
          change (size [hosted]) with 1. lia.
        - rewrite size_set_at. lia. }
      rewrite (bind_Some _ _ _ _ _ Hhost).
      eexists. split.
      * apply (check_origin_valid hosted (origin_ f) s (-1) _ (with_set set' n));
          [done|simpl; lia|simpl; by apply at_set_at_eq|simpl; lia].
      * simpl. split_and!; [|done..].
        apply registry_hosts_set_at; [done|done|lia].
    + destruct Hin as [?|Hlt]; [done|].
      rewrite (bind_Some _ _ _ _ w (eq_refl : ret tt w = Some (tt, w))).
      exists w. split.
      * apply (check_origin_valid hosted (origin_ f) s (-1) w n);
          [done|simpl; lia|done|simpl; lia].
      * split_and!; [apply registry_hosts_refl|done..].
Qed.

Lemma FilterSet_retrieve_loop_bound (l : list Filter) (r0 : list NamedFilterSet) :
  forall (w : World) i fn st str num gs acc,
    0 <= i ->
    registry_hosts r0 (registry w) ->
    Forall (valid_binding r0) l ->
    (forall n f, at_ l n = Some f ->
       elem_holds st ((groupPrefix (mkSettings fn st gs) ++ [KName str])
                      ++ [KIndex (i + n + 1)]) f true (origin_name r0 f)) ->
    exists num' w',
      FilterSet_retrieve_loop load (List.length l) i
        (mkSettings fn st (mkGroup str num (-1) :: gs)) (-1) acc w
      = Some ((acc ++ map reloaded_same l,
               mkSettings fn st (mkGroup str num' (-1) :: gs)), w')
      /\ registry_hosts (registry w) (registry w')
      /\ log w' = log w /\ files w' = files w
      /\ replies w' = replies w /\ asked w' = asked w.
Proof.
  induction l as [|f l IH]; intros w i fn st str num gs acc Hi Hr0 Hvalid Hholds.
  - exists num, w. simpl. rewrite app_nil_r.
    split_and!; [done|apply registry_hosts_refl|done..].
  - apply Forall_cons in Hvalid as [Hf Hvalid].
    simpl. rewrite setArrayIndex_read by done.
    destruct (Filter_retrieve_bound f
                (mkSettings fn st (mkGroup str (i + 1) (-1) :: gs)) w)
      as (w1 & Hrun1 & Hh1 & Hlog1 & Hfiles1 & Hrep1 & Hask1).
    { by apply (valid_binding_hosts r0). }
    { simpl s_store. rewrite groupPrefix_array by done.
      rewrite (origin_name_hosts r0) by done.
      specialize (Hholds 0 f eq_refl). by rewrite Z.add_0_r in Hholds. }
    rewrite (bind_Some _ _ _ _ _ Hrun1).
    destruct (IH w1 (i + 1) fn st str (i + 1) gs (acc ++ [reloaded_same f]))
      as (num' & w' & Hrun & Hh & Hlog & Hfiles & Hrep & Hask);
      [lia|by eapply registry_hosts_trans|done| |].
    { intros n g Hn. replace (i + 1 + n + 1) with (i + (n + 1) + 1) by lia.
      apply Hholds. pose proof (at_Some_range _ _ _ Hn).
      unfold at_ in *. rewrite decide_True in Hn by lia. rewrite decide_True by lia.
      replace (Z.to_nat (n + 1)) with (S (Z.to_nat n)) by lia. done. }
    exists num', w'. unfold reloaded_same at 1 in Hrun. rewrite Hrun.
    rewrite <- app_assoc. split_and!; [done| |congruence..].
    by eapply registry_hosts_trans.
Qed.

(** FilterSet::retrieveFromStorage on a store that holds a working set with
    well-formed bindings. *)
Lemma FilterSet_retrieve_bound (l : list Filter) (s : QSettings) (w : World) :
  Forall (valid_binding (registry w)) l ->
  holds_set (s_store s) (groupPrefix s) l true (registry w) ->
  exists w',
    FilterSet_retrieveFromStorage_in load s (-1) w
    = Some ((map reloaded_same l, s), w')
    /\ registry_hosts (registry w) (registry w')
    /\ log w' = log w /\ files w' = files w
    /\ replies w' = replies w /\ asked w' = asked w.
Proof.
  intros Hvalid (Hver & Hsize & Helems). destruct s as [fn st gs].
  cbn [s_store] in Hver, Hsize, Helems.
  set (P := groupPrefix (mkSettings fn st gs)) in *.
  unfold FilterSet_retrieveFromStorage_in.
  assert (Hcontains : contains (mkSettings fn st gs) ["FilterSet"; "version"] = true).
  { unfold contains, actualKey. simpl. apply bool_decide_eq_true_2.
    fold P. rewrite Hver. by eexists. }
  rewrite Hcontains.
  assert (Hv : value (beginGroup "FilterSet" (mkSettings fn st gs)) ["version"] VInvalid
               = VInt FILTERSET_VERSION).
  { unfold value, beginGroup, actualKey. simpl. rewrite groupPrefix_cons.
    unfold group_key. simpl. fold P. rewrite <- app_assoc. simpl. by rewrite Hver. }
  rewrite Hv. simpl QVariant_eq_int. cbn match.
  assert (Hsz : beginReadArray "filters" (beginGroup "FilterSet" (mkSettings fn st gs))
                = (size l, mkSettings fn st
                             (mkGroup "filters" 0 (-1) :: mkGroup "FilterSet" 0 (-1) :: gs))).
  { unfold beginReadArray, beginGroup, value, actualKey. simpl. f_equal.
    rewrite !groupPrefix_cons. unfold group_key. simpl. fold P.
    rewrite <- !app_assoc. simpl. by rewrite Hsize. }
  rewrite Hsz. cbn [fst snd].
  replace (Z.to_nat (size l)) with (List.length l) by (unfold size; lia).
  destruct (FilterSet_retrieve_loop_bound l (registry w) w 0 fn st "filters" 0
              (mkGroup "FilterSet" 0 (-1) :: gs) [] ltac:(done)
              (registry_hosts_refl _) Hvalid)
    as (num' & w' & Hrun & Hrest).
  { intros n f Hn. rewrite groupPrefix_cons. unfold group_key. simpl. fold P.
    specialize (Helems n f Hn). rewrite <- !app_assoc. simpl.
    by rewrite Z.add_0_l. }
  exists w'. split; [|done]. unfold bind. rewrite Hrun. done.
Qed.
End WorkingSetRoundTrip.

Lemma FilterSet_retrieveFromStorage_unfold `{QtConversions} fuel s origin :
  FilterSet_retrieveFromStorage fuel s origin
  = FilterSet_retrieveFromStorage_in (nested_load fuel) s origin.
Proof. by destruct fuel. Qed.

Lemma same_rule_reloaded o off f :
  o = origin_ f -> off = loaded_offset_ f -> same_rule (reloaded o off f) f.
Proof.
  intros -> ->. unfold same_rule, reloaded, pattern, ignoreCase, foreColorName,
    backColorName, origin, loadedOffset. simpl.
  split_and!; try done. apply ignoreCase_getPatternOptions.
Qed.

Lemma valid_binding_registered r f :
  valid_binding r f -> origin_ f <> -1 -> is_Some (at_ r (origin_ f)).
Proof. intros [[? _]|(n & Hn & _)] Hne; [done|by eexists]. Qed.

(** Saving a working set with well-formed bindings and retrieving it from
    the same settings, with the registry unchanged in between, gives back
    the same rules in the same order. *)
Lemma working_set_round_trip `{QtConversions} (fuel : nat) (l : list Filter)
    (s : QSettings) (w : World) :
  Forall (valid_binding (registry w)) l ->
  exists s1 l' w',
    FilterSet_saveToStorage l s true w = Some (s1, w)
    /\ FilterSet_retrieveFromStorage fuel s1 (-1) w = Some ((l', s1), w')
    /\ Forall2 same_rule l' l
    /\ registry_hosts (registry w) (registry w')
    /\ log w' = log w /\ files w' = files w.
Proof.
  intros Hvalid.
  destruct (FilterSet_saveToStorage_spec l s true w) as (st' & Hsave & Hholds & _).
  { intros _ f Hf Hne. apply valid_binding_registered; [|done].
    by apply (proj1 (Forall_forall _ _) Hvalid). }
  set (s1 := mkSettings (s_fileName s) st' (s_groups s)) in *.
  destruct (FilterSet_retrieve_bound (nested_load fuel) l s1 w Hvalid)
    as (w' & Hrun & Hh & Hlog & Hfiles & _); [done|].
  exists s1, (map reloaded_same l), w'.
  rewrite FilterSet_retrieveFromStorage_unfold.
  split_and!; [done|done| |done|done|done].
  apply Forall2_fmap_l, Forall_Forall2_diag, Forall_forall.
  intros f _. by apply same_rule_reloaded.
Qed.

(** ** Round trip of the loaded filter sets *)

Lemma holds_set_frame st st' P l b r :
  (forall k, (P ++ [KName "FilterSet"]) `prefix_of` k -> st' !! k = st !! k) ->
  holds_set st P l b r -> holds_set st' P l b r.
Proof.
  intros Hframe (Hver & Hsize & Helems).
  assert (Hunder : forall rest, st' !! (P ++ KName "FilterSet" :: rest)
                                = st !! (P ++ KName "FilterSet" :: rest)).
  { intros rest. apply Hframe. exists rest. by rewrite <- app_assoc. }
  split_and!.
  - by rewrite Hunder.
  - by rewrite Hunder.
  - intros i f Hf. apply (elem_holds_frame st); [|by apply Helems].
    intros fld. rewrite <- app_assoc. simpl. apply Hunder.
Qed.

Lemma element_prefix_inj (PS : Key) (a b : Z) (rest : Key) :
  (PS ++ [KIndex a]) `prefix_of` (PS ++ [KIndex b]) ++ rest -> a = b.
Proof.
  intros [k Hk]. rewrite <- !app_assoc in Hk. apply app_inv_head in Hk.
  simpl in Hk. by injection Hk.
Qed.

Section RegistrySave.
Context `{QtConversions} `{AutoFilterDir}.

Lemma size_cons {A} (x : A) (l : list A) : size (x :: l) = 1 + size l.
Proof. unfold size. simpl. lia. Qed.

Lemma at_cons_0 {A} (x : A) (l : list A) : at_ (x :: l) 0 = Some x.
Proof. done. Qed.

Lemma at_cons_S {A} (x : A) (l : list A) i :
  0 < i -> at_ (x :: l) i = at_ l (i - 1).
Proof.
  intros Hi. unfold at_. rewrite !decide_True by lia.
  replace (Z.to_nat i) with (S (Z.to_nat (i - 1))) by lia. done.
Qed.

Lemma LoadedFilterSets_save_loop_spec (r : list NamedFilterSet) (w : World) :
  forall k fn st str num gs,
    0 <= k ->
    let PS := groupPrefix (mkSettings fn st gs) ++ [KName str] in
    exists st' num',
      LoadedFilterSets_save_loop r k (mkSettings fn st (mkGroup str num k :: gs)) w
      = Some (mkSettings fn st'
                (mkGroup str num' (k + size (explicit_sets r)) :: gs), w)
      /\ (forall key,
            (forall j, k <= j < k + size (explicit_sets r) ->
                       ~ (PS ++ [KIndex (j + 1)]) `prefix_of` key) ->
            st' !! key = st !! key)
      /\ forall n namedSet,
           at_ (explicit_sets r) n = Some namedSet ->
           st' !! ((PS ++ [KIndex (k + n + 1)]) ++ [KName "filename"])
           = Some (VString (filename namedSet))
           /\ holds_set st' (PS ++ [KIndex (k + n + 1)]) (set namedSet) false
                        (registry w).
Proof.
  induction r as [|ns r IH]; intros k fn st str num gs Hk PS.
  - exists st, num. simpl. change (size []) with 0. rewrite Z.add_0_r.
    split_and!; [done|done|]. intros n m Hn.
    apply at_Some_range in Hn. change (size []) with 0 in Hn. lia.
  - simpl. destruct (in_autoFilterDir (filename ns) && nameFilter_match (filename ns))
      eqn:Hauto; simpl.
    + apply IH; done.
    + rewrite setArrayIndex_groups by done.
      set (E := PS ++ [KIndex (k + 1)]).
      set (st1 := <[E ++ [KName "filename"] := VString (filename ns)]> st).
      assert (Hset : setValue ["filename"] (VString (filename ns))
                       (mkSettings fn st (mkGroup str (k + 1) (k + 1) :: gs))
                     = mkSettings fn st1 (mkGroup str (k + 1) (k + 1) :: gs)).
      { unfold setValue, actualKey. simpl. by rewrite groupPrefix_array by done. }
      rewrite Hset.
      destruct (FilterSet_saveToStorage_spec (set ns)
                  (mkSettings fn st1 (mkGroup str (k + 1) (k + 1) :: gs)) false w)
        as (st2 & Hsave & Hholds & Hframe2); [done|].
      rewrite groupPrefix_array in Hholds, Hframe2 by done.
      change (groupPrefix (mkSettings fn st1 gs)) with (groupPrefix (mkSettings fn st gs))
        in Hholds, Hframe2.
      fold PS in Hholds, Hframe2. fold E in Hholds, Hframe2.
      cbn [s_store s_fileName s_groups] in Hsave, Hframe2.
      rewrite (bind_Some _ _ _ _ _ Hsave).
      destruct (IH (k + 1) fn st2 str (k + 1) gs ltac:(lia))
        as (st' & num' & Hrun & Hframe & Helems).
      change (groupPrefix (mkSettings fn st2 gs)) with (groupPrefix (mkSettings fn st gs))
        in Hframe, Helems.
      fold PS in Hframe, Helems.
      exists st', num'. rewrite size_cons.
      pose proof (size_nonneg (explicit_sets r)) as Hnn.
      split_and!.
      * rewrite Hrun. do 5 f_equal. lia.
      * intros key Hkey. rewrite Hframe.
        2:{ intros j Hj. apply Hkey. lia. }
        rewrite Hframe2.
        2:{ intros Hp. apply (Hkey k); [lia|]. fold E.
            etrans; [|done]. by apply prefix_app_r. }
        unfold st1. apply lookup_insert_ne. intros <-.
        apply (Hkey k); [lia|]. fold E. by apply prefix_app_r.
      * intros n m Hn. destruct (decide (n = 0)) as [->|Hn0].
        -- rewrite at_cons_0 in Hn. injection Hn as <-.
           rewrite Z.add_0_r. fold E.
           assert (Hkeep : forall key, E `prefix_of` key -> st' !! key = st2 !! key).
           { intros key [rest ->]. apply Hframe. intros j Hj Hp.
             apply element_prefix_inj in Hp. lia. }
           split.
           ++ rewrite Hkeep by by apply prefix_app_r.
              rewrite Hframe2.
              2:{ intros [rest Hrest]. rewrite <- app_assoc in Hrest.
                  apply app_inv_head in Hrest. simpl in Hrest. congruence. }
              unfold st1. by rewrite lookup_insert_eq.
           ++ apply (holds_set_frame st2); [|done].
              intros key Hp. apply Hkeep. etrans; [|done]. by apply prefix_app_r.
        -- pose proof (at_Some_range _ _ _ Hn) as Hrange.
           rewrite at_cons_S in Hn by lia.
           replace (k + n + 1) with (k + 1 + (n - 1) + 1) by lia.
           by apply Helems.
Qed.

(** LoadedFilterSets::saveToStorage returns without touching the world, and
    the store then holds the explicit sources. *)
Lemma LoadedFilterSets_saveToStorage_spec (r : list NamedFilterSet)
    (s : QSettings) (w : World) :
  exists st',
    LoadedFilterSets_saveToStorage r s w
    = Some (mkSettings (s_fileName s) st' (s_groups s), w)
    /\ holds_registry st' (groupPrefix s) (explicit_sets r) (registry w).
Proof.
  destruct s as [fn st gs]. unfold LoadedFilterSets_saveToStorage.
  set (P := groupPrefix (mkSettings fn st gs)).
  set (P1 := P ++ [KName "LoadedFilterSets"]).
  set (st2 := remove_under P1 st).
  set (st3 := <[P1 ++ [KName "version"] := VInt LOADED_FILTERSET_VERSION]> st2).
  set (PS := P1 ++ [KName "sets"]).
  set (st4 := remove_under (PS ++ [KName "size"]) st3).
  assert (Hs4 : beginWriteArray "sets"
                  (setValue ["version"] (VInt LOADED_FILTERSET_VERSION)
                     (remove [] (beginGroup "LoadedFilterSets" (mkSettings fn st gs))))
                = mkSettings fn st4
                    (mkGroup "sets" 0 0 :: mkGroup "LoadedFilterSets" 0 (-1) :: gs)).
  { unfold beginWriteArray, setValue, remove, beginGroup, actualKey. simpl.
    rewrite !groupPrefix_cons. unfold group_key. simpl.
    fold P. fold P1. rewrite app_nil_r. fold st2. fold st3. done. }
  rewrite Hs4.
  destruct (LoadedFilterSets_save_loop_spec r w 0 fn st4 "sets" 0
              (mkGroup "LoadedFilterSets" 0 (-1) :: gs) ltac:(done))
    as (st5 & num' & Hrun & Hframe & Helems).
  rewrite groupPrefix_cons in Hframe, Helems.
  change (groupPrefix (mkSettings fn st4 gs)) with P in Hframe, Helems.
  change (group_key (mkGroup "LoadedFilterSets" 0 (-1)))
    with [KName "LoadedFilterSets"] in Hframe, Helems.
  fold P1 in Hframe, Helems. fold PS in Hframe, Helems.
  rewrite (bind_Some _ _ _ _ _ Hrun).
  set (e := explicit_sets r) in *.
  set (st6 := <[PS ++ [KName "size"] := VInt (size e)]> st5).
  assert (Hend : endGroup (endArray (mkSettings fn st5
                    (mkGroup "sets" num' (0 + size e)
                       :: mkGroup "LoadedFilterSets" 0 (-1) :: gs)))
                 = mkSettings fn st6 gs).
  { rewrite Z.add_0_l. unfold endArray, endGroup, setValue, actualKey. simpl.
    pose proof (size_nonneg e).
    replace (size e =? -1) with false by (symmetry; lia). simpl.
    rewrite groupPrefix_cons. unfold group_key. simpl.
    change (groupPrefix (mkSettings fn st5 gs)) with P. fold P1.
    unfold st6, PS. by rewrite <- !app_assoc. }
  unfold ret. rewrite Hend. exists st6. split; [done|].
  split_and!.
  - replace (P ++ [KName "LoadedFilterSets"; KName "version"])
      with (P1 ++ [KName "version"]) by (unfold P1; by rewrite <- app_assoc).
    unfold st6. rewrite lookup_insert_ne.
    2:{ unfold PS. apply not_eq_sym, key_snoc_ne_length. }
    rewrite Hframe.
    2:{ intros j _ [rest Hrest]. apply (f_equal List.length) in Hrest.
        unfold PS in Hrest. rewrite !length_app in Hrest. simpl in Hrest. lia. }
    unfold st4. rewrite remove_under_lookup. rewrite decide_False.
    2:{ intros [k' Hk']. apply (f_equal List.length) in Hk'.
        unfold PS in Hk'. rewrite !length_app in Hk'. simpl in Hk'. lia. }
    unfold st3. by rewrite lookup_insert_eq.
  - replace (P ++ [KName "LoadedFilterSets"; KName "sets"; KName "size"])
      with (PS ++ [KName "size"]) by (unfold PS, P1; by rewrite <- !app_assoc).
    unfold st6. by rewrite lookup_insert_eq.
  - intros i ns Hns. destruct (Helems i ns Hns) as [Hname Hholds].
    rewrite Z.add_0_l in Hname, Hholds.
    assert (Hne : forall rest, PS ++ [KName "size"] <> (PS ++ [KIndex (i + 1)]) ++ rest).
    { intros rest Heq. rewrite <- app_assoc in Heq. apply app_inv_head in Heq.
      simpl in Heq. congruence. }
    split.
    + replace (P ++ [KName "LoadedFilterSets"; KName "sets"; KIndex (i + 1);
                     KName "filename"])
        with ((PS ++ [KIndex (i + 1)]) ++ [KName "filename"])
        by (unfold PS, P1; by rewrite <- !app_assoc).
      unfold st6. rewrite lookup_insert_ne by apply Hne. done.
    + replace (P ++ [KName "LoadedFilterSets"; KName "sets"; KIndex (i + 1)])
        with (PS ++ [KIndex (i + 1)])
        by (unfold PS, P1; by rewrite <- !app_assoc).
      apply (holds_set_frame st5); [|done].
      intros key [rest ->]. unfold st6. rewrite lookup_insert_ne; [done|].
      rewrite <- app_assoc. apply Hne.
Qed.
End RegistrySave.

Lemma set_at_app_last {A} (l : list A) (x y : A) :
  set_at (l ++ [x]) (size l) y = l ++ [y].
Proof.
  unfold set_at, size. rewrite decide_True by lia. rewrite Nat2Z.id.
  rewrite insert_app_r_alt by lia. by rewrite Nat.sub_diag.
Qed.

Lemma at_app_last {A} (l : list A) (x : A) : at_ (l ++ [x]) (size l) = Some x.
Proof.
  rewrite at_app_r by lia. by rewrite Z.sub_diag.
Qed.

Lemma Filter_eq_refl f : Filter_eq f f = true.
Proof.
  unfold Filter_eq, QRegularExpression_eq.
  rewrite !bool_decide_eq_true_2 by done. by rewrite Z.eqb_refl.
Qed.

Lemma FilterList_eq_refl l : FilterList_eq l l = true.
Proof. induction l as [|f l IH]; [done|]. simpl. by rewrite Filter_eq_refl. Qed.

Section RegistryRetrieve.
Context `{QtConversions} `{AutoFilterDir}.

(** One round of the read loop for a source without a file. *)
Lemma LoadedFilterSets_retrieve_one_absent fuel i s sync w snap r0 :
  0 <= i ->
  holds_set (s_store s) (groupPrefix s) snap false r0 ->
  files w !! toString (value s ["filename"] VInvalid) = None ->
  LoadedFilterSets_retrieve_one fuel i s sync w
  = Some ((s, sync),
          set_registry
            (registry w
             ++ [retrieved_entry i (toString (value s ["filename"] VInvalid))
                                 snap None false]) w).
Proof.
  intros Hi Hsnap Hfile. unfold LoadedFilterSets_retrieve_one.
  set (name := toString (value s ["filename"] VInvalid)) in *.
  unfold bind at 1. unfold get_registry. unfold bind at 1. unfold put_registry.
  set (w1 := mkWorld _ _ _ _ _).
  rewrite FilterSet_retrieveFromStorage_unfold.
  rewrite (bind_Some _ _ _ _ _
             (FilterSet_retrieve_no_origin _ snap s i w1 r0 Hsnap)).
  replace (0 <=? i) with true by (symmetry; lia). cbn [fst snd].
  rewrite (bind_Some _ _ _ _ _ (registry_update_Some _ _ w1 _ (at_app_last _ _))).
  cbn [registry w1]. rewrite set_at_app_last.
  unfold bind, registry_at, QFile_exists. simpl. rewrite at_app_last.
  simpl. fold name. rewrite Hfile. rewrite bool_decide_eq_false_2 by by intros [? ?].
  erewrite registry_update_Some by (cbn [registry set_registry]; apply at_app_last).
  cbn [registry set_registry]. rewrite set_at_app_last. done.
Qed.

(** One round of the read loop for a source whose file holds [actual]. *)
Lemma LoadedFilterSets_retrieve_one_present fuel i s sync w snap r0 actual :
  0 <= i ->
  holds_set (s_store s) (groupPrefix s) snap false r0 ->
  file_holds w (toString (value s ["filename"] VInvalid)) actual ->
  let name := toString (value s ["filename"] VInvalid) in
  let differs := negb (FilterList_eq (map (reloaded i (-1)) actual)
                                     (map (reloaded i (-1)) snap)) in
  let reply := replies w (List.length (asked w)) in
  LoadedFilterSets_retrieve_one fuel i s sync w
  = Some ((s, if differs && reply then true else sync),
          mkWorld (registry w ++ [retrieved_entry i name snap (Some actual) reply])
                  (files w) (log w) (replies w)
                  (if differs then asked w ++ [name] else asked w)).
Proof.
  intros Hi Hsnap (fst_ & Hfile & Hactual) name differs reply.
  unfold LoadedFilterSets_retrieve_one. fold name. fold name in Hfile.
  unfold bind at 1. unfold get_registry. unfold bind at 1. unfold put_registry.
  set (w1 := mkWorld _ _ _ _ _).
  rewrite FilterSet_retrieveFromStorage_unfold.
  rewrite (bind_Some _ _ _ _ _
             (FilterSet_retrieve_no_origin _ snap s i w1 r0 Hsnap)).
  replace (0 <=? i) with true by (symmetry; lia). cbn [fst snd].
  rewrite (bind_Some _ _ _ _ _ (registry_update_Some _ _ w1 _ (at_app_last _ _))).
  cbn [registry w1]. rewrite set_at_app_last.
  set (w2 := set_registry _ w1).
  unfold bind at 1. unfold registry_at. cbn [registry w2 set_registry].
  rewrite at_app_last. cbn [with_set filename].
  unfold bind at 1. unfold QFile_exists. cbn [files w2 set_registry w1].
  rewrite Hfile. rewrite bool_decide_eq_true_2 by by eexists.
  unfold bind at 1. unfold QSettings_open. cbn [files w2 set_registry w1].
  rewrite Hfile. cbn [default].
  rewrite FilterSet_retrieveFromStorage_unfold.
  rewrite (bind_Some _ _ _ _ _
             (FilterSet_retrieve_no_origin _ actual (mkSettings name fst_ []) i w2 []
                Hactual)).
  replace (0 <=? i) with true by (symmetry; lia). cbn [fst snd].
  unfold bind at 1. cbn [registry w2 set_registry]. rewrite at_app_last.
  cbn [set filename missing with_set].
  assert (Hid : <[name := fst_]> (files w) = files w) by by apply insert_id.
  unfold retrieved_entry. subst differs reply.
  destruct (negb (FilterList_eq _ _)) eqn:Hd; cbn [andb].
  - unfold bind at 1. unfold bind at 1. unfold QMessageBox_question.
    cbn [asked replies w2 set_registry w1 registry files log].
    destruct (replies w (List.length (asked w))) eqn:Hr.
    + unfold bind at 1.
      erewrite registry_update_Some by (cbn [registry set_registry]; apply at_app_last).
      cbn [registry set_registry]. rewrite set_at_app_last.
      unfold bind, ret, QSettings_sync. simpl. by rewrite Hid.
    + unfold bind, ret, QSettings_sync. simpl. by rewrite Hid.
  - unfold bind, ret, QSettings_sync. simpl. by rewrite Hid.
Qed.
End RegistryRetrieve.

(** ** The executable checks of the stored form are sound *)

Lemma has_string_sound st k x : has_string st k x = true -> st !! k = Some (VString x).
Proof.
  unfold has_string. destruct (st !! k) as [[]|]; try done.
  by intros ->%bool_decide_eq_true.
Qed.

Lemma has_int_sound st k x : has_int st k x = true -> st !! k = Some (VInt x).
Proof.
  unfold has_int. destruct (st !! k) as [[]|]; try done.
  by intros ->%Z.eqb_eq.
Qed.

Lemma has_bool_sound st k x : has_bool st k x = true -> st !! k = Some (VBool x).
Proof.
  unfold has_bool. destruct (st !! k) as [[]|]; try done.
  by intros ->%bool_decide_eq_true.
Qed.

Lemma has_none_sound st k : has_none st k = true -> st !! k = None.
Proof. unfold has_none. by destruct (st !! k). Qed.

Lemma elem_holds_b_sound st E f b name :
  elem_holds_b st E f b name = true -> elem_holds st E f b name.
Proof.
  unfold elem_holds_b, elem_holds. rewrite !andb_true_iff.
  intros [[[[Hre Hic] Hfc] Hbc] Hor].
  split_and!; auto using has_string_sound, has_bool_sound.
  destruct b; apply andb_true_iff in Hor as [Ho Hl];
    auto using has_string_sound, has_int_sound, has_none_sound.
Qed.

Lemma holds_set_b_sound st P l b r :
  holds_set_b st P l b r = true -> holds_set st P l b r.
Proof.
  unfold holds_set_b, holds_set. rewrite !andb_true_iff.
  intros [[Hver Hsize] Helems].
  split_and!; auto using has_int_sound.
  intros i f Hf. apply elem_holds_b_sound.
  apply (all_from_spec _ 0 l Helems i f Hf).
Qed.

Lemma file_holds_b_sound w name l :
  file_holds_b w name l = true -> file_holds w name l.
Proof.
  unfold file_holds_b, file_holds. destruct (files w !! name) as [st|]; [|done].
  intros Hb. exists st. split; [done|]. by apply holds_set_b_sound.
Qed.

Lemma agrees_with_file_b_sound w namedSet :
  agrees_with_file_b w namedSet = true -> agrees_with_file w namedSet.
Proof.
  unfold agrees_with_file_b, agrees_with_file. destruct (missing namedSet).
  - by intros ?%bool_decide_eq_true.
  - apply file_holds_b_sound.
Qed.

(** ** Reloading the sources from their files *)

(** C5, as stated, fails: with the stored source ["gone.conf"] and no such
    file, the source comes back marked missing, and its rule list is the
    stored snapshot, not an empty list. *)
Lemma missing_source_keeps_snapshot_counterexample :
  files ex_world !! "gone.conf" = None
  /\ (fun r => registry r.2)
       <$> LoadedFilterSets_retrieveFromStorage 0 ex_registry_settings ex_world
     = Some [ mkNamed "gone.conf"
                [reloaded 0 (-1) (Filter_new "ERROR" false "white" "red" (-1) (-1))]
                true ]
  /\ [reloaded 0 (-1) (Filter_new "ERROR" false "white" "red" (-1) (-1))] <> [].
Proof. split_and!; [reflexivity | vm_compute; reflexivity | discriminate]. Qed.

(** C5 (amended).  One round of the read loop of
    LoadedFilterSets::retrieveFromStorage, for the stored source [i] whose
    snapshot is [snap].  Without a backing file the source is appended
    with [missing] set and the snapshot as its rule list; nothing is asked.
    With a backing file holding [actual], the list is read from the file
    and compared with the snapshot: if they are equal the snapshot stays;
    if they differ the question is asked for that file, and the source gets
    the list of the file on yes (and [sync] is set), the snapshot on no.
    In every case the round returns, and the files are left as they
    were. *)
Theorem retrieve_round_reloads_or_keeps_snapshot `{QtConversions} `{AutoFilterDir}
    (fuel : nat) (i : Z) (s : QSettings) (sync : bool) (w : World)
    (snap : list Filter) (r0 : list NamedFilterSet) :
  0 <= i ->
  holds_set (s_store s) (groupPrefix s) snap false r0 ->
  let name := toString (value s ["filename"] VInvalid) in
  let persisted := map (reloaded i (-1)) snap in
  (files w !! name = None ->
   exists w',
     LoadedFilterSets_retrieve_one fuel i s sync w = Some ((s, sync), w')
     /\ registry w' = registry w ++ [mkNamed name persisted true]
     /\ asked w' = asked w /\ files w' = files w)
  /\ (forall actual, file_holds w name actual ->
      let fresh := map (reloaded i (-1)) actual in
      exists sync' w',
        LoadedFilterSets_retrieve_one fuel i s sync w = Some ((s, sync'), w')
        /\ files w' = files w
        /\ if FilterList_eq fresh persisted then
             registry w' = registry w ++ [mkNamed name persisted false]
             /\ asked w' = asked w /\ sync' = sync
           else
             asked w' = asked w ++ [name]
             /\ if replies w (List.length (asked w)) then
                  registry w' = registry w ++ [mkNamed name fresh false]
                  /\ sync' = true
                else
                  registry w' = registry w ++ [mkNamed name persisted false]
                  /\ sync' = sync).
Proof.
  intros Hi Hsnap name persisted. split.
  - intros Hfile. eexists. split.
    + by apply (LoadedFilterSets_retrieve_one_absent fuel i s sync w snap r0).
    + done.
  - intros actual Hactual fresh. do 2 eexists. split.
    + by apply (LoadedFilterSets_retrieve_one_present fuel i s sync w snap r0 actual).
    + cbn [files registry asked]. split; [done|].
      unfold retrieved_entry. fold fresh. fold persisted. fold name.
      destruct (FilterList_eq fresh persisted); cbn [negb andb]; [done|].
      split; [done|]. by destruct (replies w (List.length (asked w))).
Qed.

Lemma retrieve_round_reloads_or_keeps_snapshot_witness :
  exists sync' w',
    LoadedFilterSets_retrieve_one 0 0 ex_source_settings false ex_changed_world
    = Some ((ex_source_settings, sync'), w')
    /\ files w' = files ex_changed_world
    /\ asked w' = ["gone.conf"]
    /\ registry w'
       = [ mkNamed "gone.conf"
             [reloaded 0 (-1) (Filter_new "ERROR" false "white" "red" (-1) (-1))]
             false ]
    /\ sync' = false.
Proof.
  destruct (retrieve_round_reloads_or_keeps_snapshot 0 0 ex_source_settings false
              ex_changed_world
              [Filter_new "ERROR" false "white" "red" (-1) (-1)] [])
    as [_ Hpresent].
  - lia.
  - apply holds_set_b_sound. vm_compute. reflexivity.
  - destruct (Hpresent [Filter_new "FATAL" false "white" "red" (-1) (-1)])
      as (sync' & w' & Hrun & Hfiles & Hrest).
    + apply file_holds_b_sound. vm_compute. reflexivity.
    + exists sync', w'. vm_compute in Hrest. destruct Hrest as (Hasked & Hreg & Hsync).
      split_and!; [exact Hrun | exact Hfiles | exact Hasked | exact Hreg | exact Hsync].
Defined.

(** ** Round trip of the registry *)

Lemma size_reloaded_sets i l : size (reloaded_sets i l) = size l.
Proof.
  revert i. induction l as [|n l IH]; intros i; [done|].
  simpl. rewrite !size_cons. by rewrite IH.
Qed.

Lemma reloaded_sets_app i l k :
  reloaded_sets i (l ++ k) = reloaded_sets i l ++ reloaded_sets (i + size l) k.
Proof.
  revert i. induction l as [|n l IH]; intros i.
  - simpl. change (size []) with 0. by rewrite Z.add_0_r.
  - simpl. rewrite IH, size_cons. do 3 f_equal. lia.
Qed.

Section RegistryRoundTrip.
Context `{QtConversions} `{AutoFilterDir}.

(** The read loop over stored sources that agree with the disk: each comes
    back at the back of the registry, nothing is asked, [sync] stays. *)
Lemma LoadedFilterSets_retrieve_loop_spec fuel r0 (e : list NamedFilterSet) :
  forall i fn st str num gs sync w0,
    0 <= i ->
    let PS := groupPrefix (mkSettings fn st gs) ++ [KName str] in
    (forall k namedSet, at_ e k = Some namedSet ->
       st !! ((PS ++ [KIndex (i + k + 1)]) ++ [KName "filename"])
       = Some (VString (filename namedSet))
       /\ holds_set st (PS ++ [KIndex (i + k + 1)]) (set namedSet) false r0) ->
    Forall (agrees_with_file w0) e ->
    exists num',
      LoadedFilterSets_retrieve_loop fuel (List.length e) i
        (mkSettings fn st (mkGroup str num (-1) :: gs)) sync w0
      = Some ((mkSettings fn st (mkGroup str num' (-1) :: gs), sync),
              set_registry (registry w0 ++ reloaded_sets i e) w0).
Proof.
  induction e as [|ns e IH]; intros i fn st str num gs sync w0 Hi PS Hstored Hagree.
  - exists num. simpl. unfold ret, set_registry. rewrite app_nil_r. by destruct w0.
  - apply Forall_cons in Hagree as [Hns Hagree].
    destruct (Hstored 0 ns (at_cons_0 _ _)) as [Hname Hsnap].
    rewrite Z.add_0_r in Hname, Hsnap.
    cbn [List.length LoadedFilterSets_retrieve_loop].
    rewrite setArrayIndex_read by done.
    set (s := mkSettings fn st (mkGroup str (i + 1) (-1) :: gs)).
    assert (Hprefix : groupPrefix s = PS ++ [KIndex (i + 1)]).
    { unfold s. by rewrite groupPrefix_array. }
    assert (Hvalue : toString (value s ["filename"] VInvalid) = filename ns).
    { rewrite value_field, Hprefix. cbn [s s_store]. by rewrite Hname. }
    rewrite <- Hprefix in Hsnap.
    assert (Hrest : forall k namedSet, at_ e k = Some namedSet ->
              st !! ((PS ++ [KIndex (i + 1 + k + 1)]) ++ [KName "filename"])
              = Some (VString (filename namedSet))
              /\ holds_set st (PS ++ [KIndex (i + 1 + k + 1)]) (set namedSet) false r0).
    { intros k m Hm. pose proof (at_Some_range _ _ _ Hm) as Hk.
      replace (i + 1 + k + 1) with (i + (k + 1) + 1) by lia.
      apply Hstored. rewrite at_cons_S by lia. by replace (k + 1 - 1) with k by lia. }
    unfold agrees_with_file in Hns.
    destruct (missing ns) eqn:Hmissing.
    + rewrite <- Hvalue in Hns.
      rewrite (bind_Some _ _ _ _ _
                 (LoadedFilterSets_retrieve_one_absent fuel i s sync w0 (set ns) r0
                    Hi Hsnap Hns)).
      cbn [fst snd]. rewrite Hvalue. unfold retrieved_entry.
      set (w1 := set_registry _ w0).
      destruct (IH (i + 1) fn st str (i + 1) gs sync w1 ltac:(lia) Hrest Hagree)
        as [num' Hrun].
      exists num'. unfold s. rewrite Hrun. f_equal. f_equal.
      unfold w1, set_registry. cbn [registry files log replies asked reloaded_sets].
      rewrite <- app_assoc, Hmissing. done.
    + rewrite <- Hvalue in Hns.
      rewrite (bind_Some _ _ _ _ _
                 (LoadedFilterSets_retrieve_one_present fuel i s sync w0 (set ns) r0
                    (set ns) Hi Hsnap Hns)).
      cbn [fst snd]. rewrite Hvalue. unfold retrieved_entry.
      rewrite FilterList_eq_refl. cbn [negb andb].
      set (w1 := mkWorld _ _ _ _ _).
      destruct (IH (i + 1) fn st str (i + 1) gs sync w1 ltac:(lia) Hrest Hagree)
        as [num' Hrun].
      exists num'. unfold s. rewrite Hrun. f_equal. f_equal.
      unfold w1, set_registry. cbn [registry files log replies asked reloaded_sets].
      rewrite <- app_assoc, Hmissing. done.
Qed.

(** The loop over the auto-filter directory, for files that hold filter
    sets. *)
Lemma LoadedFilterSets_auto_loop_spec fuel (a : list NamedFilterSet) :
  forall w0,
    Forall (fun namedSet => missing namedSet = false
                            /\ file_holds w0 (filename namedSet) (set namedSet)) a ->
    LoadedFilterSets_auto_loop fuel (map filename a) w0
    = Some (tt, set_registry
                  (registry w0 ++ reloaded_sets (size (registry w0)) a) w0).
Proof.
  induction a as [|ns a IH]; intros w0 Hall.
  - simpl. unfold ret, set_registry. rewrite app_nil_r. by destruct w0.
  - apply Forall_cons in Hall as [[Hmissing (fst_ & Hfile & Hholds)] Hall].
    cbn [map LoadedFilterSets_auto_loop].
    unfold bind at 1. unfold get_registry. unfold bind at 1. unfold put_registry.
    set (w1 := mkWorld _ _ _ _ _).
    unfold bind at 1. unfold QSettings_open. cbn [files w1]. rewrite Hfile.
    cbn [default].
    rewrite FilterSet_retrieveFromStorage_unfold.
    rewrite (bind_Some _ _ _ _ _
               (FilterSet_retrieve_no_origin _ (set ns)
                  (mkSettings (filename ns) fst_ []) (size (registry w0)) w1 []
                  Hholds)).
    pose proof (size_nonneg (registry w0)) as Hnn.
    replace (0 <=? size (registry w0)) with true by (symmetry; lia). cbn [fst snd].
    rewrite (bind_Some _ _ _ _ _ (registry_update_Some _ _ w1 _ (at_app_last _ _))).
    cbn [registry w1]. rewrite set_at_app_last.
    unfold bind at 1. unfold QSettings_sync.
    cbn [s_fileName s_store files set_registry registry log replies asked with_set
         filename missing w1].
    rewrite (insert_id _ _ _ Hfile).
    set (w2 := mkWorld _ _ _ _ _).
    rewrite (IH w2).
    2:{ eapply Forall_impl; [exact Hall|]. intros m [Hm Hf]. split; [done|]. exact Hf. }
    f_equal. f_equal. unfold w2, set_registry.
    cbn [registry files log replies asked reloaded_sets].
    rewrite <- app_assoc. rewrite size_app, size_cons. change (size []) with 0.
    rewrite Hmissing. replace (size (registry w0) + (1 + 0))
      with (size (registry w0) + 1) by lia.
    done.
Qed.
End RegistryRoundTrip.

Lemma Forall_list_filter {A} (P : A -> Prop) (f : A -> bool) (l : list A) :
  Forall P l -> Forall P (List.filter f l).
Proof.
  induction 1 as [|x l Hx Hl IH]; simpl; [constructor|].
  destruct (f x); [by constructor|done].
Qed.

Lemma groupPrefix_group fn st str mx gs :
  groupPrefix (mkSettings fn st (mkGroup str 0 mx :: gs))
  = groupPrefix (mkSettings fn st gs) ++ [KName str].
Proof. by rewrite groupPrefix_cons. Qed.

(** Saving the sources and retrieving them on an unchanged disk: the
    explicit sources come back first, then the files of the auto-filter
    directory; every rule is bound to the position of its source. *)
Lemma registry_round_trip `{QtConversions} `{AutoFilterDir} (fuel : nat)
    (r : list NamedFilterSet) (s : QSettings) (w : World) :
  Forall (agrees_with_file w) r ->
  Forall (fun namedSet => missing namedSet = false) (auto_sets r) ->
  autoFilterDir_entries (files w) = map filename (auto_sets r) ->
  exists s1 w',
    LoadedFilterSets_saveToStorage r s w = Some (s1, w)
    /\ LoadedFilterSets_retrieveFromStorage fuel s1 w = Some (s1, w')
    /\ registry w' = reloaded_sets 0 (explicit_sets r ++ auto_sets r)
    /\ files w' = files w /\ log w' = log w /\ asked w' = asked w.
Proof.
  intros Hagree Hpresent Hentries.
  destruct (LoadedFilterSets_saveToStorage_spec r s w)
    as (st' & Hsave & Hver & Hsize & Hsets).
  destruct s as [fn st gs]. cbn [s_fileName s_groups] in Hsave.
  set (P := groupPrefix (mkSettings fn st gs)) in *.
  set (e := explicit_sets r) in *.
  eexists _, _. split; [exact Hsave|].
  unfold LoadedFilterSets_retrieveFromStorage.
  unfold bind at 1. unfold put_registry.
  set (w0 := mkWorld [] _ _ _ _).
  set (s1 := beginGroup "LoadedFilterSets" (mkSettings fn st' gs)).
  assert (Hp1 : groupPrefix s1 = P ++ [KName "LoadedFilterSets"]).
  { unfold s1, beginGroup. cbn [s_fileName s_store s_groups].
    by rewrite groupPrefix_group. }
  assert (Hversion : value s1 ["version"] VInvalid = VInt LOADED_FILTERSET_VERSION).
  { rewrite value_field, Hp1. cbn [s1 beginGroup s_store].
    rewrite <- app_assoc. cbn [app]. by rewrite Hver. }
  rewrite Hversion. cbn [QVariant_eq_int]. rewrite Z.eqb_refl.
  assert (Hread : beginReadArray "sets" s1
                  = (size e, mkSettings fn st'
                               (mkGroup "sets" 0 (-1)
                                  :: mkGroup "LoadedFilterSets" 0 (-1) :: gs))).
  { unfold beginReadArray. cbn [s1 beginGroup s_fileName s_store s_groups].
    f_equal. rewrite value_field. rewrite !groupPrefix_group.
    change (groupPrefix (mkSettings fn st' gs)) with P.
    cbn [s_store]. rewrite <- !app_assoc. cbn [app]. by rewrite Hsize. }
  rewrite Hread. cbn [fst snd].
  assert (Hlen : Z.to_nat (size e) = List.length e) by (unfold size; lia).
  rewrite Hlen.
  destruct (LoadedFilterSets_retrieve_loop_spec fuel (registry w) e 0 fn st' "sets" 0
              (mkGroup "LoadedFilterSets" 0 (-1) :: gs) false w0 ltac:(done))
    as [num' Hloop].
  { intros k ns Hns. destruct (Hsets k ns Hns) as [Hname Hholds].
    rewrite groupPrefix_group. change (groupPrefix (mkSettings fn st' gs)) with P.
    rewrite <- !app_assoc. cbn [app]. split; [exact Hname|].
    exact Hholds. }
  { apply Forall_list_filter. exact Hagree. }
  unfold bind at 1. unfold bind at 1. unfold bind at 1. rewrite Hloop.
  cbn [fst snd ret endArray endGroup s_groups s_fileName s_store g_maxNum].
  rewrite Z.eqb_refl. cbn [negb tail s_groups s_fileName s_store].
  unfold bind at 1. unfold bind at 1.
  cbn [files set_registry w0]. rewrite Hentries.
  rewrite LoadedFilterSets_auto_loop_spec.
  2:{ apply Forall_forall. intros ns Hns. split.
      - by apply (proj1 (Forall_forall _ _) Hpresent).
      - assert (Hin : ns ∈ r).
        { apply list_elem_of_In. apply list_elem_of_In in Hns.
          unfold auto_sets in Hns. by apply filter_In in Hns as [? _]. }
        pose proof (proj1 (Forall_forall _ _) Hagree ns Hin) as Ha.
        unfold agrees_with_file in Ha.
        rewrite (proj1 (Forall_forall _ _) Hpresent ns Hns) in Ha. exact Ha. }
  cbn [ret set_registry registry files log replies asked w0].
  split; [reflexivity|]. cbn [registry files log asked].
  split_and!; try done.
  cbn [registry set_registry app].
  rewrite reloaded_sets_app. rewrite size_reloaded_sets. by rewrite Z.add_0_l.
Qed.

(** ** Saving and retrieving *)

(** C7, as stated, fails: with the same file registered twice, a working
    entry taken from the second registration (origin 1) comes back bound to
    the first (origin 0): the stored binding is the file name, and retrieval
    takes the first source with that name. *)
Lemma duplicate_source_rebinds_counterexample :
  map origin ex_duplicate_working_set = [1]
  /\ (fun r => map origin r.1.1)
       <$> (s1 <- FilterSet_saveToStorage ex_duplicate_working_set
                                          ex_empty_settings true ;;
            FilterSet_retrieveFromStorage 0 s1 (-1))%world ex_duplicate_world
     = Some [0].
Proof. split; [reflexivity | vm_compute; reflexivity]. Qed.

Lemma reloaded_sets_same (l : list NamedFilterSet) :
  forall i, positioned_from i l -> Forall2 same_source (reloaded_sets i l) l.
Proof.
  induction l as [|ns l IH]; intros i Hpos; [constructor|].
  destruct Hpos as [Hns Hpos]. simpl. constructor; [|by apply IH].
  split_and!; [done|done|]. cbn [set].
  induction Hns as [|f fs [Ho Hoff] _ IHfs]; [constructor|].
  simpl. constructor; [|exact IHfs]. by apply same_rule_reloaded.
Qed.

(** C7 (amended).  Saving and then retrieving from the same storage, on an
    unchanged disk.

    Working set: when every bound entry refers to the first registered
    source with its (non-empty) file name, at an offset inside that source
    or at any offset of a missing source, and every unbound entry has no
    offset, FilterSet::saveToStorage with origins followed by
    FilterSet::retrieveFromStorage returns the entries in the same order
    with the same pattern, case-sensitivity, colours, origin and offset;
    the registry keeps its sources, up to entries hosted in missing ones.

    Registry: when every source agrees with the disk (no file for a missing
    source, otherwise a file holding its rules), the auto-filter directory
    lists the files of the sources that are not saved, and the rules are
    bound to the positions of their sources (the saved sources first),
    LoadedFilterSets::saveToStorage followed by
    LoadedFilterSets::retrieveFromStorage asks nothing and rebuilds these
    sources in this order, with the same names, missing flags and rules
    (pattern, case-sensitivity, colours, origin and offset). *)
Theorem save_retrieve_round_trip `{QtConversions} `{AutoFilterDir} (fuel : nat)
    (l : list Filter) (r : list NamedFilterSet) (s : QSettings) (w : World) :
  Forall (valid_binding (registry w)) l ->
  Forall (agrees_with_file w) r ->
  Forall (fun namedSet => missing namedSet = false) (auto_sets r) ->
  autoFilterDir_entries (files w) = map filename (auto_sets r) ->
  positioned_from 0 (explicit_sets r ++ auto_sets r) ->
  (exists s1 l' w',
     FilterSet_saveToStorage l s true w = Some (s1, w)
     /\ FilterSet_retrieveFromStorage fuel s1 (-1) w = Some ((l', s1), w')
     /\ Forall2 same_rule l' l
     /\ registry_hosts (registry w) (registry w')
     /\ log w' = log w /\ files w' = files w)
  /\ (exists s1 w',
       LoadedFilterSets_saveToStorage r s w = Some (s1, w)
       /\ LoadedFilterSets_retrieveFromStorage fuel s1 w = Some (s1, w')
       /\ Forall2 same_source (registry w') (explicit_sets r ++ auto_sets r)
       /\ files w' = files w /\ log w' = log w /\ asked w' = asked w).
Proof.
  intros Hvalid Hagree Hpresent Hentries Hpos. split.
  - by apply working_set_round_trip.
  - destruct (registry_round_trip fuel r s w Hagree Hpresent Hentries)
      as (s1 & w' & Hsave & Hload & Hreg & Hrest).
    exists s1, w'. split_and!; [exact Hsave | exact Hload | | | | ]; try apply Hrest.
    rewrite Hreg. by apply reloaded_sets_same.
Qed.

Lemma save_retrieve_round_trip_witness :
  (exists s1 l' w',
     FilterSet_saveToStorage ex_working_set ex_empty_settings true ex_session_world
     = Some (s1, ex_session_world)
     /\ FilterSet_retrieveFromStorage 0 s1 (-1) ex_session_world
        = Some ((l', s1), w')
     /\ Forall2 same_rule l' ex_working_set
     /\ registry_hosts (registry ex_session_world) (registry w')
     /\ log w' = log ex_session_world /\ files w' = files ex_session_world)
  /\ (exists s1 w',
       LoadedFilterSets_saveToStorage (registry ex_session_world)
                                      ex_empty_settings ex_session_world
       = Some (s1, ex_session_world)
       /\ LoadedFilterSets_retrieveFromStorage 0 s1 ex_session_world
          = Some (s1, w')
       /\ Forall2 same_source (registry w')
                  (explicit_sets (registry ex_session_world)
                   ++ auto_sets (registry ex_session_world))
       /\ files w' = files ex_session_world /\ log w' = log ex_session_world
       /\ asked w' = asked ex_session_world).
Proof.
  apply (save_retrieve_round_trip 0 ex_working_set (registry ex_session_world)
           ex_empty_settings ex_session_world).
  - repeat apply Forall_cons_2; [| |apply Forall_nil_2].
    + right. eexists. split_and!.
      * reflexivity.
      * discriminate.
      * intros j n' Hj. change (0 <= j < 0) in Hj. lia.
      * change (0 <= 0). lia.
      * right. vm_compute. reflexivity.
    + left. split; [reflexivity | vm_compute; reflexivity].
  - repeat apply Forall_cons_2; [| |apply Forall_nil_2];
      apply agrees_with_file_b_sound; vm_compute; reflexivity.
  - vm_compute. repeat constructor.
  - vm_compute. reflexivity.
  - vm_compute. repeat constructor.
Defined.

(** * Further properties of the filter sets *)

(** ** Matching *)

(** X1.  FilterSet::matchLine on a list followed by another: the second
    list decides only the lines that no filter of the first matches, so
    filters appended to a set never change the colours of a line that an
    earlier filter matches. *)
Theorem matchLine_append `{RegexEngine} (l1 l2 : list Filter) (line : string)
    (foreColor backColor : QColor) :
  matchLine (l1 ++ l2) line foreColor backColor
  = if (matchLine l1 line foreColor backColor).1.1
    then matchLine l1 line foreColor backColor
    else matchLine l2 line foreColor backColor.
Proof.
  induction l1 as [|f l1 IH]; [done|].
  simpl. destruct (hasMatch f line); [done|]. exact IH.
Qed.

(** X2.  Two filter lists that compare equal with [QList<Filter>::operator==]
    colour every line alike: FilterSet::matchLine reads the regular
    expression and the two colour names of a filter and nothing else
    (neither [enabled_] nor the origin and offset). *)
Theorem matchLine_equal_lists `{RegexEngine} (a b : list Filter) (line : string)
    (foreColor backColor : QColor) :
  FilterList_eq a b = true ->
  matchLine a line foreColor backColor = matchLine b line foreColor backColor.
Proof.
  revert b. induction a as [|f a IH]; intros [|g b] Heq; try done.
  simpl in Heq. apply andb_true_iff in Heq as [Hfg Hab].
  unfold Filter_eq in Hfg. rewrite !andb_true_iff in Hfg.
  destruct Hfg as [[Hre Hfore] Hback].
  apply QRegularExpression_eq_true in Hre.
  apply bool_decide_eq_true in Hfore, Hback.
  simpl. unfold hasMatch, foreColorName, backColorName.
  rewrite Hre, Hfore, Hback. destruct (regex_hasMatch (regexp_ g) line); [done|].
  by apply IH.
Qed.

Lemma matchLine_equal_lists_witness :
  FilterList_eq [Filter_new "disk" true "white" "red" (-1) (-1)]
                [Filter_new "disk" true "white" "red" 2 5] = true
  /\ @matchLine ReferenceEngine.engine
       [Filter_new "disk" true "white" "red" (-1) (-1)] "DISK full"
       (CallerColor 0) (CallerColor 1)
     = @matchLine ReferenceEngine.engine
         [Filter_new "disk" true "white" "red" 2 5] "DISK full"
         (CallerColor 0) (CallerColor 1).
Proof.
  split; [reflexivity|].
  apply (@matchLine_equal_lists ReferenceEngine.engine). reflexivity.
Defined.

(** ** Retrieval from a store that does not hold the expected entries *)

(** X3.  Filter::retrieveFromStorage on a group that has none of the six
    entries: the filter comes back with an empty pattern (case-sensitive),
    empty colour names and no offset; its origin is the one the caller
    passed, or none.  Nothing is logged and the registry is not touched. *)
Theorem Filter_retrieve_missing_keys `{QtConversions} (fuel : nat) (this : Filter)
    (s : QSettings) (origin : Z) (w : World) :
  (forall fld,
     fld ∈ ["regexp"; "ignore_case"; "fore_colour"; "back_colour"; "origin";
            "loaded_offset"] ->
     s_store s !! (groupPrefix s ++ [KName fld]) = None) ->
  Filter_retrieveFromStorage fuel this s origin w
  = Some (mkFilter (mkRegExp "" (getPatternOptions false)) "" "" (enabled_ this)
                   (if 0 <=? origin then origin else -1) (-1), w).
Proof.
  intros Hnone.
  assert (Hval : forall fld d,
            fld ∈ ["regexp"; "ignore_case"; "fore_colour"; "back_colour"; "origin";
                   "loaded_offset"] ->
            value s [fld] d = d).
  { intros fld d Hfld. rewrite value_field. by rewrite Hnone. }
  unfold Filter_retrieveFromStorage, Filter_retrieveFromStorage_in, read_fields.
  rewrite !Hval by set_solver. cbn [toString toInt toBool].
  rewrite bool_decide_eq_true_2 by done. cbn [negb].
  unfold bind, ret. cbn [fst snd]. unfold check_origin, setOrigin.
  cbn [origin_ loaded_offset_ regexp_ foreColorName_ backColorName_ enabled_].
  destruct (0 <=? origin) eqn:Ho; simpl; unfold bind, ret; simpl; done.
Qed.

Lemma Filter_retrieve_missing_keys_witness :
  Filter_retrieveFromStorage 0 Filter_default ex_empty_settings (-1) ex_world
  = Some (mkFilter (mkRegExp "" (getPatternOptions false)) "" "" None (-1) (-1),
          ex_world).
Proof.
  apply (Filter_retrieve_missing_keys 0 Filter_default ex_empty_settings (-1)
           ex_world).
  intros fld _. reflexivity.
Defined.

(** X4.  FilterSet::retrieveFromStorage on a store whose ["FilterSet/version"]
    is present but is not [FILTERSET_VERSION]: the list comes back empty,
    one error is logged, and the settings object (store and group stack)
    is as before; no filter is read. *)
Theorem FilterSet_retrieve_unknown_version `{QtConversions} (fuel : nat)
    (s : QSettings) (origin : Z) (w : World) (v : QVariant) :
  s_store s !! (groupPrefix s ++ [KName "FilterSet"; KName "version"]) = Some v ->
  QVariant_eq_int v FILTERSET_VERSION = false ->
  FilterSet_retrieveFromStorage fuel s origin w
  = Some (([], s),
          add_log (logERROR, [Txt "Unknown version of FilterSet, ignoring it..."])
                  w).
Proof.
  intros Hv Hne. rewrite FilterSet_retrieveFromStorage_unfold.
  unfold FilterSet_retrieveFromStorage_in.
  assert (Hcontains : contains s ["FilterSet"; "version"] = true).
  { unfold contains, actualKey. apply bool_decide_eq_true_2.
    cbn [names map]. rewrite Hv. by eexists. }
  rewrite Hcontains.
  assert (Hvalue : value (beginGroup "FilterSet" s) ["version"] VInvalid = v).
  { destruct s as [fn st gs]. rewrite value_field.
    unfold beginGroup. cbn [s_fileName s_store s_groups].
    rewrite groupPrefix_group. rewrite <- app_assoc. cbn [app].
    cbn [s_store] in Hv. by rewrite Hv. }
  rewrite Hvalue, Hne. unfold bind, LOG, ret, add_log. cbn [fst snd].
  by destruct s.
Qed.

Lemma FilterSet_retrieve_unknown_version_witness :
  FilterSet_retrieveFromStorage 0
    (mkSettings "glogg.ini"
       {[ [KName "FilterSet"; KName "version"] := VInt 2 ]} [])
    (-1) ex_world
  = Some (([], mkSettings "glogg.ini"
                 {[ [KName "FilterSet"; KName "version"] := VInt 2 ]} []),
          add_log (logERROR, [Txt "Unknown version of FilterSet, ignoring it..."])
                  ex_world).
Proof.
  apply (FilterSet_retrieve_unknown_version 0 _ (-1) ex_world (VInt 2));
    reflexivity.
Defined.

(** ** Migration of the legacy format *)

Lemma value_FilterSet_unbound (v : QVariant) :
  Forall (fun f => origin_ f = -1 /\ loaded_offset_ f = -1) (value_FilterSet v).
Proof.
  destruct v; simpl; try constructor.
  induction l as [|t l IH]; simpl; constructor; done.
Qed.

(** X5.  FilterSet::retrieveFromStorage on a store without
    ["FilterSet/version"] takes the legacy path: it returns the filters
    decoded from the ["filterSet"] entry (none when there is no such
    entry), all without origin and offset whatever origin the caller
    passed; it removes that entry, writes the list in the current format
    and syncs the file; the registry is not touched.  A second retrieval
    from the migrated settings reads the current format and returns the
    same rules without logging or writing anything. *)
Theorem FilterSet_retrieve_legacy `{QtConversions} (fuel : nat) (s : QSettings)
    (origin : Z) (w : World) :
  s_store s !! (groupPrefix s ++ [KName "FilterSet"; KName "version"]) = None ->
  exists s1 w1,
    FilterSet_retrieveFromStorage fuel s origin w
    = Some ((value_FilterSet (value s ["filterSet"] VInvalid), s1), w1)
    /\ s_fileName s1 = s_fileName s /\ s_groups s1 = s_groups s
    /\ s_store s1 !! (groupPrefix s ++ [KName "filterSet"]) = None
    /\ holds_set (s_store s1) (groupPrefix s)
                 (value_FilterSet (value s ["filterSet"] VInvalid)) true
                 (registry w)
    /\ Forall (fun f => origin_ f = -1 /\ loaded_offset_ f = -1)
              (value_FilterSet (value s ["filterSet"] VInvalid))
    /\ registry w1 = registry w
    /\ files w1 = <[s_fileName s := s_store s1]> (files w)
    /\ exists l2 w2,
         FilterSet_retrieveFromStorage fuel s1 (-1) w1 = Some ((l2, s1), w2)
         /\ Forall2 same_rule l2 (value_FilterSet (value s ["filterSet"] VInvalid))
         /\ log w2 = log w1 /\ files w2 = files w1.
Proof.
  intros Hnone.
  set (l := value_FilterSet (value s ["filterSet"] VInvalid)).
  pose proof (value_FilterSet_unbound (value s ["filterSet"] VInvalid)) as Hunbound.
  fold l in Hunbound.
  rewrite FilterSet_retrieveFromStorage_unfold.
  unfold FilterSet_retrieveFromStorage_in.
  assert (Hcontains : contains s ["FilterSet"; "version"] = false).
  { unfold contains, actualKey. apply bool_decide_eq_false_2.
    cbn [names map]. rewrite Hnone. by intros [? ?]. }
  rewrite Hcontains. fold l.
  unfold bind at 1. unfold LOG at 1. unfold bind at 1. unfold LOG at 1.
  set (w0 := mkWorld _ _ _ _ _).
  destruct (FilterSet_saveToStorage_spec l (remove ["filterSet"] s) true w0)
    as (st' & Hsave & Hholds & Hframe).
  { intros _ f Hf Hne. apply (proj1 (Forall_forall _ _) Hunbound) in Hf. tauto. }
  rewrite (bind_Some _ _ _ _ _ Hsave).
  unfold bind, QSettings_sync, ret.
  cbn [s_fileName s_store s_groups remove files registry log replies asked w0]
    in *.
  set (s1 := mkSettings (s_fileName s) st' (s_groups s)).
  change (groupPrefix (remove ["filterSet"] s)) with (groupPrefix s) in Hholds, Hframe.
  eexists s1, _. split; [reflexivity|].
  assert (Hrules : Forall (valid_binding (registry w)) l).
  { eapply Forall_impl; [exact Hunbound|]. intros f [Ho Hoff]. left. lia. }
  split_and!; try done.
  - cbn [s1 s_store]. rewrite Hframe.
    + rewrite remove_under_lookup. by rewrite decide_True.
    + intros [rest Hrest]. rewrite <- app_assoc in Hrest.
      apply app_inv_head in Hrest. simpl in Hrest. congruence.
  - set (w1 := mkWorld _ _ _ _ _).
    destruct (FilterSet_retrieve_bound (nested_load fuel) l s1 w1 Hrules)
      as (w2 & Hrun & _ & Hlog & Hfiles & _); [exact Hholds|].
    exists (map reloaded_same l), w2.
    rewrite FilterSet_retrieveFromStorage_unfold.
    split_and!; [done| |done|done].
    apply Forall2_fmap_l, Forall_Forall2_diag, Forall_forall.
    intros f _. by apply same_rule_reloaded.
Qed.

Lemma FilterSet_retrieve_legacy_witness :
  exists s1 w1 l2 w2,
    FilterSet_retrieveFromStorage 0 ex_legacy_settings (-1) ex_world
    = Some (([mkFilter (mkRegExp "ERROR" NoPatternOption) "white" "red" None
                       (-1) (-1)], s1), w1)
    /\ s_store s1 !! [KName "filterSet"] = None
    /\ FilterSet_retrieveFromStorage 0 s1 (-1) w1 = Some ((l2, s1), w2)
    /\ Forall2 same_rule l2
         [mkFilter (mkRegExp "ERROR" NoPatternOption) "white" "red" None (-1) (-1)].
Proof.
  destruct (FilterSet_retrieve_legacy 0 ex_legacy_settings (-1) ex_world)
    as (s1 & w1 & Hrun & _ & _ & Hgone & _ & _ & _ & _ & l2 & w2 & Hagain & Hsame & _).
  - reflexivity.
  - exists s1, w1, l2, w2. split_and!; [exact Hrun|exact Hgone|exact Hagain|exact Hsame].
Defined.

(** ** Persisting and restoring a session *)

Lemma holds_registry_frame st st' P e r :
  (forall k, (P ++ [KName "LoadedFilterSets"]) `prefix_of` k -> st' !! k = st !! k) ->
  holds_registry st P e r -> holds_registry st' P e r.
Proof.
  intros Hframe (Hver & Hsize & Hsets).
  assert (Hunder : forall rest, st' !! (P ++ KName "LoadedFilterSets" :: rest)
                                = st !! (P ++ KName "LoadedFilterSets" :: rest)).
  { intros rest. apply Hframe. exists rest. by rewrite <- app_assoc. }
  split_and!.
  - by rewrite Hunder.
  - by rewrite Hunder.
  - intros i ns Hns. destruct (Hsets i ns Hns) as [Hname Hholds]. split.
    + by rewrite Hunder.
    + apply (holds_set_frame st); [|done].
      intros k [rest ->]. rewrite <- !app_assoc. cbn [app]. apply Hunder.
Qed.

Lemma at_reloaded_sets (l : list NamedFilterSet) :
  forall i j,
    at_ (reloaded_sets i l) j
    = (fun namedSet =>
         mkNamed (filename namedSet)
                 (map (reloaded (i + j) (-1)) (set namedSet)) (missing namedSet))
      <$> at_ l j.
Proof.
  induction l as [|ns l IH]; intros i j.
  - unfold at_. case_decide; [|done]. by rewrite !lookup_nil.
  - destruct (decide (j = 0)) as [->|Hj].
    + cbn [reloaded_sets]. rewrite !at_cons_0, Z.add_0_r. done.
    + destruct (decide (0 < j)) as [Hpos|Hneg].
      * cbn [reloaded_sets]. rewrite !at_cons_S by done. rewrite IH.
        by replace (i + 1 + (j - 1)) with (i + j) by lia.
      * unfold at_. by rewrite !decide_False by lia.
Qed.

Lemma valid_binding_reloaded_sets r f :
  valid_binding r f -> valid_binding (reloaded_sets 0 r) f.
Proof.
  intros [Hunbound|(n & Hn & Hname & Hfirst & Hoff & Hrange)]; [by left|].
  right. eexists. rewrite at_reloaded_sets, Hn. split_and!; [done|done| |done|].
  - intros j n' Hj. rewrite at_reloaded_sets.
    destruct (at_ r j) as [m|] eqn:Hm; [|done].
    intros [= <-]. cbn [filename]. by apply (Hfirst j m).
  - cbn [missing set]. destruct Hrange as [Hmissing|Hlt]; [by left|right].
    change (map ?g ?l) with (g <$> l). by rewrite size_fmap.
Qed.

Lemma origin_name_reloaded_sets r f :
  origin_name (reloaded_sets 0 r) f = origin_name r f.
Proof.
  unfold origin_name. destruct (origin_ f =? -1); [done|].
  rewrite at_reloaded_sets. by destruct (at_ r (origin_ f)).
Qed.

Lemma holds_set_reloaded_sets st P l b r :
  holds_set st P l b r -> holds_set st P l b (reloaded_sets 0 r).
Proof.
  intros (Hver & Hsize & Helems). split_and!; [done|done|].
  intros i f Hf. rewrite origin_name_reloaded_sets. by apply Helems.
Qed.

(** LoadedFilterSets::retrieveFromStorage from a store that holds the
    sources [e], on a disk that agrees with them and whose auto-filter
    directory holds the sources [a]. *)
Lemma LoadedFilterSets_retrieve_holds `{QtConversions} `{AutoFilterDir}
    (fuel : nat) (s : QSettings) (w : World) (e a r0 : list NamedFilterSet) :
  holds_registry (s_store s) (groupPrefix s) e r0 ->
  Forall (agrees_with_file w) e ->
  Forall (fun namedSet => missing namedSet = false
                          /\ file_holds w (filename namedSet) (set namedSet)) a ->
  autoFilterDir_entries (files w) = map filename a ->
  LoadedFilterSets_retrieveFromStorage fuel s w
  = Some (s, set_registry (reloaded_sets 0 (e ++ a)) w).
Proof.
  intros (Hver & Hsize & Hsets) Hagree Hauto Hentries.
  destruct s as [fn st gs]. cbn [s_store] in Hver, Hsize, Hsets.
  set (P := groupPrefix (mkSettings fn st gs)) in *.
  unfold LoadedFilterSets_retrieveFromStorage.
  unfold bind at 1. unfold put_registry.
  set (w0 := mkWorld [] _ _ _ _).
  set (s1 := beginGroup "LoadedFilterSets" (mkSettings fn st gs)).
  assert (Hp1 : groupPrefix s1 = P ++ [KName "LoadedFilterSets"]).
  { unfold s1, beginGroup. cbn [s_fileName s_store s_groups].
    by rewrite groupPrefix_group. }
  assert (Hversion : value s1 ["version"] VInvalid = VInt LOADED_FILTERSET_VERSION).
  { rewrite value_field, Hp1. cbn [s1 beginGroup s_store].
    rewrite <- app_assoc. cbn [app]. by rewrite Hver. }
  rewrite Hversion. cbn [QVariant_eq_int]. rewrite Z.eqb_refl.
  assert (Hread : beginReadArray "sets" s1
                  = (size e, mkSettings fn st
                               (mkGroup "sets" 0 (-1)
                                  :: mkGroup "LoadedFilterSets" 0 (-1) :: gs))).
  { unfold beginReadArray. cbn [s1 beginGroup s_fileName s_store s_groups].
    f_equal. rewrite value_field. rewrite !groupPrefix_group.
    change (groupPrefix (mkSettings fn st gs)) with P.
    cbn [s_store]. rewrite <- !app_assoc. cbn [app]. by rewrite Hsize. }
  rewrite Hread. cbn [fst snd].
  assert (Hlen : Z.to_nat (size e) = List.length e) by (unfold size; lia).
  rewrite Hlen.
  destruct (LoadedFilterSets_retrieve_loop_spec fuel r0 e 0 fn st "sets" 0
              (mkGroup "LoadedFilterSets" 0 (-1) :: gs) false w0 ltac:(done))
    as [num' Hloop].
  { intros k ns Hns. destruct (Hsets k ns Hns) as [Hname Hholds].
    rewrite groupPrefix_group. change (groupPrefix (mkSettings fn st gs)) with P.
    rewrite <- !app_assoc. cbn [app]. split; [exact Hname|].
    exact Hholds. }
  { exact Hagree. }
  unfold bind at 1. unfold bind at 1. unfold bind at 1. rewrite Hloop.
  cbn [fst snd ret endArray endGroup s_groups s_fileName s_store g_maxNum].
  rewrite Z.eqb_refl. cbn [negb tail s_groups s_fileName s_store].
  unfold bind at 1. unfold bind at 1.
  cbn [files set_registry w0]. rewrite Hentries.
  rewrite LoadedFilterSets_auto_loop_spec by exact Hauto.
  cbn [ret set_registry registry files log replies asked w0 app].
  rewrite reloaded_sets_app, size_reloaded_sets, Z.add_0_l. done.
Qed.

(** X6.  A session persisted and restored through one settings object.
    The registry is saved with LoadedFilterSets::saveToStorage and the
    working set with FilterSet::saveToStorage (in this order, as the
    dialog does on accept); then the registry is retrieved and, against
    the retrieved registry, the working set.  When the sources stand in
    load order (the saved ones first, then those of the auto-filter
    directory) and agree with the disk, and the bindings of the working set
    are valid, the second save leaves the stored registry intact, the
    registry comes back with the same sources at the same positions, and the
    working set comes back with the same rules and bindings; nothing is
    asked or logged and no file changes. *)
Theorem session_save_retrieve `{QtConversions} `{AutoFilterDir} (fuel : nat)
    (l : list Filter) (s : QSettings) (w : World) :
  Forall (valid_binding (registry w)) l ->
  Forall (agrees_with_file w) (registry w) ->
  Forall (fun namedSet => missing namedSet = false) (auto_sets (registry w)) ->
  autoFilterDir_entries (files w) = map filename (auto_sets (registry w)) ->
  registry w = explicit_sets (registry w) ++ auto_sets (registry w) ->
  exists s1 s2 w1 l' w2,
    LoadedFilterSets_saveToStorage (registry w) s w = Some (s1, w)
    /\ FilterSet_saveToStorage l s1 true w = Some (s2, w)
    /\ LoadedFilterSets_retrieveFromStorage fuel s2 w = Some (s2, w1)
    /\ registry w1 = reloaded_sets 0 (registry w)
    /\ FilterSet_retrieveFromStorage fuel s2 (-1) w1 = Some ((l', s2), w2)
    /\ Forall2 same_rule l' l
    /\ registry_hosts (registry w1) (registry w2)
    /\ files w2 = files w /\ log w2 = log w /\ asked w2 = asked w.
Proof.
  intros Hvalid Hagree Hpresent Hentries Horder.
  destruct (LoadedFilterSets_saveToStorage_spec (registry w) s w)
    as (st1 & Hsave1 & Hreg).
  set (s1 := mkSettings (s_fileName s) st1 (s_groups s)) in *.
  destruct (FilterSet_saveToStorage_spec l s1 true w)
    as (st2 & Hsave2 & Hset & Hframe).
  { intros _ f Hf Hne. apply valid_binding_registered; [|done].
    by apply (proj1 (Forall_forall _ _) Hvalid). }
  cbn [s1 s_fileName s_groups s_store] in Hsave2, Hframe.
  change (groupPrefix s1) with (groupPrefix s) in Hset, Hframe.
  set (s2 := mkSettings (s_fileName s) st2 (s_groups s)) in *.
  assert (Hreg2 : holds_registry st2 (groupPrefix s) (explicit_sets (registry w))
                                 (registry w)).
  { apply (holds_registry_frame st1); [|exact Hreg].
    intros k [rest ->]. apply Hframe. intros [rest' Hrest].
    rewrite <- !app_assoc in Hrest. apply app_inv_head in Hrest.
    simpl in Hrest. congruence. }
  assert (Hload : LoadedFilterSets_retrieveFromStorage fuel s2 w
                  = Some (s2, set_registry
                                (reloaded_sets 0 (explicit_sets (registry w)
                                                  ++ auto_sets (registry w))) w)).
  { apply (LoadedFilterSets_retrieve_holds fuel s2 w _ _ (registry w)).
    - exact Hreg2.
    - apply Forall_list_filter. exact Hagree.
    - apply Forall_forall. intros ns Hns. split.
      + by apply (proj1 (Forall_forall _ _) Hpresent).
      + assert (Hin : ns ∈ registry w).
        { apply list_elem_of_In. apply list_elem_of_In in Hns.
          unfold auto_sets in Hns. by apply filter_In in Hns as [? _]. }
        pose proof (proj1 (Forall_forall _ _) Hagree ns Hin) as Ha.
        unfold agrees_with_file in Ha.
        rewrite (proj1 (Forall_forall _ _) Hpresent ns Hns) in Ha. exact Ha.
    - exact Hentries. }
  rewrite <- Horder in Hload.
  set (w1 := set_registry (reloaded_sets 0 (registry w)) w) in *.
  destruct (FilterSet_retrieve_bound (nested_load fuel) l s2 w1)
    as (w2 & Hrun & Hhosts & Hlog & Hfiles & _ & Hasked).
  { eapply Forall_impl; [exact Hvalid|]. intros f. apply valid_binding_reloaded_sets. }
  { apply holds_set_reloaded_sets. exact Hset. }
  exists s1, s2, w1, (map reloaded_same l), w2.
  rewrite FilterSet_retrieveFromStorage_unfold.
  split_and!; try done.
  apply Forall2_fmap_l, Forall_Forall2_diag, Forall_forall.
  intros f _. by apply same_rule_reloaded.
Qed.

Lemma session_save_retrieve_witness :
  exists s1 s2 w1 l' w2,
    LoadedFilterSets_saveToStorage (registry ex_session_world) ex_empty_settings
                                   ex_session_world
    = Some (s1, ex_session_world)
    /\ FilterSet_saveToStorage ex_working_set s1 true ex_session_world
       = Some (s2, ex_session_world)
    /\ LoadedFilterSets_retrieveFromStorage 0 s2 ex_session_world = Some (s2, w1)
    /\ registry w1 = reloaded_sets 0 (registry ex_session_world)
    /\ FilterSet_retrieveFromStorage 0 s2 (-1) w1 = Some ((l', s2), w2)
    /\ Forall2 same_rule l' ex_working_set
    /\ registry_hosts (registry w1) (registry w2)
    /\ files w2 = files ex_session_world /\ log w2 = log ex_session_world
    /\ asked w2 = asked ex_session_world.
Proof.
  apply (session_save_retrieve 0 ex_working_set ex_empty_settings ex_session_world).
  - repeat apply Forall_cons_2; [| |apply Forall_nil_2].
    + right. eexists. split_and!.
      * reflexivity.
      * discriminate.
      * intros j n' Hj. change (0 <= j < 0) in Hj. lia.
      * change (0 <= 0). lia.
      * right. vm_compute. reflexivity.
    + left. split; [reflexivity | vm_compute; reflexivity].
  - repeat apply Forall_cons_2; [| |apply Forall_nil_2];
      apply agrees_with_file_b_sound; vm_compute; reflexivity.
  - vm_compute. repeat constructor.
  - vm_compute. reflexivity.
  - vm_compute. reflexivity.
Defined.

(** ** What a save leaves in the store *)

(** The store after the loop of FilterSet::saveToStorage has written the
    elements [l] at the array positions [i], [i + 1], ... below [PA]. *)
Fixpoint saved_elements (PA : Key) (l : list Filter) (i : Z) (b : bool)
    (r : list NamedFilterSet) (st : Store) : Store :=
  match l with
  | [] => st
  | f :: rest =>
      saved_elements PA rest (i + 1) b r
        (saved_fields (PA ++ [KIndex (i + 1)]) f b (origin_name r f) st)
  end.

Lemma FilterSet_save_loop_store (l : list Filter) (b : bool) (w : World) :
  (b = true -> forall f, f ∈ l -> origin_ f <> -1 ->
               is_Some (at_ (registry w) (origin_ f))) ->
  forall i fn st str num gs,
    0 <= i ->
    exists num',
      FilterSet_save_loop l i (mkSettings fn st (mkGroup str num i :: gs)) b w
      = Some (mkSettings fn
                (saved_elements (groupPrefix (mkSettings fn st gs) ++ [KName str])
                                l i b (registry w) st)
                (mkGroup str num' (i + size l) :: gs), w).
Proof.
  induction l as [|f l IH]; intros Hreg i fn st str num gs Hi.
  - exists num. simpl. change (size []) with 0. by rewrite Z.add_0_r.
  - simpl. rewrite setArrayIndex_groups by done.
    rewrite (bind_Some _ _ _ _ _ (Filter_saveToStorage_spec f _ b w
               ltac:(intros Hb Ho; apply Hreg; [done|apply list_elem_of_here|done]))).
    cbn [s_store s_fileName s_groups].
    rewrite groupPrefix_array by done.
    destruct (IH ltac:(intros Hb g Hg; apply Hreg; [done|by apply list_elem_of_further])
                 (i + 1) fn
                 (saved_fields ((groupPrefix (mkSettings fn st gs) ++ [KName str])
                                ++ [KIndex (i + 1)]) f b
                               (origin_name (registry w) f) st)
                 str (i + 1) gs ltac:(lia))
      as [num' Hrun].
    exists num'. rewrite Hrun. rewrite size_cons.
    by replace (i + 1 + size l) with (i + (1 + size l)) by lia.
Qed.

(** Two stores that agree on a set of keys still do after the same write. *)
Definition agree_on (Q : Key -> Prop) (a b : Store) : Prop :=
  forall k, Q k -> a !! k = b !! k.

Lemma agree_on_insert Q a b k v :
  agree_on Q a b -> agree_on Q (<[k := v]> a) (<[k := v]> b).
Proof.
  intros Hab k' Hk'. destruct (decide (k = k')) as [->|Hne].
  - by rewrite !lookup_insert_eq.
  - rewrite !lookup_insert_ne by done. by apply Hab.
Qed.

Lemma agree_on_remove_under Q p a b :
  agree_on Q a b -> agree_on Q (remove_under p a) (remove_under p b).
Proof.
  intros Hab k Hk. rewrite !remove_under_lookup. case_decide; [done|]. by apply Hab.
Qed.

Lemma agree_on_saved_fields Q E f bo name a b :
  agree_on Q a b ->
  agree_on Q (saved_fields E f bo name a) (saved_fields E f bo name b).
Proof.
  intros Hab. unfold saved_fields. destruct bo; repeat apply agree_on_insert; done.
Qed.

Lemma agree_on_saved_elements Q PA l bo r :
  forall i a b,
    agree_on Q a b ->
    agree_on Q (saved_elements PA l i bo r a) (saved_elements PA l i bo r b).
Proof.
  induction l as [|f l IH]; intros i a b Hab; [done|].
  simpl. apply IH. by apply agree_on_saved_fields.
Qed.

(** The store FilterSet::saveToStorage leaves, written out. *)
Lemma FilterSet_saveToStorage_store (l : list Filter) (fn : string) (st : Store)
    (gs : list QSettingsGroup) (b : bool) (w : World) :
  (b = true -> forall f, f ∈ l -> origin_ f <> -1 ->
               is_Some (at_ (registry w) (origin_ f))) ->
  let P1 := groupPrefix (mkSettings fn st gs) ++ [KName "FilterSet"] in
  let PA := P1 ++ [KName "filters"] in
  FilterSet_saveToStorage l (mkSettings fn st gs) b w
  = Some (mkSettings fn
            (<[PA ++ [KName "size"] := VInt (size l)]>
               (saved_elements PA l 0 b (registry w)
                  (remove_under (PA ++ [KName "size"])
                     (<[P1 ++ [KName "version"] := VInt FILTERSET_VERSION]>
                        (remove_under P1 st)))))
            gs, w).
Proof.
  intros Hreg P1 PA. unfold FilterSet_saveToStorage.
  set (P := groupPrefix (mkSettings fn st gs)) in *.
  set (st2 := remove_under P1 st).
  set (st3 := <[P1 ++ [KName "version"] := VInt FILTERSET_VERSION]> st2).
  set (st4 := remove_under (PA ++ [KName "size"]) st3).
  assert (Hs4 : beginWriteArray "filters"
                  (setValue ["version"] (VInt FILTERSET_VERSION)
                     (remove [] (beginGroup "FilterSet" (mkSettings fn st gs))))
                = mkSettings fn st4
                    (mkGroup "filters" 0 0 :: mkGroup "FilterSet" 0 (-1) :: gs)).
  { unfold beginWriteArray, setValue, remove, beginGroup, actualKey. simpl.
    rewrite !groupPrefix_cons. unfold group_key. simpl.
    fold P. fold P1. rewrite app_nil_r. fold st2. fold st3. done. }
  rewrite Hs4.
  destruct (FilterSet_save_loop_store l b w Hreg 0 fn st4 "filters" 0
              (mkGroup "FilterSet" 0 (-1) :: gs) ltac:(done))
    as (num' & Hrun).
  rewrite groupPrefix_group in Hrun.
  change (groupPrefix (mkSettings fn st4 gs)) with P in Hrun.
  fold P1 in Hrun. fold PA in Hrun.
  rewrite (bind_Some _ _ _ _ _ Hrun).
  set (st5 := saved_elements PA l 0 b (registry w) st4).
  rewrite Z.add_0_l. unfold ret, endArray, endGroup, setValue, actualKey. simpl.
  pose proof (size_nonneg l).
  replace (size l =? -1) with false by (symmetry; lia). simpl.
  rewrite groupPrefix_group.
  change (groupPrefix (mkSettings fn st5 gs)) with P. fold P1.
  unfold PA. by rewrite <- !app_assoc.
Qed.

(** X7.  FilterSet::saveToStorage replaces the stored set: what the group
    ["FilterSet"] holds afterwards is the same whatever the store held
    before (no entry of an earlier, longer list survives), no key outside
    the group changes, and the group stack is as it was. *)
Theorem FilterSet_save_replaces_group (l : list Filter) (b : bool) (w : World)
    (s s' : QSettings) :
  s_groups s' = s_groups s ->
  (b = true -> forall f, f ∈ l -> origin_ f <> -1 ->
               is_Some (at_ (registry w) (origin_ f))) ->
  exists st st',
    FilterSet_saveToStorage l s b w
    = Some (mkSettings (s_fileName s) st (s_groups s), w)
    /\ FilterSet_saveToStorage l s' b w
       = Some (mkSettings (s_fileName s') st' (s_groups s), w)
    /\ (forall k, (groupPrefix s ++ [KName "FilterSet"]) `prefix_of` k ->
                  st !! k = st' !! k)
    /\ (forall k, ~ (groupPrefix s ++ [KName "FilterSet"]) `prefix_of` k ->
                  st !! k = s_store s !! k).
Proof.
  intros Hgs Hreg. destruct s as [fn st gs], s' as [fn' st' gs'].
  cbn [s_groups] in Hgs. subst gs'. cbn [s_fileName s_groups s_store].
  set (P1 := groupPrefix (mkSettings fn st gs) ++ [KName "FilterSet"]).
  eexists _, _. split; [by apply FilterSet_saveToStorage_store|].
  split; [by apply FilterSet_saveToStorage_store|].
  change (groupPrefix (mkSettings fn' st' gs)) with (groupPrefix (mkSettings fn st gs)).
  fold P1. split.
  - apply (agree_on_insert (fun k => P1 `prefix_of` k)).
    apply agree_on_saved_elements, agree_on_remove_under, agree_on_insert.
    intros k Hk. rewrite !remove_under_lookup. by rewrite !decide_True.
  - intros k Hk.
    destruct (FilterSet_saveToStorage_spec l (mkSettings fn st gs) b w Hreg)
      as (st1 & Hsave & _ & Hframe).
    rewrite FilterSet_saveToStorage_store in Hsave by done.
    injection Hsave as Hst. fold P1 in Hst. rewrite Hst. by apply Hframe.
Qed.

Lemma FilterSet_save_replaces_group_witness :
  exists st st',
    FilterSet_saveToStorage ex_working_set ex_empty_settings true ex_session_world
    = Some (mkSettings "glogg.ini" st [], ex_session_world)
    /\ FilterSet_saveToStorage ex_working_set ex_registry_settings true
                               ex_session_world
       = Some (mkSettings "glogg.ini" st' [], ex_session_world)
    /\ (forall k, [KName "FilterSet"] `prefix_of` k -> st !! k = st' !! k)
    /\ (forall k, ~ [KName "FilterSet"] `prefix_of` k ->
                  st !! k = s_store ex_empty_settings !! k).
Proof.
  apply (FilterSet_save_replaces_group ex_working_set true ex_session_world
           ex_empty_settings ex_registry_settings).
  - reflexivity.
  - intros _ f Hf Hne.
    apply list_elem_of_In in Hf. simpl in Hf.
    destruct Hf as [<-|[<-|[]]]; [by eexists|done].
Defined.

(** ** Retrieval with an origin passed by the caller *)

(** X8.  Filter::retrieveFromStorage into a fresh filter with a caller
    origin ([0 <= origin], the call made for the entries of a filter file),
    when the entry names no origin file or one that is not registered: the
    call returns the stored pattern, case flag and colours; if the entry
    carries an offset ([0 <= loaded_offset]) one warning is logged and the
    filter has neither origin nor offset, otherwise it gets the caller's
    origin and keeps the stored (negative) offset.  The registry and the
    files are left alone: an unregistered origin file is neither added nor
    loaded. *)
Theorem Filter_retrieve_caller_origin `{QtConversions} (fuel : nat) (this : Filter)
    (s : QSettings) (origin : Z) (w : World) :
  0 <= origin ->
  origin_ this < 0 ->
  stored_origin_file s = ""
  \/ (forall namedSet, namedSet ∈ registry w ->
                       filename namedSet <> stored_origin_file s) ->
  let f := read_fields this s in
  Filter_retrieveFromStorage fuel this s origin w
  = if 0 <=? loaded_offset_ f
    then Some (drop_origin f,
               add_log (logWARNING,
                        [Txt "Loaded filter "; Num origin; Txt ":";
                         Txt (pattern f); Txt " with loaded_offset set to ";
                         Num (loaded_offset_ f)]) w)
    else Some (setOrigin origin f, w).
Proof.
  intros Ho Hthis Hfile f.
  assert (Hcheck : forall g set_,
            origin_ g < 0 -> regexp_ g = regexp_ f ->
            loaded_offset_ g = loaded_offset_ f ->
            foreColorName_ g = foreColorName_ f ->
            backColorName_ g = backColorName_ f -> enabled_ g = enabled_ f ->
            check_origin g set_ s origin w
            = if 0 <=? loaded_offset_ f
              then Some (drop_origin f,
                         add_log (logWARNING,
                                  [Txt "Loaded filter "; Num origin; Txt ":";
                                   Txt (pattern f);
                                   Txt " with loaded_offset set to ";
                                   Num (loaded_offset_ f)]) w)
              else Some (setOrigin origin f, w)).
  { intros g set_ Hg Hre Hoff Hfc Hbc Hen. unfold check_origin.
    replace (0 <=? origin) with true by (symmetry; lia).
    replace (0 <=? origin_ g) with false by (symmetry; lia).
    unfold bind at 1. unfold ret at 1. rewrite Hoff.
    destruct (0 <=? loaded_offset_ f) eqn:Hl.
    - unfold bind, LOG, ret, add_log, drop_origin, setLoadedOffset, setOrigin, pattern.
      cbn. rewrite Hre, Hfc, Hbc, Hen. done.
    - unfold ret, setOrigin. rewrite Hre, Hfc, Hbc, Hen, Hoff. done. }
  unfold Filter_retrieveFromStorage, Filter_retrieveFromStorage_in.
  fold f. change (toString (value s ["origin"] (VString ""))) with (stored_origin_file s).
  destruct (decide (stored_origin_file s = "")) as [Hempty|Hne].
  - rewrite bool_decide_eq_true_2 by done. cbn [negb].
    unfold bind at 1. unfold ret at 1. cbn [fst snd].
    apply Hcheck; try done; simpl; lia.
  - destruct Hfile as [Hempty|Habsent]; [done|].
    rewrite bool_decide_eq_false_2 by done. cbn [negb].
    destruct (find_origin_file (registry w) (stored_origin_file s) 0)
      as [i [ns|]] eqn:Hfind.
    + apply find_origin_file_Some in Hfind as (_ & Hat & Hname & _).
      exfalso. apply (Habsent ns); [|done].
      unfold at_ in Hat. case_decide; [|done]. by eapply list_elem_of_lookup_2.
    + assert (Hbind : bind_origin (nested_load fuel) (origin_ f)
                        (stored_origin_file s) origin w
                      = Some ((origin_ f, None, false), w)).
      { unfold bind_origin, bind, get_registry. rewrite Hfind. cbn [fst snd].
        replace (origin <? 0) with false by (symmetry; lia). done. }
      unfold bind at 1. unfold bind at 1. rewrite Hbind. cbn [fst snd].
      unfold bind at 1. unfold ret at 1. unfold ret at 1. cbn [fst snd].
      apply Hcheck; try done; simpl; exact Hthis.
Qed.

Lemma Filter_retrieve_caller_origin_witness :
  Filter_retrieveFromStorage 0 Filter_default ex_entry_settings 0 ex_world
  = Some (drop_origin (read_fields Filter_default ex_entry_settings),
          add_log (logWARNING,
                   [Txt "Loaded filter "; Num 0; Txt ":"; Txt "timeout";
                    Txt " with loaded_offset set to "; Num 2]) ex_world).
Proof.
  apply (Filter_retrieve_caller_origin 0 Filter_default ex_entry_settings 0 ex_world).
  - lia.
  - simpl. lia.
  - right. intros namedSet Hin. by apply not_elem_of_nil in Hin.
Defined.

(** ** The registry when the stored version is not the current one *)

(** X9.  LoadedFilterSets::retrieveFromStorage on a store whose
    ["LoadedFilterSets/version"] is absent or is not
    [LOADED_FILTERSET_VERSION]: the sources the registry held are dropped,
    no stored source is read, and the registry holds just the files of the
    auto-filter directory; one error is logged when a version is present,
    nothing when there is none.  The settings object is returned as it
    was. *)
Theorem LoadedFilterSets_retrieve_unknown_version `{QtConversions} `{AutoFilterDir}
    (fuel : nat) (s : QSettings) (w : World) (a : list NamedFilterSet) :
  QVariant_eq_int
    (default VInvalid
       (s_store s !! (groupPrefix s ++ [KName "LoadedFilterSets"; KName "version"])))
    LOADED_FILTERSET_VERSION = false ->
  Forall (fun namedSet => missing namedSet = false
                          /\ file_holds w (filename namedSet) (set namedSet)) a ->
  autoFilterDir_entries (files w) = map filename a ->
  LoadedFilterSets_retrieveFromStorage fuel s w
  = Some (s,
          mkWorld (reloaded_sets 0 a) (files w)
                  (if isValid
                        (default VInvalid
                           (s_store s !! (groupPrefix s
                                          ++ [KName "LoadedFilterSets";
                                              KName "version"])))
                   then log w ++ [(logERROR,
                                   [Txt "Unknown version of NamedFilterSet, ignoring it..."])]
                   else log w)
                  (replies w) (asked w)).
Proof.
  intros Hversion Hauto Hentries. destruct s as [fn st gs].
  unfold LoadedFilterSets_retrieveFromStorage.
  unfold bind at 1. unfold put_registry.
  set (w0 := mkWorld [] _ _ _ _).
  set (s1 := beginGroup "LoadedFilterSets" (mkSettings fn st gs)).
  assert (Hvalue : value s1 ["version"] VInvalid
                   = default VInvalid
                       (st !! (groupPrefix (mkSettings fn st gs)
                               ++ [KName "LoadedFilterSets"; KName "version"]))).
  { rewrite value_field. unfold s1, beginGroup. cbn [s_fileName s_store s_groups].
    rewrite groupPrefix_group. by rewrite <- app_assoc. }
  rewrite Hvalue. cbn [s_store] in Hversion. rewrite Hversion.
  set (v := default VInvalid _) in *.
  destruct (isValid v).
  - unfold bind at 1. unfold bind at 1. unfold bind at 1. unfold LOG at 1.
    unfold ret at 1. cbn [fst snd endGroup s1 beginGroup tail s_groups s_fileName s_store].
    unfold bind at 1. unfold ret at 1.
    unfold bind at 1. cbn [files w0]. rewrite Hentries.
    rewrite LoadedFilterSets_auto_loop_spec by exact Hauto.
    unfold ret. cbn [registry set_registry files log replies asked w0 app size
                     List.length]. done.
  - unfold bind at 1. unfold ret at 1.
    cbn [fst snd endGroup s1 beginGroup tail s_groups s_fileName s_store].
    unfold bind at 1. unfold ret at 1.
    unfold bind at 1. cbn [files w0]. rewrite Hentries.
    unfold bind at 1.
    rewrite LoadedFilterSets_auto_loop_spec by exact Hauto.
    unfold ret. cbn [registry set_registry files log replies asked w0 app size
                     List.length]. done.
Qed.

Lemma LoadedFilterSets_retrieve_unknown_version_witness :
  LoadedFilterSets_retrieveFromStorage 0
    (mkSettings "glogg.ini"
       {[ [KName "LoadedFilterSets"; KName "version"] := VInt 2 ]} [])
    ex_missing_world
  = Some (mkSettings "glogg.ini"
            {[ [KName "LoadedFilterSets"; KName "version"] := VInt 2 ]} [],
          mkWorld [] (files ex_missing_world)
                  (log ex_missing_world
                   ++ [(logERROR,
                        [Txt "Unknown version of NamedFilterSet, ignoring it..."])])
                  (replies ex_missing_world) (asked ex_missing_world)).
Proof.
  rewrite (LoadedFilterSets_retrieve_unknown_version 0
             (mkSettings "glogg.ini"
                {[ [KName "LoadedFilterSets"; KName "version"] := VInt 2 ]} [])
             ex_missing_world []).
  - reflexivity.
  - reflexivity.
  - constructor.
  - reflexivity.
Defined.

(** * Further properties of the dialog *)

(** ** Facts on [removeAt] and on the table *)

Lemma lookup_take_drop_S {A} (l : list A) :
  forall n m : nat,
    (take n l ++ drop (S n) l) !! m
    = if decide (m < n)%nat then l !! m else l !! S m.
Proof.
  induction l as [|x l IH]; intros n m.
  - rewrite take_nil, drop_nil. simpl. by case_decide.
  - destruct n as [|n].
    + rewrite take_0, app_nil_l. rewrite decide_False by lia. done.
    + destruct m as [|m].
      * by rewrite decide_True by lia.
      * change ((take n l ++ drop (S n) l) !! m
                = if decide (S m < S n)%nat then l !! m else l !! S m).
        rewrite IH. destruct (decide (m < n)%nat).
        -- by rewrite decide_True by lia.
        -- by rewrite decide_False by lia.
Qed.

Lemma at_removeAt {A} (l : list A) (k j : Z) :
  0 <= k -> 0 <= j ->
  at_ (removeAt l k) j = if decide (j < k) then at_ l j else at_ l (j + 1).
Proof.
  intros Hk Hj. unfold at_, removeAt. rewrite (decide_True (P := 0 <= j)) by lia.
  rewrite lookup_take_drop_S.
  destruct (decide (j < k)).
  - rewrite (decide_True (P := (_ < _)%nat)) by lia.
    by rewrite decide_True by lia.
  - rewrite (decide_False (P := (_ < _)%nat)) by lia.
    rewrite decide_True by lia. f_equal. lia.
Qed.

Lemma removeFilter_run (d : FiltersDialog) (loc : RefLoc) (r : FilterRef) :
  deref loc (loadedFilterRefs d) = Some r ->
  0 <= filter_index r < size (filterSet d) ->
  (0 <= loaded_index r ->
   exists f, at_ (filterSet d) (filter_index r) = Some f
             /\ 0 <= origin f < size (loadedFilterRefs d)) ->
  removeFilter loc d
  = Some (mkDialog (removeAt (filterSet d) (filter_index r)) (loadedFilterSets d)
            (store_ref loc (with_filter_index (-1))
               (map (map (shift_down (filter_index r)))
                    (store_ref loc (with_modified false) (loadedFilterRefs d))))).
Proof.
  intros Hderef Hk Horigin.
  set (k := filter_index r) in *.
  set (refs1 := map (map (shift_down k))
                    (store_ref loc (with_modified false) (loadedFilterRefs d))).
  destruct (at_in_range (filterSet d) k Hk) as [fk Hfk].
  assert (Hblock : (if 0 <=? loaded_index r
                    then f ← at_ (filterSet d) k; _ ← at_ refs1 (origin f); Some tt
                    else Some tt) = Some tt).
  { destruct (0 <=? loaded_index r) eqn:Hl; [|done].
    destruct Horigin as (f & Hf & Ho); [lia|].
    rewrite Hf. simpl.
    destruct (at_in_range refs1 (origin f)) as [row ->]; [|done].
    unfold refs1. change (map ?f ?l) with (f <$> l).
    by rewrite size_fmap, size_store_ref. }
  unfold removeFilter. rewrite Hderef. simpl.
  unfold isActive. fold k.
  destruct (0 <=? k) eqn:Hact; [|lia]. simpl.
  fold refs1. rewrite Hblock. simpl. rewrite Hfk. done.
Qed.

(** The table after removeFilter: the reference removed is inactive and
    unmarked, every other one is shifted. *)
Lemma removeFilter_ref_at (refs : list (list FilterRef)) (loc : RefLoc) (k o i : Z) :
  ref_at (store_ref loc (with_filter_index (-1))
            (map (map (shift_down k)) (store_ref loc (with_modified false) refs)))
         o i
  = (fun x => if decide (loc = InTable o i)
              then mkRef (loaded_index x) (-1) false
              else shift_down k x)
    <$> ref_at refs o i.
Proof.
  rewrite ref_at_store, ref_at_fmap, ref_at_store.
  destruct (ref_at refs o i) as [x|]; [|by case_decide].
  case_decide; simpl; [|done].
  unfold shift_down. simpl. by destruct (k <? filter_index x).
Qed.

Lemma size_removeFilter_table (refs : list (list FilterRef)) (loc : RefLoc) (k : Z) :
  size (store_ref loc (with_filter_index (-1))
          (map (map (shift_down k)) (store_ref loc (with_modified false) refs)))
  = size refs.
Proof.
  rewrite size_store_ref. change (map ?f ?l) with (f <$> l).
  by rewrite size_fmap, size_store_ref.
Qed.

Lemma ref_at_Some (refs : list (list FilterRef)) (o i : Z) (x : FilterRef) :
  ref_at refs o i = Some x <->
  exists row, at_ refs o = Some row /\ at_ row i = Some x.
Proof.
  unfold ref_at. destruct (at_ refs o) as [row|]; simpl.
  - split; [by exists row|]. by intros (row' & [= <-] & Hx).
  - split; [done|]. by intros (row' & ? & _).
Qed.

Lemma row_ref_update (refs : list (list FilterRef)) (o j : Z)
    (g : FilterRef -> FilterRef) (o' : Z) (row' : list FilterRef) :
  at_ (ref_update refs o j g) o' = Some row' ->
  exists row, at_ refs o' = Some row /\ size row' = size row.
Proof.
  unfold ref_update. destruct (at_ refs o) as [row0|] eqn:Hrow0; [|by eauto].
  destruct (at_ row0 j) as [r|]; [|by eauto].
  rewrite at_set_at. case_decide as Ho; [subst o'|by eauto].
  rewrite Hrow0. simpl. intros [= <-]. exists row0. split; [done|].
  apply size_set_at.
Qed.

Lemma row_store_ref (loc : RefLoc) (g : FilterRef -> FilterRef)
    (refs : list (list FilterRef)) (o : Z) (row' : list FilterRef) :
  at_ (store_ref loc g refs) o = Some row' ->
  exists row, at_ refs o = Some row /\ size row' = size row.
Proof. destruct loc; simpl; [apply row_ref_update|by eauto]. Qed.

Lemma row_removeFilter_table (refs : list (list FilterRef)) (loc : RefLoc)
    (k o : Z) (row' : list FilterRef) :
  at_ (store_ref loc (with_filter_index (-1))
         (map (map (shift_down k)) (store_ref loc (with_modified false) refs))) o
  = Some row' ->
  exists row, at_ refs o = Some row /\ size row' = size row.
Proof.
  intros (row1 & Hrow1 & Hsz1)%row_store_ref.
  change (map (map (shift_down k)) ?l) with (map (shift_down k) <$> l) in Hrow1.
  rewrite at_fmap in Hrow1.
  destruct (at_ (store_ref loc (with_modified false) refs) o) as [row0|] eqn:Hrow0;
    [|done].
  injection Hrow1 as <-.
  apply row_store_ref in Hrow0 as (row & Hrow & Hsz0).
  exists row. split; [done|].
  rewrite Hsz1. change (map ?f ?l) with (f <$> l). rewrite size_fmap. done.
Qed.

(** removeFilter keeps the table consistent with the working set. *)
Lemma removeFilter_consistent (d : FiltersDialog) (loc : RefLoc) (r : FilterRef) :
  table_consistent d ->
  deref loc (loadedFilterRefs d) = Some r ->
  0 <= filter_index r < size (filterSet d) ->
  match loc with
  | InTable _ _ => True
  | Dummy _ => loaded_index r < 0
               /\ exists f, at_ (filterSet d) (filter_index r) = Some f
                            /\ origin f < 0
  end ->
  exists d',
    removeFilter loc d = Some d'
    /\ filterSet d' = removeAt (filterSet d) (filter_index r)
    /\ loadedFilterSets d' = loadedFilterSets d
    /\ (forall o i,
          ref_at (loadedFilterRefs d') o i
          = (fun x => if decide (loc = InTable o i)
                      then mkRef (loaded_index x) (-1) false
                      else shift_down (filter_index r) x)
            <$> ref_at (loadedFilterRefs d) o i)
    /\ table_consistent d'.
Proof.
  intros (Hsized & Hshape & Htrack & Hcomplete) Hderef Hk Hloc.
  set (k := filter_index r) in *.
  assert (Hin : forall o i x, ref_at (loadedFilterRefs d) o i = Some x ->
                              0 <= o < size (loadedFilterRefs d)).
  { intros o i x (row & Hrow & _)%ref_at_Some. by apply at_Some_range in Hrow. }
  assert (Huniq : forall o i x, ref_at (loadedFilterRefs d) o i = Some x ->
                                filter_index x = k -> loc = InTable o i).
  { intros o i x Hx Hxk.
    destruct (Htrack o i x Hx ltac:(lia)) as (f & Hf & Ho & Hoff).
    rewrite Hxk in Hf. destruct loc as [o0 i0|r0].
    - simpl in Hderef.
      destruct (Htrack o0 i0 r Hderef ltac:(lia)) as (f0 & Hf0 & Ho0 & Hoff0).
      fold k in Hf0. congruence.
    - destruct Hloc as (_ & f0 & Hf0 & Hneg).
      pose proof (Hin o i x Hx). assert (f0 = f) by congruence. subst. lia. }
  rewrite (removeFilter_run d loc r Hderef Hk).
  2:{ intros Hli. destruct loc as [o0 i0|r0].
      - simpl in Hderef.
        destruct (Htrack o0 i0 r Hderef ltac:(lia)) as (f0 & Hf0 & Ho0 & _).
        exists f0. split; [done|]. rewrite Ho0. by eapply Hin.
      - destruct Hloc as [Hneg _]. lia. }
  eexists. split; [reflexivity|]. cbn [filterSet loadedFilterSets].
  split; [done|]. split; [done|].
  split; [intros o i; apply removeFilter_ref_at|].
  fold k. split_and!.
  - unfold table_sized. cbn [loadedFilterRefs loadedFilterSets].
    by rewrite size_removeFilter_table.
  - intros o refs' ns Hrefs' Hns. cbn [loadedFilterRefs loadedFilterSets] in *.
    destruct (row_removeFilter_table _ _ _ _ _ Hrefs') as (row & Hrow & Hsz).
    destruct (Hshape o row ns Hrow Hns) as [Hsize Helems].
    split; [lia|]. intros i r' Hr'.
    assert (Hx' : ref_at (store_ref loc (with_filter_index (-1))
                            (map (map (shift_down k))
                               (store_ref loc (with_modified false)
                                          (loadedFilterRefs d)))) o i = Some r').
    { apply ref_at_Some. by exists refs'. }
    rewrite removeFilter_ref_at in Hx'.
    destruct (ref_at (loadedFilterRefs d) o i) as [x|] eqn:Hx; [|done].
    apply ref_at_Some in Hx as (row0 & Hrow0 & Hx).
    assert (row0 = row) by congruence. subst row0.
    destruct (Helems i x Hx) as [Hli Hmod].
    simpl in Hx'. injection Hx' as <-. case_decide; simpl; [done|].
    unfold shift_down. destruct (k <? filter_index x) eqn:Hlt; simpl.
    + split; [done|]. intros Hm. specialize (Hmod Hm). lia.
    + done.
  - intros o i x' Hx' Hact. cbn [loadedFilterRefs filterSet] in *.
    rewrite removeFilter_ref_at in Hx'.
    destruct (ref_at (loadedFilterRefs d) o i) as [x|] eqn:Hx; [|done].
    simpl in Hx'. injection Hx' as <-.
    case_decide as Hl; [simpl in Hact; lia|].
    assert (Hne : filter_index x <> k).
    { intros Heq. apply Hl. by eapply Huniq. }
    unfold shift_down in *. destruct (k <? filter_index x) eqn:Hlt; simpl in *.
    + destruct (Htrack o i x Hx ltac:(lia)) as (f & Hf & Ho & Hoff).
      exists f. split; [|done]. rewrite at_removeAt by lia.
      rewrite decide_False by lia. by replace (filter_index x - 1 + 1)
        with (filter_index x) by lia.
    + destruct (Htrack o i x Hx Hact) as (f & Hf & Ho & Hoff).
      exists f. split; [|done]. rewrite at_removeAt by lia.
      by rewrite decide_True by lia.
  - intros k' f Hf Ho. cbn [loadedFilterRefs filterSet] in *.
    pose proof (at_Some_range _ _ _ Hf) as [Hk'0 _].
    rewrite at_removeAt in Hf by lia.
    set (x0 := if decide (k' < k) then k' else k' + 1).
    assert (Hf0 : at_ (filterSet d) x0 = Some f).
    { unfold x0. by case_decide. }
    assert (Hx0 : x0 <> k) by (unfold x0; case_decide; lia).
    destruct (Hcomplete x0 f Hf0 Ho) as (r0 & Hr0 & Hfi).
    rewrite removeFilter_ref_at, Hr0. simpl.
    rewrite decide_False.
    2:{ intros ->. simpl in Hderef. assert (r = r0) by congruence. subst r0.
        fold k in Hfi. lia. }
    eexists. split; [reflexivity|].
    unfold shift_down, x0 in *. rewrite Hfi.
    case_decide.
    + replace (k <? k') with false by (symmetry; lia). simpl. lia.
    + replace (k <? k' + 1) with true by (symmetry; lia). simpl. lia.
Qed.

Lemma find_filter_index_is_Some (row : list FilterRef) (idx : Z) :
  forall j0 n x,
    row !! n = Some x -> filter_index x = idx ->
    is_Some (find_filter_index row idx j0).
Proof.
  induction row as [|y row IH]; intros j0 n x Hn Hx; [done|].
  simpl. destruct (filter_index y =? idx) eqn:Hy; [by eexists|].
  destruct n as [|n]; simpl in Hn.
  - injection Hn as ->. lia.
  - by eapply IH.
Qed.

(** Under the invariants, findLoadedFilterRef finds the reference of a
    working entry at the offset of the entry. *)
Lemma findLoadedFilterRef_tracked (d : FiltersDialog) (k : Z) (f : Filter) :
  refs_track d -> refs_complete d ->
  at_ (filterSet d) k = Some f -> 0 <= origin f ->
  findLoadedFilterRef (loadedFilterRefs d) (origin f) k = Some (loadedOffset f).
Proof.
  intros Htrack Hcomplete Hf Ho.
  destruct (Hcomplete k f Hf Ho) as (r & Hr & Hfi).
  pose proof (at_Some_range _ _ _ Hf) as Hk.
  apply ref_at_Some in Hr as (row & Hrow & Hr).
  assert (Hsome : is_Some (findLoadedFilterRef (loadedFilterRefs d) (origin f) k)).
  { unfold findLoadedFilterRef. rewrite Hrow. simpl.
    unfold at_ in Hr. case_decide; [|done].
    by eapply find_filter_index_is_Some. }
  destruct Hsome as [j Hj]. rewrite Hj. f_equal.
  destruct (findLoadedFilterRef_ref_at _ _ _ _ Hj) as (x & Hx & Hxk).
  destruct (Htrack _ _ _ Hx ltac:(lia)) as (g & Hg & _ & Hoff).
  rewrite Hxk in Hg. congruence.
Qed.

(** The working set after the rounds of on_removeFilterButton_clicked, and
    the rows a round may name. *)
Fixpoint remove_rows {A} (rows : list Z) (l : list A) : list A :=
  match rows with
  | [] => l
  | index :: rest => remove_rows rest (removeAt l index)
  end.

Fixpoint rows_in_range (rows : list Z) (n : Z) : Prop :=
  match rows with
  | [] => True
  | index :: rest => 0 <= index < n /\ rows_in_range rest (n - 1)
  end.

(** X10.  FiltersDialog::on_removeFilterButton_clicked keeps the table and
    the working set consistent.  When each row the slot reads from the list
    widget is a row of the working set as it then is, the slot returns; the
    entries at these rows are removed one after the other, the loaded sets
    are untouched, and afterwards the table still has one row per loaded
    set and one reference per rule, every active reference points at the
    entry bound to it, and every bound entry has its reference. *)
Theorem on_removeFilterButton_consistent (rows : list Z) (d : FiltersDialog) :
  table_consistent d ->
  rows_in_range rows (size (filterSet d)) ->
  exists d',
    on_removeFilterButton_clicked rows d = Some d'
    /\ filterSet d' = remove_rows rows (filterSet d)
    /\ loadedFilterSets d' = loadedFilterSets d
    /\ table_consistent d'.
Proof.
  revert d. induction rows as [|index rows IH]; intros d Hd Hrows.
  - by exists d.
  - destruct Hrows as [Hindex Hrows].
    destruct (at_in_range (filterSet d) index Hindex) as [f Hf].
    assert (Hstep : exists d1,
              removeFilterButton_item index d = Some d1
              /\ filterSet d1 = removeAt (filterSet d) index
              /\ loadedFilterSets d1 = loadedFilterSets d
              /\ table_consistent d1).
    { unfold removeFilterButton_item. rewrite Hf. simpl.
      destruct (origin f <? 0) eqn:Ho.
      - destruct (removeFilter_consistent d (Dummy (FilterRef_new (-1) index))
                    (FilterRef_new (-1) index) Hd eq_refl Hindex)
          as (d1 & Hrun & Hfs & Hlfs & _ & Hd1).
        { simpl. split; [lia|]. exists f. split; [done|lia]. }
        by exists d1.
      - destruct Hd as (Hsized & Hshape & Htrack & Hcomplete).
        rewrite (findLoadedFilterRef_tracked d index f Htrack Hcomplete Hf)
          by lia.
        simpl. destruct (Hcomplete index f Hf ltac:(lia)) as (r & Hr & Hfi).
        destruct (removeFilter_consistent d (InTable (origin f) (loadedOffset f)) r)
          as (d1 & Hrun & Hfs & Hlfs & _ & Hd1); try done.
        { by rewrite Hfi. }
        exists d1. by rewrite Hfi in Hfs. }
    destruct Hstep as (d1 & Hrun & Hfs & Hlfs & Hd1).
    destruct (IH d1 Hd1) as (d' & Hrest & Hfs' & Hlfs' & Hd').
    { rewrite Hfs, size_removeAt by done. exact Hrows. }
    exists d'. simpl. rewrite Hrun. simpl.
    split_and!; [done| |congruence|done].
    by rewrite Hfs', Hfs.
Qed.

Lemma refs_complete_b_sound d : refs_complete_b d = true -> refs_complete d.
Proof.
  intros Hb k f Hf Ho.
  pose proof (all_from_spec _ _ _ Hb k f Hf) as Hk. simpl in Hk.
  replace (0 <=? origin f) with true in Hk by (symmetry; lia). simpl in Hk.
  destruct (ref_at (loadedFilterRefs d) (origin f) (loadedOffset f)) as [r|];
    [|done].
  exists r. split; [done|lia].
Qed.

Lemma table_consistent_b_sound d :
  table_consistent_b d = true -> table_consistent d.
Proof.
  unfold table_consistent_b. rewrite !andb_true_iff.
  intros [[[Hsz Hshape] Htrack] Hcomplete]. split_and!.
  - unfold table_sized. lia.
  - by apply refs_shape_b_sound.
  - by apply refs_track_b_sound.
  - by apply refs_complete_b_sound.
Qed.

Lemma on_removeFilterButton_consistent_witness :
  exists d',
    on_removeFilterButton_clicked [1; 0] ex_dialog = Some d'
    /\ filterSet d' = [Filter_new "WARN" false "black" "yellow" 0 1]
    /\ loadedFilterSets d' = loadedFilterSets ex_dialog
    /\ table_consistent d'.
Proof.
  apply (on_removeFilterButton_consistent [1; 0] ex_dialog).
  - apply table_consistent_b_sound. vm_compute. reflexivity.
  - change (size (filterSet ex_dialog)) with 3. simpl. lia.
Defined.

Lemma removeLoadedFilter_loop_spec (origin : Z) (rows : list Z) :
  forall d,
    table_consistent d ->
    NoDup rows ->
    (forall row, row ∈ rows ->
       exists r, ref_at (loadedFilterRefs d) origin row = Some r
                 /\ 0 <= filter_index r) ->
    exists d',
      removeLoadedFilter_loop origin rows d = Some d'
      /\ loadedFilterSets d' = loadedFilterSets d
      /\ size (filterSet d') = size (filterSet d) - size rows
      /\ table_consistent d'
      /\ (forall row, row ∈ rows ->
            exists r', ref_at (loadedFilterRefs d') origin row = Some r'
                       /\ filter_index r' = -1)
      /\ (forall o i x, ref_at (loadedFilterRefs d) o i = Some x ->
                        filter_index x = -1 ->
                        exists x', ref_at (loadedFilterRefs d') o i = Some x'
                                   /\ filter_index x' = -1).
Proof.
  induction rows as [|row rows IH]; intros d Hd Hnodup Hactive.
  - exists d. simpl. change (size []) with 0.
    split_and!; [done|done|lia|done| |by eauto].
    intros row Hrow. by apply not_elem_of_nil in Hrow.
  - apply NoDup_cons in Hnodup as [Hfresh Hnodup].
    destruct (Hactive row ltac:(apply list_elem_of_here)) as (r & Hr & Hact).
    assert (Hk : 0 <= filter_index r < size (filterSet d)).
    { destruct Hd as (_ & _ & Htrack & _).
      destruct (Htrack _ _ _ Hr Hact) as (f & Hf & _).
      apply at_Some_range in Hf. lia. }
    destruct (removeFilter_consistent d (InTable origin row) r Hd Hr Hk I)
      as (d1 & Hrun & Hfs & Hlfs & Hrefs & Hd1).
    destruct (IH d1 Hd1 Hnodup) as (d' & Hrest & Hlfs' & Hsz & Hd' & Hgone & Hstay).
    { intros row' Hrow'.
      destruct (Hactive row' ltac:(by apply list_elem_of_further)) as (x & Hx & Hxa).
      rewrite Hrefs, Hx. simpl. eexists. split; [reflexivity|].
      rewrite decide_False by (intros [= ->]; done).
      unfold shift_down. destruct (filter_index r <? filter_index x) eqn:Hlt;
        simpl; lia. }
    exists d'. simpl. rewrite Hrun. simpl.
    split_and!; [done|congruence| |done| |].
    + rewrite Hsz, Hfs, size_removeAt, size_cons by done. lia.
    + intros row' [->|Hrow']%elem_of_cons; [|by apply Hgone].
      apply (Hstay origin row (mkRef (loaded_index r) (-1) false)); [|done].
      rewrite Hrefs, Hr. simpl. by rewrite decide_True.
    + intros o i x Hx Hxi.
      apply (Hstay o i (if decide (InTable origin row = InTable o i)
                        then mkRef (loaded_index x) (-1) false
                        else shift_down (filter_index r) x)).
      * by rewrite Hrefs, Hx.
      * case_decide; [done|]. unfold shift_down.
        replace (filter_index r <? filter_index x) with false by (symmetry; lia).
        done.
Qed.

(** X11.  FiltersDialog::on_removeLoadedFilterButton_clicked, for selected
    rows of the active list (distinct rows whose references are active):
    the slot returns; each selected reference is left inactive; the working
    set loses one entry per row and afterwards holds no entry bound to a
    selected rule of that source; the loaded sets are untouched and the
    table stays consistent with the working set. *)
Theorem on_removeLoadedFilterButton_consistent (origin : Z) (rows : list Z)
    (d : FiltersDialog) :
  table_consistent d ->
  0 <= origin < size (loadedFilterRefs d) ->
  NoDup rows ->
  (forall row, row ∈ rows ->
     exists r, ref_at (loadedFilterRefs d) origin row = Some r
               /\ 0 <= filter_index r) ->
  exists d',
    on_removeLoadedFilterButton_clicked origin rows d = Some d'
    /\ loadedFilterSets d' = loadedFilterSets d
    /\ size (filterSet d') = size (filterSet d) - size rows
    /\ table_consistent d'
    /\ (forall row, row ∈ rows ->
          exists r', ref_at (loadedFilterRefs d') origin row = Some r'
                     /\ filter_index r' = -1)
    /\ (forall k f, at_ (filterSet d') k = Some f ->
                    origin_ f = origin -> loadedOffset f ∉ rows).
Proof.
  intros Hd Horigin Hnodup Hactive.
  destruct (removeLoadedFilter_loop_spec origin rows d Hd Hnodup Hactive)
    as (d' & Hrun & Hlfs & Hsz & Hd' & Hgone & _).
  exists d'. unfold on_removeLoadedFilterButton_clicked.
  replace (origin <? 0) with false by (symmetry; lia).
  destruct (at_in_range _ _ Horigin) as [row0 Hrow0]. rewrite Hrow0. simpl.
  split_and!; try done.
  intros k f Hf Ho Hin.
  destruct Hd' as (_ & _ & _ & Hcomplete).
  destruct (Hcomplete k f Hf) as (r & Hr & Hfi).
  { change (0 <= origin_ f). lia. }
  change (ref_at (loadedFilterRefs d') (origin_ f) (loadedOffset f) = Some r) in Hr.
  rewrite Ho in Hr. destruct (Hgone _ Hin) as (r' & Hr' & Hfi').
  assert (r = r') by congruence. subst r'.
  apply at_Some_range in Hf. lia.
Qed.

Lemma on_removeLoadedFilterButton_consistent_witness :
  exists d',
    on_removeLoadedFilterButton_clicked 0 [1; 0] ex_dialog = Some d'
    /\ loadedFilterSets d' = loadedFilterSets ex_dialog
    /\ size (filterSet d') = 1
    /\ table_consistent d'
    /\ (forall row, row ∈ [1; 0] ->
          exists r', ref_at (loadedFilterRefs d') 0 row = Some r'
                     /\ filter_index r' = -1)
    /\ (forall k f, at_ (filterSet d') k = Some f ->
                    origin_ f = 0 -> loadedOffset f ∉ [1; 0]).
Proof.
  apply (on_removeLoadedFilterButton_consistent 0 [1; 0] ex_dialog).
  - apply table_consistent_b_sound. vm_compute. reflexivity.
  - change (size (loadedFilterRefs ex_dialog)) with 1. lia.
  - apply NoDup_cons. split; [|apply NoDup_singleton].
    intros Hin. apply list_elem_of_singleton in Hin. discriminate.
  - intros row Hrow.
    apply elem_of_cons in Hrow as [->|Hrow];
      [|apply list_elem_of_singleton in Hrow; subst row].
    + eexists. split; [reflexivity|]. simpl. lia.
    + eexists. split; [reflexivity|]. simpl. lia.
Defined.

(** ** Moving an entry by one row *)

Lemma lookup_take_cons_drop {A} (l : list A) (x : A) :
  forall n m : nat,
    (n <= List.length l)%nat ->
    (take n l ++ x :: drop n l) !! m
    = if decide (m < n)%nat then l !! m
      else if decide (m = n) then Some x else l !! (m - 1)%nat.
Proof.
  induction l as [|y l IH]; intros n m Hn.
  - simpl in Hn. assert (n = 0)%nat as -> by lia. simpl.
    destruct m as [|m]; simpl; [done|]. by rewrite !lookup_nil.
  - destruct n as [|n].
    + rewrite take_0, drop_0, app_nil_l. destruct m as [|m]; simpl; [done|].
      by rewrite Nat.sub_0_r.
    + destruct m as [|m]; [done|].
      change ((take n l ++ x :: drop n l) !! m
              = if decide (S m < S n)%nat then l !! m
                else if decide (S m = S n) then Some x
                     else (y :: l) !! (S m - 1)%nat).
      simpl in Hn. rewrite IH by lia.
      destruct (decide (m < n)%nat).
      * by rewrite decide_True by lia.
      * rewrite (decide_False (P := (S m < S n)%nat)) by lia.
        destruct (decide (m = n)).
        -- by rewrite decide_True by lia.
        -- rewrite decide_False by lia.
           destruct m as [|m]; [lia|]. simpl. by rewrite Nat.sub_0_r.
Qed.

Lemma at_insertAt_any {A} (l : list A) (i j : Z) (x : A) :
  0 <= i <= size l -> 0 <= j ->
  at_ (insertAt l i x) j
  = if decide (j < i) then at_ l j
    else if decide (j = i) then Some x else at_ l (j - 1).
Proof.
  intros Hi Hj. unfold at_, insertAt, size in *.
  rewrite lookup_take_cons_drop by lia.
  repeat case_decide; try lia; try done; f_equal; lia.
Qed.

(** [QList::move] between neighbouring rows exchanges the two elements. *)
Lemma QList_move_adjacent {A} (l : list A) (from to : Z) :
  0 <= from < size l -> 0 <= to < size l ->
  to = from - 1 \/ to = from + 1 ->
  exists l',
    QList_move l from to = Some l'
    /\ size l' = size l
    /\ forall j, at_ l' j = if decide (j = to) then at_ l from
                            else if decide (j = from) then at_ l to
                            else at_ l j.
Proof.
  intros Hfrom Hto Hadj.
  destruct (at_in_range l from Hfrom) as [x Hx].
  unfold QList_move. rewrite Hx. simpl. rewrite decide_True by done.
  eexists. split; [reflexivity|].
  assert (Hsz : size (removeAt l from) = size l - 1) by by apply size_removeAt.
  split; [rewrite size_insertAt by lia; lia|].
  intros j. destruct (decide (0 <= j)) as [Hj|Hj].
  2:{ unfold at_. repeat case_decide; try lia; done. }
  rewrite at_insertAt_any by lia. rewrite !at_removeAt by lia.
  repeat case_decide; subst; try lia; try done; try (f_equal; lia).
  all: rewrite at_removeAt by lia.
  all: repeat case_decide; subst; try lia; try done; f_equal; lia.
Qed.

Lemma row_assign (p : option (Z * Z)) (v : Z) (refs : list (list FilterRef))
    (o : Z) (row' : list FilterRef) :
  at_ (assign_filter_index p v refs) o = Some row' ->
  exists row, at_ refs o = Some row /\ size row' = size row.
Proof. destruct p as [[o0 j]|]; simpl; [apply row_ref_update|by eauto]. Qed.

Lemma size_assign (p : option (Z * Z)) (v : Z) (refs : list (list FilterRef)) :
  size (assign_filter_index p v refs) = size refs.
Proof. destruct p as [[o0 j]|]; simpl; [apply size_ref_update|done]. Qed.

(** What moveFilter does to one reference when the table is consistent. *)
Definition swap_index (from to : Z) (x : FilterRef) : FilterRef :=
  if decide (filter_index x = from) then with_filter_index to x
  else if decide (filter_index x = to) then with_filter_index from x
  else x.

(** moveFilter between neighbouring rows keeps the table consistent. *)
Lemma moveFilter_adjacent_consistent (d : FiltersDialog) (from to : Z) :
  table_consistent d ->
  0 <= from < size (filterSet d) -> 0 <= to < size (filterSet d) ->
  to = from - 1 \/ to = from + 1 ->
  exists d',
    moveFilter from to d = Some d'
    /\ loadedFilterSets d' = loadedFilterSets d
    /\ size (filterSet d') = size (filterSet d)
    /\ (forall j, at_ (filterSet d') j
                  = if decide (j = to) then at_ (filterSet d) from
                    else if decide (j = from) then at_ (filterSet d) to
                    else at_ (filterSet d) j)
    /\ (forall o i, ref_at (loadedFilterRefs d') o i
                    = swap_index from to <$> ref_at (loadedFilterRefs d) o i)
    /\ size (loadedFilterRefs d') = size (loadedFilterRefs d)
    /\ table_consistent d'.
Proof.
  intros Hd Hfrom Hto Hadj.
  pose proof Hd as (Hsized & Hshape & Htrack & Hcomplete).
  destruct (at_in_range _ _ Hfrom) as [f_from Hf_from].
  destruct (at_in_range _ _ Hto) as [f_to Hf_to].
  destruct (QList_move_adjacent (filterSet d) from to Hfrom Hto Hadj)
    as (l' & Hmove & Hsz & Hat).
  set (p_from := if 0 <=? origin f_from
                 then Some (origin f_from, loadedOffset f_from) else None).
  set (p_to := if 0 <=? origin f_to
               then Some (origin f_to, loadedOffset f_to) else None).
  assert (Hlf : lookup_ref (loadedFilterRefs d) (origin f_from) from = Some p_from).
  { unfold lookup_ref, p_from. destruct (0 <=? origin f_from) eqn:Ho; [|done].
    by rewrite (findLoadedFilterRef_tracked d from f_from) by (done || lia). }
  assert (Hlt : lookup_ref (loadedFilterRefs d) (origin f_to) to = Some p_to).
  { unfold lookup_ref, p_to. destruct (0 <=? origin f_to) eqn:Ho; [|done].
    by rewrite (findLoadedFilterRef_tracked d to f_to) by (done || lia). }
  assert (Hrun : moveFilter from to d
                 = Some (mkDialog l' (loadedFilterSets d)
                           (assign_filter_index p_to from
                              (assign_filter_index p_from to (loadedFilterRefs d))))).
  { unfold moveFilter. rewrite Hf_from, Hf_to. simpl.
    rewrite Hmove. simpl. rewrite Hlf. simpl. rewrite Hlt. done. }
  assert (Hpf : forall o i, p_from = Some (o, i) <->
                            0 <= origin f_from /\ o = origin f_from
                            /\ i = loadedOffset f_from).
  { intros o i. unfold p_from. destruct (0 <=? origin f_from) eqn:Ho.
    - split; [intros [= <- <-]; lia|]. by intros (_ & -> & ->).
    - split; [done|lia]. }
  assert (Hpt : forall o i, p_to = Some (o, i) <->
                            0 <= origin f_to /\ o = origin f_to
                            /\ i = loadedOffset f_to).
  { intros o i. unfold p_to. destruct (0 <=? origin f_to) eqn:Ho.
    - split; [intros [= <- <-]; lia|]. by intros (_ & -> & ->).
    - split; [done|lia]. }
  assert (Hne : from <> to) by lia.
  assert (Hrefs : forall o i,
            ref_at (assign_filter_index p_to from
                      (assign_filter_index p_from to (loadedFilterRefs d))) o i
            = swap_index from to <$> ref_at (loadedFilterRefs d) o i).
  { intros o i. rewrite !ref_at_assign.
    destruct (ref_at (loadedFilterRefs d) o i) as [x|] eqn:Hx.
    2:{ by repeat case_decide. }
    assert (Hxin : 0 <= o).
    { pose proof Hx as (row & Hrow & _)%ref_at_Some.
      apply at_Some_range in Hrow. lia. }
    cbn [fmap option_fmap option_map]. unfold swap_index.
    destruct (decide (filter_index x = from)) as [Hxf|Hxf].
    - destruct (Htrack o i x Hx ltac:(lia)) as (f & Hf & Ho & Hoff).
      rewrite Hxf in Hf. assert (f = f_from) by congruence. subst f.
      rewrite (decide_True (P := p_from = Some (o, i))) by (apply Hpf; lia).
      rewrite decide_False; [done|].
      intros (Hto0 & -> & ->)%Hpt.
      destruct (Hcomplete to f_to Hf_to Hto0) as (r & Hr & Hfi).
      assert (r = x) by congruence. subst. lia.
    - destruct (decide (filter_index x = to)) as [Hxt|Hxt].
      + destruct (Htrack o i x Hx ltac:(lia)) as (f & Hf & Ho & Hoff).
        rewrite Hxt in Hf. assert (f = f_to) by congruence. subst f.
        rewrite (decide_True (P := p_to = Some (o, i))) by (apply Hpt; lia).
        rewrite decide_False; [done|].
        intros (Hfrom0 & -> & ->)%Hpf.
        destruct (Hcomplete from f_from Hf_from Hfrom0) as (r & Hr & Hfi).
        assert (r = x) by congruence. subst. lia.
      + rewrite decide_False.
        2:{ intros (Hto0 & -> & ->)%Hpt.
            destruct (Hcomplete to f_to Hf_to Hto0) as (r & Hr & Hfi).
            assert (r = x) by congruence. subst. lia. }
        rewrite decide_False; [done|].
        intros (Hfrom0 & -> & ->)%Hpf.
        destruct (Hcomplete from f_from Hf_from Hfrom0) as (r & Hr & Hfi).
        assert (r = x) by congruence. subst. lia. }
  eexists. split; [exact Hrun|]. cbn [filterSet loadedFilterSets loadedFilterRefs].
  split; [done|]. split; [done|]. split; [exact Hat|]. split; [exact Hrefs|].
  split; [by rewrite !size_assign|].
  split_and!.
  - unfold table_sized. cbn [loadedFilterRefs loadedFilterSets].
    by rewrite !size_assign.
  - intros o refs' ns Hrefs' Hns. cbn [loadedFilterRefs loadedFilterSets] in *.
    destruct (row_assign _ _ _ _ _ Hrefs') as (row1 & Hrow1 & Hsz1).
    destruct (row_assign _ _ _ _ _ Hrow1) as (row & Hrow & Hsz0).
    destruct (Hshape o row ns Hrow Hns) as [Hsize Helems].
    split; [lia|]. intros i r' Hr'.
    assert (Hx' : ref_at (assign_filter_index p_to from
                            (assign_filter_index p_from to (loadedFilterRefs d)))
                         o i = Some r').
    { apply ref_at_Some. by exists refs'. }
    rewrite Hrefs in Hx'.
    destruct (ref_at (loadedFilterRefs d) o i) as [x|] eqn:Hx; [|done].
    apply ref_at_Some in Hx as (row0 & Hrow0 & Hx).
    assert (row0 = row) by congruence. subst row0.
    destruct (Helems i x Hx) as [Hli Hmod].
    simpl in Hx'. injection Hx' as <-. unfold swap_index.
    repeat case_decide; simpl; split; try done; intros; lia.
  - intros o i x' Hx' Hact. cbn [loadedFilterRefs filterSet] in *.
    rewrite Hrefs in Hx'.
    destruct (ref_at (loadedFilterRefs d) o i) as [x|] eqn:Hx; [|done].
    simpl in Hx'. injection Hx' as <-. unfold swap_index in *.
    destruct (decide (filter_index x = from)) as [Hxf|Hxf].
    + destruct (Htrack o i x Hx ltac:(lia)) as (f & Hf & Ho & Hoff).
      exists f. simpl. rewrite Hat. rewrite decide_True by done.
      by rewrite <- Hxf.
    + destruct (decide (filter_index x = to)) as [Hxt|Hxt].
      * destruct (Htrack o i x Hx ltac:(lia)) as (f & Hf & Ho & Hoff).
        exists f. simpl. rewrite Hat. rewrite decide_False by done.
        rewrite decide_True by done. by rewrite <- Hxt.
      * destruct (Htrack o i x Hx Hact) as (f & Hf & Ho & Hoff).
        exists f. rewrite Hat. by rewrite !decide_False by done.
  - intros k f Hf Ho. cbn [loadedFilterRefs filterSet] in *.
    rewrite Hat in Hf. rewrite Hrefs. unfold swap_index.
    destruct (decide (k = to)) as [->|Hkt].
    + destruct (Hcomplete from f Hf Ho) as (r & Hr & Hfi).
      rewrite Hr. simpl. eexists. split; [reflexivity|].
      by rewrite decide_True by done.
    + destruct (decide (k = from)) as [->|Hkf].
      * destruct (Hcomplete to f Hf Ho) as (r & Hr & Hfi).
        rewrite Hr. simpl. eexists. split; [reflexivity|].
        rewrite decide_False by lia. by rewrite decide_True by done.
      * destruct (Hcomplete k f Hf Ho) as (r & Hr & Hfi).
        rewrite Hr. simpl. eexists. split; [reflexivity|].
        by rewrite !decide_False by lia.
Qed.

Lemma list_eq_at {A} (l l' : list A) :
  (forall j, at_ l j = at_ l' j) -> l = l'.
Proof.
  intros Hat. apply list_eq. intros n. rewrite <- !at_of_nat. apply Hat.
Qed.

Lemma swap_index_involutive (from to : Z) (x : FilterRef) :
  from <> to -> swap_index to from (swap_index from to x) = x.
Proof.
  intros Hne. unfold swap_index. destruct x as [li fi m]. simpl.
  repeat (case_decide; simpl in * ); subst; try done; try lia.
Qed.

(** X12.  FiltersDialog::on_upFilterButton_clicked on a row other than the
    first: the slot returns; the entry and the one above it change places,
    every other entry stays, the loaded sets are untouched and the table
    stays consistent with the working set.  on_downFilterButton_clicked on
    the row the entry has moved to then restores the dialog exactly:
    working set and table are as before the two clicks. *)
Theorem on_upFilterButton_then_down (index : Z) (d : FiltersDialog) :
  table_consistent d ->
  0 < index < size (filterSet d) ->
  exists d',
    on_upFilterButton_clicked index d = Some d'
    /\ loadedFilterSets d' = loadedFilterSets d
    /\ at_ (filterSet d') (index - 1) = at_ (filterSet d) index
    /\ at_ (filterSet d') index = at_ (filterSet d) (index - 1)
    /\ (forall j, j <> index -> j <> index - 1 ->
                  at_ (filterSet d') j = at_ (filterSet d) j)
    /\ table_consistent d'
    /\ on_downFilterButton_clicked (index - 1) (size (filterSet d')) d' = Some d.
Proof.
  intros Hd Hindex.
  destruct (moveFilter_adjacent_consistent d index (index - 1) Hd)
    as (d' & Hrun & Hlfs & Hsz & Hat & Hrefs & Hszt & Hd'); [lia|lia|lia|].
  exists d'. unfold on_upFilterButton_clicked.
  replace (0 <? index) with true by (symmetry; lia).
  split; [exact Hrun|]. split; [exact Hlfs|].
  split; [by rewrite Hat, decide_True|].
  split; [rewrite Hat, decide_False by lia; by rewrite decide_True|].
  split; [intros j Hj1 Hj2; rewrite Hat; by rewrite !decide_False by lia|].
  split; [exact Hd'|].
  destruct (moveFilter_adjacent_consistent d' (index - 1) index Hd')
    as (d'' & Hrun' & Hlfs' & Hsz' & Hat' & Hrefs' & Hszt' & Hd''); [lia|lia|lia|].
  unfold on_downFilterButton_clicked.
  replace ((0 <=? index - 1) && (index - 1 <? size (filterSet d') - 1))
    with true by (symmetry; apply andb_true_iff; lia).
  replace (index - 1 + 1) with index by lia. rewrite Hrun'. f_equal.
  destruct d as [fs lfs T], d'' as [fs'' lfs'' T''].
  cbn [filterSet loadedFilterSets loadedFilterRefs] in *.
  f_equal.
  - apply list_eq_at. intros j. rewrite Hat', !Hat.
    repeat case_decide; subst; try done; try lia.
  - congruence.
  - assert (Hpoint : forall o i, ref_at T'' o i = ref_at T o i).
    { intros o i. rewrite Hrefs', Hrefs.
      destruct (ref_at T o i) as [x|]; [|done]. simpl.
      by rewrite swap_index_involutive by lia. }
    destruct Hd as (Hsized & Hshape & _), Hd'' as (Hsized'' & Hshape'' & _).
    unfold table_sized in *. cbn [loadedFilterRefs loadedFilterSets] in *.
    apply list_eq_at. intros o.
    destruct (at_ T'' o) as [row''|] eqn:Hrow''.
    + pose proof (at_Some_range _ _ _ Hrow'') as Ho.
      destruct (at_in_range T o ltac:(lia)) as [row Hrow].
      destruct (at_in_range lfs o ltac:(lia)) as [ns Hns].
      destruct (Hshape o row ns Hrow Hns) as [Hs _].
      destruct (Hshape'' o row'' ns Hrow'') as [Hs'' _];
        [by rewrite Hlfs', Hlfs|].
      rewrite Hrow. f_equal. apply list_eq_at. intros i.
      specialize (Hpoint o i). unfold ref_at in Hpoint.
      by rewrite Hrow'', Hrow in Hpoint.
    + apply at_None_range in Hrow''. symmetry.
      unfold at_. case_decide; [|done]. apply lookup_ge_None_2.
      unfold size in *. lia.
Qed.

Lemma on_upFilterButton_then_down_witness :
  exists d',
    on_upFilterButton_clicked 2 ex_dialog = Some d'
    /\ loadedFilterSets d' = loadedFilterSets ex_dialog
    /\ at_ (filterSet d') 1 = Some (Filter_new "WARN" false "black" "yellow" 0 1)
    /\ at_ (filterSet d') 2 = Some (Filter_new "ERROR" false "black" "red" 0 0)
    /\ (forall j, j <> 2 -> j <> 2 - 1 ->
                  at_ (filterSet d') j = at_ (filterSet ex_dialog) j)
    /\ table_consistent d'
    /\ on_downFilterButton_clicked 1 (size (filterSet d')) d' = Some ex_dialog.
Proof.
  apply (on_upFilterButton_then_down 2 ex_dialog).
  - apply table_consistent_b_sound. vm_compute. reflexivity.
  - change (size (filterSet ex_dialog)) with 3. lia.
Defined.

(** ** The table built by the constructor *)

Lemma size_fresh_refs (n : Z) : 0 <= n -> size (fresh_refs n) = n.
Proof.
  intros Hn. unfold fresh_refs, size. rewrite length_map, length_seqZ. lia.
Qed.

Lemma at_fresh_refs (n i : Z) (r : FilterRef) :
  at_ (fresh_refs n) i = Some r -> r = FilterRef_new i (-1).
Proof.
  unfold fresh_refs, at_. case_decide; [|done].
  rewrite list_lookup_fmap.
  destruct (seqZ 0 n !! Z.to_nat i) as [x|] eqn:Hx; [|done].
  apply lookup_seqZ in Hx as [-> _]. simpl. intros [= <-]. f_equal. lia.
Qed.

(** What the loop of populateFilterList keeps, for the filters [pre]
    already gone through. *)
Definition populate_inv (sets : list NamedFilterSet) (pre : list Filter)
    (table : list (list FilterRef)) : Prop :=
  size table = size sets
  /\ (forall o row namedSet,
        at_ table o = Some row -> at_ sets o = Some namedSet ->
        size row = size (set namedSet)
        /\ forall i r, at_ row i = Some r ->
                       loaded_index r = i
                       /\ (modified r = true -> 0 <= filter_index r))
  /\ (forall o i r,
        ref_at table o i = Some r -> 0 <= filter_index r ->
        exists f, at_ pre (filter_index r) = Some f
                  /\ origin f = o /\ loadedOffset f = i).

(** Every bound filter of [pre] has its reference, marked modified exactly
    when the filter differs from the rule it is bound to. *)
Definition populate_bound (sets : list NamedFilterSet) (pre : list Filter)
    (table : list (list FilterRef)) : Prop :=
  forall k f,
    at_ pre k = Some f -> 0 <= origin f ->
    exists r namedSet loaded,
      ref_at table (origin f) (loadedOffset f) = Some r
      /\ filter_index r = k
      /\ at_ sets (origin f) = Some namedSet
      /\ at_ (set namedSet) (loadedOffset f) = Some loaded
      /\ modified r = Filter_neq loaded f.

(** The bindings of a working set are valid, and no two entries share
    one. *)
Definition valid_bindings (sets : list NamedFilterSet) (fs : list Filter) : Prop :=
  forall f, f ∈ fs -> 0 <= origin f ->
            exists namedSet, at_ sets (origin f) = Some namedSet
                             /\ 0 <= loadedOffset f < size (set namedSet).

Definition distinct_bindings (fs : list Filter) : Prop :=
  forall k k' f f',
    at_ fs k = Some f -> at_ fs k' = Some f' -> 0 <= origin f ->
    origin f = origin f' -> loadedOffset f = loadedOffset f' -> k = k'.

Lemma at_elem_of {A} (l : list A) (i : Z) (x : A) : at_ l i = Some x -> x ∈ l.
Proof.
  unfold at_. case_decide; [|done]. apply list_elem_of_lookup_2.
Qed.

Lemma populate_inv_extend sets pre table f :
  populate_inv sets pre table -> populate_inv sets (pre ++ [f]) table.
Proof.
  intros (Hsz & Hshape & Htrack). split_and!; [done|done|].
  intros o i r Hr Hact. destruct (Htrack o i r Hr Hact) as (g & Hg & Ho & Hoff).
  exists g. split; [|done]. rewrite at_app_l; [done|].
  apply at_Some_range in Hg. lia.
Qed.

Lemma populate_bound_extend sets pre table f :
  origin f < 0 ->
  populate_bound sets pre table -> populate_bound sets (pre ++ [f]) table.
Proof.
  intros Hf Hbound k g Hg Ho.
  destruct (decide (k < size pre)) as [Hk|Hk].
  - rewrite at_app_l in Hg by done. by apply Hbound.
  - rewrite at_app_r in Hg by lia.
    pose proof (at_Some_range _ _ _ Hg) as Hr. change (size [f]) with 1 in Hr.
    replace (k - size pre) with 0 in Hg by lia.
    rewrite at_cons_0 in Hg. injection Hg as <-. lia.
Qed.

Lemma ref_at_set_row (table : list (list FilterRef)) (row : list FilterRef)
    (o j : Z) (x r : FilterRef) :
  at_ table o = Some row -> at_ row j = Some r ->
  forall o' i,
    ref_at (set_at table o (set_at row j x)) o' i
    = if decide (o = o' /\ j = i) then Some x else ref_at table o' i.
Proof.
  intros Hrow Hr o' i. unfold ref_at. rewrite at_set_at.
  destruct (decide (o = o')) as [<-|Hne].
  - rewrite Hrow. simpl. rewrite at_set_at.
    destruct (decide (j = i)) as [<-|Hji].
    + rewrite Hr. simpl. by rewrite decide_True.
    + by rewrite decide_False by tauto.
  - by rewrite decide_False by tauto.
Qed.

Lemma populate_inv_step sets pre table f namedSet row ref loaded :
  populate_inv sets pre table ->
  at_ sets (origin f) = Some namedSet ->
  at_ table (origin f) = Some row ->
  at_ row (loadedOffset f) = Some ref ->
  at_ (set namedSet) (loadedOffset f) = Some loaded ->
  populate_inv sets (pre ++ [f])
    (set_at table (origin f)
       (set_at row (loadedOffset f)
          (if Filter_neq loaded f
           then with_modified true (with_filter_index (size pre) ref)
           else with_filter_index (size pre) ref))).
Proof.
  intros (Hsz & Hshape & Htrack) Hns Hrow Href Hloaded.
  set (ref' := if Filter_neq loaded f
               then with_modified true (with_filter_index (size pre) ref)
               else with_filter_index (size pre) ref).
  pose proof (size_nonneg pre) as Hpre.
  destruct (Hshape _ _ _ Hrow Hns) as [Hsize Helems].
  destruct (Helems _ _ Href) as [Hli Hmod].
  assert (Hfi : filter_index ref' = size pre /\ loaded_index ref' = loaded_index ref).
  { unfold ref'. by destruct (Filter_neq loaded f). }
  split_and!.
  - by rewrite size_set_at.
  - intros o row' ns' Hrow' Hns'. rewrite at_set_at in Hrow'.
    destruct (decide (origin f = o)) as [<-|Hne].
    + rewrite Hrow in Hrow'. simpl in Hrow'. injection Hrow' as <-.
      assert (ns' = namedSet) by congruence. subst ns'.
      split; [by rewrite size_set_at|].
      intros i r. rewrite at_set_at.
      destruct (decide (loadedOffset f = i)) as [<-|Hi].
      * rewrite Href. simpl. intros [= <-]. split; [lia|]. intros _. lia.
      * apply Helems.
    + exact (Hshape _ _ _ Hrow' Hns').
  - intros o i r Hr Hact.
    rewrite (ref_at_set_row _ _ _ _ _ _ Hrow Href) in Hr.
    destruct (decide (origin f = o /\ loadedOffset f = i)) as [[<- <-]|Hne].
    + injection Hr as <-. exists f. destruct Hfi as [-> _].
      split; [|done]. rewrite at_app_r by lia.
      by replace (size pre - size pre) with 0 by lia.
    + destruct (Htrack o i r Hr Hact) as (g & Hg & Ho & Hoff).
      exists g. split; [|done]. rewrite at_app_l; [done|].
      apply at_Some_range in Hg. lia.
Qed.

Lemma populate_bound_step sets pre table f namedSet row ref loaded :
  populate_inv sets pre table ->
  populate_bound sets pre table ->
  (forall k g, at_ pre k = Some g -> 0 <= origin g ->
               origin g = origin f -> loadedOffset g <> loadedOffset f) ->
  at_ sets (origin f) = Some namedSet ->
  at_ table (origin f) = Some row ->
  at_ row (loadedOffset f) = Some ref ->
  at_ (set namedSet) (loadedOffset f) = Some loaded ->
  populate_bound sets (pre ++ [f])
    (set_at table (origin f)
       (set_at row (loadedOffset f)
          (if Filter_neq loaded f
           then with_modified true (with_filter_index (size pre) ref)
           else with_filter_index (size pre) ref))).
Proof.
  intros (Hsz & Hshape & Htrack) Hbound Hfresh Hns Hrow Href Hloaded k g Hg Ho.
  pose proof (size_nonneg pre) as Hpre.
  rewrite (ref_at_set_row _ _ _ _ _ _ Hrow Href).
  destruct (decide (k < size pre)) as [Hk|Hk].
  - rewrite at_app_l in Hg by done.
    destruct (Hbound k g Hg Ho) as (r & ns & l & Hr & Hfi & Hsets & Hl & Hm).
    rewrite decide_False.
    2:{ intros [Heq Hoff]. by apply (Hfresh k g Hg Ho). }
    by exists r, ns, l.
  - rewrite at_app_r in Hg by lia.
    pose proof (at_Some_range _ _ _ Hg) as Hr. change (size [f]) with 1 in Hr.
    replace (k - size pre) with 0 in Hg by lia.
    rewrite at_cons_0 in Hg. injection Hg as <-.
    rewrite decide_True by done.
    assert (Hinactive : filter_index ref < 0).
    { destruct (decide (0 <= filter_index ref)) as [Hact|]; [|lia].
      assert (Hr' : ref_at table (origin f) (loadedOffset f) = Some ref).
      { apply ref_at_Some. by exists row. }
      destruct (Htrack _ _ _ Hr' Hact) as (g & Hg & Hog & Hoffg).
      exfalso. apply (Hfresh _ g Hg); [lia|done|done]. }
    assert (Hunmarked : modified ref = false).
    { destruct (Hshape _ _ _ Hrow Hns) as [_ Helems].
      destruct (Helems _ _ Href) as [_ Hmod].
      destruct (modified ref); [|done]. specialize (Hmod eq_refl). lia. }
    eexists _, namedSet, loaded. split; [reflexivity|].
    split_and!; try done.
    + destruct (Filter_neq loaded f); simpl; lia.
    + destruct (Filter_neq loaded f); simpl; done.
Qed.

(** The world after the messages [extra] were appended to the log. *)
Definition logged (w : World) (extra : list LogEntry) : World :=
  mkWorld (registry w) (files w) (log w ++ extra) (replies w) (asked w).

Lemma logged_nil w : logged w [] = w.
Proof. destruct w. unfold logged. simpl. by rewrite app_nil_r. Qed.

Lemma logged_logged w a b : logged (logged w a) b = logged w (a ++ b).
Proof. unfold logged. simpl. by rewrite app_assoc. Qed.

Lemma populateFilterList_loop_spec (sets : list NamedFilterSet) (fs : list Filter) :
  (forall f, f ∈ fs -> 0 <= origin f -> 0 <= loadedOffset f) ->
  forall rest pre table w,
    fs = pre ++ rest ->
    populate_inv sets pre table ->
    exists table' extra,
      populateFilterList_loop rest (size pre) sets table w
      = Some (table', logged w extra)
      /\ populate_inv sets fs table'
      /\ (valid_bindings sets fs -> distinct_bindings fs ->
          populate_bound sets pre table ->
          populate_bound sets fs table' /\ extra = []).
Proof.
  intros Hoff rest. induction rest as [|f rest IH]; intros pre table w Hfs Hinv.
  - rewrite app_nil_r in Hfs. subst pre. exists table, []. simpl.
    rewrite logged_nil. done.
  - assert (Hfs' : fs = (pre ++ [f]) ++ rest) by (by rewrite <- app_assoc).
    assert (Hsize : size (pre ++ [f]) = size pre + 1).
    { rewrite size_app. done. }
    assert (Hf : at_ fs (size pre) = Some f).
    { rewrite Hfs. rewrite at_app_r by lia. by rewrite Z.sub_diag. }
    pose proof (at_elem_of _ _ _ Hf) as Hin.
    pose proof (size_nonneg pre) as Hpre.
    cbn [populateFilterList_loop].
    destruct (0 <=? origin f) eqn:Ho; [apply Z.leb_le in Ho|apply Z.leb_gt in Ho].
    2:{ destruct (IH (pre ++ [f]) table w Hfs' (populate_inv_extend _ _ _ f Hinv))
          as (table' & extra & Hrun & Hinv' & Hb).
        rewrite Hsize in Hrun. exists table', extra. split_and!; try done.
        intros Hv Hd Hbound. apply Hb; try done.
        by apply populate_bound_extend. }
    destruct (size sets <=? origin f) eqn:Hs;
      [apply Z.leb_le in Hs|apply Z.leb_gt in Hs].
    { destruct (IH (pre ++ [f]) table
                  (logged w [(logERROR,
                              [Txt "populateFilterList(): filter origin ";
                               Num (origin f);
                               Txt " does not refer to a valid FilterSet"])])
                  Hfs' (populate_inv_extend _ _ _ f Hinv))
        as (table' & extra & Hrun & Hinv' & Hb).
      rewrite Hsize in Hrun. rewrite logged_logged in Hrun.
      eexists table', _. split_and!; [exact Hrun|done|].
      intros Hv _ _. exfalso.
      destruct (Hv f Hin Ho) as (ns & Hns%at_Some_range & _). lia. }
    destruct (at_in_range sets (origin f)) as [ns Hns]; [lia|].
    unfold bind at 1. rewrite Hns. cbn [lift].
    destruct (size (set ns) <=? loadedOffset f) eqn:Hl;
      [apply Z.leb_le in Hl|apply Z.leb_gt in Hl].
    { destruct (IH (pre ++ [f]) table
                  (logged w [(logERROR,
                              [Txt "populateFilterList(): filter offset ";
                               Num (loadedOffset f);
                               Txt " does not refer to a valid Filter in ";
                               Txt (filename ns)])])
                  Hfs' (populate_inv_extend _ _ _ f Hinv))
        as (table' & extra & Hrun & Hinv' & Hb).
      rewrite Hsize in Hrun. rewrite logged_logged in Hrun.
      eexists table', _. split_and!; [exact Hrun|done|].
      intros Hv _ _. exfalso.
      destruct (Hv f Hin Ho) as (ns' & Hns' & Hrange).
      assert (ns' = ns) by congruence. subst ns'. lia. }
    pose proof (Hoff f Hin Ho) as Hoff0.
    pose proof Hinv as (Hsz & Hshape & Htrack).
    destruct (at_in_range table (origin f)) as [row Hrow]; [lia|].
    destruct (Hshape _ _ _ Hrow Hns) as [Hrowsize _].
    destruct (at_in_range row (loadedOffset f)) as [ref Href]; [lia|].
    destruct (at_in_range (set ns) (loadedOffset f)) as [loaded Hloaded]; [lia|].
    unfold bind at 1. rewrite Hrow. cbn [lift].
    rewrite Hrowsize, Z.eqb_refl. cbn [negb].
    unfold bind at 1. rewrite Href. cbn [lift].
    unfold bind at 1. rewrite Hloaded. cbn [lift].
    pose proof (populate_inv_step _ _ _ _ _ _ _ _ Hinv Hns Hrow Href Hloaded)
      as Hinv1.
    destruct (IH (pre ++ [f]) _ w Hfs' Hinv1)
      as (table' & extra & Hrun & Hinv' & Hb).
    rewrite Hsize in Hrun. exists table', extra. split_and!; try done.
    intros Hv Hd Hbound. apply Hb; try done.
    apply (populate_bound_step _ _ _ _ ns row ref loaded Hinv Hbound); try done.
    intros k g Hg Hog Heq Hoffeq.
    assert (Hk : k < size pre) by (apply at_Some_range in Hg; lia).
    assert (Hg' : at_ fs k = Some g) by (by rewrite Hfs, at_app_l).
    pose proof (Hd _ _ _ _ Hg' Hf Hog Heq Hoffeq). lia.
Qed.

Lemma populateLoadedFilterList_inv (fs : list Filter) (sets : list NamedFilterSet) :
  populate_inv sets [] (loadedFilterRefs (populateLoadedFilterList (mkDialog fs sets []))).
Proof.
  cbn [populateLoadedFilterList loadedFilterRefs loadedFilterSets app].
  assert (Hrow : forall o row namedSet,
             at_ (map (fun ns => fresh_refs (size (set ns))) sets) o = Some row ->
             at_ sets o = Some namedSet ->
             row = fresh_refs (size (set namedSet))).
  { intros o row ns Hrow Hns. unfold at_ in *. case_decide; [|done].
    rewrite list_lookup_fmap, Hns in Hrow. simpl in Hrow. congruence. }
  split_and!.
  - unfold size. by rewrite length_map.
  - intros o row ns Hr Hns. rewrite (Hrow _ _ _ Hr Hns).
    split; [apply size_fresh_refs, size_nonneg|].
    intros i r ->%at_fresh_refs. simpl. split; [done|]. intros [=].
  - intros o i r (row & Hr & Hi)%ref_at_Some Hact.
    destruct (at_in_range sets o) as [ns Hns].
    { apply at_Some_range in Hr. unfold size in *.
      rewrite length_map in Hr. done. }
    rewrite (Hrow _ _ _ Hr Hns) in Hi. apply at_fresh_refs in Hi. subst r.
    simpl in Hact. lia.
Qed.

Definition valid_bindings_b (sets : list NamedFilterSet) (fs : list Filter)
    : bool :=
  forallb
    (fun f =>
       negb (0 <=? origin f)
       || match at_ sets (origin f) with
          | Some namedSet =>
              (0 <=? loadedOffset f) && (loadedOffset f <? size (set namedSet))
          | None => false
          end)
    fs.

Definition distinct_bindings_b (fs : list Filter) : bool :=
  all_from
    (fun k f =>
       negb (0 <=? origin f)
       || all_from
            (fun k' f' =>
               negb ((origin f =? origin f')
                     && (loadedOffset f =? loadedOffset f'))
               || (k =? k'))
            0 fs)
    0 fs.

Lemma valid_bindings_b_sound sets fs :
  valid_bindings_b sets fs = true -> valid_bindings sets fs.
Proof.
  unfold valid_bindings_b. rewrite forallb_forall.
  intros Hall f Hf%list_elem_of_In Ho. specialize (Hall f Hf).
  replace (0 <=? origin f) with true in Hall by (symmetry; lia). simpl in Hall.
  destruct (at_ sets (origin f)) as [ns|]; [|done].
  exists ns. split; [done|]. lia.
Qed.

Lemma distinct_bindings_b_sound fs :
  distinct_bindings_b fs = true -> distinct_bindings fs.
Proof.
  intros Hb k k' f f' Hf Hf' Ho Heq Hoff.
  pose proof (all_from_spec _ _ _ Hb k f Hf) as Hk. simpl in Hk.
  replace (0 <=? origin f) with true in Hk by (symmetry; lia). simpl in Hk.
  pose proof (all_from_spec _ _ _ Hk k' f' Hf') as Hk'. simpl in Hk'.
  rewrite Heq, Hoff, !Z.eqb_refl in Hk'. simpl in Hk'. lia.
Qed.

(** X13.  The constructor's two populate calls, on a working set whose
    imported entries each name an existing rule of an existing loaded set
    and no two of which name the same rule, build a table that is
    consistent with the two sets: every imported entry is tracked by the
    reference of its rule, and that reference is marked modified exactly
    when Filter::operator!= tells the rule from the entry, that is when
    they differ in pattern, in pattern options (the case option) or in a
    colour name.  Nothing is logged and the world is left as it was. *)
Theorem FiltersDialog_populate_consistent (fs : list Filter)
    (sets : list NamedFilterSet) (w : World) :
  valid_bindings sets fs ->
  distinct_bindings fs ->
  exists d,
    FiltersDialog_populate fs sets w = Some (d, w)
    /\ filterSet d = fs
    /\ loadedFilterSets d = sets
    /\ table_consistent d
    /\ (forall k f, at_ fs k = Some f -> 0 <= origin f ->
          exists r namedSet loaded,
            ref_at (loadedFilterRefs d) (origin f) (loadedOffset f) = Some r
            /\ filter_index r = k
            /\ at_ sets (origin f) = Some namedSet
            /\ at_ (set namedSet) (loadedOffset f) = Some loaded
            /\ modified r = Filter_neq loaded f).
Proof.
  intros Hvalid Hdistinct.
  assert (Hoff : forall f, f ∈ fs -> 0 <= origin f -> 0 <= loadedOffset f).
  { intros f Hf Ho. destruct (Hvalid f Hf Ho) as (ns & _ & Hr). lia. }
  destruct (populateFilterList_loop_spec sets fs Hoff fs [] _ w eq_refl
              (populateLoadedFilterList_inv fs sets))
    as (table & extra & Hrun & Hinv & Hb).
  destruct Hb as [Hbound ->]; [done|done| |].
  { intros k f Hf. apply at_Some_range in Hf. unfold size in Hf. simpl in Hf. lia. }
  rewrite logged_nil in Hrun.
  exists (mkDialog fs sets table).
  unfold FiltersDialog_populate, populateFilterList.
  cbn [populateLoadedFilterList filterSet loadedFilterSets loadedFilterRefs].
  unfold bind.
  change (size []) with 0 in Hrun.
  cbn [populateLoadedFilterList filterSet loadedFilterSets loadedFilterRefs] in Hrun.
  rewrite Hrun. split_and!; try done.
  destruct Hinv as (Hsz & Hshape & Htrack).
  split_and!; try done.
  intros k f Hf Ho.
  destruct (Hbound k f Hf Ho) as (r & _ & _ & Hr & Hfi & _). by exists r.
Qed.

Lemma FiltersDialog_populate_consistent_witness :
  exists d,
    FiltersDialog_populate (filterSet ex_drift_dialog)
                           (loadedFilterSets ex_drift_dialog) ex_world
    = Some (d, ex_world)
    /\ filterSet d = filterSet ex_drift_dialog
    /\ loadedFilterSets d = loadedFilterSets ex_drift_dialog
    /\ table_consistent d
    /\ (forall k f, at_ (filterSet ex_drift_dialog) k = Some f -> 0 <= origin f ->
          exists r namedSet loaded,
            ref_at (loadedFilterRefs d) (origin f) (loadedOffset f) = Some r
            /\ filter_index r = k
            /\ at_ (loadedFilterSets ex_drift_dialog) (origin f) = Some namedSet
            /\ at_ (set namedSet) (loadedOffset f) = Some loaded
            /\ modified r = Filter_neq loaded f).
Proof.
  apply (FiltersDialog_populate_consistent
           (filterSet ex_drift_dialog) (loadedFilterSets ex_drift_dialog) ex_world).
  - apply valid_bindings_b_sound. vm_compute. reflexivity.
  - apply distinct_bindings_b_sound. vm_compute. reflexivity.
Defined.

(** X14.  Whatever the bindings of the working set are, as long as no
    imported entry has a negative offset, the constructor's two populate
    calls return: the table has one row per loaded set, shaped after it, and
    every active reference points at a working entry bound to its rule.  An
    entry bound to a set or rule that does not exist is only logged: the
    registry and the files are untouched. *)
Theorem FiltersDialog_populate_tracks (fs : list Filter)
    (sets : list NamedFilterSet) (w : World) :
  (forall f, f ∈ fs -> 0 <= origin f -> 0 <= loadedOffset f) ->
  exists d extra,
    FiltersDialog_populate fs sets w = Some (d, logged w extra)
    /\ filterSet d = fs
    /\ loadedFilterSets d = sets
    /\ table_sized d /\ refs_shape d /\ refs_track d.
Proof.
  intros Hoff.
  destruct (populateFilterList_loop_spec sets fs Hoff fs [] _ w eq_refl
              (populateLoadedFilterList_inv fs sets))
    as (table & extra & Hrun & Hinv & _).
  exists (mkDialog fs sets table), extra.
  unfold FiltersDialog_populate, populateFilterList.
  cbn [populateLoadedFilterList filterSet loadedFilterSets loadedFilterRefs].
  unfold bind.
  change (size []) with 0 in Hrun.
  cbn [populateLoadedFilterList filterSet loadedFilterSets loadedFilterRefs] in Hrun.
  rewrite Hrun. split_and!; try done.
  all: destruct Hinv as (Hsz & Hshape & Htrack); done.
Qed.

Lemma FiltersDialog_populate_tracks_witness :
  exists d extra,
    FiltersDialog_populate [Filter_new "ERROR" false "black" "red" 3 0]
                           (loadedFilterSets ex_dialog) ex_world
    = Some (d, logged ex_world extra)
    /\ filterSet d = [Filter_new "ERROR" false "black" "red" 3 0]
    /\ loadedFilterSets d = loadedFilterSets ex_dialog
    /\ table_sized d /\ refs_shape d /\ refs_track d.
Proof.
  apply (FiltersDialog_populate_tracks
           [Filter_new "ERROR" false "black" "red" 3 0]
           (loadedFilterSets ex_dialog) ex_world).
  intros f Hf%list_elem_of_singleton _. subst f. simpl. lia.
Defined.

(** ** Adding rules of a loaded set to the working set *)

Lemma addLoadedFilter_item_consistent (o row : Z) (d : FiltersDialog)
    (namedSet : NamedFilterSet) (r : FilterRef) (f : Filter) :
  table_consistent d ->
  at_ (loadedFilterSets d) o = Some namedSet ->
  at_ (set namedSet) row = Some f ->
  origin f = o ->
  ref_at (loadedFilterRefs d) o row = Some r ->
  filter_index r < 0 ->
  exists d',
    addLoadedFilter_item o row d = Some d'
    /\ filterSet d' = filterSet d ++ [setLoadedOffset row f]
    /\ loadedFilterSets d' = loadedFilterSets d
    /\ (forall o' i,
          ref_at (loadedFilterRefs d') o' i
          = if decide (o = o' /\ row = i)
            then Some (with_filter_index (size (filterSet d)) r)
            else ref_at (loadedFilterRefs d) o' i)
    /\ table_consistent d'.
Proof.
  intros (Hsz & Hshape & Htrack & Hcomplete) Hns Hf Ho Hr Hinactive.
  pose proof Hr as (refs & Hrefs & Hrow)%ref_at_Some.
  pose proof (size_nonneg (filterSet d)) as Hfs.
  pose proof (at_Some_range _ _ _ Hf) as Hrange.
  unfold addLoadedFilter_item. rewrite Hrefs, Hns. simpl. rewrite Hf. simpl.
  rewrite Hrow. simpl.
  replace (size (filterSet d ++ [setLoadedOffset row f]) - 1)
    with (size (filterSet d)) by (rewrite size_app; change (size [_]) with 1; lia).
  eexists. split; [reflexivity|].
  cbn [filterSet loadedFilterSets loadedFilterRefs].
  assert (Hat : forall o' i,
             ref_at (set_at (loadedFilterRefs d) o
                       (set_at refs row
                          (with_filter_index (size (filterSet d)) r))) o' i
             = if decide (o = o' /\ row = i)
               then Some (with_filter_index (size (filterSet d)) r)
               else ref_at (loadedFilterRefs d) o' i).
  { by apply (ref_at_set_row _ _ _ _ _ r). }
  split_and!; try done. unfold table_consistent. split_and!.
  - unfold table_sized. cbn [loadedFilterSets loadedFilterRefs].
    by rewrite size_set_at.
  - intros o' refs' ns'. cbn [loadedFilterSets loadedFilterRefs].
    rewrite at_set_at. intros Hrefs' Hns'.
    destruct (decide (o = o')) as [<-|Hne].
    + rewrite Hrefs in Hrefs'. simpl in Hrefs'. injection Hrefs' as <-.
      destruct (Hshape _ _ _ Hrefs Hns') as [Hsize Helems].
      split; [by rewrite size_set_at|].
      intros i x. rewrite at_set_at.
      destruct (decide (row = i)) as [<-|Hi].
      * rewrite Hrow. simpl. intros [= <-]. simpl.
        destruct (Helems _ _ Hrow) as [-> _]. split; [done|]. intros _. lia.
      * apply Helems.
    + exact (Hshape _ _ _ Hrefs' Hns').
  - intros o' i x. cbn [filterSet loadedFilterRefs]. rewrite Hat.
    destruct (decide (o = o' /\ row = i)) as [[<- <-]|Hne].
    + intros [= <-] _. simpl. exists (setLoadedOffset row f).
      rewrite at_app_last. done.
    + intros Hx Hact. destruct (Htrack _ _ _ Hx Hact) as (g & Hg & Hog & Hoff).
      exists g. split; [|done]. rewrite at_app_l; [done|].
      apply at_Some_range in Hg. lia.
  - intros k g. cbn [filterSet loadedFilterRefs]. intros Hg Hog. rewrite Hat.
    destruct (decide (k < size (filterSet d))) as [Hk|Hk].
    + rewrite at_app_l in Hg by done.
      destruct (Hcomplete k g Hg Hog) as (x & Hx & Hfi).
      rewrite decide_False; [by exists x|].
      intros [Heq Hoff]. rewrite <- Heq, <- Hoff in Hx.
      apply at_Some_range in Hg. assert (x = r) by congruence. subst x. lia.
    + rewrite at_app_r in Hg by lia.
      pose proof (at_Some_range _ _ _ Hg) as Hr'. change (size [_]) with 1 in Hr'.
      replace (k - size (filterSet d)) with 0 in Hg by lia.
      rewrite at_cons_0 in Hg. injection Hg as <-.
      rewrite decide_True by done. eexists. split; [reflexivity|]. simpl. lia.
Qed.

(** The copies that on_addLoadedFilterButton_clicked appends for the rows
    [rows] of the set [namedSet]: each rule with its own row as offset. *)
Definition added_filters (namedSet : NamedFilterSet) (rows : list Z)
    : list Filter :=
  omap (fun row => setLoadedOffset row <$> at_ (set namedSet) row) rows.

Lemma addLoadedFilter_loop_consistent (o : Z) (namedSet : NamedFilterSet)
    (rows : list Z) :
  NoDup rows ->
  forall d,
    (forall row f, row ∈ rows -> at_ (set namedSet) row = Some f ->
                   origin f = o) ->
    table_consistent d ->
    at_ (loadedFilterSets d) o = Some namedSet ->
    (forall row, row ∈ rows ->
       exists r, ref_at (loadedFilterRefs d) o row = Some r
                 /\ filter_index r < 0) ->
    exists d',
      addLoadedFilter_loop o rows d = Some d'
      /\ filterSet d' = filterSet d ++ added_filters namedSet rows
      /\ loadedFilterSets d' = loadedFilterSets d
      /\ table_consistent d'.
Proof.
  intros Hnodup. induction Hnodup as [|row rows Hnotin Hnodup IH];
    intros d Horigin Hd Hns Hrows.
  - exists d. simpl. by rewrite app_nil_r.
  - destruct (Hrows row) as (r & Hr & Hinactive); [apply list_elem_of_here|].
    assert (exists f, at_ (set namedSet) row = Some f) as [f Hf].
    { pose proof Hr as (refs & Hrefs & Hrow)%ref_at_Some.
      destruct Hd as (_ & Hshape & _).
      destruct (Hshape _ _ _ Hrefs Hns) as [Hsize _].
      apply at_Some_range in Hrow. apply at_in_range. lia. }
    destruct (addLoadedFilter_item_consistent o row d namedSet r f Hd Hns Hf
                (Horigin row f (list_elem_of_here _ _) Hf) Hr Hinactive)
      as (d1 & Hrun1 & Hfs1 & Hlfs1 & Hat1 & Hd1).
    destruct (IH d1) as (d' & Hrun & Hfs & Hlfs & Hd').
    { intros row' f' Hrow'. apply Horigin. by apply list_elem_of_further. }
    { done. }
    { by rewrite Hlfs1. }
    { intros row' Hrow'. rewrite Hat1. rewrite decide_False.
      - apply Hrows. by apply list_elem_of_further.
      - intros [_ <-]. done. }
    exists d'. cbn [addLoadedFilter_loop]. rewrite Hrun1. simpl.
    split_and!; try done.
    + rewrite Hfs, Hfs1. unfold added_filters. simpl. rewrite Hf. simpl.
      by rewrite <- app_assoc.
    + by rewrite Hlfs.
Qed.

(** One round of the loop without any assumption on the dialog but that the
    reference and the rule of the row exist. *)
Lemma addLoadedFilter_item_run (o row : Z) (d : FiltersDialog)
    (namedSet : NamedFilterSet) (r : FilterRef) (f : Filter) :
  at_ (loadedFilterSets d) o = Some namedSet ->
  at_ (set namedSet) row = Some f ->
  ref_at (loadedFilterRefs d) o row = Some r ->
  exists d',
    addLoadedFilter_item o row d = Some d'
    /\ filterSet d' = filterSet d ++ [setLoadedOffset row f]
    /\ loadedFilterSets d' = loadedFilterSets d
    /\ (forall o' i,
          ref_at (loadedFilterRefs d') o' i
          = if decide (o = o' /\ row = i)
            then Some (with_filter_index (size (filterSet d)) r)
            else ref_at (loadedFilterRefs d) o' i).
Proof.
  intros Hns Hf Hr.
  pose proof Hr as (refs & Hrefs & Hrow)%ref_at_Some.
  unfold addLoadedFilter_item. rewrite Hrefs, Hns. simpl. rewrite Hf. simpl.
  rewrite Hrow. simpl.
  replace (size (filterSet d ++ [setLoadedOffset row f]) - 1)
    with (size (filterSet d)) by (rewrite size_app; change (size [_]) with 1; lia).
  eexists. split; [reflexivity|].
  cbn [filterSet loadedFilterSets loadedFilterRefs].
  split; [done|]. split; [done|]. by apply (ref_at_set_row _ _ _ _ _ r).
Qed.

Lemma addLoadedFilter_loop_run (o : Z) (namedSet : NamedFilterSet)
    (rows : list Z) :
  NoDup rows ->
  forall d,
    at_ (loadedFilterSets d) o = Some namedSet ->
    (forall row, row ∈ rows ->
       is_Some (ref_at (loadedFilterRefs d) o row)
       /\ is_Some (at_ (set namedSet) row)) ->
    exists d',
      addLoadedFilter_loop o rows d = Some d'
      /\ filterSet d' = filterSet d ++ added_filters namedSet rows
      /\ loadedFilterSets d' = loadedFilterSets d
      /\ (forall j row, rows !! j = Some row ->
            exists r', ref_at (loadedFilterRefs d') o row = Some r'
                       /\ filter_index r' = size (filterSet d) + Z.of_nat j)
      /\ (forall o' i, o' <> o \/ i ∉ rows ->
            ref_at (loadedFilterRefs d') o' i = ref_at (loadedFilterRefs d) o' i).
Proof.
  intros Hnodup. induction Hnodup as [|row rows Hnotin Hnodup IH];
    intros d Hns Hrows.
  - exists d. simpl. rewrite app_nil_r. split_and!; try done.
  - destruct (Hrows row (list_elem_of_here _ _)) as [[r Hr] [f Hf]].
    destruct (addLoadedFilter_item_run o row d namedSet r f Hns Hf Hr)
      as (d1 & Hrun1 & Hfs1 & Hlfs1 & Hat1).
    destruct (IH d1) as (d' & Hrun & Hfs & Hlfs & Hsel & Hother).
    { by rewrite Hlfs1. }
    { intros row' Hrow'. rewrite Hat1. rewrite decide_False.
      - apply Hrows. by apply list_elem_of_further.
      - intros [_ <-]. done. }
    exists d'. cbn [addLoadedFilter_loop]. rewrite Hrun1. simpl.
    split; [done|]. split_and!.
    + rewrite Hfs, Hfs1. unfold added_filters. simpl. rewrite Hf. simpl.
      by rewrite <- app_assoc.
    + by rewrite Hlfs.
    + intros [|j] row' Hj.
      * simpl in Hj. injection Hj as <-.
        rewrite Hother by (by right). rewrite Hat1, decide_True by done.
        eexists. split; [reflexivity|]. simpl. lia.
      * simpl in Hj. destruct (Hsel j row' Hj) as (r' & Hr' & Hfi).
        exists r'. split; [done|]. rewrite Hfi, Hfs1, size_app.
        change (size [_]) with 1. lia.
    + intros o' i Hoi. rewrite Hother.
      * rewrite Hat1. rewrite decide_False; [done|]. intros [-> ->].
        destruct Hoi as [Hne|Hni]; [done|]. apply Hni, list_elem_of_here.
      * destruct Hoi as [Hne|Hni]; [by left|right].
        intros Hin. apply Hni. by apply list_elem_of_further.
Qed.

Lemma at_added_filters (namedSet : NamedFilterSet) (rows : list Z) :
  (forall row, row ∈ rows -> is_Some (at_ (set namedSet) row)) ->
  forall j row f,
    rows !! j = Some row -> at_ (set namedSet) row = Some f ->
    at_ (added_filters namedSet rows) (Z.of_nat j)
    = Some (setLoadedOffset row f).
Proof.
  induction rows as [|row0 rows IH]; intros Hall j row f Hj Hf; [done|].
  destruct (Hall row0 (list_elem_of_here _ _)) as [f0 Hf0].
  unfold added_filters. cbn [omap list_omap]. rewrite Hf0. simpl.
  destruct j as [|j].
  - simpl in Hj. injection Hj as ->. assert (f0 = f) by congruence. by subst f0.
  - simpl in Hj. rewrite at_cons_S by lia.
    replace (Z.of_nat (S j) - 1) with (Z.of_nat j) by lia.
    apply IH; [|done|done]. intros row' Hrow'.
    by apply Hall, list_elem_of_further.
Qed.

(** A dialog with the set ["team.conf"] loaded and none of its rules in the
    working set. *)
Definition ex_available_dialog : FiltersDialog :=
  mkDialog
    [ Filter_new "New Filter" false "black" "white" (-1) (-1) ]
    (loadedFilterSets ex_dialog)
    [ [ FilterRef_new 0 (-1); FilterRef_new 1 (-1) ] ].

(** X15.  on_addLoadedFilterButton_clicked, on a consistent dialog and
    distinct rows of the current loaded set that are not in use (the rows
    the list of available filters shows), returns: one copy of each
    selected rule is appended to the working set, in the order of the
    selection and with the row as its offset, and the loaded sets are
    unchanged.  The copy keeps the origin stored in the rule.  The dialog
    is consistent again when every selected rule carries the index of its
    own set as origin, as retrieval and on_addFilterFile_clicked leave the
    rules; it is not consistent when a selected rule carries another
    origin, as the rules of a later set do once on_removeFilterFile_clicked
    has erased a set before it. *)
Theorem on_addLoadedFilterButton_consistent (o : Z) (rows : list Z)
    (d : FiltersDialog) (namedSet : NamedFilterSet) :
  table_consistent d ->
  at_ (loadedFilterSets d) o = Some namedSet ->
  NoDup rows ->
  (forall row, row ∈ rows ->
     exists r, ref_at (loadedFilterRefs d) o row = Some r
               /\ filter_index r < 0) ->
  exists d',
    on_addLoadedFilterButton_clicked o rows d = Some d'
    /\ filterSet d' = filterSet d ++ added_filters namedSet rows
    /\ loadedFilterSets d' = loadedFilterSets d
    /\ ((forall row f, row ∈ rows -> at_ (set namedSet) row = Some f ->
                       origin f = o) ->
        table_consistent d')
    /\ ((exists row f, row ∈ rows /\ at_ (set namedSet) row = Some f
                       /\ origin f <> o) ->
        ~ table_consistent d').
Proof.
  intros Hd Hns Hnodup Hrows.
  assert (Hexist : forall row, row ∈ rows ->
            is_Some (ref_at (loadedFilterRefs d) o row)
            /\ is_Some (at_ (set namedSet) row)).
  { intros row Hrow. destruct (Hrows row Hrow) as (r & Hr & _).
    split; [by eexists|].
    pose proof Hr as (refs & Hrefs & Hri)%ref_at_Some.
    destruct Hd as (_ & Hshape & _).
    destruct (Hshape _ _ _ Hrefs Hns) as [Hsize _].
    apply at_Some_range in Hri. apply at_in_range. lia. }
  destruct (addLoadedFilter_loop_run o namedSet rows Hnodup d Hns Hexist)
    as (d' & Hrun & Hfs & Hlfs & Hsel & _).
  exists d'. split.
  { unfold on_addLoadedFilterButton_clicked.
    pose proof (at_Some_range _ _ _ Hns) as Ho.
    replace (o <? 0) with false by (symmetry; lia).
    destruct (at_in_range (loadedFilterRefs d) o) as [refs Hrefs].
    { destruct Hd as (Hsz & _). unfold table_sized in Hsz. lia. }
    rewrite Hrefs, Hns. simpl. exact Hrun. }
  split; [done|]. split; [done|]. split.
  - intros Horigin.
    destruct (addLoadedFilter_loop_consistent o namedSet rows Hnodup d Horigin
                Hd Hns Hrows) as (d'' & Hrun' & _ & _ & Hd'').
    assert (d'' = d') by congruence. by subst d''.
  - intros (row & f & Hrow & Hf & Hne) (_ & _ & Htrack & _).
    apply list_elem_of_lookup_1 in Hrow as [j Hj].
    destruct (Hsel j row Hj) as (r' & Hr' & Hfi).
    pose proof (size_nonneg (filterSet d)) as Hnn.
    destruct (Htrack o row r' Hr') as (g & Hg & Hog & _); [lia|].
    rewrite Hfi, Hfs in Hg. rewrite at_app_r in Hg by lia.
    replace (size (filterSet d) + Z.of_nat j - size (filterSet d))
      with (Z.of_nat j) in Hg by lia.
    rewrite (at_added_filters namedSet rows) with (row := row) (f := f) in Hg;
      [|intros row' Hrow'; by apply Hexist|done|done].
    injection Hg as <-. by apply Hne.
Qed.

(** The dialog that on_removeFilterFile_clicked leaves when the first of
    two loaded sets is erased and no rule is in use: the set now at index 0
    still has the rule it had as set 1. *)
Definition ex_shifted_dialog : FiltersDialog :=
  mkDialog
    []
    [ mkNamed "site.conf" [ Filter_new "WARN" false "black" "yellow" 1 (-1) ] false ]
    [ [ FilterRef_new 0 (-1) ] ].

Lemma on_addLoadedFilterButton_consistent_witness :
  (exists d',
     on_addLoadedFilterButton_clicked 0 [1; 0] ex_available_dialog = Some d'
     /\ filterSet d'
        = filterSet ex_available_dialog
          ++ added_filters (mkNamed "team.conf"
                              [ Filter_new "ERROR" false "black" "red" 0 (-1);
                                Filter_new "WARN" false "black" "yellow" 0 (-1) ]
                              false) [1; 0]
     /\ loadedFilterSets d' = loadedFilterSets ex_available_dialog
     /\ table_consistent d')
  /\ (exists d',
        on_addLoadedFilterButton_clicked 0 [0] ex_shifted_dialog = Some d'
        /\ filterSet d' = [ Filter_new "WARN" false "black" "yellow" 1 0 ]
        /\ ~ table_consistent d').
Proof.
  split.
  - destruct (on_addLoadedFilterButton_consistent 0 [1; 0] ex_available_dialog
                (mkNamed "team.conf"
                   [ Filter_new "ERROR" false "black" "red" 0 (-1);
                     Filter_new "WARN" false "black" "yellow" 0 (-1) ]
                   false))
      as (d' & Hrun & Hfs & Hlfs & Hgood & _).
    + apply table_consistent_b_sound. vm_compute. reflexivity.
    + reflexivity.
    + apply NoDup_cons. split; [|apply NoDup_singleton].
      intros H%list_elem_of_singleton. lia.
    + intros row Hrow.
      repeat (apply elem_of_cons in Hrow as [->|Hrow]).
      * eexists. split; [reflexivity|]. simpl. lia.
      * eexists. split; [reflexivity|]. simpl. lia.
      * by apply not_elem_of_nil in Hrow.
    + exists d'. split_and!; [done|done|done|].
      apply Hgood. intros row f Hrow Hf.
      repeat (apply elem_of_cons in Hrow as [->|Hrow]).
      * by injection Hf as <-.
      * by injection Hf as <-.
      * by apply not_elem_of_nil in Hrow.
  - destruct (on_addLoadedFilterButton_consistent 0 [0] ex_shifted_dialog
                (mkNamed "site.conf"
                   [ Filter_new "WARN" false "black" "yellow" 1 (-1) ] false))
      as (d' & Hrun & Hfs & _ & _ & Hbad).
    + apply table_consistent_b_sound. vm_compute. reflexivity.
    + reflexivity.
    + apply NoDup_singleton.
    + intros row Hrow%list_elem_of_singleton. subst row.
      eexists. split; [reflexivity|]. simpl. lia.
    + exists d'. split_and!; [done|done|].
      apply Hbad. exists 0, (Filter_new "WARN" false "black" "yellow" 1 (-1)).
      split_and!; [apply list_elem_of_here|reflexivity|discriminate].
Defined.

(** ** Editing the properties of a working entry *)

Lemma set_at_id {A} (l : list A) (i : Z) (x : A) :
  at_ l i = Some x -> set_at l i x = l.
Proof.
  unfold at_, set_at. case_decide; [|done]. apply list_insert_id.
Qed.

Lemma ref_update_id (refs : list (list FilterRef)) (o j : Z)
    (g : FilterRef -> FilterRef) :
  (forall r, ref_at refs o j = Some r -> g r = r) ->
  ref_update refs o j g = refs.
Proof.
  intros Hg. unfold ref_update.
  destruct (at_ refs o) as [row|] eqn:Hrow; [|done].
  destruct (at_ row j) as [r|] eqn:Hr; [|done].
  rewrite Hg by (apply ref_at_Some; eauto).
  by rewrite (set_at_id row), (set_at_id refs).
Qed.

(** Overwriting a working entry by one with the same binding and setting the
    mark of one reference keeps the dialog consistent, as long as the mark
    is not set on an inactive reference. *)
Lemma retag_consistent (d : FiltersDialog) (k : Z) (f edited : Filter)
    (o j : Z) (m : bool) :
  table_consistent d ->
  at_ (filterSet d) k = Some f ->
  origin edited = origin f ->
  loadedOffset edited = loadedOffset f ->
  (forall r, ref_at (loadedFilterRefs d) o j = Some r -> m = true ->
             0 <= filter_index r) ->
  table_consistent
    (mkDialog (set_at (filterSet d) k edited) (loadedFilterSets d)
              (ref_update (loadedFilterRefs d) o j (with_modified m))).
Proof.
  intros (Hsz & Hshape & Htrack & Hcomplete) Hf Ho Hoff Hm.
  assert (Hfs : forall k' g', at_ (set_at (filterSet d) k edited) k' = Some g' ->
             exists g, at_ (filterSet d) k' = Some g
                       /\ origin g' = origin g /\ loadedOffset g' = loadedOffset g).
  { intros k' g'. rewrite at_set_at. case_decide as Hk; [subst k'|by eauto].
    rewrite Hf. simpl. intros [= <-]. by exists f. }
  assert (Hfs' : forall k' g, at_ (filterSet d) k' = Some g ->
             exists g', at_ (set_at (filterSet d) k edited) k' = Some g'
                       /\ origin g' = origin g /\ loadedOffset g' = loadedOffset g).
  { intros k' g Hg. rewrite at_set_at. case_decide as Hk; [subst k'|by eauto].
    rewrite Hg. simpl. exists edited. assert (g = f) by congruence. by subst g. }
  assert (Href : forall o' i x',
             ref_at (ref_update (loadedFilterRefs d) o j (with_modified m)) o' i
             = Some x' ->
             exists x, ref_at (loadedFilterRefs d) o' i = Some x
                       /\ loaded_index x' = loaded_index x
                       /\ filter_index x' = filter_index x
                       /\ (modified x' = true -> 0 <= filter_index x)).
  { intros o' i x'. rewrite ref_at_update.
    destruct (decide (o = o' /\ j = i)) as [[<- <-]|Hne].
    - destruct (ref_at (loadedFilterRefs d) o j) as [r|] eqn:Hr; [|done].
      simpl. intros [= <-]. exists r. simpl. split_and!; try done.
      intros ->. by apply Hm.
    - intros Hx. exists x'. split_and!; try done.
      apply ref_at_Some in Hx as (row & Hrow & Hx).
      destruct (at_in_range (loadedFilterSets d) o') as [ns Hns].
      { apply at_Some_range in Hrow. unfold table_sized in Hsz. lia. }
      destruct (Hshape _ _ _ Hrow Hns) as [_ Helems].
      by destruct (Helems _ _ Hx). }
  unfold table_consistent. split_and!.
  - unfold table_sized. cbn [loadedFilterRefs loadedFilterSets].
    by rewrite size_ref_update.
  - intros o' row' ns. cbn [loadedFilterRefs loadedFilterSets]. intros Hrow' Hns.
    destruct (row_ref_update _ _ _ _ _ _ Hrow') as (row & Hrow & Hsize).
    destruct (Hshape _ _ _ Hrow Hns) as [Hsize' Helems].
    split; [lia|]. intros i x' Hx'.
    destruct (Href o' i x') as (x & Hx & Hli & Hfi & Hmod).
    { apply ref_at_Some. eauto. }
    apply ref_at_Some in Hx as (row0 & Hrow0 & Hx).
    assert (row0 = row) by congruence. subst row0.
    destruct (Helems _ _ Hx) as [Hi _]. split; [lia|].
    intros Hmx. specialize (Hmod Hmx). lia.
  - intros o' i x'. cbn [loadedFilterRefs filterSet]. intros Hx' Hact.
    destruct (Href o' i x' Hx') as (x & Hx & _ & Hfi & _).
    destruct (Htrack o' i x Hx) as (g & Hg & Hog & Hoffg); [lia|].
    destruct (Hfs' _ _ Hg) as (g' & Hg' & Hog' & Hoffg').
    exists g'. rewrite Hfi. split_and!; [done|lia|lia].
  - intros k' g'. cbn [loadedFilterRefs filterSet]. intros Hg' Hog'.
    destruct (Hfs _ _ Hg') as (g & Hg & Hog & Hoffg).
    destruct (Hcomplete k' g Hg) as (x & Hx & Hfi); [lia|].
    rewrite Hog, Hoffg, ref_at_update.
    destruct (decide (o = origin g /\ j = loadedOffset g)) as [[-> ->]|Hne].
    + rewrite Hx. simpl. eexists. split; [reflexivity|]. done.
    + by exists x.
Qed.

(** The mark that updateFilterProperties leaves on the reference of the
    edited entry: set when the entry differs from its rule, cleared when it
    is equal and the loaded-filter list shows the entry's set, and left as
    it was otherwise. *)
Definition drift_mark (edited rule : Filter) (loadedRow : Z) (r : FilterRef)
    : bool :=
  if Filter_neq edited rule then true
  else if loadedRow =? origin edited then false
  else modified r.

(** X16.  updateFilterProperties on a consistent dialog and a row of the
    working set returns: the entry takes the pattern, case option and
    colours of the property fields and keeps its binding, the loaded sets
    are unchanged and the dialog stays consistent.  For a local entry the
    table is untouched; for an imported entry only the mark of its own
    reference changes. It is set when the entry now differs from its rule;
    it is cleared when the entry equals its rule and the loaded-filter list
    shows the entry's set; when the entry equals its rule and another set is
    shown, the mark stays as it was. *)
Theorem updateFilterProperties_marks_drift (selectedRow : Z)
    (patternText : string) (ignoreCaseChecked : bool)
    (foreColor backColor : string) (loadedRow : Z)
    (d : FiltersDialog) (f : Filter) :
  table_consistent d ->
  at_ (filterSet d) selectedRow = Some f ->
  exists d' edited,
    updateFilterProperties selectedRow patternText ignoreCaseChecked
                           foreColor backColor loadedRow d = Some d'
    /\ edited = setBackColor backColor
                  (setForeColor foreColor
                     (setIgnoreCase ignoreCaseChecked (setPattern patternText f)))
    /\ filterSet d' = set_at (filterSet d) selectedRow edited
    /\ loadedFilterSets d' = loadedFilterSets d
    /\ table_consistent d'
    /\ (origin f < 0 -> loadedFilterRefs d' = loadedFilterRefs d)
    /\ (0 <= origin f ->
        exists namedSet rule r,
          at_ (loadedFilterSets d) (origin f) = Some namedSet
          /\ at_ (set namedSet) (loadedOffset f) = Some rule
          /\ ref_at (loadedFilterRefs d) (origin f) (loadedOffset f) = Some r
          /\ filter_index r = selectedRow
          /\ forall o i,
               ref_at (loadedFilterRefs d') o i
               = if decide (origin f = o /\ loadedOffset f = i)
                 then Some (with_modified (drift_mark edited rule loadedRow r) r)
                 else ref_at (loadedFilterRefs d) o i).
Proof.
  intros Hd Hf.
  set (edited := setBackColor backColor
                   (setForeColor foreColor
                      (setIgnoreCase ignoreCaseChecked (setPattern patternText f)))).
  assert (Ho : origin edited = origin f) by done.
  assert (Hoff : loadedOffset edited = loadedOffset f) by done.
  pose proof Hd as (Hsz & Hshape & Htrack & Hcomplete).
  unfold updateFilterProperties. rewrite Hf. cbn [mbind option_bind].
  fold edited. rewrite Ho.
  destruct (0 <=? origin f) eqn:Hsign;
    [apply Z.leb_le in Hsign|apply Z.leb_gt in Hsign].
  - destruct (Hcomplete _ _ Hf Hsign) as (r & Hr & Hfi).
    pose proof Hr as (row & Hrow & Hrow_r)%ref_at_Some.
    destruct (at_in_range (loadedFilterSets d) (origin f)) as [ns Hns].
    { apply at_Some_range in Hrow. unfold table_sized in Hsz. lia. }
    destruct (Hshape _ _ _ Hrow Hns) as [Hsize Helems].
    destruct (Helems _ _ Hrow_r) as [Hli _].
    destruct (at_in_range (set ns) (loadedOffset f)) as [rule Hrule].
    { apply at_Some_range in Hrow_r. lia. }
    rewrite (findLoadedFilterRef_tracked d selectedRow f Htrack Hcomplete Hf Hsign).
    cbn [mbind option_bind]. rewrite Hr. cbn [mbind option_bind].
    rewrite Hns. cbn [mbind option_bind]. rewrite Hli, Hrule.
    cbn [mbind option_bind].
    assert (Hrefs :
      (if Filter_neq edited rule
       then ref_update (loadedFilterRefs d) (origin f) (loadedOffset f)
                       (with_modified true)
       else if loadedRow =? origin f
            then ref_update (loadedFilterRefs d) (origin f) (loadedOffset f)
                            (with_modified false)
            else loadedFilterRefs d)
      = ref_update (loadedFilterRefs d) (origin f) (loadedOffset f)
                   (with_modified (drift_mark edited rule loadedRow r))).
    { unfold drift_mark. rewrite Ho.
      destruct (Filter_neq edited rule); [done|].
      destruct (loadedRow =? origin f); [done|].
      symmetry. apply ref_update_id. intros r' Hr'.
      assert (r' = r) by congruence. subst r'. by destruct r. }
    rewrite Hrefs. eexists _, edited. split; [reflexivity|].
    cbn [filterSet loadedFilterSets loadedFilterRefs].
    split_and!; try done.
    + apply (retag_consistent d selectedRow f edited); try done.
      intros r' Hr' _. assert (r' = r) by congruence. subst r'.
      apply at_Some_range in Hf. lia.
    + lia.
    + intros _. exists ns, rule, r. split_and!; try done.
      intros o i. rewrite ref_at_update, Hr. done.
  - eexists _, edited. split; [reflexivity|].
    cbn [filterSet loadedFilterSets loadedFilterRefs].
    split_and!; try done.
    + rewrite <- (ref_update_id (loadedFilterRefs d) (-1) 0 (with_modified false)).
      * by apply (retag_consistent d selectedRow f edited).
      * intros r (row & Hrow%at_Some_range & _)%ref_at_Some. lia.
    + lia.
Qed.

Lemma updateFilterProperties_marks_drift_witness :
  exists d' edited,
    updateFilterProperties 1 "FATAL" false "black" "red" 0 ex_dialog = Some d'
    /\ edited = setBackColor "red"
                  (setForeColor "black"
                     (setIgnoreCase false
                        (setPattern "FATAL"
                           (Filter_new "ERROR" false "black" "red" 0 0))))
    /\ filterSet d' = set_at (filterSet ex_dialog) 1 edited
    /\ loadedFilterSets d' = loadedFilterSets ex_dialog
    /\ table_consistent d'
    /\ (origin (Filter_new "ERROR" false "black" "red" 0 0) < 0 ->
        loadedFilterRefs d' = loadedFilterRefs ex_dialog)
    /\ (0 <= origin (Filter_new "ERROR" false "black" "red" 0 0) ->
        exists namedSet rule r,
          at_ (loadedFilterSets ex_dialog)
              (origin (Filter_new "ERROR" false "black" "red" 0 0))
          = Some namedSet
          /\ at_ (set namedSet)
                 (loadedOffset (Filter_new "ERROR" false "black" "red" 0 0))
             = Some rule
          /\ ref_at (loadedFilterRefs ex_dialog)
                    (origin (Filter_new "ERROR" false "black" "red" 0 0))
                    (loadedOffset (Filter_new "ERROR" false "black" "red" 0 0))
             = Some r
          /\ filter_index r = 1
          /\ forall o i,
               ref_at (loadedFilterRefs d') o i
               = if decide (origin (Filter_new "ERROR" false "black" "red" 0 0) = o
                            /\ loadedOffset
                                 (Filter_new "ERROR" false "black" "red" 0 0) = i)
                 then Some (with_modified (drift_mark edited rule 0 r) r)
                 else ref_at (loadedFilterRefs ex_dialog) o i).
Proof.
  apply (updateFilterProperties_marks_drift 1 "FATAL" false "black" "red" 0
           ex_dialog (Filter_new "ERROR" false "black" "red" 0 0)).
  - apply table_consistent_b_sound. vm_compute. reflexivity.
  - reflexivity.
Defined.

(** ** Exporting working entries to a filter file and adding a filter file *)

(** The working entries at the rows [rows], in the order of the rows. *)
Definition selected_filters (filterSet : list Filter) (rows : list Z)
    : list Filter :=
  omap (at_ filterSet) rows.

Lemma saveToFile_loop_selected (fs : list Filter) (rows : list Z) :
  (forall row, row ∈ rows -> 0 <= row < size fs) ->
  forall i s w,
    saveToFile_loop rows i fs s w
    = FilterSet_save_loop (selected_filters fs rows) i s false w.
Proof.
  induction rows as [|row rows IH]; intros Hrows i s w; [done|].
  destruct (at_in_range fs row) as [f Hf]; [apply Hrows, list_elem_of_here|].
  cbn [saveToFile_loop]. unfold selected_filters. cbn [omap list_omap].
  rewrite Hf. cbn [FilterSet_save_loop].
  unfold bind at 1. cbn [lift].
  assert (Hsave := Filter_saveToStorage_spec f (setArrayIndex i s) false w
                     ltac:(done)).
  rewrite !(bind_Some _ _ _ _ _ Hsave).
  apply IH. intros row' Hrow'. by apply Hrows, list_elem_of_further.
Qed.

Lemma holds_set_unbound st P l r r' :
  holds_set st P l false r -> holds_set st P l false r'.
Proof.
  intros (Hver & Hsize & Helems). split_and!; [done|done|].
  intros i f Hf. exact (Helems i f Hf).
Qed.

Lemma remove_under_nil (m : Store) : remove_under [] m = ∅.
Proof.
  apply map_eq. intros k. rewrite remove_under_lookup, lookup_empty.
  rewrite decide_True; [done|]. apply prefix_nil.
Qed.

(** What on_saveToFileButton_clicked leaves on the disk. *)
Lemma on_saveToFileButton_clicked_run (filename : string) (rows : list Z)
    (d : FiltersDialog) (w : World) :
  (forall row, row ∈ rows -> 0 <= row < size (filterSet d)) ->
  exists st,
    on_saveToFileButton_clicked filename rows d w
    = Some (tt, mkWorld (registry w) (<[filename := st]> (files w)) (log w)
                        (replies w) (asked w))
    /\ st !! [KName "version"] = Some (VInt FILTERFILE_VERSION)
    /\ holds_set st [] (selected_filters (filterSet d) rows) false [].
Proof.
  intros Hrows. unfold on_saveToFileButton_clicked.
  unfold bind at 1. cbn [QSettings_open].
  set (st0 := default ∅ (files w !! filename)).
  set (s1 := setValue ["version"] (VInt FILTERFILE_VERSION)
               (remove [] (mkSettings filename st0 []))).
  assert (Hs1 : s_store s1 = {[ [KName "version"] := VInt FILTERFILE_VERSION ]}).
  { unfold s1, setValue, remove, actualKey, groupPrefix. simpl.
    by rewrite remove_under_nil. }
  assert (Hsame : beginGroup "FilterSet" s1
                  = remove [] (beginGroup "FilterSet" s1)).
  { unfold remove, beginGroup, actualKey. cbn [s_fileName s_store s_groups].
    f_equal. apply map_eq. intros k. rewrite remove_under_lookup.
    case_decide as Hk; [|done].
    rewrite Hs1. apply lookup_singleton_ne. intros <-.
    rewrite groupPrefix_cons in Hk. unfold group_key in Hk. simpl in Hk.
    destruct Hk as [rest Hk]. discriminate Hk. }
  destruct (FilterSet_saveToStorage_spec
              (selected_filters (filterSet d) rows) s1 false w ltac:(done))
    as (st' & Hrun & Hholds & Hframe).
  unfold FilterSet_saveToStorage in Hrun. rewrite <- Hsame in Hrun.
  apply bind_inv in Hrun as (s5 & w5 & Hloop & Hret).
  rewrite <- (saveToFile_loop_selected _ _ Hrows) in Hloop.
  unfold ret in Hret.
  assert (Hs5 : endGroup (endArray s5)
                = mkSettings (s_fileName s1) st' (s_groups s1)) by congruence.
  assert (w5 = w) by congruence. subst w5.
  rewrite (bind_Some _ _ _ _ _ Hloop). rewrite Hs5.
  exists st'. split; [done|]. split.
  - rewrite Hframe.
    + rewrite Hs1. apply lookup_singleton_eq.
    + intros [rest Hk]. discriminate Hk.
  - by apply (holds_set_unbound _ _ _ (registry w)).
Qed.

Lemma append_set_consistent (d : FiltersDialog) (namedSet : NamedFilterSet) :
  table_consistent d ->
  table_consistent
    (mkDialog (filterSet d) (loadedFilterSets d ++ [namedSet])
              (loadedFilterRefs d ++ [fresh_refs (size (set namedSet))])).
Proof.
  intros (Hsz & Hshape & Htrack & Hcomplete). unfold table_sized in Hsz.
  pose proof (size_nonneg (loadedFilterRefs d)) as Hn.
  assert (Hold : forall o i x,
            ref_at (loadedFilterRefs d) o i = Some x ->
            ref_at (loadedFilterRefs d ++ [fresh_refs (size (set namedSet))]) o i
            = Some x).
  { intros o i x Hx. pose proof Hx as (row & Hrow & _)%ref_at_Some.
    unfold ref_at. rewrite at_app_l; [done|]. apply at_Some_range in Hrow. lia. }
  unfold table_consistent. split_and!.
  - unfold table_sized. cbn [loadedFilterRefs loadedFilterSets].
    rewrite !size_app. change (size [_]) with 1. change (size [_]) with 1. lia.
  - intros o row ns. cbn [loadedFilterRefs loadedFilterSets]. intros Hrow Hns.
    destruct (decide (o < size (loadedFilterRefs d))) as [Ho|Ho].
    + rewrite at_app_l in Hrow by done. rewrite at_app_l in Hns by lia.
      exact (Hshape _ _ _ Hrow Hns).
    + rewrite at_app_r in Hrow by lia. rewrite at_app_r in Hns by lia.
      pose proof (at_Some_range _ _ _ Hrow) as Hr. change (size [_]) with 1 in Hr.
      replace (o - size (loadedFilterRefs d)) with 0 in Hrow by lia.
      replace (o - size (loadedFilterSets d)) with 0 in Hns by lia.
      rewrite at_cons_0 in Hrow. rewrite at_cons_0 in Hns.
      injection Hrow as <-. injection Hns as <-.
      split; [apply size_fresh_refs, size_nonneg|].
      intros i r ->%at_fresh_refs. simpl. split; [done|]. intros [=].
  - intros o i x. cbn [loadedFilterRefs filterSet]. intros Hx Hact.
    apply ref_at_Some in Hx as (row & Hrow & Hx).
    destruct (decide (o < size (loadedFilterRefs d))) as [Ho|Ho].
    + rewrite at_app_l in Hrow by done. apply (Htrack o i x); [|done].
      apply ref_at_Some. eauto.
    + rewrite at_app_r in Hrow by lia.
      pose proof (at_Some_range _ _ _ Hrow) as Hr. change (size [_]) with 1 in Hr.
      replace (o - size (loadedFilterRefs d)) with 0 in Hrow by lia.
      rewrite at_cons_0 in Hrow. injection Hrow as <-.
      apply at_fresh_refs in Hx. subst x. simpl in Hact. lia.
  - intros k f. cbn [loadedFilterRefs filterSet]. intros Hf Ho.
    destruct (Hcomplete k f Hf Ho) as (r & Hr & Hfi).
    exists r. split; [by apply Hold|done].
Qed.

Lemma at_fresh_refs_in_range (n i : Z) :
  0 <= i < n -> at_ (fresh_refs n) i = Some (FilterRef_new i (-1)).
Proof.
  intros Hi. destruct (at_in_range (fresh_refs n) i) as [r Hr].
  { rewrite size_fresh_refs; lia. }
  rewrite Hr. f_equal. by apply at_fresh_refs in Hr.
Qed.

Section FilterFiles.
Context `{QtConversions}.

(** on_addFilterFile_clicked on a file that has the version of a filter
    file and the stored form of the rules [l]. *)
Lemma on_addFilterFile_clicked_run (fuel : nat) (filename : string)
    (d : FiltersDialog) (w : World) (st : Store) (v : QVariant)
    (l : list Filter) :
  table_sized d ->
  files w !! filename = Some st ->
  st !! [KName "version"] = Some v ->
  QVariant_eq_int v FILTERFILE_VERSION = true ->
  holds_set st [] l false [] ->
  on_addFilterFile_clicked fuel filename d w
  = Some (mkDialog (filterSet d)
            (loadedFilterSets d
             ++ [mkNamed filename
                   (map (reloaded (size (loadedFilterSets d)) (-1)) l) false])
            (loadedFilterRefs d ++ [fresh_refs (size l)]), w).
Proof.
  intros Hsz Hfile Hversion Hv Hholds. unfold on_addFilterFile_clicked.
  unfold bind at 1. cbn [QSettings_open]. rewrite Hfile.
  change (default ∅ (Some st)) with st.
  assert (Hcontains : contains (mkSettings filename st []) ["version"] = true).
  { unfold contains, actualKey, groupPrefix. simpl. rewrite Hversion.
    by apply bool_decide_eq_true. }
  assert (Hvalue : value (mkSettings filename st []) ["version"] VInvalid = v).
  { unfold value, actualKey, groupPrefix. simpl. by rewrite Hversion. }
  rewrite Hcontains, Hvalue, Hv.
  unfold table_sized in Hsz. rewrite Hsz, Z.eqb_refl. cbn [negb].
  rewrite FilterSet_retrieveFromStorage_unfold.
  pose proof (size_nonneg (loadedFilterSets d)) as Hn.
  assert (Hrun := FilterSet_retrieve_no_origin (nested_load fuel) l
                    (mkSettings filename st []) (size (loadedFilterSets d)) w []
                    Hholds).
  replace (0 <=? size (loadedFilterSets d)) with true in Hrun by (symmetry; lia).
  rewrite (bind_Some _ _ _ _ _ Hrun). unfold ret. cbn [fst].
  do 4 f_equal. unfold size. by rewrite length_map.
Qed.

(** X17.  Export, then import: on_saveToFileButton_clicked on rows of the
    working set writes the file named and touches nothing else of the
    world, and on_addFilterFile_clicked on that file then appends a loaded
    set with exactly the selected entries, in the order of the selection:
    same pattern, case option and colours, bound to the new set and with no
    offset.  The working set is unchanged and a consistent dialog stays
    consistent. *)
Theorem export_then_addFilterFile (fuel : nat) (filename : string)
    (rows : list Z) (d : FiltersDialog) (w : World) :
  table_consistent d ->
  (forall row, row ∈ rows -> 0 <= row < size (filterSet d)) ->
  exists w' d',
    on_saveToFileButton_clicked filename rows d w = Some (tt, w')
    /\ registry w' = registry w
    /\ log w' = log w
    /\ (forall name, name <> filename -> files w' !! name = files w !! name)
    /\ on_addFilterFile_clicked fuel filename d w' = Some (d', w')
    /\ filterSet d' = filterSet d
    /\ loadedFilterSets d'
       = loadedFilterSets d
         ++ [mkNamed filename
               (map (reloaded (size (loadedFilterSets d)) (-1))
                    (selected_filters (filterSet d) rows))
               false]
    /\ table_consistent d'.
Proof.
  intros Hd Hrows.
  destruct (on_saveToFileButton_clicked_run filename rows d w Hrows)
    as (st & Hsave & Hversion & Hholds).
  set (w' := mkWorld (registry w) (<[filename := st]> (files w)) (log w)
                    (replies w) (asked w)) in *.
  set (ns := mkNamed filename
               (map (reloaded (size (loadedFilterSets d)) (-1))
                    (selected_filters (filterSet d) rows)) false).
  assert (Hadd := on_addFilterFile_clicked_run fuel filename d w'
                    st (VInt FILTERFILE_VERSION)
                    (selected_filters (filterSet d) rows)
                    (proj1 Hd) (lookup_insert_eq _ _ _) Hversion eq_refl Hholds).
  exists w', (mkDialog (filterSet d) (loadedFilterSets d ++ [ns])
                (loadedFilterRefs d
                 ++ [fresh_refs (size (selected_filters (filterSet d) rows))])).
  split; [exact Hsave|]. split; [done|]. split; [done|].
  split; [intros name Hne; apply lookup_insert_ne; congruence|].
  split; [exact Hadd|]. split; [done|]. split; [done|].
  replace (size (selected_filters (filterSet d) rows)) with (size (set ns))
    by (unfold ns, size; cbn [set]; by rewrite length_map).
  by apply append_set_consistent.
Qed.

(** X18.  on_addFilterFile_clicked on a file that carries the version of a
    filter file and the stored form of the rules [l] appends a loaded set
    named after the file, not missing, with the rules of [l] bound to the
    new set, and a row of inactive references, one per rule.  The working
    set and the world are unchanged and a consistent dialog stays
    consistent. *)
Theorem on_addFilterFile_loads (fuel : nat) (filename : string)
    (d : FiltersDialog) (w : World) (st : Store) (v : QVariant)
    (l : list Filter) :
  table_consistent d ->
  files w !! filename = Some st ->
  st !! [KName "version"] = Some v ->
  QVariant_eq_int v FILTERFILE_VERSION = true ->
  holds_set st [] l false [] ->
  exists d',
    on_addFilterFile_clicked fuel filename d w = Some (d', w)
    /\ filterSet d' = filterSet d
    /\ loadedFilterSets d'
       = loadedFilterSets d
         ++ [mkNamed filename
               (map (reloaded (size (loadedFilterSets d)) (-1)) l) false]
    /\ (forall o i, 0 <= o < size (loadedFilterSets d) ->
          ref_at (loadedFilterRefs d') o i = ref_at (loadedFilterRefs d) o i)
    /\ (forall i, 0 <= i < size l ->
          ref_at (loadedFilterRefs d') (size (loadedFilterSets d)) i
          = Some (FilterRef_new i (-1)))
    /\ table_consistent d'.
Proof.
  intros Hd Hfile Hversion Hv Hholds.
  pose proof Hd as (Hsz & _). unfold table_sized in Hsz.
  eexists (mkDialog (filterSet d) _ _). split.
  { by apply (on_addFilterFile_clicked_run fuel filename d w st v l). }
  cbn [filterSet loadedFilterSets loadedFilterRefs]. split_and!; try done.
  - intros o i Ho. unfold ref_at. rewrite at_app_l by lia. done.
  - intros i Hi. unfold ref_at. rewrite at_app_r by lia.
    replace (size (loadedFilterSets d) - size (loadedFilterRefs d)) with 0 by lia.
    rewrite at_cons_0. simpl. by apply at_fresh_refs_in_range.
  - set (ns := mkNamed filename
                 (map (reloaded (size (loadedFilterSets d)) (-1)) l) false).
    replace (size l) with (size (set ns))
      by (unfold ns, size; cbn [set]; by rewrite length_map).
    by apply append_set_consistent.
Qed.

(** X19.  on_addFilterFile_clicked on a name whose file does not exist, has
    no ["version"] entry, or has one that is not the version of a filter
    file, changes nothing: the dialog is returned as it was and the world
    only gains one error in the log. *)
Theorem on_addFilterFile_rejects (fuel : nat) (filename : string)
    (d : FiltersDialog) (w : World) :
  (forall st v, files w !! filename = Some st ->
                st !! [KName "version"] = Some v ->
                QVariant_eq_int v FILTERFILE_VERSION = false) ->
  exists message,
    on_addFilterFile_clicked fuel filename d w
    = Some (d, logged w [(logERROR, message)]).
Proof.
  intros Hbad. unfold on_addFilterFile_clicked.
  unfold bind at 1. cbn [QSettings_open].
  set (st0 := default ∅ (files w !! filename)).
  assert (Hbad0 : forall v, st0 !! [KName "version"] = Some v ->
                            QVariant_eq_int v FILTERFILE_VERSION = false).
  { unfold st0. destruct (files w !! filename) as [st|]; simpl; intros v Hv.
    - by apply (Hbad st v).
    - by rewrite lookup_empty in Hv. }
  clearbody st0.
  unfold contains, value, actualKey, groupPrefix. cbn [s_store s_groups].
  simpl.
  destruct (st0 !! [KName "version"]) as [v|] eqn:Hversion.
  - rewrite bool_decide_eq_true_2 by eauto. cbn [default from_option id].
    rewrite (Hbad0 v eq_refl). eexists. reflexivity.
  - rewrite bool_decide_eq_false_2 by (by intros [? ?]).
    eexists. reflexivity.
Qed.

End FilterFiles.

Lemma export_then_addFilterFile_witness :
  exists w' d',
    on_saveToFileButton_clicked "export.conf" [2; 1] ex_dialog ex_world
    = Some (tt, w')
    /\ registry w' = registry ex_world
    /\ log w' = log ex_world
    /\ (forall name, name <> "export.conf" ->
                     files w' !! name = files ex_world !! name)
    /\ on_addFilterFile_clicked 1 "export.conf" ex_dialog w' = Some (d', w')
    /\ filterSet d' = filterSet ex_dialog
    /\ loadedFilterSets d'
       = loadedFilterSets ex_dialog
         ++ [mkNamed "export.conf"
               (map (reloaded (size (loadedFilterSets ex_dialog)) (-1))
                    (selected_filters (filterSet ex_dialog) [2; 1]))
               false]
    /\ table_consistent d'.
Proof.
  apply (export_then_addFilterFile 1 "export.conf" [2; 1] ex_dialog ex_world).
  - apply table_consistent_b_sound. vm_compute. reflexivity.
  - intros row Hrow. change (size (filterSet ex_dialog)) with 3.
    repeat (apply elem_of_cons in Hrow as [->|Hrow]); [lia|lia|].
    by apply not_elem_of_nil in Hrow.
Defined.

(** A disk with the filter file ["lib.conf"], holding the rule ["FATAL"]. *)
Definition ex_filter_file_world : World :=
  mkWorld []
    {[ "lib.conf" := list_to_map (([KName "version"], VInt 1)
                                    :: ex_stored_set [] "FATAL" "white" "red") ]}
    [] (fun _ => false) [].

Lemma on_addFilterFile_loads_witness :
  exists d',
    on_addFilterFile_clicked 1 "lib.conf" ex_dialog ex_filter_file_world
    = Some (d', ex_filter_file_world)
    /\ filterSet d' = filterSet ex_dialog
    /\ loadedFilterSets d'
       = loadedFilterSets ex_dialog
         ++ [mkNamed "lib.conf"
               (map (reloaded (size (loadedFilterSets ex_dialog)) (-1))
                    [Filter_new "FATAL" false "white" "red" (-1) (-1)])
               false]
    /\ (forall o i, 0 <= o < size (loadedFilterSets ex_dialog) ->
          ref_at (loadedFilterRefs d') o i
          = ref_at (loadedFilterRefs ex_dialog) o i)
    /\ (forall i, 0 <= i < size [Filter_new "FATAL" false "white" "red" (-1) (-1)] ->
          ref_at (loadedFilterRefs d') (size (loadedFilterSets ex_dialog)) i
          = Some (FilterRef_new i (-1)))
    /\ table_consistent d'.
Proof.
  apply (on_addFilterFile_loads 1 "lib.conf" ex_dialog ex_filter_file_world
           (list_to_map (([KName "version"], VInt 1)
                           :: ex_stored_set [] "FATAL" "white" "red"))
           (VInt 1)).
  - apply table_consistent_b_sound. vm_compute. reflexivity.
  - reflexivity.
  - reflexivity.
  - reflexivity.
  - apply holds_set_b_sound. vm_compute. reflexivity.
Defined.

Lemma on_addFilterFile_rejects_witness :
  exists message,
    on_addFilterFile_clicked 1 "gone.conf" ex_dialog ex_changed_world
    = Some (ex_dialog, logged ex_changed_world [(logERROR, message)]).
Proof.
  apply (on_addFilterFile_rejects 1 "gone.conf" ex_dialog ex_changed_world).
  intros st v Hfile Hv.
  assert (Hst : st = list_to_map (ex_stored_set [] "FATAL" "white" "red")).
  { change (files ex_changed_world !! "gone.conf")
      with (Some (list_to_map (ex_stored_set [] "FATAL" "white" "red") : Store))
      in Hfile.
    congruence. }
  subst st. vm_compute in Hv. discriminate Hv.
Defined.

(** ** Saving and undoing the changes of a loaded set *)

(** Two working sets with the same bindings, entry by entry. *)
Definition same_bindings (fs fs' : list Filter) : Prop :=
  size fs' = size fs
  /\ forall k f f', at_ fs k = Some f -> at_ fs' k = Some f' ->
       origin f' = origin f /\ loadedOffset f' = loadedOffset f.

(** Two lists of loaded sets of the same sizes, set by set. *)
Definition same_sizes (sets sets' : list NamedFilterSet) : Prop :=
  size sets' = size sets
  /\ forall o ns ns', at_ sets o = Some ns -> at_ sets' o = Some ns' ->
       size (set ns') = size (set ns).

(** Two tables whose references agree on both indices, the second with no
    mark the first does not have. *)
Definition same_refs (table table' : list (list FilterRef)) : Prop :=
  size table' = size table
  /\ forall o row row', at_ table o = Some row -> at_ table' o = Some row' ->
       size row' = size row
       /\ forall i r r', at_ row i = Some r -> at_ row' i = Some r' ->
            loaded_index r' = loaded_index r
            /\ filter_index r' = filter_index r
            /\ (modified r' = true -> modified r = true).

Lemma same_bindings_refl fs : same_bindings fs fs.
Proof. split; [done|]. intros k f f' Hf Hf'. by assert (f' = f) by congruence; subst. Qed.

Lemma same_sizes_refl sets : same_sizes sets sets.
Proof. split; [done|]. intros o ns ns' Hns Hns'. by assert (ns' = ns) by congruence; subst. Qed.

Lemma same_refs_set_row (table : list (list FilterRef)) (row : Z)
    (refs : list FilterRef) (g : FilterRef -> FilterRef) :
  at_ table row = Some refs ->
  (forall r, loaded_index (g r) = loaded_index r
             /\ filter_index (g r) = filter_index r
             /\ (modified (g r) = true -> modified r = true)) ->
  same_refs table (set_at table row (map g refs)).
Proof.
  intros Hrefs Hg. split; [apply size_set_at|].
  intros o l l' Hl. rewrite at_set_at.
  destruct (decide (row = o)) as [<-|Hne].
  - rewrite Hrefs. simpl. intros [= <-]. assert (l = refs) by congruence. subst l.
    split; [unfold size; by rewrite length_map|].
    intros i r r' Hr. rewrite (at_fmap g), Hr. simpl. intros [= <-]. apply Hg.
  - intros Hl'. assert (l' = l) by congruence. subst l'. split; [done|].
    intros i r r' Hr Hr'. by assert (r' = r) by congruence; subst.
Qed.

Lemma similar_consistent (d d' : FiltersDialog) :
  table_consistent d ->
  same_bindings (filterSet d) (filterSet d') ->
  same_sizes (loadedFilterSets d) (loadedFilterSets d') ->
  same_refs (loadedFilterRefs d) (loadedFilterRefs d') ->
  table_consistent d'.
Proof.
  intros (Hsz & Hshape & Htrack & Hcomplete) [Hfsz Hfs] [Hssz Hsets] [Htsz Hrefs].
  unfold table_sized in Hsz.
  assert (Hback : forall o i r',
            ref_at (loadedFilterRefs d') o i = Some r' ->
            exists r, ref_at (loadedFilterRefs d) o i = Some r
                      /\ loaded_index r' = loaded_index r
                      /\ filter_index r' = filter_index r
                      /\ (modified r' = true -> modified r = true)).
  { intros o i r' (row' & Hrow' & Hr')%ref_at_Some.
    destruct (at_in_range (loadedFilterRefs d) o) as [row Hrow].
    { apply at_Some_range in Hrow'. lia. }
    destruct (Hrefs _ _ _ Hrow Hrow') as [Hsize Helems].
    destruct (at_in_range row i) as [r Hr].
    { apply at_Some_range in Hr'. lia. }
    exists r. split; [apply ref_at_Some; eauto|]. by apply (Helems i). }
  assert (Hforth : forall o i r,
            ref_at (loadedFilterRefs d) o i = Some r ->
            exists r', ref_at (loadedFilterRefs d') o i = Some r'
                       /\ filter_index r' = filter_index r).
  { intros o i r (row & Hrow & Hr)%ref_at_Some.
    destruct (at_in_range (loadedFilterRefs d') o) as [row' Hrow'].
    { apply at_Some_range in Hrow. lia. }
    destruct (Hrefs _ _ _ Hrow Hrow') as [Hsize Helems].
    destruct (at_in_range row' i) as [r' Hr'].
    { apply at_Some_range in Hr. lia. }
    exists r'. split; [apply ref_at_Some; eauto|]. by apply (Helems i r r'). }
  unfold table_consistent. split_and!.
  - unfold table_sized. lia.
  - intros o row' ns' Hrow' Hns'.
    destruct (at_in_range (loadedFilterRefs d) o) as [row Hrow].
    { apply at_Some_range in Hrow'. lia. }
    destruct (at_in_range (loadedFilterSets d) o) as [ns Hns].
    { apply at_Some_range in Hns'. lia. }
    destruct (Hrefs _ _ _ Hrow Hrow') as [Hsize Helems].
    destruct (Hshape _ _ _ Hrow Hns) as [Hsize0 Helems0].
    pose proof (Hsets _ _ _ Hns Hns') as Hsetsize.
    split; [lia|]. intros i r' Hr'.
    destruct (at_in_range row i) as [r Hr].
    { apply at_Some_range in Hr'. lia. }
    destruct (Helems i r r' Hr Hr') as (Hli & Hfi & Hmod).
    destruct (Helems0 i r Hr) as [Hli0 Hmod0].
    split; [lia|]. intros Hm. specialize (Hmod0 (Hmod Hm)). lia.
  - intros o i r' Hr' Hact.
    destruct (Hback o i r' Hr') as (r & Hr & _ & Hfi & _).
    destruct (Htrack o i r Hr) as (f & Hf & Ho & Hoff); [lia|].
    destruct (at_in_range (filterSet d') (filter_index r)) as [f' Hf'].
    { apply at_Some_range in Hf. lia. }
    destruct (Hfs _ _ _ Hf Hf') as [Ho' Hoff'].
    exists f'. rewrite Hfi. split_and!; [done|lia|lia].
  - intros k f' Hf' Ho'.
    destruct (at_in_range (filterSet d) k) as [f Hf].
    { apply at_Some_range in Hf'. lia. }
    destruct (Hfs _ _ _ Hf Hf') as [Ho Hoff].
    destruct (Hcomplete k f Hf) as (r & Hr & Hfi); [lia|].
    destruct (Hforth _ _ _ Hr) as (r' & Hr' & Hfi').
    exists r'. rewrite Ho, Hoff. split; [done|lia].
Qed.

Lemma filter_file_written (l : list Filter) (name : string) (st0 : Store)
    (w : World) :
  exists st,
    FilterSet_saveToStorage l
      (setValue ["version"] (VInt FILTERFILE_VERSION)
         (remove [] (mkSettings name st0 []))) false w
    = Some (mkSettings name st [], w)
    /\ st !! [KName "version"] = Some (VInt FILTERFILE_VERSION)
    /\ holds_set st [] l false [].
Proof.
  set (s1 := setValue ["version"] (VInt FILTERFILE_VERSION)
               (remove [] (mkSettings name st0 []))).
  assert (Hs1 : s_store s1 = {[ [KName "version"] := VInt FILTERFILE_VERSION ]}).
  { unfold s1, setValue, remove, actualKey, groupPrefix. simpl.
    by rewrite remove_under_nil. }
  destruct (FilterSet_saveToStorage_spec l s1 false w ltac:(done))
    as (st & Hrun & Hholds & Hframe).
  exists st. split; [exact Hrun|]. split.
  - rewrite Hframe.
    + rewrite Hs1. apply lookup_singleton_eq.
    + intros [rest Hk]. discriminate Hk.
  - by apply (holds_set_unbound _ _ _ (registry w)).
Qed.

Lemma clear_if_active_fields (r : FilterRef) :
  loaded_index (clear_if_active r) = loaded_index r
  /\ filter_index (clear_if_active r) = filter_index r
  /\ (modified (clear_if_active r) = true -> modified r = true).
Proof. unfold clear_if_active. by destruct (isActive r). Qed.

(** on_saveChangesButton_clicked on a consistent dialog, with the dialog
    and the world it returns written out. *)
Lemma on_saveChangesButton_clicked_run (row : Z) (d : FiltersDialog)
    (w : World) (namedSet : NamedFilterSet) :
  table_consistent d ->
  at_ (loadedFilterSets d) row = Some namedSet ->
  exists refs s' st,
    at_ (loadedFilterRefs d) row = Some refs
    /\ on_saveChangesButton_clicked row d w
       = Some (mkDialog (filterSet d)
                 (set_at (loadedFilterSets d) row (with_set s' namedSet))
                 (set_at (loadedFilterRefs d) row (map clear_if_active refs)),
               mkWorld (registry w) (<[filename namedSet := st]> (files w))
                       (log w) (replies w) (asked w))
    /\ st !! [KName "version"] = Some (VInt FILTERFILE_VERSION)
    /\ holds_set st [] (filterSet d) false []
    /\ size s' = size (set namedSet)
    /\ (forall i r old,
          at_ refs i = Some r -> at_ (set namedSet) i = Some old ->
          at_ s' i
          = Some (if isActive r
                  then match at_ (filterSet d) (filter_index r) with
                       | Some new => copy_style new old
                       | None => old
                       end
                  else old))
    /\ table_consistent
         (mkDialog (filterSet d)
            (set_at (loadedFilterSets d) row (with_set s' namedSet))
            (set_at (loadedFilterRefs d) row (map clear_if_active refs))).
Proof.
  intros Hd Hset.
  pose proof Hd as (Hsz & Hshape & Htrack & Hcomplete). unfold table_sized in Hsz.
  pose proof (at_Some_range _ _ _ Hset) as Hrow.
  destruct (at_in_range (loadedFilterRefs d) row) as [refs Hrefs]; [lia|].
  destruct (Hshape row refs namedSet Hrefs Hset) as [Hsize Hpos].
  destruct (saveChanges_loop_spec (filterSet d) refs 0 (set namedSet))
    as (s' & Hrun & Hs' & _ & _ & Hmid); [done| |].
  { intros n r Hn. rewrite <- at_of_nat in Hn.
    destruct (Hpos _ _ Hn) as [Hli _].
    pose proof (at_Some_range _ _ _ Hn). split_and!; [lia|lia|].
    intros Hact. destruct (Htrack row (Z.of_nat n) r) as (f & Hf & _).
    - apply ref_at_Some. eauto.
    - done.
    - apply at_Some_range in Hf. lia. }
  set (d' := mkDialog (filterSet d)
               (set_at (loadedFilterSets d) row (with_set s' namedSet))
               (set_at (loadedFilterRefs d) row (map clear_if_active refs))).
  destruct (filter_file_written (filterSet d) (filename namedSet)
              (default ∅ (files w !! filename namedSet)) w)
    as (st & Hsave & Hversion & Hholds).
  exists refs, s', st. split; [done|]. split.
  { unfold on_saveChangesButton_clicked. destruct (row <? 0) eqn:Hneg; [lia|].
    unfold lift at 1. rewrite Hrefs.
    erewrite bind_Some by reflexivity.
    unfold lift at 1. rewrite Hset.
    erewrite bind_Some by reflexivity.
    unfold lift at 1. rewrite Hrun.
    erewrite bind_Some by reflexivity. cbn [fst snd]. fold d'.
    erewrite bind_Some by reflexivity.
    erewrite bind_Some by exact Hsave.
    erewrite bind_Some by reflexivity. done. }
  split; [done|]. split; [done|]. split; [done|]. split.
  - intros i r old Hr Hold.
    pose proof (at_Some_range _ _ _ Hr) as Hi.
    specialize (Hmid (Z.to_nat i) r old).
    rewrite Z.add_0_l, Z2Nat.id in Hmid by lia.
    rewrite <- at_of_nat, Z2Nat.id in Hmid by lia.
    exact (Hmid Hr Hold).
  - apply (similar_consistent d d' Hd).
    + apply same_bindings_refl.
    + split; [apply size_set_at|]. intros o ns ns' Hns. unfold d'.
      cbn [loadedFilterSets]. rewrite at_set_at. case_decide as Ho.
      * subst o. rewrite Hset. simpl. intros [= <-].
        assert (ns = namedSet) by congruence. subst ns. done.
      * intros Hns'. by assert (ns' = ns) by congruence; subst.
    + apply same_refs_set_row; [done|]. apply clear_if_active_fields.
Qed.

(** X20.  on_saveChangesButton_clicked on a consistent dialog and a loaded
    set [row] rewrites the file named after that set: afterwards the file
    carries the version of a filter file and the stored form of the whole
    working set of the dialog, every entry without its binding.  The
    registry, the log and the other files are untouched.  In the dialog the
    working set, the other loaded sets and the other rows of the table are
    unchanged, no reference of the row is marked modified any more, and the
    dialog is consistent again. *)
Theorem on_saveChangesButton_writes_working_set (row : Z) (d : FiltersDialog)
    (w : World) (namedSet : NamedFilterSet) :
  table_consistent d ->
  at_ (loadedFilterSets d) row = Some namedSet ->
  exists d' st,
    on_saveChangesButton_clicked row d w
    = Some (d', mkWorld (registry w) (<[filename namedSet := st]> (files w))
                        (log w) (replies w) (asked w))
    /\ st !! [KName "version"] = Some (VInt FILTERFILE_VERSION)
    /\ holds_set st [] (filterSet d) false []
    /\ filterSet d' = filterSet d
    /\ table_consistent d'
    /\ (forall i r, ref_at (loadedFilterRefs d') row i = Some r ->
                    modified r = false)
    /\ (forall o i, o <> row ->
          ref_at (loadedFilterRefs d') o i = ref_at (loadedFilterRefs d) o i)
    /\ (forall o, o <> row ->
          at_ (loadedFilterSets d') o = at_ (loadedFilterSets d) o).
Proof.
  intros Hd Hset.
  destruct (on_saveChangesButton_clicked_run row d w namedSet Hd Hset)
    as (refs & s' & st & Hrefs & Hrun & Hversion & Hholds & _ & _ & Hd').
  pose proof Hd as (_ & Hshape & _).
  destruct (Hshape row refs namedSet Hrefs Hset) as [_ Hpos].
  pose proof (at_Some_range _ _ _ Hrefs) as Hrow.
  eexists (mkDialog (filterSet d) _ _), st. split; [exact Hrun|].
  split; [done|]. split; [done|]. split; [done|]. split; [done|].
  cbn [loadedFilterRefs loadedFilterSets]. split_and!.
  - intros i r. unfold ref_at.
    rewrite at_set_at_eq by lia. simpl. rewrite (at_fmap clear_if_active).
    destruct (at_ refs i) as [r0|] eqn:Hr0; [|done]. simpl. intros [= <-].
    unfold clear_if_active. destruct (isActive r0) eqn:Hact; [done|].
    destruct (Hpos _ _ Hr0) as [_ Hmod]. unfold isActive in Hact.
    destruct (modified r0); [|done]. specialize (Hmod eq_refl). lia.
  - intros o i Ho. unfold ref_at. by rewrite at_set_at_ne.
  - intros o Ho. by rewrite at_set_at_ne.
Qed.

Lemma on_saveChangesButton_writes_working_set_witness :
  exists d' st,
    on_saveChangesButton_clicked 0 ex_drift_dialog ex_world
    = Some (d', mkWorld (registry ex_world)
                        (<["team.conf" := st]> (files ex_world))
                        (log ex_world) (replies ex_world) (asked ex_world))
    /\ st !! [KName "version"] = Some (VInt FILTERFILE_VERSION)
    /\ holds_set st [] (filterSet ex_drift_dialog) false []
    /\ filterSet d' = filterSet ex_drift_dialog
    /\ table_consistent d'
    /\ (forall i r, ref_at (loadedFilterRefs d') 0 i = Some r ->
                    modified r = false)
    /\ (forall o i, o <> 0 ->
          ref_at (loadedFilterRefs d') o i
          = ref_at (loadedFilterRefs ex_drift_dialog) o i)
    /\ (forall o, o <> 0 ->
          at_ (loadedFilterSets d') o = at_ (loadedFilterSets ex_drift_dialog) o).
Proof.
  apply (on_saveChangesButton_writes_working_set 0 ex_drift_dialog ex_world
           (mkNamed "team.conf"
              [ Filter_new "ERROR" false "black" "red" 0 (-1);
                Filter_new "WARN" false "black" "yellow" 0 (-1) ]
              false)).
  - apply table_consistent_b_sound. vm_compute. reflexivity.
  - reflexivity.
Defined.

(** X21.  on_undoChangesButton_clicked on a consistent dialog and a loaded
    set [row] returns: the loaded sets are unchanged, no reference of the
    row is marked modified any more, the other rows of the table are
    unchanged and the dialog is consistent again.  A working entry that is
    local, is bound to another set, or whose reference was not marked is
    left exactly as it was. *)
Theorem on_undoChangesButton_consistent (row : Z) (d : FiltersDialog)
    (namedSet : NamedFilterSet) :
  table_consistent d ->
  at_ (loadedFilterSets d) row = Some namedSet ->
  exists d',
    on_undoChangesButton_clicked row d = Some d'
    /\ loadedFilterSets d' = loadedFilterSets d
    /\ table_consistent d'
    /\ (forall i r, ref_at (loadedFilterRefs d') row i = Some r ->
                    modified r = false)
    /\ (forall o i, o <> row ->
          ref_at (loadedFilterRefs d') o i = ref_at (loadedFilterRefs d) o i)
    /\ (forall k f, at_ (filterSet d) k = Some f -> origin f <> row ->
          at_ (filterSet d') k = Some f)
    /\ (forall k f r, at_ (filterSet d) k = Some f -> origin f = row ->
          ref_at (loadedFilterRefs d) row (loadedOffset f) = Some r ->
          modified r = false ->
          at_ (filterSet d') k = Some f).
Proof.
  intros Hd Hset.
  pose proof Hd as (Hsz & Hshape & Htrack & Hcomplete). unfold table_sized in Hsz.
  pose proof (at_Some_range _ _ _ Hset) as Hrow.
  destruct (at_in_range (loadedFilterRefs d) row) as [refs Hrefs]; [lia|].
  destruct (Hshape row refs namedSet Hrefs Hset) as [Hsize Hpos].
  assert (Hrat : forall o, ref_at (loadedFilterRefs d) row o = at_ refs o).
  { intros o. unfold ref_at. by rewrite Hrefs. }
  assert (Hat : forall r, r ∈ refs -> exists i, at_ refs i = Some r).
  { intros r [n Hn]%list_elem_of_lookup_1. exists (Z.of_nat n).
    by rewrite at_of_nat. }
  assert (Hmarked : forall i r, at_ refs i = Some r -> modified r = true ->
            exists new old,
              at_ (filterSet d) (filter_index r) = Some new
              /\ at_ (set namedSet) (loaded_index r) = Some old
              /\ origin new = row /\ loadedOffset new = i).
  { intros i r Hr Hm. destruct (Hpos _ _ Hr) as [Hli Hact].
    specialize (Hact Hm).
    destruct (Htrack row i r) as (new & Hnew & Ho & Hoff);
      [by rewrite Hrat|done|].
    destruct (at_in_range (set namedSet) (loaded_index r)) as [old Hold].
    { apply at_Some_range in Hr. lia. }
    by exists new, old. }
  destruct (undoChanges_loop_spec (set namedSet) refs (filterSet d))
    as (fs' & Hrun & Hfsz & Hother & Hmid).
  { intros n r Hn Hm. rewrite <- at_of_nat in Hn.
    destruct (Hmarked _ _ Hn Hm) as (new & old & Hnew & Hold & _).
    split; [by eexists|]. by apply at_Some_range in Hnew. }
  { intros n m r r' Hn Hm Hmod Heq. rewrite <- at_of_nat in Hn, Hm.
    destruct (Hpos _ _ Hn) as [_ Hma].
    apply Nat2Z.inj.
    apply (refs_track_distinct d row _ _ r r' Htrack);
      [by rewrite Hrat|by rewrite Hrat|by apply Hma|done]. }
  set (d' := mkDialog fs' (loadedFilterSets d)
               (set_at (loadedFilterRefs d) row (map (with_modified false) refs))).
  exists d'. split.
  { unfold on_undoChangesButton_clicked. destruct (row <? 0) eqn:Hneg; [lia|].
    rewrite Hrefs. simpl. rewrite Hset. simpl. rewrite Hrun. done. }
  split_and!; try done.
  - apply (similar_consistent d d' Hd).
    + split; [done|]. intros k f f' Hf Hf'. cbn [d' filterSet] in Hf'.
      destruct (decide (Exists (fun r => modified r = true /\ filter_index r = k)
                               refs)) as [Hex|Hno].
      * apply Exists_exists in Hex as (r & Hr & Hm & Hk).
        destruct (Hat r Hr) as [i Hi].
        destruct (Hmarked _ _ Hi Hm) as (new & old & Hnew & Hold & _).
        subst k. rewrite (Hmid r new old Hr Hm Hnew Hold) in Hf'.
        assert (f = new) by congruence. subst f. by injection Hf' as <-.
      * rewrite Hother in Hf'.
        -- by assert (f' = f) by congruence; subst.
        -- intros r Hr Hm Hk. apply Hno. apply Exists_exists. exists r.
           by split.
    + apply same_sizes_refl.
    + apply same_refs_set_row; [done|]. intros r. simpl. split_and!; done.
  - intros i r. unfold d', ref_at. cbn [loadedFilterRefs].
    rewrite at_set_at_eq by lia. simpl. rewrite (at_fmap (with_modified false)).
    destruct (at_ refs i) as [r0|]; [|done]. simpl. by intros [= <-].
  - intros o i Ho. unfold d', ref_at. cbn [loadedFilterRefs].
    by rewrite at_set_at_ne.
  - intros k f Hf Ho. cbn [d' filterSet]. rewrite Hother; [done|].
    intros r Hr Hm Hk. destruct (Hat r Hr) as [i Hi].
    destruct (Hmarked _ _ Hi Hm) as (new & old & Hnew & _ & Hon & _).
    subst k. assert (f = new) by congruence. subst f. done.
  - intros k f r Hf Ho Hr Hunmarked. cbn [d' filterSet]. rewrite Hother; [done|].
    intros r' Hr' Hm Hk. destruct (Hat r' Hr') as [i Hi].
    destruct (Hmarked _ _ Hi Hm) as (new & old & Hnew & _ & _ & Hoff).
    subst k. assert (f = new) by congruence. subst f.
    rewrite Hrat, Hoff in Hr. assert (r' = r) by congruence. subst r'.
    congruence.
Qed.

Lemma on_undoChangesButton_consistent_witness :
  exists d',
    on_undoChangesButton_clicked 0 ex_drift_dialog = Some d'
    /\ loadedFilterSets d' = loadedFilterSets ex_drift_dialog
    /\ table_consistent d'
    /\ (forall i r, ref_at (loadedFilterRefs d') 0 i = Some r ->
                    modified r = false)
    /\ (forall o i, o <> 0 ->
          ref_at (loadedFilterRefs d') o i
          = ref_at (loadedFilterRefs ex_drift_dialog) o i)
    /\ (forall k f, at_ (filterSet ex_drift_dialog) k = Some f -> origin f <> 0 ->
          at_ (filterSet d') k = Some f)
    /\ (forall k f r, at_ (filterSet ex_drift_dialog) k = Some f -> origin f = 0 ->
          ref_at (loadedFilterRefs ex_drift_dialog) 0 (loadedOffset f) = Some r ->
          modified r = false ->
          at_ (filterSet d') k = Some f).
Proof.
  apply (on_undoChangesButton_consistent 0 ex_drift_dialog
           (mkNamed "team.conf"
              [ Filter_new "ERROR" false "black" "red" 0 (-1);
                Filter_new "WARN" false "black" "yellow" 0 (-1) ]
              false)).
  - apply table_consistent_b_sound. vm_compute. reflexivity.
  - reflexivity.
Defined.

(** ** Removing a filter file *)

Lemma filter_removeAt {A} (P : A -> Prop) `{forall x, Decision (P x)}
    (l : list A) (k : Z) (x : A) :
  at_ l k = Some x -> ~ P x -> filter P (removeAt l k) = filter P l.
Proof.
  intros Hx Hnot. unfold at_ in Hx. case_decide; [|done].
  unfold removeAt. rewrite <- (take_drop_middle l (Z.to_nat k) x Hx) at 3.
  rewrite !filter_app, filter_cons. by rewrite decide_False.
Qed.

Lemma filter_all {A} (P : A -> Prop) `{forall x, Decision (P x)} (l : list A) :
  (forall x, x ∈ l -> P x) -> filter P l = l.
Proof.
  induction l as [|x l IH]; intros Hall; [done|].
  rewrite filter_cons, decide_True by (apply Hall, list_elem_of_here).
  f_equal. apply IH. intros y Hy. by apply Hall, list_elem_of_further.
Qed.

Lemma removeFilterFile_loop_spec (row : Z) (namedSet : NamedFilterSet) (n : nat) :
  forall i d,
    table_consistent d ->
    at_ (loadedFilterSets d) row = Some namedSet ->
    0 <= i ->
    size (set namedSet) = i + Z.of_nat n ->
    (forall j r, 0 <= j < i -> ref_at (loadedFilterRefs d) row j = Some r ->
                 filter_index r < 0) ->
    exists d',
      removeFilterFile_loop row n i d = Some d'
      /\ filterSet d' = filter (fun f => origin f <> row) (filterSet d)
      /\ loadedFilterSets d' = loadedFilterSets d
      /\ table_consistent d'
      /\ (forall j r, ref_at (loadedFilterRefs d') row j = Some r ->
                      filter_index r < 0).
Proof.
  induction n as [|n IH]; intros i d Hd Hns Hi Hsize Hdone.
  - exists d. pose proof Hd as (Hsz & Hshape & Htrack & Hcomplete).
    assert (Hall : forall j r, ref_at (loadedFilterRefs d) row j = Some r ->
                               filter_index r < 0).
    { intros j r Hr. apply (Hdone j r); [|done].
      apply ref_at_Some in Hr as (refs & Hrefs & Hr).
      destruct (Hshape _ _ _ Hrefs Hns) as [Hrs _].
      apply at_Some_range in Hr. lia. }
    split_and!; try done.
    symmetry. apply filter_all. intros f Hf Ho.
    apply list_elem_of_lookup_1 in Hf as [k Hk]. rewrite <- at_of_nat in Hk.
    destruct (Hcomplete _ _ Hk) as (r & Hr & Hfi).
    { apply at_Some_range in Hns. lia. }
    rewrite Ho in Hr. specialize (Hall _ _ Hr). lia.
  - pose proof Hd as (Hsz & Hshape & Htrack & Hcomplete).
    unfold table_sized in Hsz.
    destruct (at_in_range (loadedFilterRefs d) row) as [refs Hrefs].
    { apply at_Some_range in Hns. lia. }
    destruct (Hshape _ _ _ Hrefs Hns) as [Hrs _].
    destruct (at_in_range refs i) as [r Hr]; [lia|].
    assert (Href : ref_at (loadedFilterRefs d) row i = Some r).
    { apply ref_at_Some. eauto. }
    cbn [removeFilterFile_loop]. rewrite Href. cbn [mbind option_bind].
    unfold isActive. destruct (0 <=? filter_index r) eqn:Hact;
      [apply Z.leb_le in Hact|apply Z.leb_gt in Hact].
    + destruct (Htrack _ _ _ Href Hact) as (f & Hf & Ho & Hoff).
      destruct (removeFilter_consistent d (InTable row i) r Hd Href)
        as (d1 & Hrun1 & Hfs1 & Hlfs1 & Hat1 & Hd1).
      { by apply at_Some_range in Hf. }
      { done. }
      rewrite Hrun1. cbn [mbind option_bind].
      destruct (IH (i + 1) d1 Hd1) as (d' & Hrun & Hfs & Hlfs & Hd' & Hall).
      * by rewrite Hlfs1.
      * lia.
      * lia.
      * intros j x Hj. rewrite Hat1.
        destruct (ref_at (loadedFilterRefs d) row j) as [x0|] eqn:Hx0; [|done].
        simpl. intros [= <-]. case_decide as Hloc; [simpl; lia|].
        assert (j <> i) by congruence.
        specialize (Hdone j x0 ltac:(lia) Hx0).
        unfold shift_down. destruct (filter_index r <? filter_index x0) eqn:Hlt;
          [apply Z.ltb_lt in Hlt; lia|done].
      * exists d'. split; [done|]. split_and!; try done.
        -- rewrite Hfs, Hfs1. apply (filter_removeAt _ _ _ f); [done|].
           intros Hne. by apply Hne.
        -- by rewrite Hlfs.
    + destruct (IH (i + 1) d Hd Hns) as (d' & Hrun & Hrest); [lia|lia| |].
      * intros j x Hj Hx. destruct (decide (j = i)) as [->|Hne].
        -- assert (x = r) by congruence. by subst x.
        -- apply (Hdone j x); [lia|done].
      * by exists d'.
Qed.

(** A dialog with two loaded sets and one working entry from each. *)
Definition ex_two_sets_dialog : FiltersDialog :=
  mkDialog
    [ Filter_new "ERROR" false "black" "red" 0 0;
      Filter_new "WARN" false "black" "yellow" 1 0 ]
    [ mkNamed "team.conf" [ Filter_new "ERROR" false "black" "red" 0 (-1) ] false;
      mkNamed "site.conf" [ Filter_new "WARN" false "black" "yellow" 1 (-1) ] false ]
    [ [ FilterRef_new 0 0 ]; [ FilterRef_new 0 1 ] ].

(** X22.  on_removeFilterFile_clicked on a consistent dialog and a loaded
    set [row] returns: the working set loses exactly the entries bound to
    that set and keeps the others in their order, each with the origin it
    had; the set and its row of references are erased.  The origins of the
    remaining entries are not renumbered: the dialog is consistent
    afterwards when no working entry is bound to a later set, and it is not
    consistent when one is. *)
Theorem on_removeFilterFile_drops_entries (row count : Z) (d : FiltersDialog) :
  table_consistent d ->
  0 <= row < size (loadedFilterSets d) ->
  count = size (loadedFilterSets d) - 1 ->
  exists d',
    on_removeFilterFile_clicked row count d = Some d'
    /\ filterSet d' = filter (fun f => origin f <> row) (filterSet d)
    /\ loadedFilterSets d' = removeAt (loadedFilterSets d) row
    /\ size (loadedFilterRefs d') = size (loadedFilterRefs d) - 1
    /\ ((forall f, f ∈ filterSet d -> origin f <= row) -> table_consistent d')
    /\ ((exists f, f ∈ filterSet d /\ row < origin f) -> ~ table_consistent d').
Proof.
  intros Hd Hrow ->.
  pose proof Hd as (Hsz & Hshape & _). unfold table_sized in Hsz.
  destruct (at_in_range (loadedFilterSets d) row) as [ns Hns]; [done|].
  destruct (at_in_range (loadedFilterRefs d) row) as [refs Hrefs]; [lia|].
  destruct (Hshape _ _ _ Hrefs Hns) as [Hrs _].
  destruct (removeFilterFile_loop_spec row ns (List.length refs) 0 d Hd Hns)
    as (d1 & Hrun & Hfs & Hlfs & Hd1 & Hall).
  { done. }
  { fold (size refs). lia. }
  { intros j r Hj. lia. }
  pose proof Hd1 as (Hsz1 & Hshape1 & Htrack1 & Hcomplete1).
  unfold table_sized in Hsz1. rewrite Hlfs in Hsz1.
  set (d' := mkDialog (filterSet d1) (removeAt (loadedFilterSets d1) row)
                      (removeAt (loadedFilterRefs d1) row)).
  assert (Hkept : forall f, f ∈ filterSet d1 -> f ∈ filterSet d /\ origin f <> row).
  { intros f. rewrite Hfs. intros Hf%list_elem_of_filter. tauto. }
  assert (Hrow_at : forall o,
            0 <= o ->
            at_ (loadedFilterRefs d') o
            = at_ (loadedFilterRefs d1) (if decide (o < row) then o else o + 1)
            /\ at_ (loadedFilterSets d') o
               = at_ (loadedFilterSets d1) (if decide (o < row) then o else o + 1)).
  { intros o Ho. unfold d'. cbn [loadedFilterRefs loadedFilterSets].
    rewrite !at_removeAt by lia. by case_decide. }
  exists d'. split.
  { unfold on_removeFilterFile_clicked.
    replace (row <? 0) with false by (symmetry; lia).
    rewrite Hrefs. cbn [mbind option_bind]. rewrite Hrun. cbn [mbind option_bind].
    assert (Hreads : forall o, 0 <= o < size (loadedFilterSets d) ->
              updateLoadedFilterList_reads o d1 = Some tt).
    { intros o Ho. unfold updateLoadedFilterList_reads.
      replace (o <? 0) with false by (symmetry; lia).
      destruct (at_in_range (loadedFilterSets d1) o) as [ns' Hns']; [by rewrite Hlfs|].
      destruct (at_in_range (loadedFilterRefs d1) o) as [refs' Hrefs']; [lia|].
      rewrite Hns', Hrefs'. cbn [mbind option_bind].
      destruct (Hshape1 _ _ _ Hrefs' Hns') as [-> _]. by rewrite Z.eqb_refl. }
    assert (Hcur : (if 0 <=? (if row <? size (loadedFilterSets d) - 1
                              then row else size (loadedFilterSets d) - 1 - 1)
                    then updateLoadedFilterList_reads
                           (if row <? size (loadedFilterSets d) - 1
                            then row else size (loadedFilterSets d) - 1 - 1) d1
                    else Some tt) = Some tt).
    { destruct (0 <=? _) eqn:Hc; [|done]. apply Z.leb_le in Hc.
      apply Hreads. destruct (row <? _) eqn:Hlt; [lia|].
      apply Z.ltb_ge in Hlt. lia. }
    rewrite Hcur. cbn [mbind option_bind]. rewrite Hlfs.
    replace (size (loadedFilterSets d) <=? row) with false by (symmetry; lia).
    replace (size (loadedFilterRefs d1) <=? row) with false by (symmetry; lia).
    cbn [orb]. unfold d'. by rewrite Hlfs. }
  split_and!.
  - done.
  - unfold d'. cbn [loadedFilterSets]. by rewrite Hlfs.
  - unfold d'. cbn [loadedFilterRefs]. rewrite size_removeAt by lia. lia.
  - intros Hbefore. unfold table_consistent. split_and!.
    + unfold table_sized, d'. cbn [loadedFilterRefs loadedFilterSets].
      rewrite !size_removeAt by (rewrite ?Hlfs; lia). rewrite Hlfs. lia.
    + intros o refs' ns' Hrefs' Hns'.
      pose proof (at_Some_range _ _ _ Hrefs') as Ho.
      destruct (Hrow_at o ltac:(lia)) as [HT HS].
      rewrite HT in Hrefs'. rewrite HS in Hns'.
      exact (Hshape1 _ _ _ Hrefs' Hns').
    + intros o i x Hx Hact.
      pose proof Hx as (refs' & Hrefs' & Hxi)%ref_at_Some.
      pose proof (at_Some_range _ _ _ Hrefs') as Ho.
      destruct (Hrow_at o ltac:(lia)) as [HT _]. rewrite HT in Hrefs'.
      destruct (Htrack1 (if decide (o < row) then o else o + 1) i x)
        as (f & Hf & Hof & Hoff); [apply ref_at_Some; eauto|done|].
      exists f. cbn [d' filterSet]. split; [done|]. split; [|done].
      case_decide; [done|].
      destruct (Hkept f (at_elem_of _ _ _ Hf)) as [Hin _].
      specialize (Hbefore f Hin). lia.
    + intros k f Hf Hof. cbn [d' filterSet] in Hf.
      destruct (Hkept f (at_elem_of _ _ _ Hf)) as [Hin Hne].
      specialize (Hbefore f Hin).
      destruct (Hcomplete1 k f Hf Hof) as (x & Hx & Hfi).
      exists x. split; [|done]. unfold ref_at.
      destruct (Hrow_at (origin f) Hof) as [-> _].
      rewrite decide_True by lia. exact Hx.
  - intros (f & Hin & Hlater) (_ & _ & Htrack' & Hcomplete').
    assert (Hf1 : f ∈ filterSet d1).
    { rewrite Hfs. apply list_elem_of_filter. split; [lia|done]. }
    apply list_elem_of_lookup_1 in Hf1 as [k Hk]. rewrite <- at_of_nat in Hk.
    destruct (Hcomplete' (Z.of_nat k) f Hk ltac:(lia)) as (x & Hx & Hfi).
    apply ref_at_Some in Hx as (refs' & Hrefs' & Hxi).
    destruct (Hrow_at (origin f) ltac:(lia)) as [HT _]. rewrite HT in Hrefs'.
    rewrite decide_False in Hrefs' by lia.
    destruct (Htrack1 (origin f + 1) (loadedOffset f) x)
      as (f0 & Hf0 & Hof0 & _); [apply ref_at_Some; eauto|lia|].
    rewrite Hfi in Hf0. assert (f0 = f) by congruence. subst f0. lia.
Qed.

Lemma on_removeFilterFile_drops_entries_witness :
  exists d',
    on_removeFilterFile_clicked 0 1 ex_two_sets_dialog = Some d'
    /\ filterSet d'
       = filter (fun f => origin f <> 0) (filterSet ex_two_sets_dialog)
    /\ loadedFilterSets d' = removeAt (loadedFilterSets ex_two_sets_dialog) 0
    /\ size (loadedFilterRefs d')
       = size (loadedFilterRefs ex_two_sets_dialog) - 1
    /\ ((forall f, f ∈ filterSet ex_two_sets_dialog -> origin f <= 0) ->
        table_consistent d')
    /\ ((exists f, f ∈ filterSet ex_two_sets_dialog /\ 0 < origin f) ->
        ~ table_consistent d').
Proof.
  apply (on_removeFilterFile_drops_entries 0 1 ex_two_sets_dialog).
  - apply table_consistent_b_sound. vm_compute. reflexivity.
  - change (size (loadedFilterSets ex_two_sets_dialog)) with 2. lia.
  - reflexivity.
Defined.

(** ** Adding a local filter *)

Lemma table_eq_ref_at (t t' : list (list FilterRef)) :
  size t' = size t ->
  (forall o i, ref_at t' o i = ref_at t o i) ->
  t' = t.
Proof.
  intros Hsize Hat. apply list_eq_at. intros o.
  destruct (at_ t o) as [row|] eqn:Hrow.
  - destruct (at_in_range t' o) as [row' Hrow'].
    { apply at_Some_range in Hrow. lia. }
    rewrite Hrow'. f_equal. apply list_eq_at. intros i.
    specialize (Hat o i). unfold ref_at in Hat. by rewrite Hrow, Hrow' in Hat.
  - destruct (at_ t' o) as [row'|] eqn:Hrow'; [|done].
    destruct (at_in_range t o) as [row Hrow2]; [|congruence].
    apply at_Some_range in Hrow'. lia.
Qed.

Lemma removeAt_last {A} (l : list A) (x : A) : removeAt (l ++ [x]) (size l) = l.
Proof.
  unfold removeAt, size. rewrite Nat2Z.id.
  rewrite take_app_length. rewrite drop_ge; [by rewrite app_nil_r|].
  rewrite length_app. simpl. lia.
Qed.

(** X23.  on_addFilterButton_clicked appends a local entry with the default
    pattern and colours and keeps a consistent dialog consistent; removing
    that entry again with on_removeFilterButton_clicked gives back the
    dialog as it was before, working set, loaded sets and table. *)
Theorem on_addFilterButton_then_remove (d : FiltersDialog) :
  table_consistent d ->
  table_consistent (on_addFilterButton_clicked d)
  /\ at_ (filterSet (on_addFilterButton_clicked d)) (size (filterSet d))
     = Some (Filter_new DEFAULT_PATTERN DEFAULT_IGNORE_CASE
                        DEFAULT_FORE_COLOUR DEFAULT_BACK_COLOUR (-1) (-1))
  /\ on_removeFilterButton_clicked [size (filterSet d)]
       (on_addFilterButton_clicked d)
     = Some d.
Proof.
  intros Hd. pose proof Hd as (Hsz & Hshape & Htrack & Hcomplete).
  set (new := Filter_new DEFAULT_PATTERN DEFAULT_IGNORE_CASE
                         DEFAULT_FORE_COLOUR DEFAULT_BACK_COLOUR (-1) (-1)).
  pose proof (size_nonneg (filterSet d)) as Hn.
  assert (Hda : table_consistent (on_addFilterButton_clicked d)).
  { unfold on_addFilterButton_clicked. fold new. unfold table_consistent.
    split_and!; try done.
    - intros o i x. cbn [loadedFilterRefs filterSet]. intros Hx Hact.
      destruct (Htrack o i x Hx Hact) as (f & Hf & Hrest).
      exists f. split; [|done]. rewrite at_app_l; [done|].
      apply at_Some_range in Hf. lia.
    - intros k f. cbn [loadedFilterRefs filterSet]. intros Hf Ho.
      destruct (decide (k < size (filterSet d))) as [Hk|Hk].
      + rewrite at_app_l in Hf by done. exact (Hcomplete k f Hf Ho).
      + rewrite at_app_r in Hf by lia.
        pose proof (at_Some_range _ _ _ Hf) as Hr. change (size [_]) with 1 in Hr.
        replace (k - size (filterSet d)) with 0 in Hf by lia.
        rewrite at_cons_0 in Hf. injection Hf as <-. simpl in Ho. lia. }
  assert (Hnew : at_ (filterSet (on_addFilterButton_clicked d)) (size (filterSet d))
                 = Some new).
  { unfold on_addFilterButton_clicked. cbn [filterSet]. apply at_app_last. }
  split_and!; [done|done|].
  cbn [on_removeFilterButton_clicked]. unfold removeFilterButton_item.
  rewrite Hnew. cbn [mbind option_bind].
  change (origin new <? 0) with true. cbv iota.
  destruct (removeFilter_consistent (on_addFilterButton_clicked d)
              (Dummy (FilterRef_new (-1) (size (filterSet d))))
              (FilterRef_new (-1) (size (filterSet d))) Hda eq_refl)
    as (d1 & Hrun & Hfs & Hlfs & Hat & Hd1).
  { cbn [filter_index FilterRef_new]. unfold on_addFilterButton_clicked.
    cbn [filterSet]. rewrite size_app. change (size [_]) with 1. lia. }
  { cbn [filter_index loaded_index FilterRef_new]. split; [lia|].
    exists new. split; [done|]. simpl. lia. }
  rewrite Hrun. cbn [mbind option_bind]. f_equal.
  cbn [filter_index FilterRef_new] in Hfs, Hat.
  unfold on_addFilterButton_clicked in Hfs, Hlfs, Hat.
  cbn [filterSet loadedFilterSets loadedFilterRefs] in Hfs, Hlfs, Hat.
  rewrite removeAt_last in Hfs.
  assert (HT : loadedFilterRefs d1 = loadedFilterRefs d).
  { apply table_eq_ref_at.
    - destruct Hd1 as (Hsz1 & _). unfold table_sized in *. congruence.
    - intros o i. rewrite Hat.
      destruct (ref_at (loadedFilterRefs d) o i) as [x|] eqn:Hx; [|done].
      cbn [fmap option_fmap option_map]. f_equal.
      rewrite decide_False by done. unfold shift_down.
      destruct (size (filterSet d) <? filter_index x) eqn:Hlt; [|done].
      apply Z.ltb_lt in Hlt.
      destruct (Htrack o i x Hx) as (f & Hf & _); [lia|].
      apply at_Some_range in Hf. lia. }
  destruct d1, d. simpl in *. by subst.
Qed.

Lemma on_addFilterButton_then_remove_witness :
  table_consistent (on_addFilterButton_clicked ex_dialog)
  /\ at_ (filterSet (on_addFilterButton_clicked ex_dialog))
         (size (filterSet ex_dialog))
     = Some (Filter_new DEFAULT_PATTERN DEFAULT_IGNORE_CASE
                        DEFAULT_FORE_COLOUR DEFAULT_BACK_COLOUR (-1) (-1))
  /\ on_removeFilterButton_clicked [size (filterSet ex_dialog)]
       (on_addFilterButton_clicked ex_dialog)
     = Some ex_dialog.
Proof.
  apply (on_addFilterButton_then_remove ex_dialog).
  apply table_consistent_b_sound. vm_compute. reflexivity.
Defined.

(** ** The constructor's table and the table the slots keep *)

Lemma consistent_valid_bindings (d : FiltersDialog) :
  table_consistent d -> valid_bindings (loadedFilterSets d) (filterSet d).
Proof.
  intros (Hsz & Hshape & Htrack & Hcomplete) f Hf Ho.
  apply list_elem_of_lookup_1 in Hf as [k Hk]. rewrite <- at_of_nat in Hk.
  destruct (Hcomplete _ _ Hk Ho) as (r & (row & Hrow & Hr)%ref_at_Some & _).
  destruct (at_in_range (loadedFilterSets d) (origin f)) as [ns Hns].
  { apply at_Some_range in Hrow. unfold table_sized in Hsz. lia. }
  destruct (Hshape _ _ _ Hrow Hns) as [Hsize _].
  exists ns. split; [done|]. apply at_Some_range in Hr. lia.
Qed.

Lemma consistent_distinct_bindings (d : FiltersDialog) :
  table_consistent d -> distinct_bindings (filterSet d).
Proof.
  intros (_ & _ & _ & Hcomplete) k k' f f' Hf Hf' Ho Heq Hoff.
  destruct (Hcomplete _ _ Hf Ho) as (r & Hr & Hfi).
  destruct (Hcomplete _ _ Hf') as (r' & Hr' & Hfi'); [lia|].
  rewrite <- Heq, <- Hoff in Hr'. assert (r' = r) by congruence. subst r'. lia.
Qed.

(** X24.  The table is determined by the two sets: on the working set and
    the loaded sets of any consistent dialog, the constructor's two populate
    calls return without logging and build a consistent table of the same
    size in which every reference has the rule index and the working-set
    index of the reference at the same place of the dialog's own table.
    Only the modified marks can differ. *)
Theorem FiltersDialog_populate_rebuilds (d : FiltersDialog) (w : World) :
  table_consistent d ->
  exists d',
    FiltersDialog_populate (filterSet d) (loadedFilterSets d) w = Some (d', w)
    /\ filterSet d' = filterSet d
    /\ loadedFilterSets d' = loadedFilterSets d
    /\ table_consistent d'
    /\ size (loadedFilterRefs d') = size (loadedFilterRefs d)
    /\ forall o i r,
         ref_at (loadedFilterRefs d) o i = Some r ->
         exists r', ref_at (loadedFilterRefs d') o i = Some r'
                    /\ loaded_index r' = loaded_index r
                    /\ (0 <= filter_index r -> filter_index r' = filter_index r)
                    /\ (filter_index r < 0 -> filter_index r' < 0).
Proof.
  intros Hd.
  pose proof (consistent_valid_bindings d Hd) as Hvalid.
  pose proof (consistent_distinct_bindings d Hd) as Hdistinct.
  assert (Hoff : forall f, f ∈ filterSet d -> 0 <= origin f -> 0 <= loadedOffset f).
  { intros f Hf Ho. destruct (Hvalid f Hf Ho) as (ns & _ & Hr). lia. }
  destruct (populateFilterList_loop_spec (loadedFilterSets d) (filterSet d) Hoff
              (filterSet d) [] _ w eq_refl
              (populateLoadedFilterList_inv (filterSet d) (loadedFilterSets d)))
    as (table & extra & Hrun & Hinv & Hb).
  destruct Hb as [Hbound ->]; [done|done| |].
  { intros k f Hf. apply at_Some_range in Hf. unfold size in Hf. simpl in Hf. lia. }
  rewrite logged_nil in Hrun. change (size []) with 0 in Hrun.
  cbn [populateLoadedFilterList filterSet loadedFilterSets loadedFilterRefs] in Hrun.
  set (d' := mkDialog (filterSet d) (loadedFilterSets d) table).
  assert (Hd' : table_consistent d').
  { destruct Hinv as (Hsz & Hshape & Htrack). unfold table_consistent.
    split_and!; try done.
    intros k f Hf Ho. destruct (Hbound k f Hf Ho) as (r & _ & _ & Hr & Hfi & _).
    by exists r. }
  exists d'. split.
  { unfold FiltersDialog_populate, populateFilterList.
    cbn [populateLoadedFilterList filterSet loadedFilterSets loadedFilterRefs].
    unfold bind. by rewrite Hrun. }
  pose proof Hd as (Hsz & Hshape & Htrack & Hcomplete).
  pose proof Hd' as (Hsz' & Hshape' & Htrack' & Hcomplete').
  unfold table_sized in Hsz, Hsz'. cbn [d' loadedFilterSets loadedFilterRefs] in Hsz'.
  split_and!; try done.
  - cbn [d' loadedFilterRefs]. lia.
  - intros o i r Hr.
    pose proof Hr as (row & Hrow & Hri)%ref_at_Some.
    destruct (at_in_range (loadedFilterSets d) o) as [ns Hns].
    { apply at_Some_range in Hrow. lia. }
    destruct (Hshape _ _ _ Hrow Hns) as [Hsize Helems].
    destruct (Helems _ _ Hri) as [Hli _].
    destruct (at_in_range table o) as [row' Hrow'].
    { apply at_Some_range in Hns. lia. }
    destruct (Hshape' _ _ _ Hrow' Hns) as [Hsize' Helems'].
    destruct (at_in_range row' i) as [r' Hri'].
    { apply at_Some_range in Hri. lia. }
    destruct (Helems' _ _ Hri') as [Hli' _].
    assert (Hr' : ref_at (loadedFilterRefs d') o i = Some r').
    { apply ref_at_Some. eauto. }
    exists r'. split_and!; [done|lia| |].
    + intros Hact. destruct (Htrack _ _ _ Hr Hact) as (f & Hf & Ho & Hoff').
      destruct (Hcomplete' _ _ Hf) as (x & Hx & Hfi).
      { apply at_Some_range in Hns. lia. }
      rewrite Ho, Hoff' in Hx. assert (x = r') by congruence. by subst x.
    + intros Hinact.
      destruct (decide (0 <= filter_index r')) as [Hact'|Hinact']; [|lia].
      destruct (Htrack' _ _ _ Hr' Hact') as (f & Hf & Ho & Hoff').
      destruct (Hcomplete _ _ Hf) as (x & Hx & Hfi).
      { apply at_Some_range in Hns. lia. }
      rewrite Ho, Hoff' in Hx. assert (x = r) by congruence. subst x. lia.
Qed.

Lemma FiltersDialog_populate_rebuilds_witness :
  exists d',
    FiltersDialog_populate (filterSet ex_dialog) (loadedFilterSets ex_dialog)
                           ex_world
    = Some (d', ex_world)
    /\ filterSet d' = filterSet ex_dialog
    /\ loadedFilterSets d' = loadedFilterSets ex_dialog
    /\ table_consistent d'
    /\ size (loadedFilterRefs d') = size (loadedFilterRefs ex_dialog)
    /\ forall o i r,
         ref_at (loadedFilterRefs ex_dialog) o i = Some r ->
         exists r', ref_at (loadedFilterRefs d') o i = Some r'
                    /\ loaded_index r' = loaded_index r
                    /\ (0 <= filter_index r -> filter_index r' = filter_index r)
                    /\ (filter_index r < 0 -> filter_index r' < 0).
Proof.
  apply (FiltersDialog_populate_rebuilds ex_dialog ex_world).
  apply table_consistent_b_sound. vm_compute. reflexivity.
Defined.

(** ** What saving the changes leaves for the next construction *)

Lemma Filter_neq_copy_style (new old : Filter) :
  Filter_neq (copy_style new old) new
  = negb (re_options (regexp_ old) =? re_options (regexp_ new)).
Proof.
  unfold Filter_neq, Filter_eq, QRegularExpression_eq, copy_style.
  unfold setBackColor, setForeColor, setPattern, pattern, foreColorName,
    backColorName. simpl.
  rewrite !bool_decide_eq_true_2 by done. simpl. by rewrite !andb_true_r.
Qed.

(** X25.  Saving the changes of a loaded set does not carry the pattern
    options over.  After on_saveChangesButton_clicked on a consistent dialog
    and the set [row], the table that the constructor's populate calls build
    from the sets of the resulting dialog marks the reference of an entry
    bound to that set as modified exactly when the pattern options of the
    entry differ from those of its rule; in particular an entry that
    differs from its rule in the case option is marked again. *)
Theorem saved_changes_keep_option_drift (row : Z) (d : FiltersDialog)
    (w : World) (namedSet : NamedFilterSet) :
  table_consistent d ->
  at_ (loadedFilterSets d) row = Some namedSet ->
  exists d1 w1 d2,
    on_saveChangesButton_clicked row d w = Some (d1, w1)
    /\ FiltersDialog_populate (filterSet d1) (loadedFilterSets d1) w1
       = Some (d2, w1)
    /\ forall k f rule,
         at_ (filterSet d) k = Some f -> origin f = row ->
         at_ (set namedSet) (loadedOffset f) = Some rule ->
         exists r,
           ref_at (loadedFilterRefs d2) row (loadedOffset f) = Some r
           /\ filter_index r = k
           /\ modified r
              = negb (re_options (regexp_ rule) =? re_options (regexp_ f))
           /\ (ignoreCase f <> ignoreCase rule -> modified r = true).
Proof.
  intros Hd Hset.
  destruct (on_saveChangesButton_clicked_run row d w namedSet Hd Hset)
    as (refs & s' & st & Hrefs & Hrun & _ & _ & Hs' & Hmid & Hd1).
  set (d1 := mkDialog (filterSet d)
               (set_at (loadedFilterSets d) row (with_set s' namedSet))
               (set_at (loadedFilterRefs d) row (map clear_if_active refs))) in *.
  set (w1 := mkWorld (registry w) (<[filename namedSet := st]> (files w))
                     (log w) (replies w) (asked w)) in *.
  pose proof (consistent_valid_bindings d1 Hd1) as Hvalid.
  pose proof (consistent_distinct_bindings d1 Hd1) as Hdistinct.
  assert (Hoff : forall f, f ∈ filterSet d1 -> 0 <= origin f -> 0 <= loadedOffset f).
  { intros f Hf Ho. destruct (Hvalid f Hf Ho) as (ns & _ & Hr). lia. }
  destruct (populateFilterList_loop_spec (loadedFilterSets d1) (filterSet d1) Hoff
              (filterSet d1) [] _ w1 eq_refl
              (populateLoadedFilterList_inv (filterSet d1) (loadedFilterSets d1)))
    as (table & extra & Hpop & Hinv & Hb).
  destruct Hb as [Hbound ->]; [done|done| |].
  { intros k f Hf. apply at_Some_range in Hf. unfold size in Hf. simpl in Hf. lia. }
  rewrite logged_nil in Hpop. change (size []) with 0 in Hpop.
  cbn [populateLoadedFilterList filterSet loadedFilterSets loadedFilterRefs] in Hpop.
  exists d1, w1, (mkDialog (filterSet d1) (loadedFilterSets d1) table).
  split; [exact Hrun|]. split.
  { unfold FiltersDialog_populate, populateFilterList.
    cbn [populateLoadedFilterList filterSet loadedFilterSets loadedFilterRefs].
    unfold bind. by rewrite Hpop. }
  intros k f rule Hf Ho Hrule. cbn [loadedFilterRefs].
  pose proof (at_Some_range _ _ _ Hset) as Hrow.
  destruct (Hbound k f Hf ltac:(lia)) as (r & ns1 & loaded & Hr & Hfi & Hns1 & Hloaded & Hm).
  rewrite Ho in Hr, Hns1.
  cbn [d1 loadedFilterSets] in Hns1. rewrite at_set_at_eq in Hns1 by done.
  injection Hns1 as <-. cbn [with_set set] in Hloaded.
  pose proof Hd as (_ & _ & _ & Hcomplete).
  destruct (Hcomplete k f Hf ltac:(lia)) as (r0 & Hr0 & Hfi0).
  rewrite Ho in Hr0. unfold ref_at in Hr0. rewrite Hrefs in Hr0. simpl in Hr0.
  rewrite (Hmid _ _ _ Hr0 Hrule) in Hloaded.
  unfold isActive in Hloaded. rewrite Hfi0 in Hloaded.
  replace (0 <=? k) with true in Hloaded
    by (symmetry; apply at_Some_range in Hf; lia).
  rewrite Hf in Hloaded. injection Hloaded as <-.
  rewrite Filter_neq_copy_style in Hm.
  exists r. split_and!; try done.
  intros Hcase. rewrite Hm.
  destruct (re_options (regexp_ rule) =? re_options (regexp_ f)) eqn:Heq; [|done].
  apply Z.eqb_eq in Heq. exfalso. apply Hcase. unfold ignoreCase. by rewrite Heq.
Qed.

(** The dialog of [ex_dialog] after the case option of the first imported
    entry was switched on. *)
Definition ex_case_dialog : FiltersDialog :=
  mkDialog
    [ Filter_new "New Filter" false "black" "white" (-1) (-1);
      Filter_new "ERROR" true "black" "red" 0 0;
      Filter_new "WARN" false "black" "yellow" 0 1 ]
    (loadedFilterSets ex_dialog)
    [ [ mkRef 0 1 true; FilterRef_new 1 2 ] ].

Lemma saved_changes_keep_option_drift_witness :
  exists d1 w1 d2,
    on_saveChangesButton_clicked 0 ex_case_dialog ex_world = Some (d1, w1)
    /\ FiltersDialog_populate (filterSet d1) (loadedFilterSets d1) w1
       = Some (d2, w1)
    /\ forall k f rule,
         at_ (filterSet ex_case_dialog) k = Some f -> origin f = 0 ->
         at_ [ Filter_new "ERROR" false "black" "red" 0 (-1);
               Filter_new "WARN" false "black" "yellow" 0 (-1) ]
             (loadedOffset f) = Some rule ->
         exists r,
           ref_at (loadedFilterRefs d2) 0 (loadedOffset f) = Some r
           /\ filter_index r = k
           /\ modified r
              = negb (re_options (regexp_ rule) =? re_options (regexp_ f))
           /\ (ignoreCase f <> ignoreCase rule -> modified r = true).
Proof.
  apply (saved_changes_keep_option_drift 0 ex_case_dialog ex_world
           (mkNamed "team.conf"
              [ Filter_new "ERROR" false "black" "red" 0 (-1);
                Filter_new "WARN" false "black" "yellow" 0 (-1) ]
              false)).
  - apply table_consistent_b_sound. vm_compute. reflexivity.
  - reflexivity.
Defined.
